(** * The dependency-edge engine of the DAG benchmark (bench.cpp)

    A shallow embedding of the in-counter / out-set family of
    [dag-benchmarks/bench.cpp] and of the scheduling glue around it,
    followed by the properties established for it.

    Conventions of the embedding.
    - Every atomic operation ([load], [store], [compare_exchange_strong],
      fetch-and-add) is one step of the model; a run is a sequence of such
      steps of one worker at a time.
    - [random_int] reads the per-worker generator.  The generator is a
      tape of raw draws; every loop iteration of the randomised walks
      reads one draw, so the walks recurse on the tape, and a walk that
      exhausts the tape has no result ([None]).
    - A failed [assert], a dereference of a null pointer and an access
      outside an array have no result ([None]).
    - Trees whose nodes are owned by exactly one slot (dyntree in-counter,
      dyntree out-set) are inductive trees, and a [current] pointer into
      them is the path of slot indices from the root.  Structures with
      parent links or shared nodes (port passing) live in a store indexed
      by addresses. *)

From Stdlib Require PrimFloat.
From stdpp Require Import gmap list sorting.

#[local] Set Warnings "-register-all,-clear-no-such-hyp".
#[local] Open Scope Z_scope.

(* ===================================================================== *)
(** * Part I: the embedding *)
(* ===================================================================== *)

(** ** Tagged-pointer routines *)

(** A tagged pointer is a word holding a pointer ([None] is [nullptr]) and
    a small integer tag. *)
Abbreviation tagged A := (option A * Z)%type.

Definition tagged_pointer_of {A} (n : tagged A) : option A := fst n.
Definition tagged_tag_of {A} (n : tagged A) : Z := snd n.
Definition tagged_tag_with {A} (n : option A) (t : Z) : tagged A := (n, t).

(** [n == nullptr] on a word: null pointer and no tag. *)
Definition is_nullptr {A} (n : tagged A) : bool :=
  match n with
  | (None, t) => bool_decide (t = 0)
  | (Some _, _) => false
  end.

(** ** Random-number generator *)

(** [random_int(lo, hi)]: an integer in [[lo, hi)], read from the tape. *)
Definition random_int (lo hi : nat) (tape : list nat) : option (nat * list nat) :=
  match tape with
  | [] => None
  | r :: tape' => Some ((lo + r mod (hi - lo))%nat, tape')
  end.

(** ** Status codes *)

(** [incounter::status_type] *)
Inductive status_type := activated | not_activated.

(** [outset::insert_status_type] *)
Inductive insert_status_type := insert_success | insert_fail.

#[global] Instance status_type_eq_dec : EqDecision status_type.
Proof. solve_decision. Defined.
#[global] Instance insert_status_type_eq_dec : EqDecision insert_status_type.
Proof. solve_decision. Defined.

(** Nodes of the task graph are named by numbers; [None] is [nullptr]. *)
Definition node := nat.

(** ** Sequences of operations on one in-counter *)

Inductive incounter_op := Increment | Decrement.

#[global] Instance incounter_op_eq_dec : EqDecision incounter_op.
Proof. solve_decision. Defined.

(** Number of occurrences of an operation in a sequence. *)
Definition nb_ops (o : incounter_op) (ops : list incounter_op) : nat :=
  length (filter (λ x, x = o) ops).

(** Starting from a count of [k], no decrement of the sequence is issued
    at count zero (decrements never outnumber increments). *)
Fixpoint never_negative (k : nat) (ops : list incounter_op) : bool :=
  match ops with
  | [] => true
  | Increment :: ops' => never_negative (S k) ops'
  | Decrement :: ops' =>
      match k with
      | O => false
      | S k' => never_negative k' ops'
      end
  end.

(* --------------------------------------------------------------------- *)
(** ** namespace direct::dyntree : the in-counter *)
(* --------------------------------------------------------------------- *)

Module Dyntree.

Section WithBranchingFactor.

(** [int branching_factor] (a global, set from the command line). *)
Variable branching_factor : nat.

(** *** class incounter_node *)

(** A node owns an array of [branching_factor] atomic child slots; every
    slot is a tagged pointer to a child. *)
Inductive incounter_node : Type :=
  | Incounter_node (children : list (option incounter_node * Z)).

Definition children (n : incounter_node) : list (tagged incounter_node) :=
  match n with Incounter_node cs => cs end.

Definition minus_tag : Z := 1.

(** [init(v)]: all slots hold [v]. *)
Definition init (v : tagged incounter_node) : incounter_node :=
  Incounter_node (replicate branching_factor v).

(** [is_leaf()]: no slot holds a non-null pointer (tags are ignored). *)
Fixpoint is_leaf_from (cs : list (tagged incounter_node)) : bool :=
  match cs with
  | [] => true
  | c :: cs' =>
      match tagged_pointer_of c with
      | Some _ => false
      | None => is_leaf_from cs'
      end
  end.

Definition is_leaf (n : incounter_node) : bool :=
  is_leaf_from (take branching_factor (children n)).

(** The node a path of slot indices leads to. *)
Fixpoint node_at (n : incounter_node) (path : list nat) : option incounter_node :=
  match path with
  | [] => Some n
  | i :: path' =>
      match children n !! i with
      | Some (Some m, _) => node_at m path'
      | _ => None
      end
  end.

(** Replace the node a path leads to. *)
Fixpoint replace_at (n : incounter_node) (path : list nat) (n' : incounter_node)
  : incounter_node :=
  match path with
  | [] => n'
  | i :: path' =>
      match children n !! i with
      | Some (Some m, t) =>
          Incounter_node (<[i := (Some (replace_at m path' n'), t)]> (children n))
      | _ => n
      end
  end.

(** [current->children[i].store(v)] for the node [current] at [path]. *)
Definition store_at (root : incounter_node) (path : list nat) (i : nat)
    (v : tagged incounter_node) : option incounter_node :=
  match node_at root path with
  | Some current =>
      if decide (i < length (children current))%nat
      then Some (replace_at root path (Incounter_node (<[i := v]> (children current))))
      else None
  | None => None
  end.

(** *** class dyntree_incounter *)

Record dyntree_incounter := Dyntree_incounter {
  in_ : option incounter_node;          (* incounter_node* in  *)
  out : tagged incounter_node           (* incounter_node* out *)
}.

(** [minus()]: the null pointer carrying the minus tag. *)
Definition minus : tagged incounter_node := tagged_tag_with None minus_tag.

(** The constructor. *)
Definition dyntree_incounter_new : dyntree_incounter :=
  {| in_ := None;
     out := tagged_tag_with (Some (init minus)) minus_tag |}.

Definition is_activated (c : dyntree_incounter) : bool :=
  match in_ c with None => true | Some _ => false end.

(** [n->children[i].compare_exchange_strong(orig, desired)] with
    [orig = nullptr]: succeeds exactly when the slot holds [nullptr]. *)
Definition cas_from_null (cs : list (tagged incounter_node)) (i : nat)
    (desired : tagged incounter_node)
  : option (bool * list (tagged incounter_node)) :=
  match cs !! i with
  | None => None
  | Some cur =>
      if is_nullptr cur then Some (true, <[i := desired]> cs)
      else Some (false, cs)
  end.

(** The roll-back loop [for (j = i - 1; j >= 0; j--) store(nullptr)],
    with [k = j + 1]. *)
Fixpoint rollback (k : nat) (cs : list (tagged incounter_node))
  : list (tagged incounter_node) :=
  match k with
  | O => cs
  | S j => rollback j (<[j := (None, 0)]> cs)
  end.

(** The sweep of [try_to_detatch] from slot [i], with [k] slots to go. *)
Fixpoint try_to_detatch_from (k i : nat) (cs : list (tagged incounter_node))
  : option (bool * list (tagged incounter_node)) :=
  match k with
  | O => Some (true, cs)
  | S k' =>
      match cas_from_null cs i minus with
      | None => None
      | Some (true, cs') => try_to_detatch_from k' (S i) cs'
      | Some (false, cs') => Some (false, rollback i cs')
      end
  end.

Definition try_to_detatch (n : incounter_node) : option (bool * incounter_node) :=
  match try_to_detatch_from branching_factor 0 (children n) with
  | Some (b, cs) => Some (b, Incounter_node cs)
  | None => None
  end.

(** [add_to_out(n)]: a random walk down the out-tree to a slot whose
    pointer is null, where the minus-tagged [n] is installed by a CAS on
    the value just loaded. *)
Fixpoint add_to_out_walk (tape : list nat) (root : incounter_node)
    (path : list nat) (n : incounter_node)
  : option (list nat * incounter_node) :=
  match tape with
  | [] => None
  | r :: tape' =>
      let i := (r mod branching_factor)%nat in
      match node_at root path with
      | None => None
      | Some current =>
          match children current !! i with
          | None => None
          | Some next =>
              match tagged_pointer_of next with
              | None =>
                  match store_at root path i (tagged_tag_with (Some n) minus_tag) with
                  | Some root' => Some (tape', root')
                  | None => None
                  end
              | Some _ => add_to_out_walk tape' root (path ++ [i]) n
              end
          end
      end
  end.

Definition add_to_out (tape : list nat) (c : dyntree_incounter) (n : incounter_node)
  : option (list nat * dyntree_incounter) :=
  match tagged_pointer_of (out c) with
  | None => None
  | Some root =>
      match add_to_out_walk tape root [] n with
      | Some (tape', root') =>
          Some (tape', {| in_ := in_ c; out := (Some root', tagged_tag_of (out c)) |})
      | None => None
      end
  end.

(** [increment]: the inner walk from [in].  A minus-tagged slot breaks the
    descent and the outer loop starts again from [in], which is still
    non-null.  The CAS installs the fresh leaf in a slot just read as
    [nullptr]. *)
Fixpoint increment_walk (tape : list nat) (root : incounter_node)
    (path : list nat) (leaf : incounter_node)
  : option (list nat * incounter_node) :=
  match tape with
  | [] => None
  | r :: tape' =>
      let i := (r mod branching_factor)%nat in
      match node_at root path with
      | None => None
      | Some current =>
          match children current !! i with
          | None => None
          | Some next =>
              if bool_decide (tagged_tag_of next = minus_tag)
              then increment_walk tape' root [] leaf
              else if is_nullptr next
              then
                match cas_from_null (children current) i (Some leaf, 0) with
                | Some (true, cs') =>
                    Some (tape', replace_at root path (Incounter_node cs'))
                | Some (false, _) => increment_walk tape' root [] leaf
                | None => None
                end
              else increment_walk tape' root (path ++ [i]) leaf
          end
      end
  end.

Definition increment (tape : list nat) (c : dyntree_incounter)
  : option (list nat * dyntree_incounter) :=
  let leaf := init (None, 0) in
  match in_ c with
  | None => Some (tape, {| in_ := Some leaf; out := out c |})
  | Some root =>
      match increment_walk tape root [] leaf with
      | Some (tape', root') => Some (tape', {| in_ := Some root'; out := out c |})
      | None => None
      end
  end.

(** What the search of [decrement] ends with: the root was detached, or a
    leaf below the root was detached and its slot cleared. *)
Inductive detached :=
  | Detached_root (n : incounter_node)
  | Detached_below (root n : incounter_node).

(** The head of the outer loop of [decrement]: [current = in] and the
    attempt on [current] itself when it is a leaf.  The result is the
    detached root, or else the root as the attempt left it. *)
Definition detach_root (root : incounter_node)
  : option (incounter_node + incounter_node) :=
  if is_leaf root then
    match try_to_detatch root with
    | Some (true, root') => Some (inl root')
    | Some (false, root') => Some (inr root')
    | None => None
    end
  else Some (inr root).

(** The inner loop of [decrement]; every [break] re-enters the outer
    loop, that is [detach_root] and then the walk from the root. *)
Fixpoint decrement_walk (tape : list nat) (root : incounter_node)
    (path : list nat) : option (list nat * detached) :=
  match tape with
  | [] => None
  | r :: tape' =>
      let restart (root : incounter_node) :=
        match detach_root root with
        | Some (inl n) => Some (tape', Detached_root n)
        | Some (inr root') => decrement_walk tape' root' []
        | None => None
        end in
      let i := (r mod branching_factor)%nat in
      match node_at root path with
      | None => None
      | Some current =>
          match children current !! i with
          | None => None
          | Some next =>
              if is_nullptr next || bool_decide (tagged_tag_of next = minus_tag)
              then restart root
              else
                match tagged_pointer_of next with
                | None => None
                | Some n =>
                    if is_leaf n then
                      match try_to_detatch n with
                      | Some (true, n') =>
                          match store_at root path i (None, 0) with
                          | Some root' => Some (tape', Detached_below root' n')
                          | None => None
                          end
                      | Some (false, n') =>
                          match store_at root path i (Some n', tagged_tag_of next) with
                          | Some root' => restart root'
                          | None => None
                          end
                      | None => None
                      end
                    else decrement_walk tape' root (path ++ [i])
                end
          end
      end
  end.

Definition decrement (tape : list nat) (c : dyntree_incounter)
  : option (list nat * (status_type * dyntree_incounter)) :=
  match in_ c with
  | None => None                                   (* assert(current != nullptr) *)
  | Some root =>
      let found :=
        match detach_root root with
        | Some (inl n) => Some (tape, Detached_root n)
        | Some (inr root') => decrement_walk tape root' []
        | None => None
        end in
      match found with
      | Some (tape', Detached_root n) =>
          match add_to_out tape' {| in_ := None; out := out c |} n with
          | Some (tape'', c') => Some (tape'', (activated, c'))
          | None => None
          end
      | Some (tape', Detached_below root' n) =>
          match add_to_out tape' {| in_ := Some root'; out := out c |} n with
          | Some (tape'', c') => Some (tape'', (not_activated, c'))
          | None => None
          end
      | None => None
      end
  end.

(** *** Sequences of operations on one in-counter *)

Fixpoint run (tape : list nat) (ops : list incounter_op) (c : dyntree_incounter)
  : option (list nat * dyntree_incounter) :=
  match ops with
  | [] => Some (tape, c)
  | Increment :: ops' =>
      match increment tape c with
      | Some (tape', c') => run tape' ops' c'
      | None => None
      end
  | Decrement :: ops' =>
      match decrement tape c with
      | Some (tape', (_, c')) => run tape' ops' c'
      | None => None
      end
  end.

(** *** Shape of the trees *)

(** Number of nodes of a tree. *)
Fixpoint nb_nodes (n : incounter_node) : nat :=
  match n with
  | Incounter_node cs =>
      S (list_sum
           (map (fun c : option incounter_node * Z =>
                   match c with (Some m, _) => nb_nodes m | (None, _) => O end) cs))
  end.

(** The logical count of an in-counter: the number of nodes of its
    in-tree. *)
Definition logical_count (c : dyntree_incounter) : nat :=
  match in_ c with
  | None => O
  | Some root => nb_nodes root
  end.

(** Every node of the tree has a slot array whose tags satisfy [P]. *)
Inductive all_nodes (P : list Z → Prop) : incounter_node → Prop :=
  | all_nodes_intro cs :
      P (cs.*2) →
      (∀ i m t, cs !! i = Some (Some m, t) → all_nodes P m) →
      all_nodes P (Incounter_node cs).

(** In-tree between two operations: [branching_factor] slots per node,
    none of them tagged. *)
Definition in_tree : incounter_node → Prop :=
  all_nodes (λ tags, length tags = branching_factor ∧ Forall (λ t, t = 0) tags).

(** Out-tree: [branching_factor] slots per node. *)
Definition out_tree : incounter_node → Prop :=
  all_nodes (λ tags, length tags = branching_factor).

(** The in-counter between two operations. *)
Definition incounter_inv (c : dyntree_incounter) : Prop :=
  match in_ c with None => True | Some root => in_tree root end
  ∧ ∃ o t, out c = (Some o, t) ∧ out_tree o.

End WithBranchingFactor.

End Dyntree.

(* --------------------------------------------------------------------- *)
(** ** namespace direct::dyntree : the out-set *)
(* --------------------------------------------------------------------- *)

Module DyntreeOutset.

(** [outset_node::tagged_pointer_type]: a word whose tag tells whether
    the pointer is absent, a successor ([node*]) or a sub-tree
    ([outset_node*]), each with its finished variant. *)
Inductive tagged_pointer_type (T : Type) : Type :=
  | Empty
  | Leaf (n : node)
  | Interior (t : T)
  | Finished_empty
  | Finished_leaf (n : node)
  | Finished_interior (t : T).

Arguments Empty {T}.
Arguments Leaf {T} n.
Arguments Interior {T} t.
Arguments Finished_empty {T}.
Arguments Finished_leaf {T} n.
Arguments Finished_interior {T} t.

(** The tag codes of [outset_node]. *)
Definition empty : Z := 1.
Definition leaf : Z := 2.
Definition interior : Z := 3.
Definition finished_empty : Z := 4.
Definition finished_leaf : Z := 5.
Definition finished_interior : Z := 6.

Definition tag_of {T} (p : tagged_pointer_type T) : Z :=
  match p with
  | Empty => empty
  | Leaf _ => leaf
  | Interior _ => interior
  | Finished_empty => finished_empty
  | Finished_leaf _ => finished_leaf
  | Finished_interior _ => finished_interior
  end.

(** [make_finished(p)]; the [assert(false)] arm has no result. *)
Definition make_finished {T} (p : tagged_pointer_type T)
  : option (tagged_pointer_type T) :=
  if bool_decide (tag_of p = empty) then Some Finished_empty
  else match p with
       | Leaf n => Some (Finished_leaf n)
       | Interior t => Some (Finished_interior t)
       | _ => None
       end.

Inductive outset_node : Type :=
  | Outset_node (children : list (tagged_pointer_type outset_node)).

Abbreviation slot := (tagged_pointer_type outset_node).

Definition children (n : outset_node) : list slot :=
  match n with Outset_node cs => cs end.

(** The pointer of a slot that points to a sub-tree, whatever its tag. *)
Definition subtree_of (p : slot) : option outset_node :=
  match p with
  | Interior t | Finished_interior t => Some t
  | _ => None
  end.

Definition with_subtree (p : slot) (t : outset_node) : slot :=
  match p with
  | Interior _ => Interior t
  | Finished_interior _ => Finished_interior t
  | _ => p
  end.

(** The node a path of slot indices leads to. *)
Fixpoint node_at (n : outset_node) (path : list nat) : option outset_node :=
  match path with
  | [] => Some n
  | i :: path' =>
      match children n !! i with
      | Some p =>
          match subtree_of p with
          | Some m => node_at m path'
          | None => None
          end
      | None => None
      end
  end.

(** Replace the node a path leads to. *)
Fixpoint replace_at (n : outset_node) (path : list nat) (n' : outset_node)
  : outset_node :=
  match path with
  | [] => n'
  | i :: path' =>
      match children n !! i with
      | Some p =>
          match subtree_of p with
          | Some m =>
              Outset_node (<[i := with_subtree p (replace_at m path' n')]> (children n))
          | None => n
          end
      | None => n
      end
  end.

(** [current->children[i].load()] for the node [current] at [path]. *)
Definition load_at (root : outset_node) (path : list nat) (i : nat) : option slot :=
  match node_at root path with
  | Some current => children current !! i
  | None => None
  end.

(** [current->children[i].store(v)]. *)
Definition store_at (root : outset_node) (path : list nat) (i : nat) (v : slot)
  : option outset_node :=
  match node_at root path with
  | Some current =>
      if decide (i < length (children current))%nat
      then Some (replace_at root path (Outset_node (<[i := v]> (children current))))
      else None
  | None => None
  end.

(** Equality of an expected word with the word in a slot, for the two
    kinds of word [insert] expects: an empty slot or a leaf. *)
Definition same_word (expected cur : slot) : bool :=
  match expected, cur with
  | Empty, Empty => true
  | Leaf n, Leaf m => bool_decide (n = m)
  | _, _ => false
  end.

(** [current->children[i].compare_exchange_strong(orig, desired)] *)
Definition compare_exchange_strong (root : outset_node) (path : list nat) (i : nat)
    (orig desired : slot) : option (bool * outset_node) :=
  match load_at root path i with
  | None => None
  | Some cur =>
      if same_word orig cur then
        match store_at root path i desired with
        | Some root' => Some (true, root')
        | None => None
        end
      else Some (false, root)
  end.

Section WithParameters.

(** [int branching_factor] and [int communication_delay]. *)
Variable branching_factor : nat.
Variable communication_delay : Z.

(** [init()]: all slots empty. *)
Definition init : outset_node := Outset_node (replicate branching_factor Empty).

(** [outset_node(child1, child2)]: [init()], then slots 0 and 1 are
    stored; the array has [branching_factor] slots. *)
Definition outset_node_of (child1 child2 : slot) : option outset_node :=
  if decide (2 ≤ branching_factor)%nat
  then Some (Outset_node (<[1%nat := child2]> (<[0%nat := child1]> (children init))))
  else None.

(** *** class dyntree_outset *)

Record dyntree_outset := Dyntree_outset {
  root : outset_node;
  should_deallocate_automatically : bool
}.

Definition dyntree_outset_new : dyntree_outset :=
  {| root := init; should_deallocate_automatically := true |}.

Definition is_finished_tag (tag : Z) : bool :=
  bool_decide (tag = finished_empty) || bool_decide (tag = finished_leaf)
  || bool_decide (tag = finished_interior).

(** The arm [if (tag == empty)] of [insert]: [inl] is
    [return insert_success], [inr] carries on with the word [n]. *)
Definition insert_on_empty (root : outset_node) (path : list nat) (i : nat)
    (val n : slot) : option (outset_node + outset_node * slot) :=
  if bool_decide (tag_of n = empty) then
    match compare_exchange_strong root path i n val with
    | Some (true, root') => Some (inl root')
    | Some (false, root') =>
        match load_at root' path i with
        | Some n' => Some (inr (root', n'))
        | None => None
        end
    | None => None
    end
  else Some (inr (root, n)).

(** The arm [if (tag == leaf)] of [insert]. *)
Definition insert_on_leaf (root : outset_node) (path : list nat) (i : nat)
    (val n : slot) : option (outset_node + outset_node * slot) :=
  if bool_decide (tag_of n = leaf) then
    match outset_node_of val n with
    | None => None
    | Some tmp =>
        match compare_exchange_strong root path i n (Interior tmp) with
        | Some (true, root') => Some (inl root')
        | Some (false, root') =>
            match load_at root' path i with
            | Some n' => Some (inr (root', n'))
            | None => None
            end
        | None => None
        end
    end
  else Some (inr (root, n)).

(** [insert(val)]: the walk from [current], the node at [path]. *)
Fixpoint insert_walk (tape : list nat) (root : outset_node) (path : list nat)
    (val : slot) : option (list nat * (insert_status_type * outset_node)) :=
  match tape with
  | [] => None
  | r :: tape' =>
      let i := (r mod branching_factor)%nat in
      match load_at root path i with
      | None => None
      | Some n =>
          if is_finished_tag (tag_of n) then Some (tape', (insert_fail, root))
          else
            match insert_on_empty root path i val n with
            | None => None
            | Some (inl root') => Some (tape', (insert_success, root'))
            | Some (inr (root1, n1)) =>
                match insert_on_leaf root1 path i val n1 with
                | None => None
                | Some (inl root') => Some (tape', (insert_success, root'))
                | Some (inr (root2, n2)) =>
                    if bool_decide (tag_of n2 = interior)
                    then insert_walk tape' root2 (path ++ [i]) val
                    else insert_walk tape' root2 path val
                end
            end
      end
  end.

(** [insert(node* leaf)] *)
Definition insert (tape : list nat) (target : node) (o : dyntree_outset)
  : option (list nat * (insert_status_type * dyntree_outset)) :=
  match insert_walk tape (root o) [] (Leaf target) with
  | Some (tape', (st, root')) =>
      Some (tape', (st, {| root := root';
                           should_deallocate_automatically :=
                             should_deallocate_automatically o |}))
  | None => None
  end.

(** The loop over the slots of [current] in
    [notify_outset_tree_nodes_partial], from slot [i] with [k] slots to
    go: every slot is exchanged for its finished counterpart (the CAS on
    the word just loaded), a leaf is handed to [decrement_incounter] and
    an interior pointer is pushed on [todo].  The deque [todo] is a list
    whose head is the back of the deque; its elements are the paths of
    the nodes it points to. *)
Fixpoint notify_slots (k i : nat) (root : outset_node) (current : list nat)
    (todo : list (list nat)) (decremented : list node)
  : option (outset_node * list (list nat) * list node) :=
  match k with
  | O => Some (root, todo, decremented)
  | S k' =>
      match load_at root current i with
      | None => None
      | Some n =>
          match make_finished n with
          | None => None
          | Some next =>
              match store_at root current i next with
              | None => None
              | Some root' =>
                  match n with
                  | Leaf t =>
                      notify_slots k' (S i) root' current todo (decremented ++ [t])
                  | Interior _ =>
                      notify_slots k' (S i) root' current ((current ++ [i]) :: todo)
                        decremented
                  | _ => notify_slots k' (S i) root' current todo decremented
                  end
              end
          end
      end
  end.

(** [notify_outset_tree_nodes_partial(todo)] with [k] iterations left. *)
Fixpoint notify_outset_tree_nodes_partial_from (k : nat) (root : outset_node)
    (todo : list (list nat)) (decremented : list node)
  : option (outset_node * list (list nat) * list node) :=
  match k with
  | O => Some (root, todo, decremented)
  | S k' =>
      match todo with
      | [] => Some (root, todo, decremented)
      | current :: todo' =>
          match notify_slots branching_factor 0 root current todo' decremented with
          | None => None
          | Some (root', todo'', decremented') =>
              notify_outset_tree_nodes_partial_from k' root' todo'' decremented'
          end
      end
  end.

Definition notify_outset_tree_nodes_partial (root : outset_node)
    (todo : list (list nat))
  : option (outset_node * list (list nat) * list node) :=
  notify_outset_tree_nodes_partial_from (Z.to_nat communication_delay) root todo [].

(** What [finish()] leaves behind: the tree, the successors handed to
    [decrement_incounter], the nodes still to be notified by the task
    [notify_outset_tree_nodes_par] it has scheduled (none when [todo] is
    empty), and whether the out-set was deleted. *)
Record finish_result := Finish_result {
  finished_outset : dyntree_outset;
  decremented : list node;
  todo : list (list nat);
  deleted : bool
}.

(** [finish()], that is [notify_outset_nodes(this)]. *)
Definition finish (o : dyntree_outset) : option finish_result :=
  match notify_outset_tree_nodes_partial (root o) [[]] with
  | None => None
  | Some (root', todo', decremented') =>
      Some {| finished_outset :=
                {| root := root';
                   should_deallocate_automatically :=
                     should_deallocate_automatically o |};
              decremented := decremented';
              todo := todo';
              deleted :=
                match todo' with
                | [] => should_deallocate_automatically o
                | _ :: _ => false
                end |}
  end.

(** *** Shape of the tree *)

Fixpoint nb_nodes (n : outset_node) : nat :=
  match n with
  | Outset_node cs =>
      S (list_sum
           (map (fun c : slot =>
                   match c with
                   | Interior m | Finished_interior m => nb_nodes m
                   | _ => O
                   end) cs))
  end.

(** Every node of the tree has a slot array that satisfies [P]. *)
Inductive all_nodes (P : list slot → Prop) : outset_node → Prop :=
  | all_nodes_intro cs :
      P cs →
      (∀ i p m, cs !! i = Some p → subtree_of p = Some m → all_nodes P m) →
      all_nodes P (Outset_node cs).

(** Every node has [branching_factor] slots. *)
Definition well_formed : outset_node → Prop :=
  all_nodes (λ cs, length cs = branching_factor).

(** No slot of the tree carries a finished tag: [finish()] has not run. *)
Definition unfinished : outset_node → Prop :=
  all_nodes (λ cs, Forall (λ p, is_finished_tag (tag_of p) = false) cs).

(** Every slot of the root carries a finished tag. *)
Definition root_finished (n : outset_node) : Prop :=
  Forall (λ p, is_finished_tag (tag_of p) = true) (children n).

(** The finished counterpart of an unfinished slot. *)
Definition finished_counterpart (p : slot) : slot :=
  match p with
  | Empty => Finished_empty
  | Leaf n => Finished_leaf n
  | Interior t => Finished_interior t
  | _ => p
  end.

(** The deque after the slots [cs] of [current], numbered from [i], have
    been notified: the interior ones have been pushed. *)
Fixpoint pushed (current : list nat) (i : nat) (cs : list slot)
    (todo : list (list nat)) : list (list nat) :=
  match cs with
  | [] => todo
  | c :: cs' =>
      pushed current (S i) cs'
        (match c with Interior _ => (current ++ [i]) :: todo | _ => todo end)
  end.

(** The successors among the slots [cs], in slot order. *)
Fixpoint handed (cs : list slot) : list node :=
  match cs with
  | [] => []
  | Leaf t :: cs' => t :: handed cs'
  | _ :: cs' => handed cs'
  end.

(** The deque of a notification in progress: distinct nodes, none of
    them below another, each the root of a sub-tree that has not been
    touched yet. *)
Definition todo_inv (root : outset_node) (todo : list (list nat)) : Prop :=
  NoDup todo
  ∧ (∀ q, q ∈ todo →
       ∃ cur, node_at root q = Some cur ∧ unfinished cur ∧ well_formed cur)
  ∧ (∀ q q', q ∈ todo → q' ∈ todo → q' `prefix_of` q → q' = q).

(** [installs val t t']: [t'] is [t] with [val] installed as a leaf in a
    slot that was empty, or with the leaf [d] of a slot displaced into a
    fresh interior node whose two children are [val] and [d]. *)
Inductive installs (val : node) : outset_node → outset_node → Prop :=
  | installs_empty cs i :
      cs !! i = Some Empty →
      installs val (Outset_node cs) (Outset_node (<[i := Leaf val]> cs))
  | installs_leaf cs i d :
      cs !! i = Some (Leaf d) →
      (2 ≤ branching_factor)%nat →
      installs val (Outset_node cs)
        (Outset_node
           (<[i := Interior
                     (Outset_node
                        (<[1%nat := Leaf d]>
                           (<[0%nat := Leaf val]> (replicate branching_factor Empty))))]>
              cs))
  | installs_below cs i t t' :
      cs !! i = Some (Interior t) →
      installs val t t' →
      installs val (Outset_node cs) (Outset_node (<[i := Interior t']> cs)).

(** *** Notification to the end *)

(** The successors the tree holds that have not been notified, in slot
    order. *)
Fixpoint leaves (n : outset_node) : list node :=
  match n with
  | Outset_node cs =>
      concat (map (fun c : slot =>
                     match c with
                     | Leaf t => [t]
                     | Interior m => leaves m
                     | _ => []
                     end) cs)
  end.

(** What the nodes the deque points to hold, for a content [g] of a
    node. *)
Definition todo_bind {X} (g : outset_node → list X) (root : outset_node)
    (todo : list (list nat)) : list X :=
  todo ≫= λ q, match node_at root q with Some cur => g cur | None => [] end.

(** The successors still to be notified, and the number of nodes still
    to be visited. *)
Definition todo_leaves (root : outset_node) (todo : list (list nat)) : list node :=
  todo_bind leaves root todo.

Definition todo_nodes (root : outset_node) (todo : list (list nat)) : nat :=
  length (todo_bind (λ cur, replicate (nb_nodes cur) ()) root todo).

(** The node [notify_outset_tree_nodes_par_rec] run alone to its end:
    the process block, then the repeat block, which jumps back to the
    process block while [todo] is not empty; [fuel] bounds the number of
    process blocks. *)
Fixpoint notify_outset_tree_nodes_par_rec (fuel : nat) (root : outset_node)
    (todo : list (list nat)) (decremented : list node)
  : option (outset_node * list node) :=
  match fuel with
  | O => None
  | S fuel' =>
      match notify_outset_tree_nodes_partial_from (Z.to_nat communication_delay)
              root todo decremented with
      | None => None
      | Some (root', [], decremented') => Some (root', decremented')
      | Some (root', todo', decremented') =>
          notify_outset_tree_nodes_par_rec fuel' root' todo' decremented'
      end
  end.

(** [finish()] followed by the task [notify_outset_tree_nodes_par] it
    has scheduled when [todo] was not empty, run to its end: the entry
    block runs [notify_outset_tree_nodes_par_rec], the exit block deletes
    the out-set when [should_deallocate_automatically]. *)
Definition finish_and_notify (fuel : nat) (o : dyntree_outset) : option finish_result :=
  match finish o with
  | None => None
  | Some r =>
      match todo r with
      | [] => Some r
      | _ :: _ =>
          match notify_outset_tree_nodes_par_rec fuel (root (finished_outset r))
                  (todo r) (decremented r) with
          | None => None
          | Some (root', decremented') =>
              Some {| finished_outset :=
                        {| root := root';
                           should_deallocate_automatically :=
                             should_deallocate_automatically o |};
                      decremented := decremented';
                      todo := [];
                      deleted := should_deallocate_automatically o |}
          end
      end
  end.

End WithParameters.

End DyntreeOutset.

(* --------------------------------------------------------------------- *)
(** ** namespace direct::simple *)
(* --------------------------------------------------------------------- *)

Module Simple.

(** *** class simple_outset *)

(** [head] is a tagged pointer to the first cell of the list
    ([concurrent_list_type]); the tail of the list is immutable, so
    [head] is the list of the successors with its tag. *)
Record simple_outset := Simple_outset {
  head : list node * Z;
  should_deallocate_automatically : bool
}.

Definition finished_code : Z := 1.

Definition simple_outset_new : simple_outset :=
  {| head := ([], 0); should_deallocate_automatically := true |}.

(** [insert(n)]: [orig = head.load()]; a finished tag fails the
    insertion; otherwise the cell is linked in front of [orig] by the CAS
    on the value just loaded. *)
Definition insert (n : node) (o : simple_outset)
  : insert_status_type * simple_outset :=
  let orig := head o in
  if bool_decide (snd orig = finished_code) then (insert_fail, o)
  else (insert_success,
        {| head := (n :: fst orig, 0);
           should_deallocate_automatically := should_deallocate_automatically o |}).

(** What [finish()] leaves behind: the out-set, the successors handed to
    [decrement_incounter] in the order of the walk, and whether the
    out-set was deleted. *)
Record finish_result := Finish_result {
  finished_outset : simple_outset;
  decremented : list node;
  deleted : bool
}.

(** [finish()]: the head is exchanged for the finished null pointer and
    the captured list is walked.  When the captured word is the tagged
    null pointer (the out-set was already finished) the walk dereferences
    it: no result. *)
Definition finish (o : simple_outset) : option finish_result :=
  let todo := head o in
  let o' := {| head := ([], finished_code);
               should_deallocate_automatically :=
                 should_deallocate_automatically o |} in
  if bool_decide (snd todo = 0) then
    Some {| finished_outset := o';
            decremented := fst todo;
            deleted := should_deallocate_automatically o |}
  else None.

End Simple.

(* --------------------------------------------------------------------- *)
(** ** namespace direct : strategies, edges and the parallel-for node *)
(* --------------------------------------------------------------------- *)

Module Direct.

(** In-counter and out-set objects live in a store; an address names one. *)
Definition addr := nat.

(** [edge_algorithm_type] *)
Inductive edge_algorithm_type :=
  | edge_algorithm_simple
  | edge_algorithm_distributed
  | edge_algorithm_tree.

#[global] Instance edge_algorithm_type_eq_dec : EqDecision edge_algorithm_type.
Proof. solve_decision. Defined.

(** Modelled from the spec: the tagged in-strategy word of
    [pasl::sched::instrategy] ([pasl.hpp] is not under [src/]).  The word
    is one of [ready] (tag [READY_TAG]), [unary] (tag [UNARY_TAG]),
    [fetch-add] (tag [FETCH_ADD_TAG]; the word is the counter, read and
    changed by [atomic_fetch_and_add], which returns the old count) and a
    pointer to an owned in-counter object (tag 0). *)
Inductive instrategy :=
  | In_ready
  | In_unary
  | In_fetch_add (count : Z)
  | In_object (a : addr).

#[global] Instance instrategy_eq_dec : EqDecision instrategy.
Proof. solve_decision. Defined.

(** Modelled from the spec: the tagged out-strategy word of
    [pasl::sched::outstrategy]: [noop], [unary] (a direct pointer to the
    sole successor, null until it is set), [direct-distributed unary] (a
    pointer to a leaf of the SNZI tree of the sole successor's in-counter,
    named here by the address of that in-counter) and a pointer to an
    owned out-set object (tag 0). *)
Inductive outstrategy :=
  | Out_noop
  | Out_unary (target : option node)
  | Out_direct_distributed_unary (leaf : option addr)
  | Out_object (a : addr).

#[global] Instance outstrategy_eq_dec : EqDecision outstrategy.
Proof. solve_decision. Defined.

(** Modelled from the spec: [pasl::data::snzi::tree] ([snzi.hpp] is not
    under [src/]).  Its root tells whether the arrivals at the leaves
    exceed the departures; [depart] returns [true] when it brings the
    root to zero.  Only this indicator is kept: the surplus of arrivals. *)
Record snzi_tree := Snzi_tree { surplus : Z }.

Definition snzi_is_nonzero (t : snzi_tree) : bool := bool_decide (surplus t ≠ 0).
Definition snzi_arrive (t : snzi_tree) : snzi_tree := {| surplus := surplus t + 1 |}.
Definition snzi_depart (t : snzi_tree) : bool * snzi_tree :=
  (bool_decide (surplus t - 1 = 0), {| surplus := surplus t - 1 |}).

(** *** class incounter and its implementations *)

(** The interface [incounter]: [is_activated], [increment], [decrement].
    Operations read the generator tape. *)
Class Incounter (T : Type) := {
  is_activated : T → bool;
  increment : list nat → T → option (list nat * T);
  decrement : list nat → T → option (list nat * (status_type * T))
}.

(** [distributed::distributed_incounter] *)
Record distributed_incounter := Distributed_incounter { nzi : snzi_tree }.

#[global] Instance distributed_incounter_Incounter : Incounter distributed_incounter := {
  is_activated c := negb (snzi_is_nonzero (nzi c));
  increment tape c := Some (tape, {| nzi := snzi_arrive (nzi c) |});
  decrement tape c :=
    let '(b, t) := snzi_depart (nzi c) in
    Some (tape, (if b then activated else not_activated, {| nzi := t |}))
}.

(** The interface [outset]: [insert]. *)
Class Outset (T : Type) := {
  insert : list nat → node → T → option (list nat * (insert_status_type * T))
}.

#[global] Instance simple_outset_Outset : Outset Simple.simple_outset := {
  insert tape n o := Some (tape, Simple.insert n o)
}.

Section WithParameters.

(** The globals [edge_algorithm], [dyntree::branching_factor]. *)
Variable edge_algorithm : edge_algorithm_type.
Variable branching_factor : nat.

#[local] Instance dyntree_incounter_Incounter : Incounter Dyntree.dyntree_incounter := {
  is_activated := Dyntree.is_activated;
  increment := Dyntree.increment branching_factor;
  decrement := Dyntree.decrement branching_factor
}.

#[local] Instance dyntree_outset_Outset : Outset DyntreeOutset.dyntree_outset := {
  insert := DyntreeOutset.insert branching_factor
}.

(** An in-counter object is an instance of one of the implementations of
    [incounter]; a call of a virtual method goes to that implementation. *)
Inductive incounter_object :=
  | Distributed (c : distributed_incounter)
  | Dyntree_in (c : Dyntree.dyntree_incounter).

Definition incounter_increment (tape : list nat) (o : incounter_object)
  : option (list nat * incounter_object) :=
  match o with
  | Distributed c =>
      match increment tape c with
      | Some (tape', c') => Some (tape', Distributed c')
      | None => None
      end
  | Dyntree_in c =>
      match increment tape c with
      | Some (tape', c') => Some (tape', Dyntree_in c')
      | None => None
      end
  end.

Definition incounter_decrement (tape : list nat) (o : incounter_object)
  : option (list nat * (status_type * incounter_object)) :=
  match o with
  | Distributed c =>
      match decrement tape c with
      | Some (tape', (st, c')) => Some (tape', (st, Distributed c'))
      | None => None
      end
  | Dyntree_in c =>
      match decrement tape c with
      | Some (tape', (st, c')) => Some (tape', (st, Dyntree_in c'))
      | None => None
      end
  end.

Inductive outset_object :=
  | Simple_out (o : Simple.simple_outset)
  | Dyntree_out (o : DyntreeOutset.dyntree_outset).

Definition outset_object_insert (tape : list nat) (n : node) (o : outset_object)
  : option (list nat * (insert_status_type * outset_object)) :=
  match o with
  | Simple_out o =>
      match insert tape n o with
      | Some (tape', (st, o')) => Some (tape', (st, Simple_out o'))
      | None => None
      end
  | Dyntree_out o =>
      match insert tape n o with
      | Some (tape', (st, o')) => Some (tape', (st, Dyntree_out o'))
      | None => None
      end
  end.

(** *** The state of the engine *)

(** What the engine did, in order: the calls of [increment_incounter],
    [outset_insert] (with the status returned) and [decrement_incounter],
    and the nodes handed to the scheduler ([schedule], [start]).  The log
    is only written, never read. *)
Inductive event :=
  | Incremented (target : node)
  | Inserted (target : node) (status : insert_status_type)
  | Decremented (target : node)
  | Scheduled (target : node).

#[global] Instance event_eq_dec : EqDecision event.
Proof. solve_decision. Defined.

Record world := World {
  node_in : gmap node instrategy;          (* the field [in] of the nodes *)
  node_out : gmap node outstrategy;        (* the field [out] of the nodes *)
  incounters : gmap addr incounter_object;
  outsets : gmap addr outset_object;
  generator : list nat;
  log : list event
}.

Definition set_node_in (w : world) (n : node) (i : instrategy) : world :=
  {| node_in := <[n := i]> (node_in w); node_out := node_out w;
     incounters := incounters w; outsets := outsets w;
     generator := generator w; log := log w |}.

Definition set_node_out (w : world) (n : node) (o : outstrategy) : world :=
  {| node_in := node_in w; node_out := <[n := o]> (node_out w);
     incounters := incounters w; outsets := outsets w;
     generator := generator w; log := log w |}.

Definition set_incounter (w : world) (a : addr) (tape : list nat)
    (o : incounter_object) : world :=
  {| node_in := node_in w; node_out := node_out w;
     incounters := <[a := o]> (incounters w); outsets := outsets w;
     generator := tape; log := log w |}.

Definition set_outset (w : world) (a : addr) (tape : list nat)
    (o : outset_object) : world :=
  {| node_in := node_in w; node_out := node_out w;
     incounters := incounters w; outsets := <[a := o]> (outsets w);
     generator := tape; log := log w |}.

Definition record (e : event) (w : world) : world :=
  {| node_in := node_in w; node_out := node_out w;
     incounters := incounters w; outsets := outsets w;
     generator := generator w; log := log w ++ [e] |}.

(** [pasl::sched::instrategy::schedule(target)], also [start(target)]. *)
Definition schedule (target : node) (w : world) : world :=
  record (Scheduled target) w.

(** [atomic_fetch_and_add(&(target->in), d)]: the old count, and the
    word with the new count. *)
Definition atomic_fetch_and_add (target : node) (d : Z) (w : world)
  : option (Z * world) :=
  match node_in w !! target with
  | Some (In_fetch_add old) => Some (old, set_node_in w target (In_fetch_add (old + d)))
  | _ => None
  end.

(** [increment_incounter(source, target, target_in)] *)
Definition increment_incounter (source : option node) (target : node)
    (target_in : instrategy) (w : world) : option world :=
  let w := record (Incremented target) w in
  match target_in with
  | In_ready => None                                  (* assert(tag != READY_TAG) *)
  | In_unary => Some w
  | In_fetch_add _ =>
      match atomic_fetch_and_add target 1 w with
      | Some (_, w') => Some w'
      | None => None
      end
  | In_object a =>
      (* target_in->delta(source, target, +1L) *)
      match incounters w !! a with
      | Some o =>
          match incounter_increment (generator w) o with
          | Some (tape', o') => Some (set_incounter w a tape' o')
          | None => None
          end
      | None => None
      end
  end.

(** [decrement_incounter(source, target, target_in)] *)
Definition decrement_incounter (source : option node) (target : node)
    (target_in : instrategy) (w : world) : option world :=
  let w := record (Decremented target) w in
  match target_in with
  | In_ready => None
  | In_unary => Some (schedule target w)
  | In_fetch_add _ =>
      match atomic_fetch_and_add target (-1) w with
      | Some (old, w') => Some (if bool_decide (old = 1) then schedule target w' else w')
      | None => None
      end
  | In_object a =>
      (* target_in->delta(source, target, -1L) *)
      match incounters w !! a with
      | Some o =>
          match incounter_decrement (generator w) o with
          | Some (tape', (st, o')) =>
              let w' := set_incounter w a tape' o' in
              Some (if bool_decide (st = activated) then schedule target w' else w')
          | None => None
          end
      | None => None
      end
  end.

(** [increment_incounter(source, target)], [decrement_incounter(source,
    target)] and [decrement_incounter(target)]: the word is read from the
    field [in] of the target. *)
Definition increment_incounter_of (source : option node) (target : node)
    (w : world) : option world :=
  match node_in w !! target with
  | Some target_in => increment_incounter source target target_in w
  | None => None
  end.

Definition decrement_incounter_of (source : option node) (target : node)
    (w : world) : option world :=
  match node_in w !! target with
  | Some target_in => decrement_incounter source target target_in w
  | None => None
  end.

(** [outset_insert(source, source_out, target)] *)
Definition outset_insert (source : option node) (source_out : outstrategy)
    (target : node) (w : world) : option (insert_status_type * world) :=
  let result :=
    match source_out with
    | Out_noop => None                                (* assert(tag != NOOP_TAG) *)
    | Out_unary _ =>
        match source with
        | Some s => Some (insert_success, set_node_out w s (Out_unary (Some target)))
        | None => None
        end
    | Out_direct_distributed_unary _ =>
        match source, node_in w !! target with
        | Some s, Some target_in =>
            match target_in with
            | In_object a =>
                if bool_decide (edge_algorithm = edge_algorithm_distributed) then
                  match incounters w !! a with
                  | Some (Distributed _) =>
                      Some (insert_success,
                            set_node_out w s (Out_direct_distributed_unary (Some a)))
                  | _ => None
                  end
                else Some (insert_success, set_node_out w s (Out_unary (Some target)))
            | _ => Some (insert_success, set_node_out w s (Out_unary (Some target)))
            end
        | _, _ => None
        end
    | Out_object a =>
        match outsets w !! a with
        | Some o =>
            match outset_object_insert (generator w) target o with
            | Some (tape', (st, o')) => Some (st, set_outset w a tape' o')
            | None => None
            end
        | None => None
        end
    end in
  match result with
  | Some (st, w') => Some (st, record (Inserted target st) w')
  | None => None
  end.

(** [add_edge(source, source_out, target, target_in)] *)
Definition add_edge (source : option node) (source_out : outstrategy)
    (target : node) (target_in : instrategy) (w : world) : option world :=
  match increment_incounter source target target_in w with
  | None => None
  | Some w1 =>
      match outset_insert source source_out target w1 with
      | None => None
      | Some (st, w2) =>
          if bool_decide (st = insert_fail)
          then decrement_incounter source target target_in w2
          else Some w2
      end
  end.

(** [add_edge(source, target)] *)
Definition add_edge_of (source target : node) (w : world) : option world :=
  match node_out w !! source, node_in w !! target with
  | Some source_out, Some target_in =>
      add_edge (Some source) source_out target target_in w
  | _, _ => None
  end.

(** A sequence of increments and decrements of the in-counter of
    [target], each on the word read from its field [in]. *)
Fixpoint run_ops (target : node) (ops : list incounter_op) (w : world)
  : option world :=
  match ops with
  | [] => Some w
  | Increment :: ops' =>
      match increment_incounter_of None target w with
      | Some w' => run_ops target ops' w'
      | None => None
      end
  | Decrement :: ops' =>
      match decrement_incounter_of None target w with
      | Some w' => run_ops target ops' w'
      | None => None
      end
  end.

(** The successors an out-strategy holds for [finish] to decrement: how
    many times [target] is among them. *)
Fixpoint nb_leaves (target : node) (n : DyntreeOutset.outset_node) : nat :=
  match n with
  | DyntreeOutset.Outset_node cs =>
      list_sum
        (map (fun c : DyntreeOutset.tagged_pointer_type DyntreeOutset.outset_node =>
                match c with
                | DyntreeOutset.Leaf t => if bool_decide (t = target) then 1%nat else O
                | DyntreeOutset.Interior m => nb_leaves target m
                | _ => O
                end) cs)
  end.

Definition registered (target : node) (w : world) (out : outstrategy) : nat :=
  match out with
  | Out_noop => O
  | Out_unary t => if bool_decide (t = Some target) then 1%nat else O
  | Out_direct_distributed_unary leaf =>
      match leaf with
      | Some a => if bool_decide (node_in w !! target = Some (In_object a)) then 1%nat else O
      | None => O
      end
  | Out_object a =>
      match outsets w !! a with
      | Some (Simple_out o) =>
          length (filter (λ t, t = target) (fst (Simple.head o)))
      | Some (Dyntree_out o) => nb_leaves target (DyntreeOutset.root o)
      | None => O
      end
  end.

(** The out-strategy of the edge after [outset_insert]: the field [out]
    of the source for the unary strategies, the same object otherwise. *)
Definition out_after (source : option node) (source_out : outstrategy) (w : world)
  : outstrategy :=
  match source_out, source with
  | Out_object a, _ => Out_object a
  | _, Some s => default Out_noop (node_out w !! s)
  | _, None => Out_noop
  end.

(** The count the in-strategy word of an edge request holds for
    [target]: the counter of a fetch-add word, read from the field [in]
    of the target; for a pointer, the surplus of arrivals of a
    distributed in-counter or the number of nodes of the in-tree of a
    dyntree in-counter.  A unary word holds no count. *)
Definition in_count (target : node) (target_in : instrategy) (w : world)
  : option Z :=
  match target_in with
  | In_ready | In_unary => None
  | In_fetch_add _ =>
      match node_in w !! target with
      | Some (In_fetch_add c) => Some c
      | _ => None
      end
  | In_object a =>
      match incounters w !! a with
      | Some (Distributed c) => Some (surplus (nzi c))
      | Some (Dyntree_in c) => Some (Z.of_nat (Dyntree.logical_count c))
      | None => None
      end
  end.

(** An out-set object that rejects insertions: the head of a simple
    out-set carries the finished tag; some slot of a dyntree out-set does. *)
Definition outset_is_finished (o : outset_object) : Prop :=
  match o with
  | Simple_out o => snd (Simple.head o) = Simple.finished_code
  | Dyntree_out o =>
      ∃ path i p,
        DyntreeOutset.load_at (DyntreeOutset.root o) path i = Some p
        ∧ DyntreeOutset.is_finished_tag (DyntreeOutset.tag_of p) = true
  end.

(** The same world with another generator tape. *)
Definition with_generator (tape : list nat) (w : world) : world :=
  {| node_in := node_in w; node_out := node_out w;
     incounters := incounters w; outsets := outsets w;
     generator := tape; log := log w |}.

(** The in-strategy word of an edge request can be incremented (and,
    with [pending], decremented): it is not [ready], a fetch-add word is
    matched by the field [in] of the target, and a pointer leads to an
    in-counter object in its between-operations shape (holding at least
    one increment, with [pending]). *)
Definition in_ok (pending : bool) (target : node) (target_in : instrategy)
    (w : world) : Prop :=
  match target_in with
  | In_ready => False
  | In_unary => True
  | In_fetch_add _ => ∃ c, node_in w !! target = Some (In_fetch_add c)
  | In_object a =>
      match incounters w !! a with
      | Some (Distributed _) => True
      | Some (Dyntree_in c) =>
          Dyntree.incounter_inv branching_factor c
          ∧ (pending = true → (0 < Dyntree.logical_count c)%nat)
      | None => False
      end
  end.

(** The out-strategy word of an edge request accepts [outset_insert]: it
    is not [noop], the unary strategies have a source whose field [out]
    can be written, the direct-distributed strategy finds a distributed
    in-counter behind the field [in] of the target, and a pointer leads to
    an out-set object with [branching_factor] slots per node. *)
Definition out_ok (source : option node) (source_out : outstrategy)
    (target : node) (w : world) : Prop :=
  match source_out with
  | Out_noop => False
  | Out_unary _ => is_Some source
  | Out_direct_distributed_unary _ =>
      is_Some source
      ∧ ∃ target_in,
          node_in w !! target = Some target_in
          ∧ ∀ a, target_in = In_object a →
                 edge_algorithm = edge_algorithm_distributed →
                 ∃ c, incounters w !! a = Some (Distributed c)
  | Out_object a =>
      match outsets w !! a with
      | Some (Simple_out _) => True
      | Some (Dyntree_out o) =>
          DyntreeOutset.well_formed branching_factor (DyntreeOutset.root o)
      | None => False
      end
  end.

(** What the log of a run of [ops] on a fetch-add in-counter is expected
    to be, from a count of [k]: a decrement is followed by the scheduling
    of the target exactly when it brings the count to zero. *)
Fixpoint expected_log (target : node) (k : Z) (ops : list incounter_op)
  : list event :=
  match ops with
  | [] => []
  | Increment :: ops' => Incremented target :: expected_log target (k + 1) ops'
  | Decrement :: ops' =>
      Decremented target
        :: (if bool_decide (k - 1 = 0) then [Scheduled target] else [])
        ++ expected_log target (k - 1) ops'
  end.

(** How many times the running count of [ops], from [k], comes back to
    zero. *)
Fixpoint zero_returns (k : Z) (ops : list incounter_op) : nat :=
  match ops with
  | [] => O
  | Increment :: ops' => zero_returns (k + 1) ops'
  | Decrement :: ops' =>
      let here := if bool_decide (k - 1 = 0) then 1%nat else O in
      (here + zero_returns (k - 1) ops')%nat
  end.

Definition nb_scheduled (target : node) (l : list event) : nat :=
  length (filter (λ e, e = Scheduled target) l).

End WithParameters.

(** *** class lazy_parallel_for_rec *)

(** [long]: 64-bit two's complement. *)
Definition wrap64 (z : Z) : Z := (z + 2 ^ 63) `mod` 2 ^ 64 - 2 ^ 63.

Record lazy_parallel_for_rec := Lazy_parallel_for_rec {
  lo : Z;
  hi : Z;
  join : node
}.

(** The block labels of the node. *)
Inductive block_id := process_block | repeat_block | exit.



Section WithCommunicationDelay.

(** [int communication_delay], and the globals [edge_algorithm] and
    [dyntree::branching_factor] that [add_edge] reads. *)
Variable communication_delay : Z.
Variable edge_algorithm : edge_algorithm_type.
Variable branching_factor : nat.

(** [for (i = lo; i < n; i++) _body(i)], with [fuel] turns; the calls of
    [_body] are recorded in order. *)
Fixpoint for_loop (fuel : nat) (i n : Z) (applied : list Z) : Z * list Z :=
  match fuel with
  | O => (i, applied)
  | S fuel' =>
      if bool_decide (i < n)
      then for_loop fuel' (wrap64 (i + 1)) n (applied ++ [i])
      else (i, applied)
  end.

(** [body()]: the node after the block, the indices [_body] was applied
    to, and the block of [jump_to] ([None]: the node is finished). *)
Definition body (current_block_id : block_id) (p : lazy_parallel_for_rec)
  : lazy_parallel_for_rec * list Z * option block_id :=
  match current_block_id with
  | process_block =>
      let n := Z.min (hi p) (wrap64 (lo p + communication_delay)) in
      let '(i, applied) := for_loop (Z.to_nat (n - lo p)) (lo p) n [] in
      ({| lo := i; hi := hi p; join := join p |}, applied, Some repeat_block)
  | repeat_block =>
      if bool_decide (lo p < hi p) then (p, [], Some process_block)
      else (p, [], None)
  | exit => (p, [], None)
  end.

(** [split()].  [n] names the node made by [new]: the world holds its
    fields [in] and [out] as the constructor of [pasl::sched::thread]
    ([pasl.hpp] is not under [src/]) has left them.  The result is the
    node with its upper half cut off, the new sibling that takes the
    upper half, and the world after [add_edge(n, join)]; there is none
    when [add_edge] has none, as on a sibling whose field [out] holds no
    out-strategy. *)
Definition split (n : node) (p : lazy_parallel_for_rec) (w : world)
  : option (lazy_parallel_for_rec * lazy_parallel_for_rec * world) :=
  let mid := wrap64 (hi p + lo p) `quot` 2 in
  let sibling := {| lo := mid; hi := hi p; join := join p |} in
  match add_edge_of edge_algorithm branching_factor n (join p) w with
  | Some w' => Some ({| lo := lo p; hi := mid; join := join p |}, sibling, w')
  | None => None
  end.

(** The node run alone to its end: [run()] block after block. *)
Fixpoint run_node (fuel : nat) (b : block_id) (p : lazy_parallel_for_rec)
    (applied : list Z) : option (lazy_parallel_for_rec * list Z) :=
  match fuel with
  | O => None
  | S fuel' =>
      let '(p', ap, next) := body b p in
      match next with
      | Some b' => run_node fuel' b' p' (applied ++ ap)
      | None => Some (p', applied ++ ap)
      end
  end.

(** The nodes of one parallel-for that are ready to run, each with its
    next block, the indices [_body] has been applied to so far, and the
    state of the engine.  A step of the scheduler runs one block of a
    ready node, or splits a ready node between two blocks (a steal); the
    state of the engine is changed by the edge a split adds. *)
Definition pool : Type := list (lazy_parallel_for_rec * block_id) * list Z * world.

Inductive step : pool → pool → Prop :=
  | step_block before p b after applied w p' ap b' :
      body b p = (p', ap, Some b') →
      step (before ++ (p, b) :: after, applied, w)
           (before ++ (p', b') :: after, applied ++ ap, w)
  | step_finish before p b after applied w p' ap :
      body b p = (p', ap, None) →
      step (before ++ (p, b) :: after, applied, w)
           (before ++ after, applied ++ ap, w)
  | step_split before p b after applied w n p' sibling w' :
      split n p w = Some (p', sibling, w') →
      step (before ++ (p, b) :: after, applied, w)
           (before ++ (p', b) :: (sibling, process_block) :: after, applied, w').

End WithCommunicationDelay.


(** An [int] is a 32-bit word in two's complement; the result of an
    arithmetic operation, or of a conversion from [long], is brought
    back into range. *)
Definition wrap32 (z : Z) : Z := (z + 2 ^ 31) `mod` 2 ^ 32 - 2 ^ 31.

End Direct.

(* --------------------------------------------------------------------- *)
(** ** namespace portpassing *)
(* --------------------------------------------------------------------- *)

Module Portpassing.

(** Nodes of the port trees live in a store; an address names one.
    [new] takes an address that is not in use. *)
Definition addr := nat.

(** [port_passing_mode] *)
Inductive port_passing_mode :=
  | port_passing_default
  | port_passing_intersection
  | port_passing_difference.

(** *** class incounter_node and class incounter *)

Record incounter_node := Incounter_node {
  parent : option addr;
  nb_removed_children : Z
}.

(** The constructor of [incounter_node]. *)
Definition incounter_node_new : incounter_node :=
  {| parent := None; nb_removed_children := 0 |}.

(** [is_activated(port)] *)
Definition is_activated (h : gmap addr incounter_node) (port : addr) : option bool :=
  match h !! port with
  | Some n => Some (bool_decide (parent n = None))
  | None => None
  end.

(** [increment(port)]: one fresh node for a null port, two fresh nodes
    below [port] otherwise. *)
Definition increment (h : gmap addr incounter_node) (port : option addr)
  : gmap addr incounter_node * (option addr * option addr) :=
  match port with
  | None =>
      let branch1 := fresh (dom h) in
      (<[branch1 := incounter_node_new]> h, (Some branch1, None))
  | Some _ =>
      let branch1 := fresh (dom h) in
      let h1 := <[branch1 := incounter_node_new]> h in
      let branch2 := fresh (dom h1) in
      let h2 := <[branch2 := incounter_node_new]> h1 in
      let h3 := <[branch1 := {| parent := port; nb_removed_children := 0 |}]> h2 in
      let h4 := <[branch2 := {| parent := port; nb_removed_children := 0 |}]> h3 in
      (h4, (Some branch1, Some branch2))
  end.

(** The loop of [decrement(port)], entered with [current] and
    [next = current->parent], with [fuel] turns: [current] is deleted;
    when [next] has lost a child already the walk moves up, otherwise the
    CAS from 0 to 1 on the count just read records the departure and the
    walk stops. *)
Fixpoint decrement_from (fuel : nat) (h : gmap addr incounter_node)
    (current : addr) (next : option addr)
  : option (status_type * gmap addr incounter_node) :=
  match h !! current with
  | None => None                                      (* [delete] of a dead node *)
  | Some _ =>
      match next with
      | None => Some (activated, delete current h)
      | Some nx =>
          match fuel with
          | O => None
          | S fuel' =>
              let h1 := delete current h in
              match h1 !! nx with
              | None => None
              | Some n =>
                  if bool_decide (nb_removed_children n ≠ 0)
                  then decrement_from fuel' h1 nx (parent n)
                  else
                    Some (not_activated,
                          <[nx := {| parent := parent n; nb_removed_children := 1 |}]> h1)
              end
          end
      end
  end.

(** [decrement(port)]; the walk deletes a node at every turn, so the
    number of nodes in the store bounds its length. *)
Definition decrement (h : gmap addr incounter_node) (port : addr)
  : option (status_type * gmap addr incounter_node) :=
  match h !! port with
  | Some n => decrement_from (size h) h port (parent n)
  | None => None
  end.

(** The in-counter of one node: the store of its port tree, the ports
    held for it (leaves on which [decrement] has not been invoked) and
    the number of invocations of [decrement] that returned [activated]. *)
Record incounter_state := Incounter_state {
  store : gmap addr incounter_node;
  ports : gset addr;
  activations : nat
}.

(** A port of the in-counter is forked by [increment] (the port is given
    up for the two new ones), or departs by [decrement]. *)
Inductive incounter_step : incounter_state → incounter_state → Prop :=
  | step_fork s p h' branch1 branch2 :
      p ∈ ports s →
      increment (store s) (Some p) = (h', (Some branch1, Some branch2)) →
      incounter_step s
        {| store := h'; ports := (ports s ∖ {[p]}) ∪ {[branch1; branch2]};
           activations := activations s |}
  | step_depart s p st h' :
      p ∈ ports s →
      decrement (store s) p = Some (st, h') →
      incounter_step s
        {| store := h'; ports := ports s ∖ {[p]};
           activations :=
             (activations s + if bool_decide (st = activated) then 1 else 0)%nat |}.

(** The in-counter after its first port has been made,
    [increment((incounter_node* )nullptr).first]. *)
Definition incounter_initial : incounter_state :=
  let '(h, (branch1, _)) := increment ∅ None in
  {| store := h;
     ports := match branch1 with Some b => {[b]} | None => ∅ end;
     activations := 0 |}.

(** The walk of [decrement] from [p] passes every ancestor and reaches
    a node without parent. *)
Inductive reaches_null_parent (h : gmap addr incounter_node) : addr → Prop :=
  | reaches_here p n :
      h !! p = Some n → parent n = None → reaches_null_parent h p
  | reaches_up p n a m :
      h !! p = Some n → parent n = Some a →
      h !! a = Some m → nb_removed_children m ≠ 0 →
      reaches_null_parent h a →
      reaches_null_parent h p.

(** [x] is a child of [y] in the store. *)
Definition child_of (h : gmap addr incounter_node) (x y : addr) : Prop :=
  ∃ n, h !! x = Some n ∧ parent n = Some y.

(** The shape of a port tree while a walk is in progress: ports are in
    the store and have no children; parents are in the store, nearer to
    the root; there is one root; a node that is not a port has two
    children while none has departed and one child after. *)
Definition port_tree (h : gmap addr incounter_node) (P : gset addr) : Prop :=
  P ⊆ dom h
  ∧ (∃ rank : addr → nat,
       ∀ x n y, h !! x = Some n → parent n = Some y →
                y ∈ dom h ∧ (rank y < rank x)%nat)
  ∧ (∀ x x' n n', h !! x = Some n → h !! x' = Some n' →
                  parent n = None → parent n' = None → x = x')
  ∧ (∀ x y, child_of h x y → y ∉ P)
  ∧ (∀ y m, h !! y = Some m → y ∉ P →
       (nb_removed_children m ≠ 0 →
        ∃ x, child_of h x y ∧ ∀ x', child_of h x' y → x' = x)
       ∧ (nb_removed_children m = 0 →
          ∃ x1 x2, x1 ≠ x2 ∧ child_of h x1 y ∧ child_of h x2 y
                   ∧ ∀ x', child_of h x' y → x' = x1 ∨ x' = x2)).

(** Between two operations no port has lost a child. *)
Definition port_tree_at_rest (h : gmap addr incounter_node) (P : gset addr) : Prop :=
  port_tree h P
  ∧ ∀ p n, p ∈ P → h !! p = Some n → nb_removed_children n = 0.

(** *** class outset_node and class outset *)

Record outset_node := Outset_node {
  target : option node;
  port : option addr;
  children : list (option addr * Z)         (* outset_node* children[2] *)
}.

Definition frozen_tag : Z := 1.

(** The constructor of [outset_node]. *)
Definition outset_node_new : outset_node :=
  {| target := None; port := None; children := [(None, 0); (None, 0)] |}.

(** [port->children[i].compare_exchange_strong(orig, desired)] with
    [orig = nullptr]. *)
Definition cas_child_from_null (h : gmap addr outset_node) (p : addr) (i : nat)
    (desired : addr) : option (bool * gmap addr outset_node) :=
  match h !! p with
  | None => None
  | Some n =>
      match children n !! i with
      | None => None
      | Some cur =>
          if is_nullptr cur
          then Some (true,
                     <[p := {| target := target n; port := port n;
                               children := <[i := (Some desired, 0)]> (children n) |}]> h)
          else Some (false, h)
      end
  end.

(** One turn of the loop of [fork2], for slot [i]: the fresh branch, or
    [None] when the CAS lost and the branch was deleted. *)
Definition fork2_branch (h : gmap addr outset_node) (p : addr) (i : nat)
  : option (gmap addr outset_node * option addr) :=
  let branch := fresh (dom h) in
  let h1 := <[branch := outset_node_new]> h in
  match cas_child_from_null h1 p i branch with
  | None => None
  | Some (true, h2) => Some (h2, Some branch)
  | Some (false, h2) => Some (delete branch h2, None)
  end.

(** [fork2(port)]: slot 1, then slot 0; [None] inside is the pair of
    null pointers. *)
Definition fork2 (h : gmap addr outset_node) (p : addr)
  : option (gmap addr outset_node * option (addr * addr)) :=
  match fork2_branch h p 1 with
  | None => None
  | Some (h1, None) => Some (h1, None)
  | Some (h1, Some branch1) =>
      match fork2_branch h1 p 0 with
      | None => None
      | Some (h2, None) => Some (h2, None)
      | Some (h2, Some branch0) => Some (h2, Some (branch0, branch1))
      end
  end.

(** *** Port maps *)

(** [inport_map_type] and [outport_map_type]; in-counters and out-sets
    are named by numbers. *)
Abbreviation inport_map_type := (gmap nat (option addr)).
Abbreviation outport_map_type := (gmap nat addr).

(** [intersect_with(source, destination)] *)
Definition intersect_with {V} (source destination : gmap nat V) : gmap nat V :=
  filter (λ item, is_Some (destination !! item.1)) source.

(** [difference_with(source, destination)] *)
Definition difference_with {V} (source destination : gmap nat V) : gmap nat V :=
  filter (λ item, destination !! item.1 = None) source.

(** [propagate_ports_for(mode, parent_ports, child_ports)]: the new
    [child_ports]. *)
Definition propagate_ports_for_mode {V} (mode : port_passing_mode)
    (parent_ports child_ports : gmap nat V) : gmap nat V :=
  match mode with
  | port_passing_default => parent_ports
  | port_passing_intersection => intersect_with parent_ports child_ports
  | port_passing_difference => difference_with parent_ports child_ports
  end.

(** The variables of [fork_out_ports_for]. *)
Record fork_out_state := Fork_out_state {
  outset_store : gmap addr outset_node;
  parent_ports : outport_map_type;
  child_ports : outport_map_type;
  to_erase : list nat
}.

(** The body of the loop of [fork_out_ports_for] for one item. *)
Definition fork_out_item (item : nat * addr) (s : fork_out_state)
  : option fork_out_state :=
  match child_ports s !! item.1 with
  | None => Some s
  | Some _ =>
      match fork2 (outset_store s) item.2 with
      | None => None
      | Some (h, None) =>
          Some {| outset_store := h; parent_ports := parent_ports s;
                  child_ports := child_ports s;
                  to_erase := to_erase s ++ [item.1] |}
      | Some (h, Some (first, second)) =>
          Some {| outset_store := h;
                  parent_ports := <[item.1 := first]> (parent_ports s);
                  child_ports := <[item.1 := second]> (child_ports s);
                  to_erase := to_erase s |}
      end
  end.

Fixpoint fork_out_items (items : list (nat * addr)) (s : fork_out_state)
  : option fork_out_state :=
  match items with
  | [] => Some s
  | item :: items' =>
      match fork_out_item item s with
      | Some s' => fork_out_items items' s'
      | None => None
      end
  end.

(** The loop over [to_erase]. *)
Definition erase_all (s : fork_out_state) : fork_out_state :=
  {| outset_store := outset_store s;
     parent_ports := foldl (λ m out, delete out m) (parent_ports s) (to_erase s);
     child_ports := foldl (λ m out, delete out m) (child_ports s) (to_erase s);
     to_erase := to_erase s |}.

(** [fork_out_ports_for(parent_ports, child_ports)], the items of
    [parent_ports] being visited in the order [items]. *)
Definition fork_out_ports_for_in_order (items : list (nat * addr))
    (h : gmap addr outset_node) (parent child : outport_map_type)
  : option fork_out_state :=
  match fork_out_items items
          {| outset_store := h; parent_ports := parent; child_ports := child;
             to_erase := [] |} with
  | Some s => Some (erase_all s)
  | None => None
  end.

(** The order of the visit is the one of the map. *)
Definition fork_out_ports_for (h : gmap addr outset_node)
    (parent child : outport_map_type) : option fork_out_state :=
  fork_out_ports_for_in_order (map_to_list parent) h parent child.

(** The body of the loop of [fork_in_ports_for] for one item. *)
Definition fork_in_item (item : nat * option addr)
    (s : gmap addr incounter_node * inport_map_type * inport_map_type)
  : gmap addr incounter_node * inport_map_type * inport_map_type :=
  let '(h, parent, child) := s in
  match child !! item.1 with
  | None => s
  | Some _ =>
      let '(h', (first, second)) := increment h item.2 in
      (h', <[item.1 := first]> parent, <[item.1 := second]> child)
  end.

(** [fork_in_ports_for(parent_ports, child_ports)] *)
Definition fork_in_ports_for (h : gmap addr incounter_node)
    (parent child : inport_map_type)
  : gmap addr incounter_node * inport_map_type * inport_map_type :=
  foldl (λ s item, fork_in_item item s) (h, parent, child) (map_to_list parent).

(** The port maps and modes of a [node]. *)
Record node_ports := Node_ports {
  inports : inport_map_type;
  outports : outport_map_type;
  inport_mode : port_passing_mode;
  outport_mode : port_passing_mode
}.

(** What [propagate_ports_for(parent, child)] leaves behind. *)
Record propagated := Propagated {
  incounter_store_after : gmap addr incounter_node;
  outset_store_after : gmap addr outset_node;
  parent_after : node_ports;
  child_after : node_ports
}.

(** [propagate_ports_for(parent, child)], the out-ports being visited in
    the order [items]. *)
Definition propagate_ports_for_in_order (items : list (nat * addr))
    (hi : gmap addr incounter_node) (ho : gmap addr outset_node)
    (parent child : node_ports) : option propagated :=
  let child_in := propagate_ports_for_mode (inport_mode child) (inports parent) (inports child) in
  let '(hi', parent_in', child_in') := fork_in_ports_for hi (inports parent) child_in in
  let child_out := propagate_ports_for_mode (outport_mode child) (outports parent) (outports child) in
  match fork_out_ports_for_in_order items ho (outports parent) child_out with
  | None => None
  | Some s =>
      Some {| incounter_store_after := hi';
              outset_store_after := outset_store s;
              parent_after :=
                {| inports := parent_in'; outports := parent_ports s;
                   inport_mode := inport_mode parent;
                   outport_mode := outport_mode parent |};
              child_after :=
                {| inports := child_in'; outports := child_ports s;
                   inport_mode := inport_mode child;
                   outport_mode := outport_mode child |} |}
  end.

Definition propagate_ports_for (hi : gmap addr incounter_node)
    (ho : gmap addr outset_node) (parent child : node_ports) : option propagated :=
  propagate_ports_for_in_order (map_to_list (outports parent)) hi ho parent child.

(** Every node of the out-set store has its two child slots. *)
Definition outset_store_ok (h : gmap addr outset_node) : Prop :=
  map_Forall (λ _ n, length (children n) = 2%nat) h.

(** The out-ports of a map are nodes of the store. *)
Definition ports_in_store (h : gmap addr outset_node) (ports : outport_map_type)
  : Prop :=
  map_Forall (λ _ p, is_Some (h !! p)) ports.

(** Slot [i] of the node at [a] does not hold the null pointer: a CAS
    from null on it loses. *)
Definition nonnull_slot (h : gmap addr outset_node) (a : addr) (i : nat) : Prop :=
  ∃ n c, h !! a = Some n ∧ children n !! i = Some c ∧ is_nullptr c = false.

(** The store after some CASes from null: no node is lost, the nodes keep
    their two slots, and a slot that did not hold the null pointer still
    does not. *)
Definition store_extends (h h' : gmap addr outset_node) : Prop :=
  dom h ⊆ dom h'
  ∧ (outset_store_ok h → outset_store_ok h')
  ∧ ∀ a i, nonnull_slot h a i → nonnull_slot h' a i.

(** The variables of [fork_out_ports_for] at its start, as
    [propagate_ports_for(parent, child)] calls it. *)
Definition fork_out_start (ho : gmap addr outset_node) (parent child : node_ports)
  : fork_out_state :=
  {| outset_store := ho;
     parent_ports := outports parent;
     child_ports :=
       propagate_ports_for_mode (outport_mode child) (outports parent) (outports child);
     to_erase := [] |}.

(** *** class outset: the operations on the tree *)

Record outset := Outset {
  root : addr;
  n : option node;
  should_deallocate_automatically : bool
}.

(** The constructor [outset(n)]. *)
Definition outset_new (h : gmap addr outset_node) (n : option node)
  : gmap addr outset_node * outset :=
  let r := fresh (dom h) in
  (<[r := outset_node_new]> h,
   {| root := r; n := n; should_deallocate_automatically := true |}).

(** [is_finished()] *)
Definition is_finished (h : gmap addr outset_node) (o : outset) : option bool :=
  match h !! root o with
  | None => None
  | Some nd =>
      match children nd !! 0%nat with
      | None => None
      | Some c => Some (bool_decide (tagged_tag_of c = frozen_tag))
      end
  end.

(** [insert(outport, target, inport)] *)
Definition insert (h : gmap addr outset_node) (o : outset) (outport : addr)
    (target : option node) (inport : option addr)
  : option (gmap addr outset_node * (insert_status_type * option addr)) :=
  match is_finished h o with
  | None => None
  | Some true => Some (h, (insert_fail, None))
  | Some false =>
      let next := fresh (dom h) in
      let h1 := <[next := {| target := target; port := inport;
                             children := children outset_node_new |}]> h in
      match cas_child_from_null h1 outport 0 next with
      | None => None
      | Some (true, h2) => Some (h2, (insert_success, Some next))
      | Some (false, h2) => Some (delete next h2, (insert_fail, None))
      end
  end.

(** The word [w] followed as a pointer: a null or tagged word is not the
    address of a node. *)
Definition node_of_word (h : gmap addr outset_node) (w : option addr * Z)
  : option (addr * outset_node) :=
  match w with
  | (Some a, 0) =>
      match h !! a with
      | Some nd => Some (a, nd)
      | None => None
      end
  | _ => None
  end.

(** [notify_outset_tree_nodes_partial(todo)] with [k] turns left; the
    head of the list is the back of the deque, whose elements are the
    words pushed.  The calls of [decrement_incounter(n->target, n->port)]
    are recorded in order. *)
Fixpoint notify_outset_tree_nodes_partial_from (k : nat)
    (h : gmap addr outset_node) (todo : list (option addr * Z))
    (decremented : list (node * option addr))
  : option (gmap addr outset_node * list (option addr * Z)
            * list (node * option addr)) :=
  match k with
  | O => Some (h, todo, decremented)
  | S k' =>
      match todo with
      | [] => Some (h, todo, decremented)
      | w :: todo' =>
          match node_of_word h w with
          | None => None
          | Some (a, nd) =>
              match children nd with
              | [c0; c1] =>
                  let decremented' :=
                    match target nd with
                    | Some t => decremented ++ [(t, port nd)]
                    | None => decremented
                    end in
                  let h' :=
                    <[a := {| target := target nd; port := port nd;
                              children := [tagged_tag_with (tagged_pointer_of c0) frozen_tag;
                                           tagged_tag_with (tagged_pointer_of c1) frozen_tag] |}]> h in
                  let todo0 := if is_nullptr c0 then todo' else c0 :: todo' in
                  let todo1 := if is_nullptr c1 then todo0 else c1 :: todo0 in
                  notify_outset_tree_nodes_partial_from k' h' todo1 decremented'
              | _ => None
              end
          end
      end
  end.

(** Slot 0 of the root carries the frozen tag. *)
Definition root_frozen (h : gmap addr outset_node) (o : outset) : Prop :=
  ∃ nd c0 c1, h !! root o = Some nd
    ∧ children nd = [c0; c1]
    ∧ tagged_tag_of c0 = frozen_tag.

(** The in-counters, or out-sets, for which a child in mode [mode] is to
    receive a port, the parent holding ports for [parent] and the child
    for [child]. *)
Definition passed_keys (mode : port_passing_mode) (parent child : gset nat)
  : gset nat :=
  match mode with
  | port_passing_default => parent
  | port_passing_intersection => parent ∩ child
  | port_passing_difference => parent ∖ child
  end.

End Portpassing.

(* --------------------------------------------------------------------- *)
(** ** namespace benchmarks *)
(* --------------------------------------------------------------------- *)

Module Benchmarks.

#[local] Abbreviation wrap32 := Direct.wrap32.

(** *** Cells of a square grid, by anti-diagonal *)

(** [nb_levels(n)] *)
Definition nb_levels (n : Z) : option Z :=
  if decide (1 ≤ n) then Some (wrap32 (wrap32 (2 * wrap32 (n - 1)) + 1)) else None.

(** [nb_cells_in_level(n, l)] *)
Definition nb_cells_in_level (n l : Z) : option Z :=
  match nb_levels n with
  | None => None
  | Some levels =>
      if decide (1 ≤ l ∧ l ≤ levels)
      then Some (if decide (l ≤ n) then l else wrap32 (wrap32 (levels + 1) - l))
      else None
  end.

(** [index_of_cell_at_pos(n, l, pos)] *)
Definition index_of_cell_at_pos (n l pos : Z) : option (Z * Z) :=
  match nb_cells_in_level n l with
  | None => None
  | Some cells =>
      if decide (0 ≤ pos ∧ pos < cells)
      then Some (if decide (l ≤ n)
                 then (pos, wrap32 (l - wrap32 (pos + 1)))
                 else (wrap32 (wrap32 (l - n) + pos), wrap32 (n - wrap32 (pos + 1))))
      else None
  end.

(** [row_major_index_of(n, i, j)] *)
Definition row_major_index_of (n i j : Z) : Z := wrap32 (wrap32 (i * n) + j).

(** [row_major_address_of(items, n, i, j)]: the index of the item. *)
Definition row_major_address_of (n i j : Z) : option Z :=
  if decide (0 ≤ i ∧ i < n) then
    if decide (0 ≤ j ∧ j < n) then Some (row_major_index_of n i j) else None
  else None.

(** *** The tokens of [gauss_seidel_generator] *)

(** [token_type]: the cells [c_lo .. c_hi - 1] of level [l]. *)
Record token_type := Token { l : Z; c_lo : Z; c_hi : Z }.

(** The fields [tokens] and [nb_tokens]; the front of the deque is the
    head of the list. *)
Record token_queue := Token_queue { tokens : list token_type; nb_tokens : Z }.

(** [push_token(l, c)] *)
Definition push_token (lv c : Z) (q : token_queue) : option token_queue :=
  let t := {| l := lv; c_lo := c; c_hi := wrap32 (c + 1) |} in
  match last (tokens q) with
  | None =>
      Some {| tokens := tokens q ++ [t]; nb_tokens := wrap32 (nb_tokens q + 1) |}
  | Some s =>
      if decide (l s = lv) then
        if decide (c_hi s = c) then
          Some {| tokens := removelast (tokens q)
                            ++ [{| l := lv; c_lo := c_lo s; c_hi := wrap32 (c + 1) |}];
                  nb_tokens := wrap32 (nb_tokens q + 1) |}
        else None
      else
        Some {| tokens := tokens q ++ [t]; nb_tokens := wrap32 (nb_tokens q + 1) |}
  end.

(** [pop_token()], for the grid size [n] of the generator and a matrix
    [futures] of size [futures_n]: the cell whose future is returned, and
    the queue. *)
Definition pop_token (n futures_n : Z) (q : token_queue)
  : option ((Z * Z) * token_queue) :=
  match tokens q with
  | [] => None
  | t :: rest =>
      if decide (wrap32 (c_hi t - c_lo t) > 0) then
        let t' := {| l := l t; c_lo := wrap32 (c_lo t + 1); c_hi := c_hi t |} in
        let q' := {| tokens := if decide (wrap32 (c_hi t' - c_lo t') > 0)
                               then t' :: rest else rest;
                     nb_tokens := wrap32 (nb_tokens q - 1) |} in
        match index_of_cell_at_pos n (l t) (c_lo t) with
        | None => None
        | Some (i, j) =>
            match row_major_address_of futures_n i j with
            | None => None
            | Some _ => Some ((i, j), q')
            end
        end
      else None
  end.

(** The cells a queue of tokens stands for, the next to be popped
    first. *)
Definition cells_of (ts : list token_type) : list (Z * Z) :=
  ts ≫= λ t, (λ c, (l t, c)) <$> seqZ (c_lo t) (c_hi t - c_lo t).

(** Every token stands for at least one cell, at positions that are not
    negative, and the count of the generator is the number of cells, an
    [int]. *)
Definition token_queue_ok (q : token_queue) : Prop :=
  Forall (λ t, 0 ≤ c_lo t ∧ c_lo t < c_hi t ∧ c_hi t < 2^31) (tokens q)
  ∧ nb_tokens q = Z.of_nat (length (cells_of (tokens q)))
  ∧ nb_tokens q < 2^31.

(** *** Microbenchmarks of the in-counters *)

(** An [unsigned int] is a 32-bit word. *)
Definition wrapu32 (z : Z) : Z := z mod 2^32.

(** [hashu(a)] *)
Definition hashu (a : Z) : Z :=
  let a := wrapu32 (wrapu32 (a + 0x7ed55d16) + wrapu32 (Z.shiftl a 12)) in
  let a := Z.lxor (Z.lxor a 0xc761c23c) (Z.shiftr a 19) in
  let a := wrapu32 (wrapu32 (a + 0x165667b1) + wrapu32 (Z.shiftl a 5)) in
  let a := Z.lxor (wrapu32 (a + 0xd3a2646c)) (wrapu32 (Z.shiftl a 9)) in
  let a := wrapu32 (wrapu32 (a + 0xfd7046c5) + wrapu32 (Z.shiftl a 3)) in
  let a := Z.lxor (Z.lxor a 0xb55a4f09) (Z.shiftr a 16) in
  a.

(** The template parameter [Incounter] of [benchmark_incounter_thread]:
    [increment(int)] and [bool decrement(int)]. *)
Class Incounter_wrapper (W : Type) := {
  wrapper_increment : Z → W → option W;
  wrapper_decrement : Z → W → option (bool * W)
}.

(** [simple_incounter_wrapper]: [counter++], and [counter-- == 0], which
    compares the value before the decrement. *)
Record simple_incounter_wrapper := Simple_incounter_wrapper { counter : Z }.

Definition simple_incounter_wrapper_new : simple_incounter_wrapper :=
  {| counter := 0 |}.

#[global] Instance simple_incounter_wrapper_ops
  : Incounter_wrapper simple_incounter_wrapper := {
  wrapper_increment _ w := Some {| counter := wrap32 (counter w + 1) |};
  wrapper_decrement _ w :=
    Some (bool_decide (counter w = 0), {| counter := wrap32 (counter w - 1) |})
}.

(** [dyntree_incounter_wrapper]: the in-counter, with the generator its
    walks read.  [decrement] returns the [status_type] of the in-counter
    as a [bool]: [activated] is 0, [not_activated] is 1. *)
Record dyntree_incounter_wrapper := Dyntree_incounter_wrapper {
  incounter : Dyntree.dyntree_incounter;
  generator : list nat
}.

Definition status_as_bool (st : status_type) : bool :=
  match st with activated => false | not_activated => true end.

Section WithBranchingFactor.

Variable branching_factor : nat.

Definition dyntree_incounter_wrapper_new (tape : list nat) : dyntree_incounter_wrapper :=
  {| incounter := Dyntree.dyntree_incounter_new branching_factor; generator := tape |}.

#[local] Instance dyntree_incounter_wrapper_ops
  : Incounter_wrapper dyntree_incounter_wrapper := {
  wrapper_increment _ w :=
    match Dyntree.increment branching_factor (generator w) (incounter w) with
    | Some (tape, c) => Some {| incounter := c; generator := tape |}
    | None => None
    end;
  wrapper_decrement _ w :=
    match Dyntree.decrement branching_factor (generator w) (incounter w) with
    | Some (tape, (st, c)) =>
        Some (status_as_bool st, {| incounter := c; generator := tape |})
    | None => None
    end
}.

End WithBranchingFactor.

(** A sequence of operations on a wrapper: the wrapper it leaves and
    what the calls of [decrement] returned. *)
Fixpoint wrapper_run {W} `{Incounter_wrapper W} (my_id : Z)
    (ops : list incounter_op) (w : W) : option (list bool * W) :=
  match ops with
  | [] => Some ([], w)
  | Increment :: ops' =>
      match wrapper_increment my_id w with
      | Some w' => wrapper_run my_id ops' w'
      | None => None
      end
  | Decrement :: ops' =>
      match wrapper_decrement my_id w with
      | Some (b, w') =>
          match wrapper_run my_id ops' w' with
          | Some (bs, w'') => Some (b :: bs, w'')
          | None => None
          end
      | None => None
      end
  end.

(** What the calls of [decrement] of a sequence return when [false] is
    returned exactly by the decrements that bring the count, [k] at the
    start, to zero. *)
Fixpoint false_at_zero (k : nat) (ops : list incounter_op) : list bool :=
  match ops with
  | [] => []
  | Increment :: ops' => false_at_zero (S k) ops'
  | Decrement :: ops' => negb (bool_decide (k = 1%nat)) :: false_at_zero (pred k) ops'
  end.

Section Thread.

Context {W : Type} `{Incounter_wrapper W}.

(** The variables of [benchmark_incounter_thread], and the operations
    issued so far. *)
Record thread_vars := Thread_vars {
  c : Z;
  rng : Z;
  nb_pending_increments : Z;
  the_incounter : W;
  issued : list incounter_op
}.

(** One turn of the first loop, [should_stop] having been read false.
    [nb_pending_increments] is incremented with every increment and left
    as it is by a decrement. *)
Definition thread_turn (my_id : Z) (s : thread_vars) : option thread_vars :=
  let after :=
    if bool_decide (nb_pending_increments s > 0) && bool_decide (rng s mod 2 = 0)
    then
      match wrapper_decrement my_id (the_incounter s) with
      | Some (_, w) =>
          Some {| c := c s; rng := rng s;
                  nb_pending_increments := nb_pending_increments s;
                  the_incounter := w; issued := issued s ++ [Decrement] |}
      | None => None
      end
    else
      match wrapper_increment my_id (the_incounter s) with
      | Some w =>
          Some {| c := c s; rng := rng s;
                  nb_pending_increments := wrap32 (nb_pending_increments s + 1);
                  the_incounter := w; issued := issued s ++ [Increment] |}
      | None => None
      end in
  match after with
  | Some s' =>
      Some {| c := wrap32 (c s' + 1); rng := hashu (rng s');
              nb_pending_increments := nb_pending_increments s';
              the_incounter := the_incounter s'; issued := issued s' |}
  | None => None
  end.

(** The first loop, [should_stop] being read false [turns] times. *)
Fixpoint thread_loop (turns : nat) (my_id : Z) (s : thread_vars)
  : option thread_vars :=
  match turns with
  | O => Some s
  | S turns' =>
      match thread_turn my_id s with
      | Some s' => thread_loop turns' my_id s'
      | None => None
      end
  end.

(** The second loop. *)
Fixpoint thread_drain (fuel : nat) (my_id : Z) (s : thread_vars)
  : option thread_vars :=
  if bool_decide (nb_pending_increments s > 0) then
    match fuel with
    | O => None
    | S fuel' =>
        match wrapper_decrement my_id (the_incounter s) with
        | Some (_, w) =>
            thread_drain fuel' my_id
              {| c := wrap32 (c s + 1); rng := rng s;
                 nb_pending_increments := wrap32 (nb_pending_increments s - 1);
                 the_incounter := w; issued := issued s ++ [Decrement] |}
        | None => None
        end
    end
  else Some s.

(** [benchmark_incounter_thread(my_id, incounter, should_stop, counter,
    seed)], [should_stop] being read false [turns] times; [counter] is
    the field [c] of the result. *)
Definition benchmark_incounter_thread (turns : nat) (my_id : Z) (w : W) (seed : Z)
  : option thread_vars :=
  match thread_loop turns my_id
          {| c := 0; rng := wrapu32 seed; nb_pending_increments := 0;
             the_incounter := w; issued := [] |} with
  | Some s => thread_drain (Z.to_nat (nb_pending_increments s)) my_id s
  | None => None
  end.

End Thread.

(** *** Gauss-Seidel *)

(** A [double] is a binary64 floating-point number. *)
Definition double : Type := PrimFloat.float.

Section Stencil.

Import PrimFloat.

(** The right-hand side of the assignment of [gauss_seidel_block]:
    [0.2 * (c + up + down + lft + rgt)], the sum taken from left to
    right. *)
Definition stencil (c up down lft rgt : double) : double :=
  (0x1.999999999999ap-3 * (c + up + down + lft + rgt))%float.

End Stencil.

(** An array of [double] is the list of its items, and a pointer into it
    the index of the item it points to; [load] and [store] are [p[k]]
    read and written for the pointer [p] at index 0: no result outside
    the array. *)
Definition load (data : list double) (k : Z) : option double :=
  if decide (0 ≤ k) then data !! Z.to_nat k else None.

Definition store (data : list double) (k : Z) (v : double) : option (list double) :=
  if decide (0 ≤ k < Z.of_nat (length data))
  then Some (<[Z.to_nat k := v]> data) else None.

(** [for (int i = ...; cond(i); i = step(i)) body(i)], from the value [i]
    of the counter; [cond] has no result when an assertion fails in it,
    and [fuel] bounds the number of turns. *)
Fixpoint for_loop {St : Type} (fuel : nat) (cond : Z → option bool) (step : Z → Z)
    (body : Z → St → option St) (i : Z) (s : St) : option St :=
  match fuel with
  | O => None
  | S fuel' =>
      match cond i with
      | None => None
      | Some false => Some s
      | Some true =>
          match body i s with
          | None => None
          | Some s' => for_loop fuel' cond step body (step i) s'
          end
      end
  end.

(** The assignment in the loops of [gauss_seidel_block(N, a, block_size)],
    [a] pointing to the item [a] of [data]. *)
Definition gauss_seidel_cell (N a i j : Z) (data : list double) : option (list double) :=
  let at_ij := wrap32 (wrap32 (i * N) + j) in
  match load data (a + at_ij),
        load data (a + wrap32 (wrap32 (wrap32 (i - 1) * N) + j)),
        load data (a + wrap32 (wrap32 (wrap32 (i + 1) * N) + j)),
        load data (a + wrap32 (at_ij - 1)),
        load data (a + wrap32 (at_ij + 1)) with
  | Some c, Some up, Some down, Some lft, Some rgt =>
      store data (a + at_ij) (stencil c up down lft rgt)
  | _, _, _, _, _ => None
  end.

(** [gauss_seidel_block(N, a, block_size)] *)
Definition gauss_seidel_block (fuel : nat) (N a block_size : Z) (data : list double)
  : option (list double) :=
  for_loop fuel (λ i, Some (bool_decide (i ≤ block_size))) (λ i, wrap32 (i + 1))
    (λ i,
       for_loop fuel (λ j, Some (bool_decide (j ≤ block_size))) (λ j, wrap32 (j + 1))
         (λ j, gauss_seidel_cell N a i j) 1)
    1 data.

(** [gauss_seidel_sequential(numiters, N, block_size, data)] *)
Definition gauss_seidel_sequential (fuel : nat) (numiters N block_size : Z)
    (data : list double) : option (list double) :=
  for_loop fuel (λ iter, Some (bool_decide (iter < numiters))) (λ iter, wrap32 (iter + 1))
    (λ _,
       for_loop fuel (λ i, Some (bool_decide (i < wrap32 (N - 2))))
         (λ i, wrap32 (i + block_size))
         (λ i,
            for_loop fuel (λ j, Some (bool_decide (j < wrap32 (N - 2))))
              (λ j, wrap32 (j + block_size))
              (λ j, gauss_seidel_block fuel N (wrap32 (wrap32 (N * i) + j)) block_size)
              0)
         0)
    0 data.

(** [gauss_seidel_by_diagonal(numiters, N, block_size, data)]; no result
    when [block_size] is 0, the remainder being undefined. *)
Definition gauss_seidel_by_diagonal (fuel : nat) (numiters N block_size : Z)
    (data : list double) : option (list double) :=
  if decide (block_size = 0) then None
  else if decide (wrap32 (N - 2) `rem` block_size = 0) then
    let n := wrap32 (wrap32 (N - 2) `quot` block_size) in
    for_loop fuel (λ iter, Some (bool_decide (iter < numiters)))
      (λ iter, wrap32 (iter + 1))
      (λ _,
         for_loop fuel
           (λ l, match nb_levels n with
                 | Some levels => Some (bool_decide (l ≤ levels))
                 | None => None
                 end)
           (λ l, wrap32 (l + 1))
           (λ l,
              for_loop fuel
                (λ c, match nb_cells_in_level n l with
                      | Some cells => Some (bool_decide (c < cells))
                      | None => None
                      end)
                (λ c, wrap32 (c + 1))
                (λ c data,
                   match index_of_cell_at_pos n l c with
                   | None => None
                   | Some idx =>
                       let i := wrap32 (idx.1 * block_size) in
                       let j := wrap32 (idx.2 * block_size) in
                       gauss_seidel_block fuel N (wrap32 (wrap32 (N * i) + j))
                         block_size data
                   end)
                0)
           1)
      0 data
  else None.

(** A sequence of steps, each from the state the one before has left. *)
Fixpoint run_steps {A St : Type} (step : A → St → option St) (l : list A)
    (s : St) : option St :=
  match l with
  | [] => Some s
  | x :: l' =>
      match step x s with
      | Some s' => run_steps step l' s'
      | None => None
      end
  end.

(** The values of the counter of a [for] loop, from the value [i]. *)
Inductive loop_indices (cond : Z → option bool) (step : Z → Z) : Z → list Z → Prop :=
  | loop_indices_nil i : cond i = Some false → loop_indices cond step i []
  | loop_indices_cons i l :
      cond i = Some true → loop_indices cond step (step i) l →
      loop_indices cond step i (i :: l).

(** The assignment of [gauss_seidel_block] at index [k] of the array of
    [N] columns. *)
Definition update_at (N k : Z) (data : list double) : option (list double) :=
  match load data k, load data (k - N), load data (k + N),
        load data (k - 1), load data (k + 1) with
  | Some c, Some up, Some down, Some lft, Some rgt =>
      store data k (stencil c up down lft rgt)
  | _, _, _, _, _ => None
  end.

(** The cell [(r, q)] of the block [(bi, bj)]: its index in the array,
    and its rank in the block-by-block and in the diagonal-by-diagonal
    order. *)
Definition block_cell : Type := Z * Z * Z * Z.

Definition index_of_block_cell (N block_size : Z) (t : block_cell) : Z :=
  let '(bi, bj, r, q) := t in
  (N * (bi * block_size) + bj * block_size) + (r * N + q).

Definition before_by_row (t t' : block_cell) : Prop :=
  let '(bi, bj, r, q) := t in
  let '(bi', bj', r', q') := t' in
  bi < bi' ∨ (bi = bi' ∧ (bj < bj' ∨ (bj = bj' ∧ (r < r' ∨ (r = r' ∧ q < q'))))).

Definition before_by_diagonal (t t' : block_cell) : Prop :=
  let '(bi, bj, r, q) := t in
  let '(bi', bj', r', q') := t' in
  bi + bj < bi' + bj'
  ∨ (bi + bj = bi' + bj'
     ∧ (bi < bi' ∨ (bi = bi' ∧ (r < r' ∨ (r = r' ∧ q < q'))))).

(** The cells of a block, the blocks of [gauss_seidel_sequential] and
    those of [gauss_seidel_by_diagonal], in the order of the loops. *)
Definition block_cells (block_size : Z) (b : Z * Z) : list block_cell :=
  r ← seqZ 1 block_size; (λ q, (b.1, b.2, r, q)) <$> seqZ 1 block_size.

Definition blocks_by_row (n : Z) : list (Z * Z) :=
  bi ← seqZ 0 n; (λ bj, (bi, bj)) <$> seqZ 0 n.

Definition blocks_by_diagonal (n : Z) : list (Z * Z) :=
  l ← seqZ 1 (2 * n - 1);
  (λ c, if decide (l ≤ n) then (c, l - (c + 1)) else (l - n + c, n - (c + 1)))
    <$> seqZ 0 (if decide (l ≤ n) then l else 2 * n - l).

End Benchmarks.

(* ===================================================================== *)
(** * Part II: properties *)
(* ===================================================================== *)

(** ** Lists used as slot arrays *)

Lemma drop_insert_eq {A} (l : list A) (i : nat) (x : A) :
  (i < length l)%nat → drop i (<[i := x]> l) = x :: drop (S i) l.
Proof.
  revert i. induction l as [|y l IH]; intros [|i] Hi; simpl in *; try lia.
  - by rewrite drop_0.
  - apply IH. lia.
Qed.

Lemma insert_replicate_app {A} (i : nat) (x y : A) (l : list A) :
  (i < length l)%nat →
  <[i := y]> (replicate i x ++ drop i l) = replicate i x ++ y :: drop (S i) l.
Proof.
  intros Hi. rewrite insert_app_r_alt; rewrite length_replicate; [|lia].
  rewrite Nat.sub_diag. f_equal.
  destruct (lookup_lt_is_Some_2 l i Hi) as [z Hz].
  by rewrite (drop_S _ _ _ Hz).
Qed.

(** ** direct::dyntree : [try_to_detatch] *)

Section DyntreeIncounterFacts.

Variable B : nat.

Abbreviation slot := (tagged (Dyntree.incounter_node)).

Lemma rollback_spec (k : nat) (cs : list slot) :
  (k ≤ length cs)%nat →
  Dyntree.rollback k cs = replicate k (None, 0) ++ drop k cs.
Proof.
  revert cs. induction k as [|j IH]; intros cs Hk.
  - by rewrite drop_0.
  - cbn [Dyntree.rollback]. rewrite IH by (rewrite length_insert; lia).
    rewrite drop_insert_eq by lia.
    by rewrite replicate_S_end, <- app_assoc.
Qed.

Lemma rollback_length (k : nat) (cs : list slot) :
  length (Dyntree.rollback k cs) = length cs.
Proof.
  revert cs. induction k as [|j IH]; intros cs; simpl; [done|].
  by rewrite IH, length_insert.
Qed.

Lemma try_to_detatch_from_spec (k i : nat) (cs0 : list slot) :
  (i + k = length cs0)%nat →
  take i cs0 = replicate i (None, 0) →
  ∃ b cs',
    Dyntree.try_to_detatch_from k i (replicate i Dyntree.minus ++ drop i cs0)
      = Some (b, cs')
    ∧ (b = true →
       cs' = replicate (length cs0) Dyntree.minus
       ∧ cs0 = replicate (length cs0) (None, 0))
    ∧ (b = false →
       cs' = cs0 ∧ ∃ j c, cs0 !! j = Some c ∧ is_nullptr c = false).
Proof.
  revert i. induction k as [|k IH]; intros i Hlen Htake.
  - exists true, (replicate i Dyntree.minus ++ drop i cs0). simpl.
    rewrite Nat.add_0_r in Hlen. subst i.
    rewrite drop_all, app_nil_r. rewrite firstn_all in Htake.
    split_and!; [done| |done]. by intros _.
  - assert (Hi : (i < length cs0)%nat) by lia.
    destruct (lookup_lt_is_Some_2 cs0 i Hi) as [c Hc].
    cbn [Dyntree.try_to_detatch_from]. unfold Dyntree.cas_from_null.
    rewrite lookup_app_r; rewrite length_replicate; [|lia].
    rewrite Nat.sub_diag, lookup_drop, Nat.add_0_r, Hc.
    destruct (is_nullptr c) eqn:Hnull.
    + rewrite insert_replicate_app by done.
      assert (c = (None, 0)) as ->.
      { destruct c as [[m|] t]; simpl in Hnull; [done|].
        apply bool_decide_eq_true in Hnull. by subst. }
      assert (Htake' : take (S i) cs0 = replicate (S i) (None, 0)).
      { rewrite (take_S_r _ _ _ Hc), Htake. by rewrite replicate_S_end. }
      destruct (IH (S i) ltac:(lia) Htake') as (b & cs' & Hrun & Ht & Hf).
      exists b, cs'. split; [|done].
      rewrite <- Hrun. f_equal.
      rewrite replicate_S_end, <- app_assoc. done.
    + exists false, cs0. split_and!; [|done|intros _; split; [done|by eauto]].
      do 2 f_equal. rewrite rollback_spec.
      * rewrite drop_app_length'; [|by rewrite length_replicate].
        by rewrite <- Htake, take_drop.
      * rewrite length_app, length_replicate, length_drop. lia.
Qed.

(** C5.  [try_to_detatch(n)] on a node with [B] child slots is all or
    nothing.  It always returns; when it returns [true] every one of the
    [B] slots holds the minus tag (and every slot held [nullptr] before);
    when it returns [false] the slots written so far have been rolled back
    to [nullptr] and the node is as it was before the call (and one of its
    slots did not hold [nullptr]). *)
Theorem try_to_detatch_all_or_nothing (n : Dyntree.incounter_node) :
  length (Dyntree.children n) = B →
  ∃ b n',
    Dyntree.try_to_detatch B n = Some (b, n')
    ∧ (b = true →
       Dyntree.children n' = replicate B Dyntree.minus
       ∧ Dyntree.children n = replicate B (None, 0))
    ∧ (b = false →
       n' = n ∧ ∃ j c, Dyntree.children n !! j = Some c ∧ is_nullptr c = false).
Proof.
  intros Hlen. unfold Dyntree.try_to_detatch.
  destruct (try_to_detatch_from_spec B 0 (Dyntree.children n))
    as (b & cs' & Hrun & Ht & Hf); [lia|done|].
  simpl in Hrun. rewrite drop_0 in Hrun. rewrite Hrun.
  exists b, (Dyntree.Incounter_node cs'). split; [done|].
  rewrite Hlen in Ht. split.
  - intros Hb. by destruct (Ht Hb).
  - intros Hb. destruct (Hf Hb) as [-> Hex]. split; [by destruct n|done].
Qed.

End DyntreeIncounterFacts.

(** ** direct::dyntree : the in-counter as a counter *)

Section DyntreeIncounterRuns.

Variable B : nat.

Abbreviation slot := (tagged (Dyntree.incounter_node)).
Abbreviation weight := (fun c : option Dyntree.incounter_node * Z =>
                   match c with (Some m, _) => Dyntree.nb_nodes m | (None, _) => O end).

Lemma list_sum_insert {A} (f : A → nat) (l : list A) (i : nat) (x y : A) :
  l !! i = Some x →
  (list_sum (map f (<[i := y]> l)) + f x = list_sum (map f l) + f y)%nat.
Proof.
  revert i. induction l as [|z l IH]; intros [|i] Hi; simplify_eq/=; [lia|].
  specialize (IH _ Hi). lia.
Qed.

Lemma list_sum_lookup_le {A} (f : A → nat) (l : list A) (i : nat) (x : A) :
  l !! i = Some x → (f x ≤ list_sum (map f l))%nat.
Proof.
  revert i. induction l as [|z l IH]; intros [|i] Hi; simplify_eq/=; [lia|].
  specialize (IH _ Hi). lia.
Qed.

Lemma node_at_app root path i :
  Dyntree.node_at root (path ++ [i]) =
  match Dyntree.node_at root path with
  | Some cur => match Dyntree.children cur !! i with
                | Some (Some m, _) => Some m
                | _ => None
                end
  | None => None
  end.
Proof.
  revert root. induction path as [|j path IH]; intros root; simpl.
  - by destruct (Dyntree.children root !! i) as [[[m|] t]|].
  - destruct (Dyntree.children root !! j) as [[[m|] t]|]; auto.
Qed.

Lemma node_at_cons root i path :
  Dyntree.node_at root (i :: path) =
  match Dyntree.children root !! i with
  | Some (Some m, _) => Dyntree.node_at m path
  | _ => None
  end.
Proof. done. Qed.

Lemma replace_at_cons root i path n' :
  Dyntree.replace_at root (i :: path) n' =
  match Dyntree.children root !! i with
  | Some (Some m, t) =>
      Dyntree.Incounter_node
        (<[i := (Some (Dyntree.replace_at m path n'), t)]> (Dyntree.children root))
  | _ => root
  end.
Proof. done. Qed.

Lemma all_nodes_inv P root :
  Dyntree.all_nodes P root →
  P ((Dyntree.children root).*2)
  ∧ ∀ i m t, Dyntree.children root !! i = Some (Some m, t) → Dyntree.all_nodes P m.
Proof. by intros [cs HP Hch]. Qed.

Lemma nb_nodes_eq root :
  Dyntree.nb_nodes root = S (list_sum (map weight (Dyntree.children root))).
Proof. by destruct root. Qed.

Lemma all_nodes_node_at P root path cur :
  Dyntree.all_nodes P root → Dyntree.node_at root path = Some cur →
  Dyntree.all_nodes P cur.
Proof.
  revert root. induction path as [|j path IH]; intros root Hroot Hat.
  - simpl in Hat. by simplify_eq.
  - rewrite node_at_cons in Hat. apply all_nodes_inv in Hroot as [_ Hch].
    destruct (Dyntree.children root !! j) as [[[m|] t]|] eqn:E; try done. eauto.
Qed.

Lemma all_nodes_replace_at P root path cur cur' :
  Dyntree.all_nodes P root → Dyntree.node_at root path = Some cur →
  Dyntree.all_nodes P cur' →
  Dyntree.all_nodes P (Dyntree.replace_at root path cur').
Proof.
  revert root. induction path as [|j path IH]; intros root Hroot Hat Hcur'.
  - done.
  - rewrite node_at_cons in Hat. rewrite replace_at_cons.
    pose proof Hroot as Hroot0.
    apply all_nodes_inv in Hroot as [HP Hch].
    destruct (Dyntree.children root !! j) as [[[m|] t]|] eqn:E; try done.
    constructor.
    + rewrite list_fmap_insert. cbn [snd]. rewrite list_insert_id; [done|].
      by rewrite list_lookup_fmap, E.
    + intros i m' t' Hi.
      destruct (decide (i = j)) as [->|Hne].
      * rewrite list_lookup_insert_eq in Hi by (by eapply lookup_lt_Some).
        simplify_eq. eauto.
      * rewrite list_lookup_insert_ne in Hi by done. eauto.
Qed.

Lemma nb_nodes_replace_at root path cur cur' :
  Dyntree.node_at root path = Some cur →
  (Dyntree.nb_nodes (Dyntree.replace_at root path cur') + Dyntree.nb_nodes cur
   = Dyntree.nb_nodes root + Dyntree.nb_nodes cur')%nat.
Proof.
  revert root. induction path as [|j path IH]; intros root Hat.
  - simpl in *. simplify_eq. lia.
  - rewrite node_at_cons in Hat. rewrite replace_at_cons.
    destruct (Dyntree.children root !! j) as [[[m|] t]|] eqn:E; try done.
    specialize (IH _ Hat). rewrite (nb_nodes_eq root), nb_nodes_eq.
    pose proof (list_sum_insert weight _ j (Some m, t) (Some (Dyntree.replace_at m path cur'), t) E) as H.
    simpl in *. lia.
Qed.


(* ---- shape facts ---- *)

Lemma weight_replicate_null k t :
  list_sum (map weight (replicate k (None, t))) = O.
Proof. induction k; simpl; auto. Qed.

Lemma nb_nodes_init t : Dyntree.nb_nodes (Dyntree.init B (None, t)) = 1%nat.
Proof. unfold Dyntree.init. simpl. by rewrite weight_replicate_null. Qed.

Lemma all_nodes_no_children P cs :
  P (cs.*2) → (∀ i c, cs !! i = Some c → c.1 = None) →
  Dyntree.all_nodes P (Dyntree.Incounter_node cs).
Proof.
  intros HP Hnone. constructor; [done|].
  intros i m t Hi. by apply Hnone in Hi.
Qed.

Lemma in_tree_init : Dyntree.in_tree B (Dyntree.init B (None, 0)).
Proof.
  apply all_nodes_no_children.
  - rewrite fmap_replicate, length_replicate. split; [done|].
    by apply Forall_replicate.
  - intros i c [-> _]%lookup_replicate. done.
Qed.

Lemma out_tree_replicate t :
  Dyntree.out_tree B (Dyntree.Incounter_node (replicate B (None, t))).
Proof.
  apply all_nodes_no_children.
  - by rewrite fmap_replicate, length_replicate.
  - intros i c [-> _]%lookup_replicate. done.
Qed.

Lemma in_tree_length cur :
  Dyntree.in_tree B cur → length (Dyntree.children cur) = B.
Proof. intros [[Hl _] _]%all_nodes_inv. by rewrite length_fmap in Hl. Qed.

Lemma out_tree_length cur :
  Dyntree.out_tree B cur → length (Dyntree.children cur) = B.
Proof. intros [Hl _]%all_nodes_inv. by rewrite length_fmap in Hl. Qed.

Lemma in_tree_slot cur i c :
  Dyntree.in_tree B cur → Dyntree.children cur !! i = Some c →
  c.2 = 0 ∧ match c.1 with Some m => Dyntree.in_tree B m | None => True end.
Proof.
  intros [[_ Htags] Hch]%all_nodes_inv Hi. split.
  - rewrite Forall_lookup in Htags. apply (Htags i).
    by rewrite list_lookup_fmap, Hi.
  - destruct c as [[m|] t]; simpl; [|done]. by eapply Hch.
Qed.

Lemma is_leaf_from_true cs :
  Dyntree.is_leaf_from cs = true ↔ ∀ i c, cs !! i = Some c → c.1 = None.
Proof.
  induction cs as [|[[m|] t] cs IH]; simpl.
  - split; [|done]. intros _ i c. by rewrite lookup_nil.
  - split; [done|]. intros H. by specialize (H O _ eq_refl).
  - rewrite IH. split.
    + intros H [|i] c Hi; simplify_eq/=; eauto.
    + intros H i c Hi. by apply (H (S i)).
Qed.

Lemma is_leaf_from_false cs :
  Dyntree.is_leaf_from cs = false → ∃ i m t, cs !! i = Some (Some m, t).
Proof.
  induction cs as [|[[m|] t] cs IH]; simpl; intros H.
  - done.
  - by exists O, m, t.
  - destruct (IH H) as (i & m & t' & Hi). by exists (S i), m, t'.
Qed.

Lemma in_tree_is_leaf_true cur :
  Dyntree.in_tree B cur → Dyntree.is_leaf B cur = true →
  Dyntree.children cur = replicate B (None, 0).
Proof.
  intros Hcur Hleaf. unfold Dyntree.is_leaf in Hleaf.
  pose proof (in_tree_length _ Hcur) as Hlen.
  rewrite <- Hlen, firstn_all in Hleaf.
  rewrite is_leaf_from_true in Hleaf.
  apply list_eq_same_length with B; [by rewrite length_replicate|done|].
  intros i x y Hi Hx [-> _]%lookup_replicate.
  destruct (in_tree_slot _ _ _ Hcur Hx) as [Ht _].
  specialize (Hleaf _ _ Hx). destruct x as [p t]. simpl in *. by subst.
Qed.

Lemma in_tree_is_leaf_false cur :
  Dyntree.in_tree B cur → Dyntree.is_leaf B cur = false →
  ∃ i m, (i < B)%nat ∧ Dyntree.children cur !! i = Some (Some m, 0)
         ∧ Dyntree.in_tree B m.
Proof.
  intros Hcur Hleaf. unfold Dyntree.is_leaf in Hleaf.
  pose proof (in_tree_length _ Hcur) as Hlen.
  rewrite <- Hlen, firstn_all in Hleaf.
  destruct (is_leaf_from_false _ Hleaf) as (i & m & t & Hi).
  destruct (in_tree_slot _ _ _ Hcur Hi) as [Ht Hm]. simpl in *. subst t.
  exists i, m. split_and!; [|done..].
  rewrite <- Hlen. by eapply lookup_lt_Some.
Qed.

Lemma nb_nodes_pos n : (0 < Dyntree.nb_nodes n)%nat.
Proof. destruct n. simpl. lia. Qed.

Lemma nb_nodes_child cur i m t :
  Dyntree.children cur !! i = Some (Some m, t) →
  (Dyntree.nb_nodes m < Dyntree.nb_nodes cur)%nat.
Proof.
  intros Hi. rewrite (nb_nodes_eq cur).
  pose proof (list_sum_lookup_le weight _ _ _ Hi). simpl in *. lia.
Qed.

Lemma nb_nodes_leaf cur :
  Dyntree.children cur = replicate B (None, 0) → Dyntree.nb_nodes cur = 1%nat.
Proof. intros H. by rewrite nb_nodes_eq, H, weight_replicate_null. Qed.

Lemma in_tree_leaf_iff cur :
  Dyntree.in_tree B cur →
  Dyntree.is_leaf B cur = true ↔ Dyntree.nb_nodes cur = 1%nat.
Proof.
  intros Hcur. split.
  - intros H. by apply nb_nodes_leaf, in_tree_is_leaf_true.
  - intros H. destruct (Dyntree.is_leaf B cur) eqn:E; [done|].
    destruct (in_tree_is_leaf_false _ Hcur E) as (i & m & _ & Hi & _).
    pose proof (nb_nodes_child _ _ _ _ Hi). pose proof (nb_nodes_pos m). lia.
Qed.

Lemma store_at_spec root path cur i v :
  Dyntree.node_at root path = Some cur →
  (i < length (Dyntree.children cur))%nat →
  Dyntree.store_at root path i v
  = Some (Dyntree.replace_at root path
            (Dyntree.Incounter_node (<[i := v]> (Dyntree.children cur)))).
Proof.
  intros Hat Hi. unfold Dyntree.store_at. rewrite Hat.
  by rewrite decide_True.
Qed.

Lemma store_at_inv root path i v root' :
  Dyntree.store_at root path i v = Some root' →
  ∃ cur, Dyntree.node_at root path = Some cur
         ∧ (i < length (Dyntree.children cur))%nat
         ∧ root' = Dyntree.replace_at root path
                     (Dyntree.Incounter_node (<[i := v]> (Dyntree.children cur))).
Proof.
  unfold Dyntree.store_at. intros H.
  destruct (Dyntree.node_at root path) as [cur|]; [|done].
  case_decide; [|done]. simplify_eq. eauto.
Qed.

Lemma all_nodes_set_slot P cur i v :
  Dyntree.all_nodes P cur →
  P (<[i := v.2]> ((Dyntree.children cur).*2)) →
  (∀ m, v.1 = Some m → Dyntree.all_nodes P m) →
  Dyntree.all_nodes P (Dyntree.Incounter_node (<[i := v]> (Dyntree.children cur))).
Proof.
  intros [_ Hch]%all_nodes_inv HP Hv. constructor.
  - by rewrite list_fmap_insert.
  - intros j m t Hj. destruct (decide (j = i)) as [->|Hne].
    + rewrite list_lookup_insert_eq in Hj by (by eapply lookup_lt_Some, Hj || (apply lookup_lt_Some in Hj; by rewrite length_insert in Hj)).
      simplify_eq. by apply Hv.
    + rewrite list_lookup_insert_ne in Hj by done. eauto.
Qed.

Lemma in_tree_set_slot cur i v :
  Dyntree.in_tree B cur → v.2 = 0 →
  (∀ m, v.1 = Some m → Dyntree.in_tree B m) →
  Dyntree.in_tree B (Dyntree.Incounter_node (<[i := v]> (Dyntree.children cur))).
Proof.
  intros Hcur Hv Hm. apply all_nodes_set_slot; [done| |done].
  apply all_nodes_inv in Hcur as [[Hl Ht] _]. split.
  - by rewrite length_insert.
  - rewrite Hv. by apply Forall_insert.
Qed.

Lemma out_tree_set_slot cur i v :
  Dyntree.out_tree B cur →
  (∀ m, v.1 = Some m → Dyntree.out_tree B m) →
  Dyntree.out_tree B (Dyntree.Incounter_node (<[i := v]> (Dyntree.children cur))).
Proof.
  intros Hcur Hm. apply all_nodes_set_slot; [done| |done].
  apply all_nodes_inv in Hcur as [Hl _]. by rewrite length_insert.
Qed.

Lemma nb_nodes_set_slot cur i c v :
  Dyntree.children cur !! i = Some c →
  (Dyntree.nb_nodes (Dyntree.Incounter_node (<[i := v]> (Dyntree.children cur)))
   + weight c = Dyntree.nb_nodes cur + weight v)%nat.
Proof.
  intros Hi. rewrite (nb_nodes_eq cur). simpl.
  pose proof (list_sum_insert weight _ _ _ v Hi). lia.
Qed.

Lemma is_nullptr_true (c : slot) : is_nullptr c = true → c = (None, 0).
Proof.
  destruct c as [[m|] t]; simpl; [done|].
  intros H%bool_decide_eq_true. by subst.
Qed.

Lemma cas_from_null_inv (cs : list slot) i v b cs' :
  Dyntree.cas_from_null cs i v = Some (b, cs') →
  ∃ c, cs !! i = Some c
       ∧ if b then c = (None, 0) ∧ cs' = <[i := v]> cs
         else is_nullptr c = false ∧ cs' = cs.
Proof.
  unfold Dyntree.cas_from_null. intros H.
  destruct (cs !! i) as [c|]; [|done]. exists c. split; [done|].
  destruct (is_nullptr c) eqn:E; simplify_eq; [|done].
  split; [by apply is_nullptr_true|done].
Qed.

Lemma increment_walk_safe tape root path leaf tape' root' :
  Dyntree.in_tree B root → Dyntree.in_tree B leaf →
  Dyntree.increment_walk B tape root path leaf = Some (tape', root') →
  Dyntree.in_tree B root'
  ∧ Dyntree.nb_nodes root' = (Dyntree.nb_nodes root + Dyntree.nb_nodes leaf)%nat.
Proof.
  intros Hroot Hleaf. revert path.
  induction tape as [|r tape IH]; intros path Hrun; [done|].
  cbn [Dyntree.increment_walk] in Hrun.
  destruct (Dyntree.node_at root path) as [cur|] eqn:Hat; [|done].
  destruct (Dyntree.children cur !! (r mod B)%nat) as [next|] eqn:Hnext; [|done].
  case_bool_decide; [by eauto|].
  destruct (is_nullptr next) eqn:Hnull; [|by eauto].
  destruct (Dyntree.cas_from_null _ _ _) as [[[] cs']|] eqn:Hcas; [| by eauto | done].
  apply cas_from_null_inv in Hcas as (c & Hc & -> & ->). simplify_eq.
  pose proof (all_nodes_node_at _ _ _ _ Hroot Hat) as Hcur.
  split.
  - eapply all_nodes_replace_at; [done..|].
    apply in_tree_set_slot; [done..|]. simpl. by intros m [= <-].
  - pose proof (nb_nodes_replace_at root path cur
      (Dyntree.Incounter_node (<[(r mod B)%nat := (Some leaf, 0)]> (Dyntree.children cur))) Hat).
    pose proof (nb_nodes_set_slot cur _ _ (Some leaf, 0) Hnext). simpl in *. lia.
Qed.

Lemma increment_walk_progress root leaf :
  (0 < B)%nat → Dyntree.in_tree B root →
  ∀ n cur path,
    (Dyntree.nb_nodes cur ≤ n)%nat →
    Dyntree.node_at root path = Some cur →
    ∃ t1 root', ∀ ext,
      Dyntree.increment_walk B (t1 ++ ext) root path leaf = Some (ext, root').
Proof.
  intros HB Hroot. induction n as [|n IH]; intros cur path Hn Hat.
  { pose proof (nb_nodes_pos cur). lia. }
  pose proof (all_nodes_node_at _ _ _ _ Hroot Hat) as Hcur.
  pose proof (in_tree_length _ Hcur) as Hlen.
  destruct (lookup_lt_is_Some_2 (Dyntree.children cur) O) as [c Hc]; [lia|].
  destruct (in_tree_slot _ _ _ Hcur Hc) as [Ht Hm].
  destruct c as [[m|] t]; simpl in *; subst t.
  - destruct (IH m (path ++ [O])) as (t1 & root' & Hrun).
    { pose proof (nb_nodes_child _ _ _ _ Hc). lia. }
    { by rewrite node_at_app, Hat, Hc. }
    exists (O :: t1), root'. intros ext.
    rewrite <- app_comm_cons. cbn [Dyntree.increment_walk].
    rewrite Hat, Nat.Div0.mod_0_l, Hc. simpl. apply Hrun.
  - eexists [O], _. intros ext.
    rewrite <- app_comm_cons. cbn [Dyntree.increment_walk].
    rewrite Hat, Nat.Div0.mod_0_l, Hc. simpl.
    unfold Dyntree.cas_from_null. rewrite Hc. simpl. done.
Qed.

Lemma add_to_out_walk_safe tape root path n tape' root' :
  Dyntree.out_tree B root → Dyntree.out_tree B n →
  Dyntree.add_to_out_walk B tape root path n = Some (tape', root') →
  Dyntree.out_tree B root'.
Proof.
  intros Hroot Hn. revert path.
  induction tape as [|r tape IH]; intros path Hrun; [done|].
  cbn [Dyntree.add_to_out_walk] in Hrun.
  destruct (Dyntree.node_at root path) as [cur|] eqn:Hat; [|done].
  destruct (Dyntree.children cur !! (r mod B)%nat) as [next|] eqn:Hnext; [|done].
  destruct (tagged_pointer_of next) eqn:Hp; [by eauto|].
  destruct (Dyntree.store_at _ _ _ _) as [root1|] eqn:Hst; [|done].
  simplify_eq.
  apply store_at_inv in Hst as (cur' & Hat' & Hi & ->). simplify_eq.
  pose proof (all_nodes_node_at _ _ _ _ Hroot Hat) as Hcur.
  eapply all_nodes_replace_at; [done..|].
  apply out_tree_set_slot; [done|]. simpl. by intros m [= <-].
Qed.

Lemma add_to_out_walk_progress root n :
  (0 < B)%nat → Dyntree.out_tree B root →
  ∀ k cur path,
    (Dyntree.nb_nodes cur ≤ k)%nat →
    Dyntree.node_at root path = Some cur →
    ∃ t1 root', ∀ ext,
      Dyntree.add_to_out_walk B (t1 ++ ext) root path n = Some (ext, root').
Proof.
  intros HB Hroot. induction k as [|k IH]; intros cur path Hk Hat.
  { pose proof (nb_nodes_pos cur). lia. }
  pose proof (all_nodes_node_at _ _ _ _ Hroot Hat) as Hcur.
  pose proof (out_tree_length _ Hcur) as Hlen.
  destruct (lookup_lt_is_Some_2 (Dyntree.children cur) O) as [c Hc]; [lia|].
  destruct c as [[m|] t].
  - destruct (IH m (path ++ [O])) as (t1 & root' & Hrun).
    { pose proof (nb_nodes_child _ _ _ _ Hc). lia. }
    { by rewrite node_at_app, Hat, Hc. }
    exists (O :: t1), root'. intros ext.
    rewrite <- app_comm_cons. cbn [Dyntree.add_to_out_walk].
    rewrite Hat, Nat.Div0.mod_0_l, Hc. simpl. apply Hrun.
  - eexists [O], _. intros ext.
    rewrite <- app_comm_cons. cbn [Dyntree.add_to_out_walk].
    rewrite Hat, Nat.Div0.mod_0_l, Hc. simpl.
    rewrite (store_at_spec _ _ _ _ _ Hat) by lia. done.
Qed.

Lemma try_to_detatch_leaf cur :
  Dyntree.in_tree B cur → Dyntree.is_leaf B cur = true →
  ∃ n', Dyntree.try_to_detatch B cur = Some (true, n')
        ∧ Dyntree.children n' = replicate B Dyntree.minus.
Proof.
  intros Hcur Hleaf.
  pose proof (in_tree_is_leaf_true _ Hcur Hleaf) as Hcs.
  pose proof (in_tree_length _ Hcur) as Hlen.
  unfold Dyntree.try_to_detatch.
  destruct (try_to_detatch_from_spec B 0 (Dyntree.children cur))
    as (b & cs' & Hrun & Ht & Hf); [lia|done|].
  simpl in Hrun. rewrite drop_0 in Hrun. rewrite Hrun.
  destruct b.
  - exists (Dyntree.Incounter_node cs'). split; [done|].
    destruct Ht as [-> _]; [done|]. by rewrite Hlen.
  - destruct Hf as [_ (j & c & Hj & Hc)]; [done|].
    rewrite Hcs in Hj. apply lookup_replicate in Hj as [-> _]. done.
Qed.

Lemma detach_root_not_leaf root :
  Dyntree.is_leaf B root = false → Dyntree.detach_root B root = Some (inr root).
Proof. intros H. unfold Dyntree.detach_root. by rewrite H. Qed.

Lemma decrement_walk_safe tape root path tape' d :
  Dyntree.in_tree B root → Dyntree.is_leaf B root = false →
  Dyntree.decrement_walk B tape root path = Some (tape', d) →
  ∃ root' n,
    d = Dyntree.Detached_below root' n
    ∧ Dyntree.in_tree B root'
    ∧ S (Dyntree.nb_nodes root') = Dyntree.nb_nodes root
    ∧ Dyntree.children n = replicate B Dyntree.minus.
Proof.
  intros Hroot Hnl. revert path.
  induction tape as [|r tape IH]; intros path Hrun; [done|].
  cbn [Dyntree.decrement_walk] in Hrun.
  rewrite (detach_root_not_leaf _ Hnl) in Hrun.
  destruct (Dyntree.node_at root path) as [cur|] eqn:Hat; [|done].
  destruct (Dyntree.children cur !! (r mod B)%nat) as [next|] eqn:Hnext; [|done].
  destruct (is_nullptr next || bool_decide (tagged_tag_of next = Dyntree.minus_tag));
    [by eauto|].
  destruct (tagged_pointer_of next) as [n|] eqn:Hp; [|done].
  destruct next as [p t]. simpl in Hp. subst p.
  pose proof (all_nodes_node_at _ _ _ _ Hroot Hat) as Hcur.
  destruct (in_tree_slot _ _ _ Hcur Hnext) as [Ht Hn]. simpl in Ht, Hn. subst t.
  destruct (Dyntree.is_leaf B n) eqn:Hleaf; [|by eauto].
  destruct (try_to_detatch_leaf _ Hn Hleaf) as (n' & Htry & Hn').
  rewrite Htry in Hrun.
  destruct (Dyntree.store_at _ _ _ _) as [root1|] eqn:Hst; [|done].
  simplify_eq.
  apply store_at_inv in Hst as (cur' & Hat' & Hi & ->). simplify_eq.
  eexists _, _. split; [done|]. split_and!; [| |done].
  - eapply all_nodes_replace_at; [done..|].
    apply in_tree_set_slot; [done..|]. simpl. by intros m [=].
  - pose proof (nb_nodes_replace_at root path cur
      (Dyntree.Incounter_node (<[(r mod B)%nat := (None, 0)]> (Dyntree.children cur))) Hat).
    pose proof (nb_nodes_set_slot cur _ _ (None, 0) Hnext).
    pose proof (nb_nodes_leaf n (in_tree_is_leaf_true _ Hn Hleaf)).
    simpl in *. lia.
Qed.

Lemma decrement_walk_progress root :
  (0 < B)%nat → Dyntree.in_tree B root →
  ∀ k cur path,
    (Dyntree.nb_nodes cur ≤ k)%nat →
    Dyntree.node_at root path = Some cur →
    Dyntree.is_leaf B cur = false →
    ∃ t1 d, ∀ ext,
      Dyntree.decrement_walk B (t1 ++ ext) root path = Some (ext, d).
Proof.
  intros HB Hroot. induction k as [|k IH]; intros cur path Hk Hat Hnl.
  { pose proof (nb_nodes_pos cur). lia. }
  pose proof (all_nodes_node_at _ _ _ _ Hroot Hat) as Hcur.
  destruct (in_tree_is_leaf_false _ Hcur Hnl) as (i & m & Hi & Hc & Hm).
  destruct (Dyntree.is_leaf B m) eqn:Hleaf.
  - destruct (try_to_detatch_leaf _ Hm Hleaf) as (n' & Htry & Hn').
    eexists [i], _. intros ext.
    rewrite <- app_comm_cons. cbn [Dyntree.decrement_walk].
    rewrite Hat, (Nat.mod_small _ _ Hi), Hc. simpl. rewrite Hleaf, Htry.
    rewrite (store_at_spec _ _ _ _ _ Hat); [done|].
    by eapply lookup_lt_Some.
  - destruct (IH m (path ++ [i])) as (t1 & d & Hrun); [| |done|].
    { pose proof (nb_nodes_child _ _ _ _ Hc). lia. }
    { by rewrite node_at_app, Hat, Hc. }
    exists (i :: t1), d. intros ext.
    rewrite <- app_comm_cons. cbn [Dyntree.decrement_walk].
    rewrite Hat, (Nat.mod_small _ _ Hi), Hc. simpl. rewrite Hleaf. apply Hrun.
Qed.

Lemma out_tree_detached n :
  Dyntree.children n = replicate B Dyntree.minus → Dyntree.out_tree B n.
Proof. destruct n as [cs]. simpl. intros ->. apply out_tree_replicate. Qed.

Lemma add_to_out_safe tape c n tape' c' :
  Dyntree.incounter_inv B c → Dyntree.out_tree B n →
  Dyntree.add_to_out B tape c n = Some (tape', c') →
  Dyntree.incounter_inv B c' ∧ Dyntree.in_ c' = Dyntree.in_ c.
Proof.
  intros [Hin (o & t & Hout & Ho)] Hn Hrun. unfold Dyntree.add_to_out in Hrun.
  rewrite Hout in Hrun. simpl in Hrun.
  destruct (Dyntree.add_to_out_walk _ _ _ _ _) as [[tape1 root']|] eqn:Hw; [|done].
  simplify_eq. split; [|done]. split; [done|]. simpl.
  eexists _, _. split; [done|]. exact (add_to_out_walk_safe _ _ _ _ _ _ Ho Hn Hw).
Qed.

Lemma add_to_out_progress c n :
  (0 < B)%nat → Dyntree.incounter_inv B c →
  ∃ t1 c', ∀ ext, Dyntree.add_to_out B (t1 ++ ext) c n = Some (ext, c').
Proof.
  intros HB [Hin (o & t & Hout & Ho)].
  destruct (add_to_out_walk_progress o n HB Ho _ o [] (le_n _) eq_refl)
    as (t1 & root' & Hrun).
  eexists t1, _. intros ext. unfold Dyntree.add_to_out.
  rewrite Hout. simpl. by rewrite Hrun.
Qed.

Lemma increment_safe tape c tape' c' :
  Dyntree.incounter_inv B c →
  Dyntree.increment B tape c = Some (tape', c') →
  Dyntree.incounter_inv B c'
  ∧ Dyntree.logical_count c' = S (Dyntree.logical_count c).
Proof.
  intros [Hin Hout] Hrun. unfold Dyntree.increment in Hrun.
  unfold Dyntree.logical_count, Dyntree.incounter_inv.
  destruct (Dyntree.in_ c) as [root|] eqn:Hroot.
  - destruct (Dyntree.increment_walk _ _ _ _ _) as [[tape1 root']|] eqn:Hw; [|done].
    simplify_eq. cbn [Dyntree.in_ Dyntree.out].
    destruct (increment_walk_safe _ _ _ _ _ _ Hin in_tree_init Hw) as [H1 H2].
    rewrite nb_nodes_init in H2. split; [done|lia].
  - simplify_eq. cbn [Dyntree.in_ Dyntree.out]. split; [|by rewrite nb_nodes_init].
    split; [apply in_tree_init|done].
Qed.

Lemma increment_progress c :
  (0 < B)%nat → Dyntree.incounter_inv B c →
  ∃ t1 c', ∀ ext, Dyntree.increment B (t1 ++ ext) c = Some (ext, c').
Proof.
  intros HB [Hin Hout]. unfold Dyntree.increment.
  destruct (Dyntree.in_ c) as [root|] eqn:Hroot.
  - destruct (increment_walk_progress root (Dyntree.init B (None, 0)) HB Hin
                _ root [] (le_n _) eq_refl) as (t1 & root' & Hrun).
    eexists t1, _. intros ext. by rewrite Hrun.
  - eexists [], _. intros ext. done.
Qed.

Lemma decrement_safe tape c tape' st c' :
  Dyntree.incounter_inv B c →
  Dyntree.decrement B tape c = Some (tape', (st, c')) →
  Dyntree.incounter_inv B c'
  ∧ S (Dyntree.logical_count c') = Dyntree.logical_count c
  ∧ (st = activated ↔ Dyntree.logical_count c' = O).
Proof.
  intros [Hin Hout] Hrun. unfold Dyntree.decrement in Hrun.
  unfold Dyntree.logical_count.
  destruct (Dyntree.in_ c) as [root|] eqn:Hroot; [|done].
  destruct (Dyntree.is_leaf B root) eqn:Hleaf.
  - destruct (try_to_detatch_leaf _ Hin Hleaf) as (n' & Htry & Hn').
    unfold Dyntree.detach_root in Hrun. rewrite Hleaf, Htry in Hrun.
    destruct (Dyntree.add_to_out _ _ _ _) as [[tape1 c1]|] eqn:Hadd; [|done].
    simplify_eq.
    destruct (add_to_out_safe _ _ _ _ _ (conj I Hout : Dyntree.incounter_inv B
                 {| Dyntree.in_ := None; Dyntree.out := Dyntree.out c |})
                (out_tree_detached _ Hn') Hadd) as [Hinv Hin'].
    simpl in Hin'. rewrite Hin'. split; [done|].
    by rewrite (nb_nodes_leaf _ (in_tree_is_leaf_true _ Hin Hleaf)).
  - rewrite (detach_root_not_leaf _ Hleaf) in Hrun.
    destruct (Dyntree.decrement_walk _ _ _ _) as [[tape1 d]|] eqn:Hw; [|done].
    destruct (decrement_walk_safe _ _ _ _ _ Hin Hleaf Hw)
      as (root' & n & -> & Hroot' & Hnb & Hn).
    destruct (Dyntree.add_to_out _ _ _ _) as [[tape2 c2]|] eqn:Hadd; [|done].
    simplify_eq.
    destruct (add_to_out_safe _ _ _ _ _ (conj Hroot' Hout : Dyntree.incounter_inv B
                 {| Dyntree.in_ := Some root'; Dyntree.out := Dyntree.out c |})
                (out_tree_detached _ Hn) Hadd) as [Hinv Hin'].
    simpl in Hin'. rewrite Hin'. split; [done|]. split; [done|].
    pose proof (nb_nodes_pos root'). split; [done|lia].
Qed.

Lemma decrement_progress c :
  (0 < B)%nat → Dyntree.incounter_inv B c →
  (0 < Dyntree.logical_count c)%nat →
  ∃ t1 r, ∀ ext, Dyntree.decrement B (t1 ++ ext) c = Some (ext, r).
Proof.
  intros HB [Hin Hout] Hpos. unfold Dyntree.decrement.
  unfold Dyntree.logical_count in Hpos.
  destruct (Dyntree.in_ c) as [root|] eqn:Hroot; [|lia].
  destruct (Dyntree.is_leaf B root) eqn:Hleaf.
  - destruct (try_to_detatch_leaf _ Hin Hleaf) as (n' & Htry & Hn').
    unfold Dyntree.detach_root. rewrite Hleaf, Htry.
    destruct (add_to_out_progress {| Dyntree.in_ := None; Dyntree.out := Dyntree.out c |}
                n' HB (conj I Hout)) as (t1 & c1 & Hadd).
    eexists t1, _. intros ext. by rewrite Hadd.
  - rewrite (detach_root_not_leaf _ Hleaf).
    destruct (decrement_walk_progress root HB Hin _ root [] (le_n _) eq_refl Hleaf)
      as (t1 & d & Hw).
    pose proof (Hw []) as Hw0. rewrite app_nil_r in Hw0.
    destruct (decrement_walk_safe _ _ _ _ _ Hin Hleaf Hw0)
      as (root' & n & -> & Hroot' & Hnb & Hn).
    destruct (add_to_out_progress
                {| Dyntree.in_ := Some root'; Dyntree.out := Dyntree.out c |}
                n HB (conj Hroot' Hout)) as (t2 & c2 & Hadd).
    eexists (t1 ++ t2), _. intros ext.
    rewrite <- app_assoc, Hw. by rewrite Hadd.
Qed.

Lemma incounter_inv_new : Dyntree.incounter_inv B (Dyntree.dyntree_incounter_new B).
Proof.
  split; [done|]. eexists _, _. split; [done|]. apply out_tree_replicate.
Qed.

Lemma is_activated_iff c :
  Dyntree.is_activated c = true ↔ Dyntree.logical_count c = O.
Proof.
  unfold Dyntree.is_activated, Dyntree.logical_count.
  destruct (Dyntree.in_ c) as [root|]; [|done].
  pose proof (nb_nodes_pos root). split; [done|lia].
Qed.

Lemma nb_ops_cons o x ops :
  nb_ops o (x :: ops)
  = ((if decide (x = o) then 1 else 0) + nb_ops o ops)%nat.
Proof.
  unfold nb_ops. rewrite filter_cons. by case_decide.
Qed.

Lemma run_safe ops : ∀ tape c tape' c',
  Dyntree.incounter_inv B c →
  never_negative (Dyntree.logical_count c) ops = true →
  Dyntree.run B tape ops c = Some (tape', c') →
  Dyntree.incounter_inv B c'
  ∧ (Dyntree.logical_count c' + nb_ops Decrement ops
     = Dyntree.logical_count c + nb_ops Increment ops)%nat.
Proof.
  induction ops as [|[] ops IH]; intros tape c tape' c' Hinv Hnn Hrun.
  - simpl in Hrun. simplify_eq. split; [done|]. unfold nb_ops. simpl. lia.
  - cbn [Dyntree.run] in Hrun.
    destruct (Dyntree.increment B tape c) as [[tape1 c1]|] eqn:Hop; [|done].
    destruct (increment_safe _ _ _ _ Hinv Hop) as [Hinv1 Hc1].
    cbn [never_negative] in Hnn. rewrite <- Hc1 in Hnn.
    destruct (IH _ _ _ _ Hinv1 Hnn Hrun) as [Hinv' Hc']. split; [done|].
    rewrite !nb_ops_cons. repeat case_decide; try done. lia.
  - cbn [Dyntree.run] in Hrun.
    destruct (Dyntree.decrement B tape c) as [[tape1 [st c1]]|] eqn:Hop; [|done].
    destruct (decrement_safe _ _ _ _ _ Hinv Hop) as (Hinv1 & Hc1 & _).
    cbn [never_negative] in Hnn. rewrite <- Hc1 in Hnn.
    destruct (IH _ _ _ _ Hinv1 Hnn Hrun) as [Hinv' Hc']. split; [done|].
    rewrite !nb_ops_cons. repeat case_decide; try done. lia.
Qed.

Lemma run_progress ops : ∀ c,
  (0 < B)%nat →
  Dyntree.incounter_inv B c →
  never_negative (Dyntree.logical_count c) ops = true →
  ∃ t1 c', ∀ ext, Dyntree.run B (t1 ++ ext) ops c = Some (ext, c').
Proof.
  induction ops as [|[] ops IH]; intros c HB Hinv Hnn.
  - by exists [], c.
  - destruct (increment_progress c HB Hinv) as (t1 & c1 & Hop).
    pose proof (Hop []) as Hop0. rewrite app_nil_r in Hop0.
    destruct (increment_safe _ _ _ _ Hinv Hop0) as [Hinv1 Hc1].
    cbn [never_negative] in Hnn. rewrite <- Hc1 in Hnn.
    destruct (IH c1 HB Hinv1 Hnn) as (t2 & c2 & Hrest).
    exists (t1 ++ t2), c2. intros ext. cbn [Dyntree.run].
    by rewrite <- app_assoc, Hop.
  - cbn [never_negative] in Hnn.
    destruct (Dyntree.logical_count c) as [|k] eqn:Hk; [done|].
    destruct (decrement_progress c HB Hinv) as (t1 & [st c1] & Hop); [lia|].
    pose proof (Hop []) as Hop0. rewrite app_nil_r in Hop0.
    destruct (decrement_safe _ _ _ _ _ Hinv Hop0) as (Hinv1 & Hc1 & _).
    assert (Dyntree.logical_count c1 = k) as Hk1 by lia. rewrite <- Hk1 in Hnn.
    destruct (IH c1 HB Hinv1 Hnn) as (t2 & c2 & Hrest).
    exists (t1 ++ t2), c2. intros ext. cbn [Dyntree.run].
    by rewrite <- app_assoc, Hop.
Qed.

(** C3.  Dyntree in-counter, from its constructor, over any sequence of
    increments and decrements in which decrements never outnumber
    increments: some tape of draws lets the whole sequence return; and on
    every tape on which it returns, the number of nodes of the in-tree is
    the number of increments less the number of decrements, and
    [is_activated] holds exactly when the in-tree is empty, that is exactly
    when as many decrements as increments were performed.  (The statement
    covers every prefix of the sequence, hence the state after each
    operation.) *)
Theorem dyntree_incounter_activated_iff_balanced (ops : list incounter_op) :
  (0 < B)%nat →
  never_negative 0 ops = true →
  (∃ tape c', Dyntree.run B tape ops (Dyntree.dyntree_incounter_new B) = Some ([], c'))
  ∧ ∀ tape tape' c',
      Dyntree.run B tape ops (Dyntree.dyntree_incounter_new B) = Some (tape', c') →
      (Dyntree.logical_count c' + nb_ops Decrement ops
       = nb_ops Increment ops)%nat
      ∧ (Dyntree.is_activated c' = true ↔ Dyntree.logical_count c' = O)
      ∧ (Dyntree.is_activated c' = true
         ↔ nb_ops Increment ops = nb_ops Decrement ops).
Proof.
  intros HB Hnn. split.
  - destruct (run_progress ops _ HB incounter_inv_new Hnn) as (t1 & c' & Hrun).
    exists t1, c'. specialize (Hrun []). by rewrite app_nil_r in Hrun.
  - intros tape tape' c' Hrun.
    destruct (run_safe _ _ _ _ _ incounter_inv_new Hnn Hrun) as [_ Hc].
    change (Dyntree.logical_count (Dyntree.dyntree_incounter_new B)) with O in Hc.
    split; [lia|]. split; [apply is_activated_iff|].
    rewrite is_activated_iff. lia.
Qed.

End DyntreeIncounterRuns.

Lemma dyntree_incounter_activated_iff_balanced_witness :
  let ops := [Increment; Increment; Decrement;
              Increment; Decrement; Decrement] in
  (∃ tape c',
     Dyntree.run 2 tape ops (Dyntree.dyntree_incounter_new 2) = Some ([], c'))
  ∧ ∀ tape tape' c',
      Dyntree.run 2 tape ops (Dyntree.dyntree_incounter_new 2) = Some (tape', c') →
      (Dyntree.logical_count c' + nb_ops Decrement ops
       = nb_ops Increment ops)%nat
      ∧ (Dyntree.is_activated c' = true ↔ Dyntree.logical_count c' = O)
      ∧ (Dyntree.is_activated c' = true
         ↔ nb_ops Increment ops
           = nb_ops Decrement ops).
Proof.
  apply (dyntree_incounter_activated_iff_balanced 2); [lia|reflexivity].
Defined.

(** Two increments and two decrements with branching factor 2: the first
    decrement detaches the leaf below the root, the second the root. *)
Example dyntree_incounter_run :
  Dyntree.run 2 [0; 0; 0; 0; 0]%nat
    [Increment; Increment; Decrement; Decrement]
    (Dyntree.dyntree_incounter_new 2)
  = Some ([],
      {| Dyntree.in_ := None;
         Dyntree.out :=
           (Some (Dyntree.Incounter_node
              [(Some (Dyntree.Incounter_node
                  [(Some (Dyntree.init 2 Dyntree.minus), 1); (None, 1)]), 1);
               (None, 1)]), 1) |}).
Proof. reflexivity. Qed.

(** ** direct::dyntree : the out-set *)

Section DyntreeOutsetFacts.

Variable B : nat.

Abbreviation oslot := (DyntreeOutset.tagged_pointer_type DyntreeOutset.outset_node).
Abbreviation oweight := (fun c : oslot =>
   match c with
   | DyntreeOutset.Interior m | DyntreeOutset.Finished_interior m =>
       DyntreeOutset.nb_nodes m
   | _ => O
   end).

Lemma onode_at_cons root i path :
  DyntreeOutset.node_at root (i :: path) =
  match DyntreeOutset.children root !! i with
  | Some p => match DyntreeOutset.subtree_of p with
              | Some m => DyntreeOutset.node_at m path
              | None => None
              end
  | None => None
  end.
Proof. done. Qed.

Lemma oreplace_at_cons root i path n' :
  DyntreeOutset.replace_at root (i :: path) n' =
  match DyntreeOutset.children root !! i with
  | Some p =>
      match DyntreeOutset.subtree_of p with
      | Some m =>
          DyntreeOutset.Outset_node (<[i := DyntreeOutset.with_subtree p (DyntreeOutset.replace_at m path n')]> (DyntreeOutset.children root))
      | None => root
      end
  | None => root
  end.
Proof. done. Qed.

Lemma onode_at_app root path i :
  DyntreeOutset.node_at root (path ++ [i]) =
  match DyntreeOutset.node_at root path with
  | Some cur => match DyntreeOutset.children cur !! i with
                | Some p => DyntreeOutset.subtree_of p
                | None => None
                end
  | None => None
  end.
Proof.
  revert root. induction path as [|j path IH]; intros root.
  - simpl. destruct (DyntreeOutset.children root !! i) as [p|]; [|done].
    by destruct (DyntreeOutset.subtree_of p).
  - rewrite <- app_comm_cons, !onode_at_cons.
    destruct (DyntreeOutset.children root !! j) as [p|]; [|done].
    destruct (DyntreeOutset.subtree_of p); [apply IH|done].
Qed.

Lemma oreplace_at_app root path cur i p m m' :
  DyntreeOutset.node_at root path = Some cur →
  DyntreeOutset.children cur !! i = Some p →
  DyntreeOutset.subtree_of p = Some m →
  DyntreeOutset.replace_at root (path ++ [i]) m'
  = DyntreeOutset.replace_at root path
      (DyntreeOutset.Outset_node (<[i := DyntreeOutset.with_subtree p m']> (DyntreeOutset.children cur))).
Proof.
  revert root. induction path as [|j path IH]; intros root Hat Hi Hp.
  - simpl in Hat. simplify_eq. simpl. by rewrite Hi, Hp.
  - rewrite <- app_comm_cons, !oreplace_at_cons. rewrite onode_at_cons in Hat.
    destruct (DyntreeOutset.children root !! j) as [q|]; [|done].
    destruct (DyntreeOutset.subtree_of q) as [n|]; [|done].
    by rewrite (IH n Hat Hi Hp).
Qed.

Lemma oall_nodes_inv P root :
  DyntreeOutset.all_nodes P root →
  P (DyntreeOutset.children root)
  ∧ ∀ i p m, DyntreeOutset.children root !! i = Some p → DyntreeOutset.subtree_of p = Some m →
             DyntreeOutset.all_nodes P m.
Proof. by intros [cs HP Hch]. Qed.

Lemma onb_nodes_eq root :
  DyntreeOutset.nb_nodes root = S (list_sum (map oweight (DyntreeOutset.children root))).
Proof. by destruct root. Qed.

Lemma oall_nodes_node_at P root path cur :
  DyntreeOutset.all_nodes P root → DyntreeOutset.node_at root path = Some cur → DyntreeOutset.all_nodes P cur.
Proof.
  revert root. induction path as [|j path IH]; intros root Hroot Hat.
  - simpl in Hat. by simplify_eq.
  - rewrite onode_at_cons in Hat. apply oall_nodes_inv in Hroot as [_ Hch].
    destruct (DyntreeOutset.children root !! j) as [p|] eqn:E; [|done].
    destruct (DyntreeOutset.subtree_of p) as [m|] eqn:Ep; [|done]. eauto.
Qed.

Lemma subtree_of_with_subtree p m t :
  DyntreeOutset.subtree_of p = Some m → DyntreeOutset.subtree_of (DyntreeOutset.with_subtree p t) = Some t.
Proof. by destruct p. Qed.

Lemma tag_of_with_subtree p t : DyntreeOutset.tag_of (DyntreeOutset.with_subtree p t) = DyntreeOutset.tag_of p.
Proof. by destruct p. Qed.

Lemma oall_nodes_replace_at (P : list oslot → Prop) root path cur cur' :
  (∀ cs i p t, P cs → cs !! i = Some p → P (<[i := DyntreeOutset.with_subtree p t]> cs)) →
  DyntreeOutset.all_nodes P root → DyntreeOutset.node_at root path = Some cur →
  DyntreeOutset.all_nodes P cur' →
  DyntreeOutset.all_nodes P (DyntreeOutset.replace_at root path cur').
Proof.
  intros HPw. revert root.
  induction path as [|j path IH]; intros root Hroot Hat Hcur'.
  - done.
  - rewrite onode_at_cons in Hat. rewrite oreplace_at_cons.
    pose proof Hroot as Hroot0.
    apply oall_nodes_inv in Hroot as [HP Hch].
    destruct (DyntreeOutset.children root !! j) as [p|] eqn:E; [|done].
    destruct (DyntreeOutset.subtree_of p) as [m|] eqn:Ep; [|done].
    constructor.
    + by apply HPw.
    + intros i q n Hi Hq.
      destruct (decide (i = j)) as [->|Hne].
      * rewrite list_lookup_insert_eq in Hi by (by eapply lookup_lt_Some).
        simplify_eq. rewrite (subtree_of_with_subtree _ _ _ Ep) in Hq.
        simplify_eq. eauto.
      * rewrite list_lookup_insert_ne in Hi by done. eauto.
Qed.

Lemma well_formed_replace_at root path cur cur' :
  DyntreeOutset.well_formed B root → DyntreeOutset.node_at root path = Some cur →
  DyntreeOutset.well_formed B cur' → DyntreeOutset.well_formed B (DyntreeOutset.replace_at root path cur').
Proof.
  apply oall_nodes_replace_at. intros cs i p t Hl _. by rewrite length_insert.
Qed.

Lemma unfinished_replace_at root path cur cur' :
  DyntreeOutset.unfinished root → DyntreeOutset.node_at root path = Some cur →
  DyntreeOutset.unfinished cur' → DyntreeOutset.unfinished (DyntreeOutset.replace_at root path cur').
Proof.
  apply oall_nodes_replace_at. intros cs i p t Hall Hi.
  apply Forall_insert; [done|]. rewrite tag_of_with_subtree.
  rewrite Forall_lookup in Hall. by apply (Hall i).
Qed.

Lemma well_formed_length cur :
  DyntreeOutset.well_formed B cur → length (DyntreeOutset.children cur) = B.
Proof. by intros [Hl _]%oall_nodes_inv. Qed.

Lemma onb_nodes_pos n : (0 < DyntreeOutset.nb_nodes n)%nat.
Proof. destruct n. simpl. lia. Qed.

Lemma onb_nodes_child cur i p m :
  DyntreeOutset.children cur !! i = Some p → DyntreeOutset.subtree_of p = Some m →
  (DyntreeOutset.nb_nodes m < DyntreeOutset.nb_nodes cur)%nat.
Proof.
  intros Hi Hp. rewrite (onb_nodes_eq cur).
  pose proof (list_sum_lookup_le oweight _ _ _ Hi).
  destruct p; simplify_eq/=; lia.
Qed.

Lemma ostore_at_spec root path cur i v :
  DyntreeOutset.node_at root path = Some cur →
  (i < length (DyntreeOutset.children cur))%nat →
  DyntreeOutset.store_at root path i v
  = Some (DyntreeOutset.replace_at root path (DyntreeOutset.Outset_node (<[i := v]> (DyntreeOutset.children cur)))).
Proof.
  intros Hat Hi. unfold DyntreeOutset.store_at. rewrite Hat. by rewrite decide_True.
Qed.

Lemma oload_at_spec root path cur i :
  DyntreeOutset.node_at root path = Some cur → DyntreeOutset.load_at root path i = DyntreeOutset.children cur !! i.
Proof. intros Hat. unfold DyntreeOutset.load_at. by rewrite Hat. Qed.

Lemma cas_loaded root path cur i n desired :
  DyntreeOutset.node_at root path = Some cur →
  DyntreeOutset.children cur !! i = Some n →
  DyntreeOutset.same_word n n = true →
  DyntreeOutset.compare_exchange_strong root path i n desired
  = Some (true, DyntreeOutset.replace_at root path (DyntreeOutset.Outset_node (<[i := desired]> (DyntreeOutset.children cur)))).
Proof.
  intros Hat Hi Hsame. unfold DyntreeOutset.compare_exchange_strong.
  rewrite (oload_at_spec _ _ _ _ Hat), Hi, Hsame.
  rewrite (ostore_at_spec _ _ _ _ _ Hat); [done|]. by eapply lookup_lt_Some.
Qed.


Lemma onode_eta cur : DyntreeOutset.Outset_node (DyntreeOutset.children cur) = cur.
Proof. by destruct cur. Qed.

Lemma insert_walk_spec (val : node) root :
  (2 ≤ B)%nat → DyntreeOutset.well_formed B root →
  ∀ k cur path tape,
    (DyntreeOutset.nb_nodes cur ≤ k)%nat → (k ≤ length tape)%nat →
    DyntreeOutset.node_at root path = Some cur →
    ∃ tape' st root',
      DyntreeOutset.insert_walk B tape root path (DyntreeOutset.Leaf val) = Some (tape', (st, root'))
      ∧ match st with
        | insert_fail =>
            root' = root
            ∧ ∃ path' i p, DyntreeOutset.load_at root path' i = Some p
                           ∧ DyntreeOutset.is_finished_tag (DyntreeOutset.tag_of p) = true
        | insert_success =>
            ∃ cur', DyntreeOutset.installs B val cur cur' ∧ root' = DyntreeOutset.replace_at root path cur'
        end.
Proof.
  intros HB Hroot. induction k as [|k IH]; intros cur path tape Hk Htape Hat.
  { pose proof (onb_nodes_pos cur). lia. }
  destruct tape as [|r tape]; [simpl in Htape; lia|].
  pose proof (oall_nodes_node_at _ _ _ _ Hroot Hat) as Hcur.
  pose proof (well_formed_length _ Hcur) as Hlen.
  assert (Hi : (r mod B < length (DyntreeOutset.children cur))%nat).
  { rewrite Hlen. apply Nat.mod_upper_bound. lia. }
  destruct (lookup_lt_is_Some_2 _ _ Hi) as [n Hn].
  cbn [DyntreeOutset.insert_walk]. rewrite (oload_at_spec _ _ _ _ Hat), Hn.
  destruct (DyntreeOutset.is_finished_tag (DyntreeOutset.tag_of n)) eqn:Hfin.
  { eexists _, insert_fail, _. split; [done|]. split; [done|].
    exists path, (r mod B)%nat, n. by rewrite (oload_at_spec _ _ _ _ Hat). }
  destruct n as [|d|m| |d|m]; try done.
  - (* empty *)
    unfold DyntreeOutset.insert_on_empty. simpl.
    rewrite (cas_loaded _ _ _ _ _ _ Hat Hn eq_refl).
    eexists _, insert_success, _. split; [done|].
    eexists. split; [|done].
    rewrite <- (onode_eta cur) at 1. by apply DyntreeOutset.installs_empty.
  - (* leaf *)
    unfold DyntreeOutset.insert_on_empty, DyntreeOutset.insert_on_leaf, DyntreeOutset.outset_node_of. simpl.
    rewrite decide_True by done.
    rewrite (cas_loaded _ _ _ _ _ _ Hat Hn) by (simpl; by rewrite bool_decide_eq_true).
    eexists _, insert_success, _. split; [done|].
    eexists. split; [|done].
    rewrite <- (onode_eta cur) at 1. by apply DyntreeOutset.installs_leaf.
  - (* interior *)
    unfold DyntreeOutset.insert_on_empty, DyntreeOutset.insert_on_leaf. simpl.
    destruct (IH m (path ++ [r mod B]%nat) tape) as (tape' & st & root' & Hrun & Hst).
    { pose proof (onb_nodes_child _ _ _ _ Hn eq_refl). lia. }
    { simpl in Htape. lia. }
    { by rewrite onode_at_app, Hat, Hn. }
    exists tape', st, root'. split; [done|].
    destruct st; [|done].
    destruct Hst as (m' & Hinst & ->).
    exists (DyntreeOutset.Outset_node (<[(r mod B)%nat := DyntreeOutset.Interior m']> (DyntreeOutset.children cur))).
    split.
    + rewrite <- (onode_eta cur) at 1. by eapply DyntreeOutset.installs_below.
    + by rewrite (oreplace_at_app _ _ _ _ _ _ _ Hat Hn eq_refl).
Qed.

Lemma unfinished_load root path i p :
  DyntreeOutset.unfinished root → DyntreeOutset.load_at root path i = Some p →
  DyntreeOutset.is_finished_tag (DyntreeOutset.tag_of p) = false.
Proof.
  intros Hroot Hload. unfold DyntreeOutset.load_at in Hload.
  destruct (DyntreeOutset.node_at root path) as [cur|] eqn:Hat; [|done].
  apply (oall_nodes_node_at _ _ _ _ Hroot) in Hat.
  apply oall_nodes_inv in Hat as [Hall _].
  rewrite Forall_lookup in Hall. by apply (Hall i).
Qed.

Lemma insert_walk_root_finished val root r tape :
  (0 < B)%nat → length (DyntreeOutset.children root) = B → DyntreeOutset.root_finished root →
  DyntreeOutset.insert_walk B (r :: tape) root [] val = Some (tape, (insert_fail, root)).
Proof.
  intros HB Hlen Hfin. cbn [DyntreeOutset.insert_walk]. unfold DyntreeOutset.load_at. simpl.
  assert (Hi : (r mod B < length (DyntreeOutset.children root))%nat).
  { rewrite Hlen. by apply Nat.mod_upper_bound, Nat.neq_0_lt_0. }
  destruct (lookup_lt_is_Some_2 _ _ Hi) as [n Hn]. rewrite Hn.
  unfold DyntreeOutset.root_finished in Hfin. rewrite Forall_lookup in Hfin.
  by rewrite (Hfin _ _ Hn).
Qed.



Lemma make_finished_unfinished (p : oslot) :
  DyntreeOutset.is_finished_tag (DyntreeOutset.tag_of p) = false →
  DyntreeOutset.make_finished p = Some (DyntreeOutset.finished_counterpart p).
Proof. by destruct p. Qed.

Lemma subtree_of_finished_counterpart p :
  DyntreeOutset.subtree_of (DyntreeOutset.finished_counterpart p) = DyntreeOutset.subtree_of p.
Proof. by destruct p. Qed.

Lemma finished_counterpart_finished p :
  DyntreeOutset.is_finished_tag (DyntreeOutset.tag_of (DyntreeOutset.finished_counterpart p)) = true.
Proof. by destruct p. Qed.

Lemma onode_at_replace_at root path cur c' :
  DyntreeOutset.node_at root path = Some cur →
  DyntreeOutset.node_at (DyntreeOutset.replace_at root path c') path = Some c'.
Proof.
  revert root. induction path as [|j path IH]; intros root Hat; [done|].
  rewrite onode_at_cons in Hat. rewrite oreplace_at_cons.
  destruct (DyntreeOutset.children root !! j) as [p|] eqn:E; [|done].
  destruct (DyntreeOutset.subtree_of p) as [m|] eqn:Ep; [|done].
  rewrite onode_at_cons. simpl.
  rewrite list_lookup_insert_eq by (by eapply lookup_lt_Some).
  rewrite (subtree_of_with_subtree _ _ _ Ep). by eapply IH.
Qed.

Lemma oreplace_at_twice root path cur c1 c2 :
  DyntreeOutset.node_at root path = Some cur →
  DyntreeOutset.replace_at (DyntreeOutset.replace_at root path c1) path c2 = DyntreeOutset.replace_at root path c2.
Proof.
  revert root. induction path as [|j path IH]; intros root Hat; [done|].
  rewrite onode_at_cons in Hat. rewrite (oreplace_at_cons root).
  destruct (DyntreeOutset.children root !! j) as [p|] eqn:E; [|done].
  destruct (DyntreeOutset.subtree_of p) as [m|] eqn:Ep; [|done].
  rewrite !oreplace_at_cons. simpl. rewrite E, Ep.
  rewrite list_lookup_insert_eq by (by eapply lookup_lt_Some).
  rewrite (subtree_of_with_subtree _ _ _ Ep).
  rewrite list_insert_insert_eq. do 2 f_equal.
  rewrite (IH _ Hat). by destruct p.
Qed.

Lemma notify_slots_spec rest : ∀ pre root current cur todo dec,
  DyntreeOutset.node_at root current = Some cur →
  DyntreeOutset.children cur = pre ++ rest →
  Forall (λ p, DyntreeOutset.is_finished_tag (DyntreeOutset.tag_of p) = false) rest →
  DyntreeOutset.notify_slots (length rest) (length pre) root current todo dec
  = Some (DyntreeOutset.replace_at root current
            (DyntreeOutset.Outset_node (pre ++ (DyntreeOutset.finished_counterpart <$> rest))),
          DyntreeOutset.pushed current (length pre) rest todo,
          dec ++ DyntreeOutset.handed rest).
Proof.
  induction rest as [|c rest IH]; intros pre root current cur todo dec Hat Hcs Hun.
  - simpl. rewrite app_nil_r in Hcs. rewrite !app_nil_r, <- Hcs, onode_eta.
    f_equal. f_equal. f_equal.
    clear -Hat. revert root Hat. induction current as [|j p IH]; intros root Hat.
    + simpl in *. by simplify_eq.
    + rewrite onode_at_cons in Hat. rewrite oreplace_at_cons.
      destruct (DyntreeOutset.children root !! j) as [q|] eqn:E; [|done].
      destruct (DyntreeOutset.subtree_of q) as [m|] eqn:Ep; [|done].
      rewrite <- (IH _ Hat).
      rewrite list_insert_id; [by rewrite onode_eta|].
      rewrite E. f_equal. by destruct q; simplify_eq/=.
  - apply Forall_cons in Hun as [Hc Hun].
    cbn [length DyntreeOutset.notify_slots].
    assert (Hload : DyntreeOutset.children cur !! length pre = Some c).
    { rewrite Hcs. by rewrite list_lookup_middle. }
    rewrite (oload_at_spec _ _ _ _ Hat), Hload.
    rewrite (make_finished_unfinished _ Hc).
    rewrite (ostore_at_spec _ _ _ _ _ Hat) by (by eapply lookup_lt_Some).
    set (root1 := DyntreeOutset.replace_at root current _).
    assert (Hat1 : DyntreeOutset.node_at root1 current
              = Some (DyntreeOutset.Outset_node ((pre ++ [DyntreeOutset.finished_counterpart c]) ++ rest))).
    { unfold root1. rewrite (onode_at_replace_at _ _ _ _ Hat). do 2 f_equal.
      rewrite Hcs. rewrite insert_app_r_alt by lia.
      rewrite Nat.sub_diag. simpl. by rewrite <- app_assoc. }
    assert (Hlen : S (length pre) = length (pre ++ [DyntreeOutset.finished_counterpart c])).
    { rewrite length_app. simpl. lia. }
    assert (Hres : ∀ todo' dec',
      DyntreeOutset.notify_slots (length rest) (S (length pre)) root1 current todo' dec'
      = Some (DyntreeOutset.replace_at root current
                (DyntreeOutset.Outset_node (pre ++ DyntreeOutset.finished_counterpart c :: (DyntreeOutset.finished_counterpart <$> rest))),
              DyntreeOutset.pushed current (S (length pre)) rest todo',
              dec' ++ DyntreeOutset.handed rest)).
    { intros todo' dec'. rewrite Hlen.
      rewrite (IH _ _ _ _ todo' dec' Hat1 eq_refl Hun).
      unfold root1. rewrite (oreplace_at_twice _ _ _ _ _ Hat).
      by rewrite <- app_assoc. }
    destruct c; try done; simpl; rewrite Hres; try done.
    by rewrite <- app_assoc.
Qed.


Lemma onode_at_replace_at_other root p cur cur' q :
  DyntreeOutset.node_at root p = Some cur →
  ¬ q `prefix_of` p →
  DyntreeOutset.subtree_of <$> DyntreeOutset.children cur' = DyntreeOutset.subtree_of <$> DyntreeOutset.children cur →
  DyntreeOutset.node_at (DyntreeOutset.replace_at root p cur') q = DyntreeOutset.node_at root q.
Proof.
  intros Hat Hnp Hsub. revert root q Hat Hnp.
  induction p as [|i p IH]; intros root q Hat Hnp.
  - simpl in Hat. simplify_eq. simpl.
    destruct q as [|j q]; [by destruct Hnp; apply prefix_nil|].
    rewrite !onode_at_cons.
    assert (DyntreeOutset.subtree_of <$> (DyntreeOutset.children cur' !! j)
            = DyntreeOutset.subtree_of <$> (DyntreeOutset.children cur !! j)) as Hj.
    { by rewrite <- !list_lookup_fmap, Hsub. }
    destruct (DyntreeOutset.children cur' !! j) as [a|], (DyntreeOutset.children cur !! j) as [b|];
      simplify_eq/=; try done.
    by rewrite Hj.
  - destruct q as [|j q]; [by destruct Hnp; apply prefix_nil|].
    rewrite onode_at_cons in Hat. rewrite oreplace_at_cons.
    destruct (DyntreeOutset.children root !! i) as [s|] eqn:E; [|done].
    destruct (DyntreeOutset.subtree_of s) as [m|] eqn:Es; [|done].
    rewrite !onode_at_cons. simpl.
    destruct (decide (j = i)) as [->|Hne].
    + rewrite list_lookup_insert_eq by (by eapply lookup_lt_Some).
      rewrite E, Es, (subtree_of_with_subtree _ _ _ Es).
      apply IH; [done|]. intros Hpre. apply Hnp. by apply prefix_cons.
    + by rewrite list_lookup_insert_ne.
Qed.

Lemma tags_replace_at root p c :
  p ≠ [] →
  DyntreeOutset.tag_of <$> DyntreeOutset.children (DyntreeOutset.replace_at root p c) = DyntreeOutset.tag_of <$> DyntreeOutset.children root.
Proof.
  destruct p as [|j p]; [done|]. intros _. rewrite oreplace_at_cons.
  destruct (DyntreeOutset.children root !! j) as [s|] eqn:E; [|done].
  destruct (DyntreeOutset.subtree_of s) as [m|] eqn:Es; [|done].
  simpl. rewrite list_fmap_insert, tag_of_with_subtree.
  rewrite list_insert_id; [done|]. by rewrite list_lookup_fmap, E.
Qed.

Lemma pushed_elem current cs : ∀ i todo q,
  q ∈ DyntreeOutset.pushed current i cs todo
  ↔ q ∈ todo ∨ ∃ j m, cs !! j = Some (DyntreeOutset.Interior m) ∧ q = current ++ [(i + j)%nat].
Proof.
  induction cs as [|c cs IH]; intros i todo q; simpl.
  - split; [by left|]. intros [H|(j & m & Hj & _)]; [done|]. by rewrite lookup_nil in Hj.
  - rewrite IH. split.
    + intros [Hq|(j & m & Hj & ->)].
      * destruct c; try (by left).
        apply elem_of_cons in Hq as [->|Hq]; [|by left].
        right. exists O, t. by rewrite Nat.add_0_r.
      * right. exists (S j), m. split; [done|]. do 2 f_equal. lia.
    + intros [Hq|(j & m & Hj & ->)].
      * left. destruct c; try done. by right.
      * destruct j as [|j]; simpl in Hj.
        -- simplify_eq. left. rewrite Nat.add_0_r. by left.
        -- right. exists j, m. split; [done|]. do 2 f_equal. lia.
Qed.

Lemma pushed_NoDup current cs : ∀ i todo,
  NoDup todo →
  (∀ q j, q ∈ todo → q ≠ current ++ [(i + j)%nat]) →
  NoDup (DyntreeOutset.pushed current i cs todo).
Proof.
  induction cs as [|c cs IH]; intros i todo Hnd Hfresh; simpl; [done|].
  apply IH.
  - destruct c; try done. constructor; [|done].
    intros Hin. apply (Hfresh _ O Hin). by rewrite Nat.add_0_r.
  - intros q j Hq.
    assert (q ∈ todo → q ≠ current ++ [(S i + j)%nat]) as Hold.
    { intros Hin. replace (S i + j)%nat with (i + S j)%nat by lia. by apply Hfresh. }
    destruct c; try (by apply Hold).
    apply elem_of_cons in Hq as [->|Hq]; [|by apply Hold].
    intros Heq. apply app_inv_head in Heq. simplify_eq. lia.
Qed.


Lemma prefix_snoc_inv {A} (q p : list A) (j : A) :
  q `prefix_of` (p ++ [j]) → q `prefix_of` p ∨ q = p ++ [j].
Proof.
  intros [k Hk]. destruct (decide (k = [])) as [->|Hne].
  - right. by rewrite app_nil_r in Hk.
  - left. destruct (exists_last Hne) as (k' & x & ->).
    rewrite app_assoc in Hk. apply app_inj_tail in Hk as [-> _]. by exists k'.
Qed.

Lemma all_nodes_finished_counterpart (P : list oslot → Prop) cur :
  DyntreeOutset.all_nodes P cur →
  P (DyntreeOutset.finished_counterpart <$> DyntreeOutset.children cur) →
  DyntreeOutset.all_nodes P (DyntreeOutset.Outset_node (DyntreeOutset.finished_counterpart <$> DyntreeOutset.children cur)).
Proof.
  intros [_ Hch]%oall_nodes_inv HP. constructor; [done|].
  intros i p m Hi Hp. rewrite list_lookup_fmap in Hi.
  destruct (DyntreeOutset.children cur !! i) as [c|] eqn:E; simplify_eq/=.
  rewrite subtree_of_finished_counterpart in Hp. eauto.
Qed.

Lemma notify_step root p rest dec :
  DyntreeOutset.well_formed B root → DyntreeOutset.todo_inv B root (p :: rest) →
  ∃ cur,
    DyntreeOutset.node_at root p = Some cur
    ∧ DyntreeOutset.notify_slots B 0 root p rest dec
      = Some (DyntreeOutset.replace_at root p
                (DyntreeOutset.Outset_node (DyntreeOutset.finished_counterpart <$> DyntreeOutset.children cur)),
              DyntreeOutset.pushed p 0 (DyntreeOutset.children cur) rest,
              dec ++ DyntreeOutset.handed (DyntreeOutset.children cur))
    ∧ DyntreeOutset.well_formed B
        (DyntreeOutset.replace_at root p (DyntreeOutset.Outset_node (DyntreeOutset.finished_counterpart <$> DyntreeOutset.children cur)))
    ∧ DyntreeOutset.todo_inv B
        (DyntreeOutset.replace_at root p (DyntreeOutset.Outset_node (DyntreeOutset.finished_counterpart <$> DyntreeOutset.children cur)))
        (DyntreeOutset.pushed p 0 (DyntreeOutset.children cur) rest).
Proof.
  intros Hwf (Hnd & Hgood & Hinc).
  destruct (Hgood p) as (cur & Hat & Hun & Hcur); [by left|].
  apply NoDup_cons in Hnd as [Hp Hnd].
  assert (Hfresh : ∀ q j, q ∈ rest → q ≠ p ++ [j]).
  { intros q j Hq ->. assert (p = p ++ [j]) as Heq.
    { apply (Hinc (p ++ [j]) p); [by right|by left|by apply prefix_app_r]. }
    apply (f_equal length) in Heq. rewrite length_app in Heq. simpl in Heq. lia. }
  assert (Hnotpre : ∀ q, q ∈ rest → ¬ q `prefix_of` p).
  { intros q Hq Hpre. apply Hp. by rewrite <- (Hinc p q) at 1; [| left | right |]. }
  exists cur. split; [done|].
  pose proof (well_formed_length _ Hcur) as Hlen.
  split_and!.
  - pose proof (notify_slots_spec (DyntreeOutset.children cur) [] root p cur rest dec Hat eq_refl)
      as Hspec.
    simpl in Hspec. rewrite Hlen in Hspec. apply Hspec.
    by apply oall_nodes_inv in Hun as [? _].
  - eapply well_formed_replace_at; [done..|].
    apply all_nodes_finished_counterpart; [done|]. by rewrite length_fmap.
  - split_and!.
    + apply pushed_NoDup; [done|]. intros q j Hq. by apply Hfresh.
    + intros q [Hq|(j & m & Hj & ->)]%pushed_elem.
      * destruct (Hgood q) as (c & Hc & ?); [by right|]. exists c. split; [|done].
        rewrite <- Hc. eapply onode_at_replace_at_other; [done|by apply Hnotpre|].
        simpl. rewrite <- list_fmap_compose. apply list_fmap_ext.
        intros ? c' _. simpl. apply subtree_of_finished_counterpart.
      * exists m. rewrite onode_at_app, (onode_at_replace_at _ _ _ _ Hat). simpl.
        rewrite list_lookup_fmap, Hj. simpl. split; [done|].
        apply oall_nodes_inv in Hun as [_ Hun]. apply oall_nodes_inv in Hcur as [_ Hcur].
        split; [by eapply Hun|by eapply Hcur].
    + intros q q' [Hq|(j & m & Hj & ->)]%pushed_elem
               [Hq'|(j' & m' & Hj' & ->)]%pushed_elem Hpre.
      * apply Hinc; [by right|by right|done].
      * exfalso. apply Hp. assert (p = q) as ->; [|done].
        apply (Hinc q p); [by right|by left|].
        etrans; [|exact Hpre]. by apply prefix_app_r.
      * apply prefix_snoc_inv in Hpre as [Hpre|Heq]; [|done].
        by destruct (Hnotpre q' Hq').
      * apply prefix_app_inv in Hpre. destruct Hpre as [k Hk]. by simplify_eq/=.
Qed.


Lemma pushed_not_nil current cs : ∀ i todo,
  [] ∉ todo → [] ∉ DyntreeOutset.pushed current i cs todo.
Proof.
  intros i todo Hnil [H|(j & m & _ & Heq)]%pushed_elem; [done|].
  by destruct current.
Qed.

Lemma notify_partial_from_ok k : ∀ root todo dec,
  DyntreeOutset.well_formed B root → DyntreeOutset.todo_inv B root todo → [] ∉ todo →
  ∃ root' todo' dec',
    DyntreeOutset.notify_outset_tree_nodes_partial_from B k root todo dec
      = Some (root', todo', dec')
    ∧ DyntreeOutset.well_formed B root' ∧ DyntreeOutset.todo_inv B root' todo' ∧ ([] ∉ todo')
    ∧ DyntreeOutset.tag_of <$> DyntreeOutset.children root' = DyntreeOutset.tag_of <$> DyntreeOutset.children root.
Proof.
  induction k as [|k IH]; intros root todo dec Hwf Hinv Hnil.
  { by exists root, todo, dec. }
  destruct todo as [|p rest]; [by exists root, [], dec|].
  destruct (notify_step root p rest dec Hwf Hinv) as (cur & Hat & Hrun & Hwf' & Hinv').
  cbn [DyntreeOutset.notify_outset_tree_nodes_partial_from]. rewrite Hrun.
  apply not_elem_of_cons in Hnil as [Hp Hnil].
  destruct (IH _ _ (dec ++ DyntreeOutset.handed (DyntreeOutset.children cur)) Hwf' Hinv'
              (pushed_not_nil _ _ _ _ Hnil))
    as (root' & todo' & dec' & Hrest & ? & ? & ? & Htags).
  exists root', todo', dec'. split_and!; try done.
  rewrite Htags. by apply tags_replace_at.
Qed.

Lemma root_finished_tags a b :
  DyntreeOutset.tag_of <$> DyntreeOutset.children a = DyntreeOutset.tag_of <$> DyntreeOutset.children b →
  DyntreeOutset.root_finished b → DyntreeOutset.root_finished a.
Proof.
  unfold DyntreeOutset.root_finished. rewrite !Forall_lookup. intros Htags Hb i p Hi.
  assert ((DyntreeOutset.tag_of <$> DyntreeOutset.children b) !! i = Some (DyntreeOutset.tag_of p)) as Hq.
  { by rewrite <- Htags, list_lookup_fmap, Hi. }
  rewrite list_lookup_fmap in Hq.
  destruct (DyntreeOutset.children b !! i) as [q|] eqn:E; simplify_eq/=.
  rewrite <- Hq. by eapply Hb.
Qed.

Lemma todo_inv_root root :
  DyntreeOutset.well_formed B root → DyntreeOutset.unfinished root → DyntreeOutset.todo_inv B root [[]].
Proof.
  intros Hwf Hun. split_and!.
  - apply NoDup_singleton.
  - intros q ->%list_elem_of_singleton. by exists root.
  - by intros q q' ->%list_elem_of_singleton ->%list_elem_of_singleton _.
Qed.

Lemma finish_ok (cd : Z) (o : DyntreeOutset.dyntree_outset) :
  0 < cd → DyntreeOutset.well_formed B (DyntreeOutset.root o) → DyntreeOutset.unfinished (DyntreeOutset.root o) →
  ∃ r, DyntreeOutset.finish B cd o = Some r
       ∧ DyntreeOutset.well_formed B (DyntreeOutset.root (DyntreeOutset.finished_outset r))
       ∧ DyntreeOutset.root_finished (DyntreeOutset.root (DyntreeOutset.finished_outset r))
       ∧ DyntreeOutset.todo_inv B (DyntreeOutset.root (DyntreeOutset.finished_outset r)) (DyntreeOutset.todo r)
       ∧ [] ∉ DyntreeOutset.todo r.
Proof.
  intros Hcd Hwf Hun. unfold DyntreeOutset.finish, DyntreeOutset.notify_outset_tree_nodes_partial.
  destruct (Z.to_nat cd) as [|k] eqn:Hk; [lia|].
  destruct (notify_step (DyntreeOutset.root o) [] [] [] Hwf (todo_inv_root _ Hwf Hun))
    as (cur & Hat & Hrun & Hwf' & Hinv').
  simpl in Hat. simplify_eq.
  cbn [DyntreeOutset.notify_outset_tree_nodes_partial_from]. rewrite Hrun.
  destruct (notify_partial_from_ok k _ _ ([] ++ DyntreeOutset.handed (DyntreeOutset.children (DyntreeOutset.root o))) Hwf' Hinv')
    as (root' & todo' & dec' & Hrest & ? & ? & ? & Htags).
  { apply pushed_not_nil. by apply not_elem_of_nil. }
  rewrite Hrest. eexists. split; [done|]. simpl. split_and!; try done.
  apply (root_finished_tags _ _ Htags). unfold DyntreeOutset.root_finished. simpl.
  rewrite Forall_fmap. apply Forall_true. intros p. apply finished_counterpart_finished.
Qed.


Lemma outset_eta (o : DyntreeOutset.dyntree_outset) :
  {| DyntreeOutset.root := DyntreeOutset.root o;
     DyntreeOutset.should_deallocate_automatically := DyntreeOutset.should_deallocate_automatically o |} = o.
Proof. by destruct o. Qed.

(** C6.  Dyntree out-set with at least two slots per node, on a tape
    with a draw for every level of the tree: [insert] returns, with
    success or fail.  When it fails the out-set is unchanged and a slot
    with a finished tag was met; when it succeeds the new tree has the
    target installed as a leaf in a slot that was empty, or has an
    existing leaf replaced by a fresh interior node whose two children are
    the new leaf and the displaced one.  On an out-set without any
    finished tag it succeeds; on an out-set whose root has been finished
    it fails. *)
Theorem dyntree_outset_insert_spec (o : DyntreeOutset.dyntree_outset) (target : node)
    (tape : list nat) :
  (2 ≤ B)%nat →
  DyntreeOutset.well_formed B (DyntreeOutset.root o) →
  (DyntreeOutset.nb_nodes (DyntreeOutset.root o) ≤ length tape)%nat →
  ∃ tape' st o',
    DyntreeOutset.insert B tape target o = Some (tape', (st, o'))
    ∧ (st = insert_fail →
       o' = o
       ∧ ∃ path i p, DyntreeOutset.load_at (DyntreeOutset.root o) path i = Some p
                     ∧ DyntreeOutset.is_finished_tag (DyntreeOutset.tag_of p) = true)
    ∧ (st = insert_success → DyntreeOutset.installs B target (DyntreeOutset.root o) (DyntreeOutset.root o'))
    ∧ (DyntreeOutset.unfinished (DyntreeOutset.root o) → st = insert_success)
    ∧ (DyntreeOutset.root_finished (DyntreeOutset.root o) → st = insert_fail).
Proof.
  intros HB Hwf Htape.
  destruct (insert_walk_spec target (DyntreeOutset.root o) HB Hwf _ (DyntreeOutset.root o) [] tape
              (le_n _) Htape eq_refl) as (tape' & st & root' & Hrun & Hst).
  unfold DyntreeOutset.insert. rewrite Hrun. eexists tape', st, _. split; [done|].
  split_and!.
  - intros ->. destruct Hst as [-> Hex]. by rewrite outset_eta.
  - intros ->. by destruct Hst as (cur' & Hinst & ->).
  - intros Hun. destruct st; [done|]. destruct Hst as [_ (path & i & p & Hload & Hfin)].
    by rewrite (unfinished_load _ _ _ _ Hun Hload) in Hfin.
  - intros Hfin. destruct tape as [|r tape].
    { pose proof (onb_nodes_pos (DyntreeOutset.root o)). simpl in Htape. lia. }
    rewrite (insert_walk_root_finished (DyntreeOutset.Leaf target) (DyntreeOutset.root o) r tape) in Hrun;
      [by simplify_eq|lia|by apply well_formed_length|done].
Qed.

(** C2.  Finished barrier.  For a simple out-set whose head is not yet
    tagged, and for a dyntree out-set no slot of which is finished yet
    (with a positive [communication_delay]): [finish()] returns, and after
    it every [insert] returns [insert_fail] and leaves the out-set as it
    is, so that all later insertions fail as well.  For the dyntree
    out-set this still holds after the scheduled notification task has
    processed any number of further nodes. *)
Theorem finished_barrier (cd : Z) (so : Simple.simple_outset) (o : DyntreeOutset.dyntree_outset) :
  (0 < B)%nat → 0 < cd →
  snd (Simple.head so) = 0 →
  DyntreeOutset.well_formed B (DyntreeOutset.root o) → DyntreeOutset.unfinished (DyntreeOutset.root o) →
  (∃ r, Simple.finish so = Some r
        ∧ ∀ n, Simple.insert n (Simple.finished_outset r)
               = (insert_fail, Simple.finished_outset r))
  ∧ (∃ r, DyntreeOutset.finish B cd o = Some r
          ∧ (∀ target r0 tape,
               DyntreeOutset.insert B (r0 :: tape) target (DyntreeOutset.finished_outset r)
               = Some (tape, (insert_fail, DyntreeOutset.finished_outset r)))
          ∧ ∀ k, ∃ root' todo' dec',
              DyntreeOutset.notify_outset_tree_nodes_partial_from B k
                (DyntreeOutset.root (DyntreeOutset.finished_outset r)) (DyntreeOutset.todo r) [] = Some (root', todo', dec')
              ∧ ∀ target r0 tape,
                  DyntreeOutset.insert_walk B (r0 :: tape) root' [] (DyntreeOutset.Leaf target)
                  = Some (tape, (insert_fail, root'))).
Proof.
  intros HB Hcd Hhead Hwf Hun. split.
  - unfold Simple.finish. rewrite bool_decide_eq_true_2 by done.
    eexists. split; [done|]. intros n. done.
  - destruct (finish_ok cd o Hcd Hwf Hun) as (r & Hfin & Hwf' & Hroot & Hinv & Hnil).
    exists r. split; [done|]. split.
    + intros target r0 tape. unfold DyntreeOutset.insert.
      rewrite insert_walk_root_finished;
        [by rewrite outset_eta|done|by apply well_formed_length|done].
    + intros k.
      destruct (notify_partial_from_ok k _ _ [] Hwf' Hinv Hnil)
        as (root' & todo' & dec' & Hrest & Hwf'' & _ & _ & Htags).
      exists root', todo', dec'. split; [done|]. intros target r0 tape.
      apply insert_walk_root_finished; [done|by apply well_formed_length|].
      by apply (root_finished_tags _ _ Htags).
Qed.

Lemma well_formed_init : DyntreeOutset.well_formed B (DyntreeOutset.init B).
Proof.
  constructor; [by rewrite length_replicate|].
  intros i p m [-> _]%lookup_replicate. done.
Qed.

Lemma unfinished_init : DyntreeOutset.unfinished (DyntreeOutset.init B).
Proof.
  constructor; [by apply Forall_replicate|].
  intros i p m [-> _]%lookup_replicate. done.
Qed.

End DyntreeOutsetFacts.

Lemma dyntree_outset_insert_spec_witness :
  ∃ tape' st o',
    DyntreeOutset.insert 2 [0%nat] 7%nat (DyntreeOutset.dyntree_outset_new 2)
      = Some (tape', (st, o'))
    ∧ (st = insert_fail →
       o' = DyntreeOutset.dyntree_outset_new 2
       ∧ ∃ path i p,
           DyntreeOutset.load_at (DyntreeOutset.root (DyntreeOutset.dyntree_outset_new 2))
             path i = Some p
           ∧ DyntreeOutset.is_finished_tag (DyntreeOutset.tag_of p) = true)
    ∧ (st = insert_success →
       DyntreeOutset.installs 2 7%nat
         (DyntreeOutset.root (DyntreeOutset.dyntree_outset_new 2))
         (DyntreeOutset.root o'))
    ∧ (DyntreeOutset.unfinished (DyntreeOutset.root (DyntreeOutset.dyntree_outset_new 2))
       → st = insert_success)
    ∧ (DyntreeOutset.root_finished
         (DyntreeOutset.root (DyntreeOutset.dyntree_outset_new 2))
       → st = insert_fail).
Proof.
  apply (dyntree_outset_insert_spec 2).
  - lia.
  - apply well_formed_init.
  - simpl. lia.
Defined.

Lemma finished_barrier_witness :
  let so := {| Simple.head := ([3; 4]%nat, 0);
               Simple.should_deallocate_automatically := false |} in
  let o := DyntreeOutset.dyntree_outset_new 2 in
  (∃ r, Simple.finish so = Some r
        ∧ ∀ n, Simple.insert n (Simple.finished_outset r)
               = (insert_fail, Simple.finished_outset r))
  ∧ (∃ r, DyntreeOutset.finish 2 100 o = Some r
          ∧ (∀ target r0 tape,
               DyntreeOutset.insert 2 (r0 :: tape) target (DyntreeOutset.finished_outset r)
               = Some (tape, (insert_fail, DyntreeOutset.finished_outset r)))
          ∧ ∀ k, ∃ root' todo' dec',
              DyntreeOutset.notify_outset_tree_nodes_partial_from 2 k
                (DyntreeOutset.root (DyntreeOutset.finished_outset r))
                (DyntreeOutset.todo r) [] = Some (root', todo', dec')
              ∧ ∀ target r0 tape,
                  DyntreeOutset.insert_walk 2 (r0 :: tape) root' []
                    (DyntreeOutset.Leaf target)
                  = Some (tape, (insert_fail, root'))).
Proof.
  apply (finished_barrier 2 100).
  - lia.
  - lia.
  - reflexivity.
  - apply well_formed_init.
  - apply unfinished_init.
Defined.

(** Three insertions with branching factor 2: the second displaces the
    first leaf into a fresh interior node, the third descends into it. *)
Example dyntree_outset_three_inserts :
  (match DyntreeOutset.insert 2 [0%nat] 7%nat (DyntreeOutset.dyntree_outset_new 2) with
   | Some (_, (_, o1)) =>
       match DyntreeOutset.insert 2 [0%nat] 8%nat o1 with
       | Some (_, (_, o2)) =>
           option_map (λ r, (r.2.1, DyntreeOutset.root r.2.2))
             (DyntreeOutset.insert 2 [0; 1; 1]%nat 9%nat o2)
       | None => None
       end
   | None => None
   end)
  = Some (insert_success,
      DyntreeOutset.Outset_node
        [DyntreeOutset.Interior
           (DyntreeOutset.Outset_node
              [DyntreeOutset.Leaf 8%nat;
               DyntreeOutset.Interior
                 (DyntreeOutset.Outset_node
                    [DyntreeOutset.Leaf 9%nat; DyntreeOutset.Leaf 7%nat])]);
         DyntreeOutset.Empty]).
Proof. reflexivity. Qed.

(** [finish()] on an out-set holding two successors hands both to
    [decrement_incounter]; the next insertion fails. *)
Example dyntree_outset_finish_then_insert :
  (match DyntreeOutset.insert 2 [0%nat] 7%nat (DyntreeOutset.dyntree_outset_new 2) with
   | Some (_, (_, o1)) =>
       match DyntreeOutset.insert 2 [1%nat] 8%nat o1 with
       | Some (_, (_, o2)) =>
           match DyntreeOutset.finish 2 100 o2 with
           | Some r =>
               option_map (λ x, (DyntreeOutset.decremented r, DyntreeOutset.deleted r, x.2.1))
                 (DyntreeOutset.insert 2 [1%nat] 9%nat (DyntreeOutset.finished_outset r))
           | None => None
           end
       | None => None
       end
   | None => None
   end)
  = Some ([7; 8]%nat, true, insert_fail).
Proof. reflexivity. Qed.

Example simple_outset_finish_then_insert :
  (let o := (Simple.insert 4%nat (Simple.insert 3%nat Simple.simple_outset_new).2).2 in
   match Simple.finish o with
   | Some r => Some (Simple.decremented r,
                     (Simple.insert 5%nat (Simple.finished_outset r)).1)
   | None => None
   end)
  = Some ([4; 3]%nat, insert_fail).
Proof. reflexivity. Qed.

(** ** direct : the fetch-add in-counter and [add_edge] *)

Section DirectFacts.

Variable ea : Direct.edge_algorithm_type.
Variable B : nat.

Abbreviation oslot := (DyntreeOutset.tagged_pointer_type DyntreeOutset.outset_node).

Lemma nb_scheduled_app target l1 l2 :
  Direct.nb_scheduled target (l1 ++ l2)
  = (Direct.nb_scheduled target l1 + Direct.nb_scheduled target l2)%nat.
Proof. unfold Direct.nb_scheduled. by rewrite filter_app, length_app. Qed.

Lemma nb_scheduled_cons target e l :
  Direct.nb_scheduled target (e :: l)
  = ((if decide (e = Direct.Scheduled target) then 1 else 0)
     + Direct.nb_scheduled target l)%nat.
Proof. unfold Direct.nb_scheduled. rewrite filter_cons. by case_decide. Qed.

Lemma nb_scheduled_expected_log target ops : ∀ k,
  Direct.nb_scheduled target (Direct.expected_log target k ops)
  = Direct.zero_returns k ops.
Proof.
  induction ops as [|[] ops IH]; intros k; simpl.
  - done.
  - rewrite nb_scheduled_cons, IH. by case_decide.
  - rewrite nb_scheduled_cons, nb_scheduled_app, IH.
    case_decide; [done|]. case_bool_decide; simpl; [|done].
    rewrite nb_scheduled_cons. by rewrite decide_True.
Qed.

Lemma run_ops_fetch_add target ops : ∀ w k,
  Direct.node_in w !! target = Some (Direct.In_fetch_add k) →
  ∃ w',
    Direct.run_ops B target ops w = Some w'
    ∧ Direct.node_in w' !! target
      = Some (Direct.In_fetch_add
                (k + Z.of_nat (nb_ops Increment ops) - Z.of_nat (nb_ops Decrement ops)))
    ∧ Direct.log w' = Direct.log w ++ Direct.expected_log target k ops.
Proof.
  induction ops as [|[] ops IH]; intros w k Hin.
  - exists w. split; [done|]. unfold nb_ops. simpl. rewrite app_nil_r.
    split; [|done]. rewrite Hin. do 2 f_equal. lia.
  - cbn [Direct.run_ops]. unfold Direct.increment_incounter_of. rewrite Hin.
    unfold Direct.increment_incounter, Direct.atomic_fetch_and_add. simpl.
    rewrite Hin.
    edestruct (IH (Direct.set_node_in (Direct.record (Direct.Incremented target) w)
                     target (Direct.In_fetch_add (k + 1))) (k + 1))
      as (w' & Hrun & Hin' & Hlog).
    { simpl. by rewrite lookup_insert_eq. }
    exists w'. split; [done|]. rewrite Hin', Hlog. simpl. split.
    + rewrite !nb_ops_cons. repeat case_decide; try done. do 2 f_equal. lia.
    + by rewrite <- app_assoc.
  - cbn [Direct.run_ops]. unfold Direct.decrement_incounter_of. rewrite Hin.
    unfold Direct.decrement_incounter, Direct.atomic_fetch_and_add. simpl.
    rewrite Hin.
    set (w1 := Direct.set_node_in (Direct.record (Direct.Decremented target) w)
                 target (Direct.In_fetch_add (k + -1))).
    edestruct (IH (if bool_decide (k = 1) then Direct.schedule target w1 else w1) (k - 1))
      as (w' & Hrun & Hin' & Hlog).
    { case_bool_decide; simpl; rewrite lookup_insert_eq; do 2 f_equal; lia. }
    exists w'. split; [done|]. rewrite Hin', Hlog. split.
    + rewrite !nb_ops_cons. repeat case_decide; try done; do 2 f_equal; lia.
    + subst w1. repeat case_bool_decide; try lia; simpl; by rewrite <- ?app_assoc.
Qed.

Lemma expected_log_nonempty target k ops :
  ops ≠ [] → Direct.expected_log target k ops ≠ [].
Proof. by destruct ops as [|[] ops]. Qed.

Lemma expected_log_last target ops : ∀ k : nat,
  ops ≠ [] →
  never_negative k ops = true →
  (k + nb_ops Increment ops = nb_ops Decrement ops)%nat →
  last (Direct.expected_log target (Z.of_nat k) ops) = Some (Direct.Scheduled target).
Proof.
  induction ops as [|op ops IH]; intros k Hne Hnn Hbal; [done|].
  destruct (decide (ops = [])) as [->|Hops].
  - destruct op; unfold nb_ops in Hbal; simpl in *; [lia|].
    rewrite bool_decide_eq_true_2 by lia. done.
  - rewrite !nb_ops_cons in Hbal. destruct op; simpl in *.
    + rewrite last_cons.
      replace (Z.of_nat k + 1) with (Z.of_nat (S k)) by lia.
      rewrite (IH (S k)); [done..|]. repeat case_decide; try done. lia.
    + destruct k as [|k]; [done|].
      replace (Z.of_nat (S k) - 1) with (Z.of_nat k) by lia.
      rewrite last_cons, last_app.
      rewrite (IH k); [done..|]. repeat case_decide; try done. lia.
Qed.

Lemma zero_returns_pos ops : ∀ k : nat,
  ops ≠ [] →
  never_negative k ops = true →
  (k + nb_ops Increment ops = nb_ops Decrement ops)%nat →
  (1 ≤ Direct.zero_returns (Z.of_nat k) ops)%nat.
Proof.
  induction ops as [|op ops IH]; intros k Hne Hnn Hbal; [done|].
  destruct (decide (ops = [])) as [->|Hops].
  - destruct op; unfold nb_ops in Hbal; simpl in *; [lia|].
    rewrite bool_decide_eq_true_2 by lia. lia.
  - rewrite !nb_ops_cons in Hbal. destruct op; simpl in *.
    + replace (Z.of_nat k + 1) with (Z.of_nat (S k)) by lia.
      apply (IH (S k)); [done..|]. repeat case_decide; try done. lia.
    + destruct k as [|k]; [done|].
      replace (Z.of_nat (S k) - 1) with (Z.of_nat k) by lia.
      assert (1 ≤ Direct.zero_returns (Z.of_nat k) ops)%nat as H.
      { apply (IH k Hops Hnn). repeat case_decide; try done. lia. }
      cbv zeta. lia.
Qed.

(** C4 (amended).  Fetch-add in-counter of the engine
    ([direct::increment_incounter], [direct::decrement_incounter]), from a
    count of zero, over any sequence of increments and decrements with as
    many decrements as increments and a running count that never goes
    below zero: the sequence returns; a decrement schedules the target
    exactly when it brings the count to zero, so the target is scheduled
    once for every return of the running count to zero (at least once for
    a sequence that is not empty, more than once when the count returns to
    zero in the middle); the last event is such a scheduling; and the
    final count is zero. *)
Theorem fetch_add_incounter_reports (target : node) (ops : list incounter_op)
    (w : Direct.world) :
  Direct.node_in w !! target = Some (Direct.In_fetch_add 0) →
  never_negative 0 ops = true →
  nb_ops Increment ops = nb_ops Decrement ops →
  ∃ w',
    Direct.run_ops B target ops w = Some w'
    ∧ Direct.node_in w' !! target = Some (Direct.In_fetch_add 0)
    ∧ Direct.log w' = Direct.log w ++ Direct.expected_log target 0 ops
    ∧ Direct.nb_scheduled target (Direct.expected_log target 0 ops)
      = Direct.zero_returns 0 ops
    ∧ (ops ≠ [] →
       last (Direct.log w') = Some (Direct.Scheduled target)
       ∧ (1 ≤ Direct.zero_returns 0 ops)%nat).
Proof.
  intros Hin Hnn Hbal.
  destruct (run_ops_fetch_add target ops w 0 Hin) as (w' & Hrun & Hin' & Hlog).
  exists w'. split; [done|]. split_and!.
  - rewrite Hin'. do 2 f_equal. lia.
  - done.
  - apply nb_scheduled_expected_log.
  - intros Hne. split.
    + pose proof (expected_log_last target ops O Hne Hnn Hbal) as Hlast.
      change (Z.of_nat 0) with 0 in Hlast. by rewrite Hlog, last_app, Hlast.
    + by apply (zero_returns_pos ops O).
Qed.

(** Events a call appends to the log. *)
Lemma increment_incounter_log source target target_in w w' :
  Direct.increment_incounter B source target target_in w = Some w' →
  Direct.log w' = Direct.log w ++ [Direct.Incremented target]
  ∧ Direct.node_out w' = Direct.node_out w
  ∧ Direct.outsets w' = Direct.outsets w.
Proof.
  unfold Direct.increment_incounter, Direct.atomic_fetch_and_add. intros H.
  destruct target_in as [| |c|a]; simpl in H; simplify_eq; try done.
  - destruct (Direct.node_in w !! target) as [[| |c'|]|]; simplify_eq. done.
  - destruct (Direct.incounters w !! a) as [o|]; [|done].
    destruct (Direct.incounter_increment _ _ _) as [[tape' o']|]; simplify_eq. done.
Qed.

Lemma decrement_incounter_log source target target_in w w' :
  Direct.decrement_incounter B source target target_in w = Some w' →
  (Direct.log w' = Direct.log w ++ [Direct.Decremented target]
   ∨ Direct.log w' = Direct.log w ++ [Direct.Decremented target; Direct.Scheduled target])
  ∧ Direct.node_out w' = Direct.node_out w
  ∧ Direct.outsets w' = Direct.outsets w.
Proof.
  unfold Direct.decrement_incounter, Direct.atomic_fetch_and_add. intros H.
  destruct target_in as [| |c|a]; simpl in H; simplify_eq.
  - simpl. split; [|done]. right. by rewrite <- app_assoc.
  - destruct (Direct.node_in w !! target) as [[| |c'|]|]; simplify_eq.
    case_bool_decide; simpl; (split; [|done]); [right|left]; by rewrite <- ?app_assoc.
  - destruct (Direct.incounters w !! a) as [o|]; [|done].
    destruct (Direct.incounter_decrement _ _ _) as [[tape' [st o']]|]; simplify_eq.
    case_bool_decide; simpl; (split; [|done]); [right|left]; by rewrite <- ?app_assoc.
Qed.

Lemma outset_insert_log source source_out target w st w' :
  Direct.outset_insert ea B source source_out target w = Some (st, w') →
  Direct.log w' = Direct.log w ++ [Direct.Inserted target st].
Proof.
  unfold Direct.outset_insert. intros H.
  destruct source_out as [|t|l|a]; simpl in H; simplify_eq.
  - destruct source; simplify_eq. done.
  - destruct source; [|done].
    destruct (Direct.node_in w !! target) as [[| |c|a]|]; simplify_eq; try done.
    case_bool_decide; simplify_eq; [|done].
    destruct (Direct.incounters w !! a) as [[]|]; simplify_eq. done.
  - destruct (Direct.outsets w !! a) as [o|]; [|done].
    destruct (Direct.outset_object_insert _ _ _ _) as [[tape' [st' o']]|]; simplify_eq.
    done.
Qed.


Lemma insert_walk_safe (val : node) root tape : ∀ path cur tape' st root',
  DyntreeOutset.node_at root path = Some cur →
  DyntreeOutset.insert_walk B tape root path (DyntreeOutset.Leaf val)
    = Some (tape', (st, root')) →
  match st with
  | insert_fail =>
      root' = root
      ∧ ∃ path' i p, DyntreeOutset.load_at root path' i = Some p
                     ∧ DyntreeOutset.is_finished_tag (DyntreeOutset.tag_of p) = true
  | insert_success =>
      ∃ cur', DyntreeOutset.installs B val cur cur'
              ∧ root' = DyntreeOutset.replace_at root path cur'
  end.
Proof.
  induction tape as [|r tape IH]; intros path cur tape' st root' Hat Hrun; [done|].
  cbn [DyntreeOutset.insert_walk] in Hrun.
  rewrite (oload_at_spec _ _ _ _ Hat) in Hrun.
  destruct (DyntreeOutset.children cur !! (r mod B)%nat) as [n|] eqn:Hn; [|done].
  destruct (DyntreeOutset.is_finished_tag (DyntreeOutset.tag_of n)) eqn:Hfin.
  { simplify_eq. split; [done|]. exists path, (r mod B)%nat, n.
    by rewrite (oload_at_spec _ _ _ _ Hat). }
  destruct n as [|d|m| |d|m]; try done.
  - unfold DyntreeOutset.insert_on_empty in Hrun. simpl in Hrun.
    rewrite (cas_loaded _ _ _ _ _ _ Hat Hn eq_refl) in Hrun. simplify_eq.
    eexists. split; [|done].
    rewrite <- (onode_eta cur) at 1. by apply DyntreeOutset.installs_empty.
  - unfold DyntreeOutset.insert_on_empty, DyntreeOutset.insert_on_leaf,
      DyntreeOutset.outset_node_of in Hrun. simpl in Hrun.
    case_decide; [|done].
    rewrite (cas_loaded _ _ _ _ _ _ Hat Hn) in Hrun
      by (simpl; by rewrite bool_decide_eq_true).
    simplify_eq. eexists. split; [|done].
    rewrite <- (onode_eta cur) at 1. by apply DyntreeOutset.installs_leaf.
  - unfold DyntreeOutset.insert_on_empty, DyntreeOutset.insert_on_leaf in Hrun.
    simpl in Hrun.
    assert (Hat' : DyntreeOutset.node_at root (path ++ [(r mod B)%nat]) = Some m).
    { by rewrite onode_at_app, Hat, Hn. }
    specialize (IH _ _ _ _ _ Hat' Hrun). destruct st; [|done].
    destruct IH as (m' & Hinst & ->).
    exists (DyntreeOutset.Outset_node
              (<[(r mod B)%nat := DyntreeOutset.Interior m']> (DyntreeOutset.children cur))).
    split.
    + rewrite <- (onode_eta cur) at 1. by eapply DyntreeOutset.installs_below.
    + by rewrite (oreplace_at_app _ _ _ _ _ _ _ Hat Hn eq_refl).
Qed.

Lemma insert_walk_progress (val : node) root :
  (2 ≤ B)%nat → DyntreeOutset.well_formed B root →
  ∀ k cur path,
    (DyntreeOutset.nb_nodes cur ≤ k)%nat →
    DyntreeOutset.node_at root path = Some cur →
    ∃ t1 st root', ∀ ext,
      DyntreeOutset.insert_walk B (t1 ++ ext) root path (DyntreeOutset.Leaf val)
      = Some (ext, (st, root')).
Proof.
  intros HB Hroot. induction k as [|k IH]; intros cur path Hk Hat.
  { pose proof (onb_nodes_pos cur). lia. }
  pose proof (oall_nodes_node_at _ _ _ _ Hroot Hat) as Hcur.
  pose proof (well_formed_length B _ Hcur) as Hlen.
  destruct (lookup_lt_is_Some_2 (DyntreeOutset.children cur) O) as [n Hn]; [lia|].
  destruct (DyntreeOutset.is_finished_tag (DyntreeOutset.tag_of n)) eqn:Hfin.
  { eexists [O], _, _. intros ext. rewrite <- app_comm_cons.
    cbn [DyntreeOutset.insert_walk].
    rewrite Nat.Div0.mod_0_l, (oload_at_spec _ _ _ _ Hat), Hn, Hfin. done. }
  destruct n as [|d|m| |d|m]; try done.
  - eexists [O], _, _. intros ext. rewrite <- app_comm_cons.
    cbn [DyntreeOutset.insert_walk].
    rewrite Nat.Div0.mod_0_l, (oload_at_spec _ _ _ _ Hat), Hn. simpl.
    unfold DyntreeOutset.insert_on_empty. simpl.
    rewrite (cas_loaded _ _ _ _ _ _ Hat Hn eq_refl). done.
  - eexists [O], _, _. intros ext. rewrite <- app_comm_cons.
    cbn [DyntreeOutset.insert_walk].
    rewrite Nat.Div0.mod_0_l, (oload_at_spec _ _ _ _ Hat), Hn. simpl.
    unfold DyntreeOutset.insert_on_empty, DyntreeOutset.insert_on_leaf,
      DyntreeOutset.outset_node_of. simpl.
    rewrite decide_True by done.
    rewrite (cas_loaded _ _ _ _ _ _ Hat Hn) by (simpl; by rewrite bool_decide_eq_true).
    done.
  - destruct (IH m (path ++ [O])) as (t1 & st & root' & Hrun).
    { pose proof (onb_nodes_child _ _ _ _ Hn eq_refl). lia. }
    { by rewrite onode_at_app, Hat, Hn. }
    exists (O :: t1), st, root'. intros ext. rewrite <- app_comm_cons.
    cbn [DyntreeOutset.insert_walk].
    rewrite Nat.Div0.mod_0_l, (oload_at_spec _ _ _ _ Hat), Hn. simpl.
    unfold DyntreeOutset.insert_on_empty, DyntreeOutset.insert_on_leaf. simpl.
    apply Hrun.
Qed.

Abbreviation leaf_weight target := (fun c : oslot =>
   match c with
   | DyntreeOutset.Leaf t => if bool_decide (t = target) then 1%nat else O
   | DyntreeOutset.Interior m => Direct.nb_leaves target m
   | _ => O
   end).

Lemma nb_leaves_eq target n :
  Direct.nb_leaves target n
  = list_sum (map (leaf_weight target) (DyntreeOutset.children n)).
Proof. by destruct n. Qed.

Lemma installs_nb_leaves val t t' :
  DyntreeOutset.installs B val t t' →
  Direct.nb_leaves val t' = S (Direct.nb_leaves val t).
Proof.
  induction 1 as [cs i Hi|cs i d Hi HB|cs i t t' Hi Hinst IH].
  - rewrite !nb_leaves_eq. simpl.
    pose proof (list_sum_insert (leaf_weight val) cs i _ (DyntreeOutset.Leaf val) Hi) as H.
    simpl in H. rewrite bool_decide_eq_true_2 in H by done. lia.
  - rewrite !nb_leaves_eq. simpl.
    pose proof (list_sum_insert (leaf_weight val) cs i _
      (DyntreeOutset.Interior
         (DyntreeOutset.Outset_node
            (<[1%nat:=DyntreeOutset.Leaf d]>
               (<[0%nat:=DyntreeOutset.Leaf val]> (replicate B DyntreeOutset.Empty))))) Hi) as H.
    cbn beta iota in H.
    assert (Direct.nb_leaves val
              (DyntreeOutset.Outset_node
                 (<[1%nat:=DyntreeOutset.Leaf d]>
                    (<[0%nat:=DyntreeOutset.Leaf val]> (replicate B DyntreeOutset.Empty))))
            = S (if bool_decide (d = val) then 1 else 0))%nat as Hnew.
    { destruct B as [|[|b]]; [lia..|]. simpl.
      rewrite bool_decide_eq_true_2 by done.
      assert (list_sum (map (leaf_weight val) (replicate b DyntreeOutset.Empty)) = O) as ->.
      { clear. induction b; simpl; auto. }
      lia. }
    rewrite Hnew in H. simpl in H. lia.
  - rewrite !nb_leaves_eq. simpl.
    pose proof (list_sum_insert (leaf_weight val) cs i _ (DyntreeOutset.Interior t') Hi) as H.
    simpl in H. lia.
Qed.


Lemma outset_insert_effect source source_out target w st w' :
  Direct.outset_insert ea B source source_out target w = Some (st, w') →
  Direct.node_in w' = Direct.node_in w
  ∧ Direct.incounters w' = Direct.incounters w
  ∧ match st with
    | insert_success =>
        (1 ≤ Direct.registered target w' (Direct.out_after source source_out w'))%nat
        ∧ ∀ a, source_out = Direct.Out_object a →
               Direct.registered target w' (Direct.Out_object a)
               = S (Direct.registered target w (Direct.Out_object a))
    | insert_fail =>
        ∃ a o, source_out = Direct.Out_object a
               ∧ Direct.outsets w !! a = Some o
               ∧ Direct.outsets w' !! a = Some o
               ∧ Direct.outset_is_finished o
    end.
Proof.
  unfold Direct.outset_insert. intros H.
  destruct source_out as [|t|l|a]; simpl in H; simplify_eq.
  - destruct source as [s|]; simplify_eq. simpl. split_and!; try done.
    + rewrite lookup_insert_eq. simpl. by rewrite bool_decide_eq_true_2.
  - destruct source as [s|]; [|done].
    destruct (Direct.node_in w !! target) as [tin|] eqn:Hin; [|done].
    assert (∀ w0, Direct.node_in w0 = Direct.node_in w →
              Direct.node_out w0 !! s = Some (Direct.Out_unary (Some target)) →
              (1 ≤ Direct.registered target w0
                     (Direct.out_after (Some s) (Direct.Out_direct_distributed_unary l) w0))%nat)
      as Hunary.
    { intros w0 _ Hout. simpl. rewrite Hout. simpl.
      by rewrite bool_decide_eq_true_2. }
    destruct tin as [| |c|a]; simplify_eq; simpl;
      try (split_and!; try done; apply Hunary; [done|]; simpl; by rewrite lookup_insert_eq).
    case_bool_decide; simplify_eq; simpl.
    + destruct (Direct.incounters w !! a) as [[]|]; simplify_eq. simpl.
      split_and!; try done. rewrite lookup_insert_eq. simpl.
      by rewrite Hin, bool_decide_eq_true_2.
    + split_and!; try done. apply Hunary; [done|]. simpl. by rewrite lookup_insert_eq.
  - destruct (Direct.outsets w !! a) as [o|] eqn:Ho; [|done].
    destruct (Direct.outset_object_insert _ _ _ _) as [[tape' [st' o']]|] eqn:Hins;
      simplify_eq.
    simpl. split; [done|]. split; [done|].
    destruct o as [o|o]; simpl in Hins.
    + unfold Simple.insert in Hins.
      case_bool_decide as Hfin; simplify_eq.
      * exists a, (Direct.Simple_out o). by rewrite lookup_insert_eq.
      * split.
        -- rewrite lookup_insert_eq. simpl. rewrite filter_cons_True by done.
           simpl. lia.
        -- intros a' [= <-]. simpl. rewrite lookup_insert_eq, Ho. simpl.
           by rewrite filter_cons_True.
    + unfold DyntreeOutset.insert in Hins.
      destruct (DyntreeOutset.insert_walk _ _ _ _ _) as [[tape1 [st1 root']]|] eqn:Hw;
        simplify_eq.
      pose proof (insert_walk_safe target _ _ [] _ _ _ _ eq_refl Hw) as Hsafe.
      destruct st.
      * destruct Hsafe as (cur' & Hinst & ->). simpl in *.
        apply installs_nb_leaves in Hinst. split.
        -- rewrite lookup_insert_eq. simpl. lia.
        -- intros a' [= <-]. simpl. by rewrite lookup_insert_eq, Ho.
      * destruct Hsafe as [-> Hfin]. exists a, (Direct.Dyntree_out o).
        split; [done|]. split; [done|]. rewrite lookup_insert_eq.
        split; [by destruct o|done].
Qed.

Lemma in_count_agree target target_in w w' :
  Direct.node_in w' = Direct.node_in w →
  Direct.incounters w' = Direct.incounters w →
  Direct.in_count target target_in w' = Direct.in_count target target_in w.
Proof. intros Hn Hi. unfold Direct.in_count. by rewrite Hn, Hi. Qed.

(** [increment_incounter] raises the count of the in-counter by one. *)
Lemma increment_incounter_count source target target_in w w' :
  Direct.in_ok B false target target_in w →
  Direct.increment_incounter B source target target_in w = Some w' →
  Direct.in_count target target_in w'
  = (λ c, c + 1) <$> Direct.in_count target target_in w
  ∧ Direct.in_ok B true target target_in w'.
Proof.
  intros Hok Hrun. destruct target_in as [| |c|a]; simpl in Hok; [done| | |].
  - simpl in Hrun. by simplify_eq.
  - destruct Hok as [c0 Hc0].
    unfold Direct.increment_incounter, Direct.atomic_fetch_and_add in Hrun.
    simpl in Hrun. rewrite Hc0 in Hrun. simplify_eq. simpl.
    rewrite lookup_insert_eq, Hc0. eauto.
  - unfold Direct.increment_incounter in Hrun. simpl in Hrun.
    destruct (Direct.incounters w !! a) as [[c|c]|] eqn:Ha; [| |done].
    + simpl in Hrun. simplify_eq. simpl. by rewrite lookup_insert_eq, Ha.
    + destruct Hok as [Hinv _]. simpl in Hrun.
      destruct (Dyntree.increment B (Direct.generator w) c) as [[tape' c']|] eqn:Hinc;
        [|done].
      simplify_eq. destruct (increment_safe B _ _ _ _ Hinv Hinc) as [Hinv' Hcount].
      simpl. rewrite lookup_insert_eq, Ha. simpl. split.
      * f_equal. lia.
      * split; [done|]. intros _. lia.
Qed.

(** [decrement_incounter] lowers the count by one, and schedules the
    target exactly when the count was one (a unary word always does). *)
Lemma decrement_incounter_count pending source target target_in w w' :
  Direct.in_ok B pending target target_in w →
  Direct.decrement_incounter B source target target_in w = Some w' →
  Direct.in_count target target_in w'
  = (λ c, c - 1) <$> Direct.in_count target target_in w
  ∧ ∃ sched,
      Direct.log w' = Direct.log w ++ Direct.Decremented target :: sched
      ∧ (sched = [] ∨ sched = [Direct.Scheduled target])
      ∧ (sched = [Direct.Scheduled target]
         ↔ default 1 (Direct.in_count target target_in w) = 1).
Proof.
  intros Hok Hrun. destruct target_in as [| |c|a]; simpl in Hok; [done| | |].
  - simpl in Hrun. simplify_eq. split; [done|].
    exists [Direct.Scheduled target]. simpl. rewrite <- app_assoc. by split_and!; [|right|].
  - destruct Hok as [c0 Hc0].
    unfold Direct.decrement_incounter, Direct.atomic_fetch_and_add in Hrun.
    simpl in Hrun. rewrite Hc0 in Hrun. simpl. rewrite Hc0. simpl.
    case_bool_decide as Hone; simplify_eq; simpl; rewrite lookup_insert_eq.
    + split; [done|]. exists [Direct.Scheduled target]. rewrite <- app_assoc.
      by split_and!; [|right|].
    + split; [done|]. exists []. split_and!; [done|by left|]. split; [done|lia].
  - unfold Direct.decrement_incounter in Hrun. simpl in Hrun. simpl.
    destruct (Direct.incounters w !! a) as [[c|c]|] eqn:Ha; [| |done].
    + simpl in Hrun.
      destruct (bool_decide (Direct.surplus (Direct.nzi c) - 1 = 0)) eqn:Hz;
        simpl in Hrun; simplify_eq; simpl; rewrite lookup_insert_eq; simpl.
      * apply bool_decide_eq_true in Hz. split; [done|].
        exists [Direct.Scheduled target]. rewrite <- app_assoc.
        split_and!; [done|by right|]. split; [lia|done].
      * apply bool_decide_eq_false in Hz. split; [done|].
        exists []. split_and!; [done|by left|]. split; [done|lia].
    + destruct Hok as [Hinv _]. simpl in Hrun.
      destruct (Dyntree.decrement B (Direct.generator w) c) as [[tape' [st c']]|] eqn:Hdec;
        [|done].
      destruct (decrement_safe B _ _ _ _ _ Hinv Hdec) as (Hinv' & Hcount & Hst).
      simpl in Hrun.
      case_bool_decide as Hact; simplify_eq; simpl; rewrite lookup_insert_eq; simpl.
      * split; [f_equal; lia|]. exists [Direct.Scheduled target]. rewrite <- app_assoc.
        split_and!; [done|by right|]. split; [|done]. intros _.
        assert (Dyntree.logical_count c' = O) by (by apply Hst). lia.
      * split; [f_equal; lia|]. exists []. split_and!; [done|by left|].
        split; [done|]. intros Hone. exfalso. apply Hact, Hst. lia.
Qed.

Lemma add_edge_effect source source_out target target_in w w' :
  Direct.add_edge ea B source source_out target target_in w = Some w' →
  ∃ st sched,
    Direct.log w'
    = Direct.log w
      ++ [Direct.Incremented target; Direct.Inserted target st]
      ++ (if bool_decide (st = insert_fail)
          then Direct.Decremented target :: sched else [])
    ∧ (sched = [] ∨ sched = [Direct.Scheduled target])
    ∧ (st = insert_success →
       (1 ≤ Direct.registered target w' (Direct.out_after source source_out w'))%nat
       ∧ ∀ a, source_out = Direct.Out_object a →
              Direct.registered target w' (Direct.Out_object a)
              = S (Direct.registered target w (Direct.Out_object a)))
    ∧ (st = insert_fail →
       ∃ a o, source_out = Direct.Out_object a
              ∧ Direct.outsets w !! a = Some o
              ∧ Direct.outsets w' !! a = Some o
              ∧ Direct.outset_is_finished o)
    ∧ (Direct.in_ok B false target target_in w →
       (st = insert_success →
        Direct.in_count target target_in w'
        = (λ c, c + 1) <$> Direct.in_count target target_in w)
       ∧ (st = insert_fail →
          Direct.in_count target target_in w' = Direct.in_count target target_in w
          ∧ (sched = [Direct.Scheduled target]
             ↔ default 0 (Direct.in_count target target_in w) = 0))).
Proof.
  unfold Direct.add_edge. intros H.
  destruct (Direct.increment_incounter _ _ _ _ _) as [w1|] eqn:Hinc; [|done].
  destruct (Direct.outset_insert _ _ _ _ _ _) as [[st w2]|] eqn:Hins; [|done].
  destruct (increment_incounter_log _ _ _ _ _ Hinc) as (Hlog1 & Hout1 & Hsets1).
  pose proof (outset_insert_log _ _ _ _ _ _ Hins) as Hlog2.
  destruct (outset_insert_effect _ _ _ _ _ _ Hins) as (Hin2 & Hinc2 & Heff).
  assert (Hcount2 : Direct.in_ok B false target target_in w →
            Direct.in_count target target_in w2
            = (λ c, c + 1) <$> Direct.in_count target target_in w
            ∧ Direct.in_ok B true target target_in w2).
  { intros Hok. destruct (increment_incounter_count _ _ _ _ _ Hok Hinc) as [Hc1 Hok1].
    split.
    - by rewrite (in_count_agree _ _ _ _ Hin2 Hinc2).
    - unfold Direct.in_ok in *. by rewrite Hin2, Hinc2. }
  destruct st; simpl in H.
  - simplify_eq. exists insert_success, []. simpl. split_and!.
    + rewrite Hlog2, Hlog1, <- app_assoc. done.
    + by left.
    + intros _. destruct Heff as [H1 H2]. split; [done|].
      intros a Ha. etrans; [apply (H2 a Ha)|]. f_equal. subst source_out. simpl.
      by rewrite Hsets1.
    + done.
    + intros Hok. split; [|done]. intros _. by apply Hcount2.
  - destruct (decrement_incounter_log _ _ _ _ _ H) as (Hlog3 & Hout3 & Hsets3).
    destruct Heff as (a & o & -> & Ho1 & Ho2 & Hfin).
    assert (Hcount3 : ∀ sched,
              Direct.log w' = Direct.log w2 ++ Direct.Decremented target :: sched →
              Direct.in_ok B false target target_in w →
              Direct.in_count target target_in w' = Direct.in_count target target_in w
              ∧ (sched = [Direct.Scheduled target]
                 ↔ default 0 (Direct.in_count target target_in w) = 0)).
    { intros sched Hlog Hok. destruct (Hcount2 Hok) as [Hc2 Hok2].
      destruct (decrement_incounter_count _ _ _ _ _ _ Hok2 H)
        as (Hc3 & sched' & Hlog' & _ & Hiff).
      rewrite Hlog' in Hlog. apply app_inv_head in Hlog. injection Hlog as ->.
      rewrite Hc3, Hc2. rewrite Hiff, Hc2.
      destruct (Direct.in_count target target_in w) as [c|]; simpl.
      - split; [f_equal; lia|]. lia.
      - done. }
    destruct Hlog3 as [Hlog3|Hlog3].
    + exists insert_fail, []. simpl. split_and!; [|by left|done| |].
      * rewrite Hlog3, Hlog2, Hlog1, <- !app_assoc. done.
      * intros _. exists a, o. rewrite Hsets3, <- Hsets1. done.
      * intros Hok. split; [done|]. intros _. by apply Hcount3.
    + exists insert_fail, [Direct.Scheduled target]. simpl.
      split_and!; [|by right|done| |].
      * rewrite Hlog3, Hlog2, Hlog1, <- !app_assoc. done.
      * intros _. exists a, o. rewrite Hsets3, <- Hsets1. done.
      * intros Hok. split; [done|]. intros _. by apply Hcount3.
Qed.


Lemma increment_incounter_progress source target target_in w :
  (0 < B)%nat →
  Direct.in_ok B false target target_in w →
  ∃ t1 w1,
    (∀ ext,
       Direct.increment_incounter B source target target_in
         (Direct.with_generator (t1 ++ ext) w)
       = Some (Direct.with_generator ext w1))
    ∧ Direct.in_ok B true target target_in w1
    ∧ ∀ src src_out,
        Direct.out_ok ea B src src_out target w →
        Direct.out_ok ea B src src_out target w1.
Proof.
  intros HB Hok. destruct target_in as [| |c|a]; simpl in Hok; [done| | |].
  - exists [], (Direct.record (Direct.Incremented target) w).
    split_and!; [done|done|]. intros src [|t|l|a] Hout; done.
  - destruct Hok as [c0 Hc0].
    exists [], (Direct.set_node_in (Direct.record (Direct.Incremented target) w)
                  target (Direct.In_fetch_add (c0 + 1))).
    split_and!.
    + intros ext. unfold Direct.increment_incounter, Direct.atomic_fetch_and_add.
      simpl. by rewrite Hc0.
    + simpl. rewrite lookup_insert_eq. eauto.
    + intros src [|t|l|a] Hout; try done. simpl in *.
      destruct Hout as [Hsrc _]. split; [done|].
      eexists. rewrite lookup_insert_eq. split; [done|]. done.
  - destruct (Direct.incounters w !! a) as [[c|c]|] eqn:Ha; [| |done].
    + exists [], (Direct.set_incounter (Direct.record (Direct.Incremented target) w) a []
                    (Direct.Distributed
                       {| Direct.nzi := Direct.snzi_arrive (Direct.nzi c) |})).
      split_and!.
      * intros ext. unfold Direct.increment_incounter. simpl. by rewrite Ha.
      * simpl. by rewrite lookup_insert_eq.
      * intros src [|t|l|a'] Hout; try done. simpl in *.
        destruct Hout as [Hsrc (tin & Htin & Hd)]. split; [done|].
        exists tin. split; [done|]. intros a1 -> Hea.
        destruct (Hd a1 eq_refl Hea) as [c1 Hc1].
        destruct (decide (a1 = a)) as [->|Hne].
        -- rewrite lookup_insert_eq. eauto.
        -- rewrite lookup_insert_ne by done. eauto.
    + destruct Hok as [Hinv _].
      destruct (increment_progress B c HB Hinv) as (t1 & c' & Hrun).
      pose proof (Hrun []) as Hrun0. rewrite app_nil_r in Hrun0.
      destruct (increment_safe B _ _ _ _ Hinv Hrun0) as [Hinv' Hcount].
      exists t1, (Direct.set_incounter (Direct.record (Direct.Incremented target) w) a []
                    (Direct.Dyntree_in c')).
      split_and!.
      * intros ext. unfold Direct.increment_incounter. simpl. rewrite Ha. simpl.
        by rewrite Hrun.
      * simpl. rewrite lookup_insert_eq. split; [done|]. intros _. lia.
      * intros src [|t|l|a'] Hout; try done. simpl in *.
        destruct Hout as [Hsrc (tin & Htin & Hd)]. split; [done|].
        exists tin. split; [done|]. intros a1 -> Hea.
        destruct (Hd a1 eq_refl Hea) as [c1 Hc1].
        destruct (decide (a1 = a)) as [->|Hne]; [by simplify_eq|].
        rewrite lookup_insert_ne by done. eauto.
Qed.

Lemma outset_insert_progress source source_out target w :
  (2 ≤ B)%nat →
  Direct.out_ok ea B source source_out target w →
  ∃ t1 st w2,
    (∀ ext,
       Direct.outset_insert ea B source source_out target
         (Direct.with_generator (t1 ++ ext) w)
       = Some (st, Direct.with_generator ext w2))
    ∧ Direct.node_in w2 = Direct.node_in w
    ∧ Direct.incounters w2 = Direct.incounters w.
Proof.
  intros HB Hok. destruct source_out as [|t|l|a]; simpl in Hok; [done| | |].
  - destruct Hok as [s ->].
    eexists [], insert_success, (Direct.record _ (Direct.set_node_out w s _)).
    split_and!; [|done|done]. intros ext. done.
  - destruct Hok as [[s ->] (tin & Htin & Hd)].
    unfold Direct.outset_insert. simpl. rewrite Htin.
    destruct tin as [| |c|a];
      try (eexists [], insert_success, (Direct.record _ (Direct.set_node_out w s _));
           split_and!; [|done|done]; intros ext; done).
    case_bool_decide as Hea.
    + destruct (Hd a eq_refl Hea) as [c Hc]. rewrite Hc.
      eexists [], insert_success, (Direct.record _ (Direct.set_node_out w s _)).
      split_and!; [|done|done]. intros ext. done.
    + eexists [], insert_success, (Direct.record _ (Direct.set_node_out w s _)).
      split_and!; [|done|done]. intros ext. done.
  - unfold Direct.outset_insert. simpl.
    destruct (Direct.outsets w !! a) as [[o|o]|] eqn:Ha; [| |done].
    + destruct (Simple.insert target o) as [st o'] eqn:Hins.
      exists [], st, (Direct.record (Direct.Inserted target st)
                        (Direct.set_outset w a [] (Direct.Simple_out o'))).
      split_and!; [|done|done]. intros ext. simpl. by rewrite Hins.
    + destruct (insert_walk_progress target (DyntreeOutset.root o) HB Hok
                  _ (DyntreeOutset.root o) [] (le_n _) eq_refl)
        as (t1 & st & root' & Hrun).
      eexists t1, st, (Direct.record _ (Direct.set_outset w a [] _)).
      split_and!; [|done|done]. intros ext. simpl.
      unfold DyntreeOutset.insert. rewrite Hrun. done.
Qed.

Lemma decrement_incounter_progress source target target_in w :
  (0 < B)%nat →
  Direct.in_ok B true target target_in w →
  ∃ t1 w3, ∀ ext,
    Direct.decrement_incounter B source target target_in
      (Direct.with_generator (t1 ++ ext) w)
    = Some (Direct.with_generator ext w3).
Proof.
  intros HB Hok. destruct target_in as [| |c|a]; simpl in Hok; [done| | |].
  - by eexists [], (Direct.schedule target (Direct.record _ w)).
  - destruct Hok as [c0 Hc0].
    unfold Direct.decrement_incounter, Direct.atomic_fetch_and_add. simpl.
    rewrite Hc0.
    destruct (decide (c0 = 1)) as [->|Hne].
    + eexists [], (Direct.schedule target (Direct.set_node_in (Direct.record _ w) _ _)).
      intros ext. done.
    + eexists [], (Direct.set_node_in (Direct.record _ w) _ _).
      intros ext. by rewrite bool_decide_eq_false_2.
  - unfold Direct.decrement_incounter. simpl.
    destruct (Direct.incounters w !! a) as [[c|c]|] eqn:Ha; [| |done].
    + simpl. destruct (bool_decide (Direct.surplus (Direct.nzi c) - 1 = 0)) eqn:Hz.
      * eexists [], (Direct.schedule target (Direct.set_incounter (Direct.record _ w) a [] _)).
        intros ext. simpl. done.
      * eexists [], (Direct.set_incounter (Direct.record _ w) a [] _).
        intros ext. simpl. done.
    + destruct Hok as [Hinv Hpos].
      destruct (decrement_progress B c HB Hinv (Hpos eq_refl)) as (t1 & [st c'] & Hrun).
      simpl. destruct (decide (st = activated)) as [->|Hne].
      * eexists t1, (Direct.schedule target (Direct.set_incounter (Direct.record _ w) a [] _)).
        intros ext. rewrite Hrun. done.
      * eexists t1, (Direct.set_incounter (Direct.record _ w) a [] _).
        intros ext. rewrite Hrun. by rewrite bool_decide_eq_false_2.
Qed.

Lemma in_ok_agree pending target target_in w w' :
  Direct.node_in w' = Direct.node_in w →
  Direct.incounters w' = Direct.incounters w →
  Direct.in_ok B pending target target_in w →
  Direct.in_ok B pending target target_in w'.
Proof. intros Hn Hi. unfold Direct.in_ok. by rewrite Hn, Hi. Qed.

Lemma add_edge_progress source source_out target target_in w :
  (2 ≤ B)%nat →
  Direct.in_ok B false target target_in w →
  Direct.out_ok ea B source source_out target w →
  ∃ tape w',
    Direct.add_edge ea B source source_out target target_in
      (Direct.with_generator tape w) = Some w'.
Proof.
  intros HB Hin Hout.
  destruct (increment_incounter_progress source target target_in w ltac:(lia) Hin)
    as (t1 & w1 & Hinc & Hin1 & Hpres).
  destruct (outset_insert_progress source source_out target w1 HB (Hpres _ _ Hout))
    as (t2 & st & w2 & Hins & Hn2 & Hi2).
  destruct (decrement_incounter_progress source target target_in w2 ltac:(lia)
              (in_ok_agree _ _ _ _ _ Hn2 Hi2 Hin1)) as (t3 & w3 & Hdec).
  exists (t1 ++ t2 ++ t3). unfold Direct.add_edge. rewrite Hinc, Hins.
  destruct st; simpl; [by eauto|].
  specialize (Hdec []). rewrite app_nil_r in Hdec. rewrite Hdec. eauto.
Qed.


(** C1.  [add_edge(source, source_out, target, target_in)].  Whenever it
    returns, the engine has called, in this order, [increment_incounter]
    on the target, [outset_insert] of the target into the out-strategy of
    the source and, exactly when the insertion returned [insert_fail],
    the compensating [decrement_incounter] (which may schedule the
    target).  When the insertion succeeded the target is among the
    successors the out-strategy holds for [finish] to decrement (once
    more than before for an out-set object), no compensating decrement
    ran, and the in-counter of the target holds one more than before;
    when it failed the out-set object is unchanged and finished, so the
    only decrement for this edge is the compensating one: the in-counter
    of the target is back at the count it held before, and the target is
    scheduled exactly when that count is zero (a unary in-strategy holds
    no count and is always scheduled).  For a well-formed request with at
    least two slots per tree node, [add_edge] returns on some generator
    tape. *)
Theorem add_edge_compensates (source : option node) (source_out : Direct.outstrategy)
    (target : node) (target_in : Direct.instrategy) (w : Direct.world) :
  (∀ w',
     Direct.add_edge ea B source source_out target target_in w = Some w' →
     ∃ st sched,
       Direct.log w'
       = Direct.log w
         ++ [Direct.Incremented target; Direct.Inserted target st]
         ++ (if bool_decide (st = insert_fail)
             then Direct.Decremented target :: sched else [])
       ∧ (sched = [] ∨ sched = [Direct.Scheduled target])
       ∧ (st = insert_success →
          (1 ≤ Direct.registered target w' (Direct.out_after source source_out w'))%nat
          ∧ ∀ a, source_out = Direct.Out_object a →
                 Direct.registered target w' (Direct.Out_object a)
                 = S (Direct.registered target w (Direct.Out_object a)))
       ∧ (st = insert_fail →
          ∃ a o, source_out = Direct.Out_object a
                 ∧ Direct.outsets w !! a = Some o
                 ∧ Direct.outsets w' !! a = Some o
                 ∧ Direct.outset_is_finished o)
       ∧ (Direct.in_ok B false target target_in w →
          (st = insert_success →
           Direct.in_count target target_in w'
           = (λ c, c + 1) <$> Direct.in_count target target_in w)
          ∧ (st = insert_fail →
             Direct.in_count target target_in w'
             = Direct.in_count target target_in w
             ∧ (sched = [Direct.Scheduled target]
                ↔ default 0 (Direct.in_count target target_in w) = 0))))
  ∧ ((2 ≤ B)%nat →
     Direct.in_ok B false target target_in w →
     Direct.out_ok ea B source source_out target w →
     ∃ tape w',
       Direct.add_edge ea B source source_out target target_in
         (Direct.with_generator tape w) = Some w').
Proof.
  split.
  - intros w'. apply add_edge_effect.
  - apply add_edge_progress.
Qed.

End DirectFacts.

(** C4 as stated fails: over increment, decrement, increment, decrement
    the target is scheduled twice, not exactly once. *)
Lemma exactly_one_report_fails :
  ¬ (∀ (target : node) (ops : list incounter_op) (w w' : Direct.world),
       Direct.node_in w !! target = Some (Direct.In_fetch_add 0) →
       never_negative 0 ops = true →
       nb_ops Increment ops = nb_ops Decrement ops →
       Direct.run_ops 2 target ops w = Some w' →
       Direct.nb_scheduled target (Direct.log w')
       = S (Direct.nb_scheduled target (Direct.log w))).
Proof.
  intros H.
  pose (w := {| Direct.node_in := {[ 1%nat := Direct.In_fetch_add 0 ]};
                Direct.node_out := ∅; Direct.incounters := ∅; Direct.outsets := ∅;
                Direct.generator := []; Direct.log := [] |}).
  destruct (run_ops_fetch_add 2 1%nat
              [Increment; Decrement; Increment; Decrement] w 0)
    as (w' & Hrun & _ & Hlog); [done|].
  specialize (H 1%nat [Increment; Decrement; Increment; Decrement] w w'
                eq_refl eq_refl eq_refl Hrun).
  rewrite Hlog in H. vm_compute in H. discriminate.
Qed.

Lemma fetch_add_incounter_reports_witness :
  let w := {| Direct.node_in := {[ 1%nat := Direct.In_fetch_add 0 ]};
              Direct.node_out := ∅; Direct.incounters := ∅; Direct.outsets := ∅;
              Direct.generator := []; Direct.log := [] |} in
  let ops := [Increment; Increment; Decrement; Decrement] in
  ∃ w',
    Direct.run_ops 2 1%nat ops w = Some w'
    ∧ Direct.node_in w' !! 1%nat = Some (Direct.In_fetch_add 0)
    ∧ Direct.log w' = Direct.log w ++ Direct.expected_log 1%nat 0 ops
    ∧ Direct.nb_scheduled 1%nat (Direct.expected_log 1%nat 0 ops)
      = Direct.zero_returns 0 ops
    ∧ (ops ≠ [] →
       last (Direct.log w') = Some (Direct.Scheduled 1%nat)
       ∧ (1 ≤ Direct.zero_returns 0 ops)%nat).
Proof.
  apply (fetch_add_incounter_reports 2 1%nat); reflexivity.
Defined.

(** A consumer forces a future that has already finished: the insertion
    fails and the compensating decrement schedules the consumer. *)
Example add_edge_into_finished_future :
  let w := {| Direct.node_in := {[ 1%nat := Direct.In_unary ]};
              Direct.node_out := ∅; Direct.incounters := ∅;
              Direct.outsets :=
                {[ 5%nat := Direct.Simple_out
                     {| Simple.head := ([], Simple.finished_code);
                        Simple.should_deallocate_automatically := false |} ]};
              Direct.generator := []; Direct.log := [] |} in
  option_map Direct.log
    (Direct.add_edge Direct.edge_algorithm_simple 2 None (Direct.Out_object 5%nat)
       1%nat Direct.In_unary w)
  = Some [Direct.Incremented 1%nat; Direct.Inserted 1%nat insert_fail;
          Direct.Decremented 1%nat; Direct.Scheduled 1%nat].
Proof. vm_compute. reflexivity. Qed.

(** The same request on a future that has not finished: the consumer is
    linked into the out-set and nothing is decremented. *)
Example add_edge_into_pending_future :
  let w := {| Direct.node_in := {[ 1%nat := Direct.In_unary ]};
              Direct.node_out := ∅; Direct.incounters := ∅;
              Direct.outsets :=
                {[ 5%nat := Direct.Simple_out
                     {| Simple.head := ([], 0);
                        Simple.should_deallocate_automatically := false |} ]};
              Direct.generator := []; Direct.log := [] |} in
  option_map (λ w', (Direct.log w', Direct.registered 1%nat w' (Direct.Out_object 5%nat)))
    (Direct.add_edge Direct.edge_algorithm_simple 2 None (Direct.Out_object 5%nat)
       1%nat Direct.In_unary w)
  = Some ([Direct.Incremented 1%nat; Direct.Inserted 1%nat insert_success], 1%nat).
Proof. vm_compute. reflexivity. Qed.

(** A fetch-add in-counter holding [count], and an edge from a finished
    or a pending out-set: after a failed insertion the in-counter holds
    [count] again, and the target is scheduled when [count] is 0; after
    a successful one it holds [count + 1]. *)
Example add_edge_counts :
  let w count tag :=
    {| Direct.node_in := {[ 1%nat := Direct.In_fetch_add count ]};
       Direct.node_out := ∅; Direct.incounters := ∅;
       Direct.outsets :=
         {[ 5%nat := Direct.Simple_out
              {| Simple.head := ([], tag);
                 Simple.should_deallocate_automatically := false |} ]};
       Direct.generator := []; Direct.log := [] |} in
  let run count tag :=
    option_map
      (λ w', (Direct.in_count 1%nat (Direct.In_fetch_add 0) w',
              Direct.nb_scheduled 1%nat (Direct.log w')))
      (Direct.add_edge Direct.edge_algorithm_simple 2 None (Direct.Out_object 5%nat)
         1%nat (Direct.In_fetch_add 0) (w count tag)) in
  run 0 Simple.finished_code = Some (Some 0, 1%nat)
  ∧ run 2 Simple.finished_code = Some (Some 2, 0%nat)
  ∧ run 2 0 = Some (Some 3, 0%nat).
Proof. vm_compute. done. Qed.

(** ** direct : the lazy parallel-for node *)

Section ParallelForFacts.

Variable cd : Z.
Hypothesis Hcd : 0 < cd < 2 ^ 31.
Variable ea : Direct.edge_algorithm_type.
Variable B : nat.



















End ParallelForFacts.


(** Ten indices in blocks of four: three process blocks. *)
Example lazy_parallel_for_blocks :
  option_map snd
    (Direct.run_node 4 10 Direct.process_block
       {| Direct.lo := 0; Direct.hi := 10; Direct.join := 1%nat |} [])
  = Some [0; 1; 2; 3; 4; 5; 6; 7; 8; 9].
Proof. reflexivity. Qed.

(** [split] of the range [[4, 10)] of a node whose consumer, node 1,
    has a fetch-add in-counter holding 1.  On a sibling, node 7, with a
    unary out-strategy the sibling takes [[7, 10)], the in-counter of
    the consumer holds 2 and the sibling points to the consumer; on a
    sibling with no out-strategy there is no result. *)
Example lazy_parallel_for_split :
  let p := {| Direct.lo := 4; Direct.hi := 10; Direct.join := 1%nat |} in
  let w out := {| Direct.node_in := {[ 1%nat := Direct.In_fetch_add 1 ]};
                  Direct.node_out := out; Direct.incounters := ∅; Direct.outsets := ∅;
                  Direct.generator := []; Direct.log := [] |} in
  Direct.split Direct.edge_algorithm_simple 2 7%nat p
    (w {[ 7%nat := Direct.Out_unary None ]})
  = Some ({| Direct.lo := 4; Direct.hi := 7; Direct.join := 1%nat |},
          {| Direct.lo := 7; Direct.hi := 10; Direct.join := 1%nat |},
          {| Direct.node_in := {[ 1%nat := Direct.In_fetch_add 2 ]};
             Direct.node_out := {[ 7%nat := Direct.Out_unary (Some 1%nat) ]};
             Direct.incounters := ∅; Direct.outsets := ∅;
             Direct.generator := [];
             Direct.log := [Direct.Incremented 1%nat;
                            Direct.Inserted 1%nat insert_success] |})
  ∧ Direct.split Direct.edge_algorithm_simple 2 7%nat p (w ∅) = None.
Proof. split; vm_compute; reflexivity. Qed.

(** A schedule with a steal: the range [[0, 4)] is split, each half is
    run in one block of two indices, and both nodes finish. *)
Example lazy_parallel_for_stolen :
  let w out count :=
    {| Direct.node_in := {[ 1%nat := Direct.In_fetch_add count ]};
       Direct.node_out := out; Direct.incounters := ∅; Direct.outsets := ∅;
       Direct.generator := [];
       Direct.log := if bool_decide (count = 1) then []
                     else [Direct.Incremented 1%nat;
                           Direct.Inserted 1%nat insert_success] |} in
  rtc (Direct.step 2 Direct.edge_algorithm_simple 2)
    ([({| Direct.lo := 0; Direct.hi := 4; Direct.join := 1%nat |}, Direct.process_block)],
     [], w {[ 7%nat := Direct.Out_unary None ]} 1)
    ([], [0; 1; 2; 3], w {[ 7%nat := Direct.Out_unary (Some 1%nat) ]} 2).
Proof.
  intros w.
  eapply rtc_l.
  { apply (Direct.step_split 2 Direct.edge_algorithm_simple 2 [] _ _ [] _ _ 7%nat
             {| Direct.lo := 0; Direct.hi := 2; Direct.join := 1%nat |}
             {| Direct.lo := 2; Direct.hi := 4; Direct.join := 1%nat |}
             (w {[ 7%nat := Direct.Out_unary (Some 1%nat) ]} 2)).
    vm_compute. reflexivity. }
  eapply rtc_l.
  { apply (Direct.step_block 2 Direct.edge_algorithm_simple 2 [] _ _ [_] _ _
             {| Direct.lo := 2; Direct.hi := 2; Direct.join := 1%nat |} [0; 1]
             Direct.repeat_block).
    reflexivity. }
  eapply rtc_l.
  { apply (Direct.step_finish 2 Direct.edge_algorithm_simple 2 [] _ _ [_] _ _
             {| Direct.lo := 2; Direct.hi := 2; Direct.join := 1%nat |} []).
    reflexivity. }
  eapply rtc_l.
  { apply (Direct.step_block 2 Direct.edge_algorithm_simple 2 [] _ _ [] _ _
             {| Direct.lo := 4; Direct.hi := 4; Direct.join := 1%nat |} [2; 3]
             Direct.repeat_block).
    reflexivity. }
  eapply rtc_l.
  { apply (Direct.step_finish 2 Direct.edge_algorithm_simple 2 [] _ _ [] _ _
             {| Direct.lo := 4; Direct.hi := 4; Direct.join := 1%nat |} []).
    reflexivity. }
  apply rtc_refl.
Qed.

(** A node with one occupied slot: the sweep writes slot 0, fails on
    slot 1 and restores slot 0. *)
Lemma try_to_detatch_all_or_nothing_witness :
  let n := Dyntree.Incounter_node
             [(None, 0); (Some (Dyntree.init 2 (None, 0)), 0)] in
  length (Dyntree.children n) = 2%nat
  ∧ ∃ b n',
      Dyntree.try_to_detatch 2 n = Some (b, n')
      ∧ (b = true →
         Dyntree.children n' = replicate 2 Dyntree.minus
         ∧ Dyntree.children n = replicate 2 (None, 0))
      ∧ (b = false →
         n' = n ∧ ∃ j c, Dyntree.children n !! j = Some c ∧ is_nullptr c = false).
Proof.
  split; [reflexivity|].
  apply (try_to_detatch_all_or_nothing 2). reflexivity.
Defined.

Example try_to_detatch_rolls_back :
  Dyntree.try_to_detatch 2
    (Dyntree.Incounter_node [(None, 0); (Some (Dyntree.init 2 (None, 0)), 0)])
  = Some (false,
      Dyntree.Incounter_node [(None, 0); (Some (Dyntree.init 2 (None, 0)), 0)]).
Proof. reflexivity. Qed.

Example try_to_detatch_on_leaf :
  Dyntree.try_to_detatch 3 (Dyntree.init 3 (None, 0))
  = Some (true, Dyntree.init 3 Dyntree.minus).
Proof. reflexivity. Qed.

(** ** The port-passing in-counter *)

(** A store that is not empty has a node of greatest rank. *)
Lemma max_rank {V} (h : gmap nat V) (f : nat → nat) :
  h ≠ ∅ → ∃ x, is_Some (h !! x) ∧ ∀ y, is_Some (h !! y) → (f y ≤ f x)%nat.
Proof.
  induction h as [|k v h Hk _ IH] using map_first_key_ind; [done|]. intros _.
  destruct (decide (h = ∅)) as [->|Hne].
  - exists k. split; [by rewrite lookup_insert_eq|].
    intros y [w Hy]. destruct (decide (y = k)) as [->|Hyk]; [done|].
    by rewrite lookup_insert_ne, lookup_empty in Hy.
  - destruct (IH Hne) as (x & Hx & Hmax).
    destruct (decide (f x ≤ f k)%nat) as [Hle|Hgt].
    + exists k. split; [by rewrite lookup_insert_eq|].
      intros y [w Hy]. destruct (decide (y = k)) as [->|Hyk]; [done|].
      rewrite lookup_insert_ne in Hy by done.
      etrans; [apply Hmax; eauto|done].
    + exists x. split.
      * destruct (decide (x = k)) as [->|Hxk]; [by rewrite Hk in Hx; destruct Hx|].
        by rewrite lookup_insert_ne.
      * intros y [w Hy]. destruct (decide (y = k)) as [->|Hyk]; [lia|].
        rewrite lookup_insert_ne in Hy by done. apply Hmax. eauto.
Qed.

Lemma child_of_delete h c x y :
  Portpassing.child_of (delete c h) x y ↔ Portpassing.child_of h x y ∧ x ≠ c.
Proof.
  unfold Portpassing.child_of. split.
  - intros (n & Hx & Hp). apply lookup_delete_Some in Hx as [Hne Hx]. eauto.
  - intros [(n & Hx & Hp) Hne]. exists n. by rewrite lookup_delete_ne.
Qed.

Lemma child_of_insert_same_parent h a m m' x y :
  h !! a = Some m → Portpassing.parent m' = Portpassing.parent m →
  Portpassing.child_of (<[a := m']> h) x y ↔ Portpassing.child_of h x y.
Proof.
  intros Ha Hp. unfold Portpassing.child_of. split.
  - intros (n & Hx & Hn). destruct (decide (x = a)) as [->|Hne].
    + rewrite lookup_insert_eq in Hx. simplify_eq. exists m. by rewrite <- Hp.
    + rewrite lookup_insert_ne in Hx by done. eauto.
  - intros (n & Hx & Hn). destruct (decide (x = a)) as [->|Hne].
    + simplify_eq. exists m'. rewrite lookup_insert_eq. by rewrite Hp.
    + exists n. by rewrite lookup_insert_ne.
Qed.

Lemma root_port_alone h Pset c n :
  Portpassing.port_tree h Pset → c ∈ Pset → h !! c = Some n → Portpassing.parent n = None →
  ∀ x, is_Some (h !! x) → x = c.
Proof.
  intros (Hsub & (rank & Hrank) & Hroot & Hleaf & Hinner) Hc Hn Hp.
  assert (∀ k x, (rank x < k)%nat → is_Some (h !! x) → x = c) as Hind.
  { induction k as [|k IH]; intros x Hk [nx Hx]; [lia|].
    destruct (Portpassing.parent nx) as [y|] eqn:Hy.
    - destruct (Hrank x nx y Hx Hy) as [Hydom Hlt].
      apply elem_of_dom in Hydom.
      assert (y = c) as -> by (apply IH; [lia|done]).
      destruct (Hleaf x c); [by exists nx|done].
    - by apply (Hroot x c nx n). }
  intros x Hx. by apply (Hind (S (rank x))); [lia|].
Qed.

Lemma ports_nonempty h Pset :
  Portpassing.port_tree h Pset → h ≠ ∅ → Pset ≠ ∅.
Proof.
  intros (Hsub & (rank & Hrank) & Hroot & Hleaf & Hinner) Hne.
  destruct (max_rank h rank Hne) as (x & [m Hx] & Hmax).
  destruct (decide (x ∈ Pset)) as [Hin|Hnin]; [set_solver|].
  destruct (Hinner x m Hx Hnin) as [Hone Htwo].
  assert (∃ x', Portpassing.child_of h x' x) as (x' & n' & Hx' & Hp').
  { destruct (decide (Portpassing.nb_removed_children m = 0)) as [Hz|Hnz].
    - destruct (Htwo Hz) as (x1 & _ & _ & H1 & _). eauto.
    - destruct (Hone Hnz) as (x1 & H1 & _). eauto. }
  destruct (Hrank x' n' x Hx' Hp') as [_ Hlt].
  specialize (Hmax x' (mk_is_Some _ _ Hx')). lia.
Qed.

Lemma reaches_delete_leaf h c a :
  (∀ x, ¬ Portpassing.child_of h x c) → a ≠ c →
  Portpassing.reaches_null_parent (delete c h) a ↔ Portpassing.reaches_null_parent h a.
Proof.
  intros Hleaf Hac. split.
  - induction 1 as [p n Hp Hn|p n a' m Hp Hn Ha Hm _ IH].
    + apply lookup_delete_Some in Hp as [_ Hp]. eapply Portpassing.reaches_here; eauto.
    + apply lookup_delete_Some in Hp as [_ Hp].
      apply lookup_delete_Some in Ha as [Hne Ha]. eapply Portpassing.reaches_up; eauto.
  - intros Hr. revert Hac. induction Hr as [p n Hp Hn|p n a' m Hp Hn Ha Hm _ IH];
      intros Hpc.
    + eapply Portpassing.reaches_here; [|done]. by rewrite lookup_delete_ne.
    + assert (a' ≠ c) as Hac'.
      { intros ->. apply (Hleaf p). by exists n. }
      eapply Portpassing.reaches_up; [by rewrite lookup_delete_ne|done| |done|by apply IH].
      by rewrite lookup_delete_ne.
Qed.

Lemma port_tree_empty : Portpassing.port_tree ∅ ∅.
Proof.
  split_and!.
  - done.
  - exists (λ _, O). intros x n y Hx. by rewrite lookup_empty in Hx.
  - intros x x' n n' Hx. by rewrite lookup_empty in Hx.
  - intros x y (n & Hx & _). by rewrite lookup_empty in Hx.
  - intros y m Hy. by rewrite lookup_empty in Hy.
Qed.

(** The walk moves up from the port [c] to its parent [a], which has lost
    a child already: [a] takes the place of [c] among the ports. *)
Lemma port_tree_move_up h Pset c n a m :
  Portpassing.port_tree h Pset → c ∈ Pset →
  h !! c = Some n → Portpassing.parent n = Some a →
  h !! a = Some m → Portpassing.nb_removed_children m ≠ 0 →
  Portpassing.port_tree (delete c h) ((Pset ∖ {[c]}) ∪ {[a]}).
Proof.
  intros (Hsub & (rank & Hrank) & Hroot & Hleaf & Hinner) Hc Hn Hp Ha Hm.
  assert (Hca : Portpassing.child_of h c a) by (by exists n).
  assert (HaP : a ∉ Pset) by (by eapply Hleaf).
  assert (Hac : a ≠ c) by (by intros ->).
  destruct (Hinner a m Ha HaP) as [Hone _].
  destruct (Hone Hm) as (x0 & Hx0 & Huniq).
  assert (x0 = c) as -> by (symmetry; by apply Huniq).
  split_and!.
  - intros q [[Hq Hqc]%elem_of_difference| ->%elem_of_singleton]%elem_of_union.
    + rewrite dom_delete_L. apply elem_of_difference. split; [by apply Hsub|done].
    + rewrite dom_delete_L. apply elem_of_difference. split; [|set_solver].
      by apply elem_of_dom.
  - exists rank. intros x nx y [Hxc Hx]%lookup_delete_Some Hy.
    destruct (Hrank x nx y Hx Hy) as [Hydom Hlt]. split; [|done].
    rewrite dom_delete_L. apply elem_of_difference. split; [done|].
    intros ->%elem_of_singleton. apply (Hleaf x c); [by exists nx|done].
  - intros x x' nx nx' [_ Hx]%lookup_delete_Some [_ Hx']%lookup_delete_Some.
    by apply Hroot.
  - intros x y [Hxy Hxc]%child_of_delete.
    intros [[Hy _]%elem_of_difference| ->%elem_of_singleton]%elem_of_union.
    + by apply (Hleaf x y).
    + by apply Hxc, Huniq.
  - intros y my [Hyc Hy]%lookup_delete_Some Hnot.
    assert ((y ∉ Pset) ∧ y ≠ a) as [HyP Hya].
    { split; [|set_solver]. intros Hin. apply Hnot. set_solver. }
    assert (∀ x, Portpassing.child_of (delete c h) x y ↔ Portpassing.child_of h x y) as Hiff.
    { intros x. rewrite child_of_delete. split; [by intros [? _]|].
      intros Hxy. split; [done|]. intros ->.
      destruct Hxy as (n' & Hn' & Hp'). simplify_eq. }
    destruct (Hinner y my Hy HyP) as [H1 H2]. split.
    + intros Hnz. destruct (H1 Hnz) as (x & Hx & Hu). exists x.
      split; [by apply Hiff|]. intros x' Hx'. by apply Hu, Hiff.
    + intros Hz. destruct (H2 Hz) as (x1 & x2 & Hne & Hx1 & Hx2 & Hu).
      exists x1, x2. split_and!; [done|by apply Hiff..|].
      intros x' Hx'. by apply Hu, Hiff.
Qed.

(** The walk stops at the parent [a] of the port [c], which had lost no
    child yet. *)
Lemma port_tree_stop h Pset c n a m :
  Portpassing.port_tree h Pset → c ∈ Pset →
  h !! c = Some n → Portpassing.parent n = Some a →
  h !! a = Some m → Portpassing.nb_removed_children m = 0 →
  Portpassing.port_tree
    (<[a := {| Portpassing.parent := Portpassing.parent m; Portpassing.nb_removed_children := 1 |}]> (delete c h))
    (Pset ∖ {[c]}).
Proof.
  intros (Hsub & (rank & Hrank) & Hroot & Hleaf & Hinner) Hc Hn Hp Ha Hm.
  assert (Hca : Portpassing.child_of h c a) by (by exists n).
  assert (HaP : a ∉ Pset) by (by eapply Hleaf).
  assert (Hac : a ≠ c) by (by intros ->).
  destruct (Hinner a m Ha HaP) as [_ Htwo].
  destruct (Htwo Hm) as (x1 & x2 & Hne & Hx1 & Hx2 & Hboth).
  assert (Ha1 : delete c h !! a = Some m) by (by rewrite lookup_delete_ne).
  set (m' := {| Portpassing.parent := Portpassing.parent m; Portpassing.nb_removed_children := 1 |}).
  assert (Hchild : ∀ x y, Portpassing.child_of (<[a := m']> (delete c h)) x y
                          ↔ Portpassing.child_of h x y ∧ x ≠ c).
  { intros x y. rewrite (child_of_insert_same_parent _ a m m') by done.
    apply child_of_delete. }
  assert (Hleafc : ∀ x, ¬ Portpassing.child_of h x c).
  { intros x Hx. by apply (Hleaf x c). }
  split_and!.
  - intros q [Hq Hqc]%elem_of_difference.
    rewrite dom_insert_L, dom_delete_L. set_solver.
  - exists rank. intros x nx y Hx Hy.
    assert (∃ nx0, h !! x = Some nx0 ∧ Portpassing.parent nx0 = Some y ∧ x ≠ c)
      as (nx0 & Hx0 & Hy0 & Hxc).
    { destruct (decide (x = a)) as [->|Hxa].
      - rewrite lookup_insert_eq in Hx. simplify_eq. by exists m.
      - rewrite lookup_insert_ne in Hx by done.
        apply lookup_delete_Some in Hx as [? ?]. by exists nx. }
    destruct (Hrank x nx0 y Hx0 Hy0) as [Hydom Hlt]. split; [|done].
    rewrite dom_insert_L, dom_delete_L.
    assert (y ≠ c). { intros ->. apply (Hleafc x). by exists nx0. }
    set_solver.
  - intros x x' nx nx' Hx Hx' Hpx Hpx'.
    assert (∀ z nz, <[a := m']> (delete c h) !! z = Some nz → Portpassing.parent nz = None →
                    ∃ nz0, h !! z = Some nz0 ∧ Portpassing.parent nz0 = None) as Hback.
    { intros z nz Hz Hpz. destruct (decide (z = a)) as [->|Hza].
      - rewrite lookup_insert_eq in Hz. simplify_eq. by exists m.
      - rewrite lookup_insert_ne in Hz by done.
        apply lookup_delete_Some in Hz as [? ?]. by exists nz. }
    destruct (Hback _ _ Hx Hpx) as (? & ? & ?).
    destruct (Hback _ _ Hx' Hpx') as (? & ? & ?). by eapply Hroot.
  - intros x y [Hxy _]%Hchild [Hy _]%elem_of_difference. by apply (Hleaf x y).
  - intros y my Hy Hnot.
    destruct (decide (y = a)) as [->|Hya].
    + rewrite lookup_insert_eq in Hy. simplify_eq. simpl. split; [|done].
      intros _.
      assert (c = x1 ∨ c = x2) as Hcx by (destruct (Hboth c Hca); auto).
      destruct Hcx as [<-|<-].
      * exists x2. split; [by apply Hchild|].
        intros x' [Hx' Hx'c]%Hchild. destruct (Hboth x' Hx'); congruence.
      * exists x1. split; [by apply Hchild|].
        intros x' [Hx' Hx'c]%Hchild. destruct (Hboth x' Hx'); congruence.
    + rewrite lookup_insert_ne in Hy by done.
      apply lookup_delete_Some in Hy as [Hyc Hy].
      assert (y ∉ Pset) as HyP by set_solver.
      assert (∀ x, Portpassing.child_of (<[a := m']> (delete c h)) x y ↔ Portpassing.child_of h x y) as Hiff.
      { intros x. rewrite Hchild. split; [by intros [? _]|].
        intros Hxy. split; [done|]. intros ->.
        destruct Hxy as (n' & Hn' & Hp'). simplify_eq. }
      destruct (Hinner y my Hy HyP) as [H1 H2]. split.
      * intros Hnz. destruct (H1 Hnz) as (x & Hx & Hu). exists x.
        split; [by apply Hiff|]. intros x' Hx'. by apply Hu, Hiff.
      * intros Hz. destruct (H2 Hz) as (z1 & z2 & Hzne & Hz1 & Hz2 & Hu).
        exists z1, z2. split_and!; [done|by apply Hiff..|].
        intros x' Hx'. by apply Hu, Hiff.
Qed.

Lemma reaches_parent h c n a m :
  h !! c = Some n → Portpassing.parent n = Some a → h !! a = Some m →
  Portpassing.reaches_null_parent h c
  ↔ Portpassing.nb_removed_children m ≠ 0 ∧ Portpassing.reaches_null_parent h a.
Proof.
  intros Hc Hn Ha. split.
  - inversion 1; simplify_eq. done.
  - intros [Hm Hr]. by eapply Portpassing.reaches_up.
Qed.

(** The walk of [decrement] from a port of a port tree. *)
Lemma decrement_from_spec fuel : ∀ h Pset c n,
  Portpassing.port_tree h Pset → c ∈ Pset → h !! c = Some n → (size h ≤ fuel)%nat →
  ∃ st h', Portpassing.decrement_from fuel h c (Portpassing.parent n) = Some (st, h')
    ∧ Portpassing.port_tree h' (Pset ∖ {[c]})
    ∧ (st = activated ↔ Pset = {[c]})
    ∧ (st = activated ↔ Portpassing.reaches_null_parent h c)
    ∧ (∀ q nq, q ∈ Pset → q ≠ c → h !! q = Some nq → h' !! q = Some nq).
Proof.
  induction fuel as [|fuel IH]; intros h Pset c n Htree Hc Hn Hsize.
  { exfalso.
    assert (h = ∅) as -> by (apply map_size_empty_iff; lia).
    by rewrite lookup_empty in Hn. }
  destruct (Portpassing.parent n) as [a|] eqn:Hp.
  - (* the port has a parent *)
    assert (Htree' := Htree).
    destruct Htree' as (Hsub & (rank & Hrank) & Hroot & Hleaf & Hinner).
    destruct (Hrank c n a Hn Hp) as [[m Ha]%elem_of_dom Hlt].
    assert (Hac : a ≠ c) by (intros ->; lia).
    assert (HaP : a ∉ Pset) by (apply (Hleaf c a); by exists n).
    assert (Hleafc : ∀ x, ¬ Portpassing.child_of h x c) by (intros x Hx; by apply (Hleaf x c)).
    cbn [Portpassing.decrement_from]. rewrite Hn. cbn beta iota.
    rewrite lookup_delete_ne by done. rewrite Ha.
    case_bool_decide as Hm.
    + (* the sibling has departed: the walk moves up *)
      pose proof (port_tree_move_up h Pset c n a m Htree Hc Hn Hp Ha Hm) as Hup.
      destruct (IH (delete c h) (Pset ∖ {[c]} ∪ {[a]}) a m Hup) as
        (st & h' & Hrun & Htree2 & Hact & Hreach & Hkeep).
      { set_solver. }
      { by rewrite lookup_delete_ne. }
      { rewrite map_size_delete, Hn. lia. }
      exists st, h'. split_and!.
      * done.
      * assert (Pset ∖ {[c]} = (Pset ∖ {[c]} ∪ {[a]}) ∖ {[a]}) as -> by set_solver.
        done.
      * rewrite Hact. split.
        -- intros Heq. apply set_eq. intros x. split; [|set_solver].
           intros Hx. destruct (decide (x = c)) as [->|Hxc]; [set_solver|].
           assert (x ∈ Pset ∖ {[c]} ∪ {[a]}) as Hx' by set_solver.
           rewrite Heq in Hx'. apply elem_of_singleton in Hx'. by subst.
        -- intros ->. set_solver.
      * rewrite Hreach, (reaches_parent h c n a m) by done.
        rewrite reaches_delete_leaf by done. tauto.
      * intros q nq Hq Hqc Hlook. apply Hkeep.
        -- set_solver.
        -- by intros ->.
        -- by rewrite lookup_delete_ne.
    + (* the first of the two to depart: the walk stops *)
      assert (Hm0 : Portpassing.nb_removed_children m = 0) by lia.
      pose proof (port_tree_stop h Pset c n a m Htree Hc Hn Hp Ha Hm0) as Hstop.
      eexists _, _. split_and!.
      * done.
      * done.
      * split; [done|]. intros Heq. exfalso.
        eapply (ports_nonempty _ _ Hstop).
        -- apply insert_non_empty.
        -- rewrite Heq. set_solver.
      * split; [done|]. rewrite (reaches_parent h c n a m) by done.
        by intros [? _].
      * intros q nq Hq Hqc Hlook.
        rewrite lookup_insert_ne by (by intros ->).
        by rewrite lookup_delete_ne.
  - (* the port is the root *)
    pose proof (root_port_alone h Pset c n Htree Hc Hn Hp) as Halone.
    assert (delete c h = ∅) as Hempty.
    { apply map_empty. intros x. apply lookup_delete_None.
      destruct (h !! x) eqn:Hx; [left|by right].
      symmetry. apply Halone. by rewrite Hx. }
    assert (Pset = {[c]}) as Hset.
    { destruct Htree as (Hsub & _). apply set_eq. intros x. split; [|set_solver].
      intros Hx. apply elem_of_singleton, Halone, elem_of_dom, Hsub, Hx. }
    cbn [Portpassing.decrement_from]. destruct fuel; rewrite Hn; cbn beta iota.
    all: eexists _, _; split_and!; [done| |done| |].
    all: try (rewrite Hempty;
              replace (Pset ∖ {[c]}) with (∅ : gset nat) by set_solver;
              apply port_tree_empty).
    all: try (split; [intros _; by eapply Portpassing.reaches_here|done]).
    all: intros q nq Hq Hqc; set_solver.
Qed.

(** [increment] of a port of a tree at rest: the port becomes an inner
    node with two children, which are the new ports. *)
Lemma increment_port_tree h Pset p h' branch1 branch2 :
  Portpassing.port_tree_at_rest h Pset → p ∈ Pset →
  Portpassing.increment h (Some p) = (h', (Some branch1, Some branch2)) →
  Portpassing.port_tree_at_rest h' (Pset ∖ {[p]} ∪ {[branch1; branch2]})
  ∧ branch1 ≠ branch2 ∧ (branch1 ∉ dom h) ∧ (branch2 ∉ dom h).
Proof.
  intros [(Hsub & (rank & Hrank) & Hroot & Hleaf & Hinner) Hrest] Hp Hinc.
  unfold Portpassing.increment in Hinc. cbv zeta in Hinc.
  set (b1 := fresh (dom h)) in *.
  set (b2 := fresh (dom (<[b1 := Portpassing.incounter_node_new]> h))) in *.
  assert (Hb1 : b1 ∉ dom h) by apply is_fresh.
  assert (Hb2 : b2 ∉ dom (<[b1 := Portpassing.incounter_node_new]> h)) by apply is_fresh.
  rewrite dom_insert_L in Hb2.
  assert (Hb12 : b1 ≠ b2) by set_solver.
  assert (Hb2h : b2 ∉ dom h) by set_solver.
  assert (Hpd : p ∈ dom h) by (by apply Hsub).
  assert (Hpb1 : p ≠ b1) by (by intros ->).
  assert (Hpb2 : p ≠ b2) by (by intros ->).
  set (new := {| Portpassing.parent := Some p; Portpassing.nb_removed_children := 0 |}) in *.
  injection Hinc as Hh4 E1 E2.
  assert (Hh' : h' = <[b2 := new]> (<[b1 := new]> h)).
  { rewrite <- Hh4. apply map_eq. intros x.
    destruct (decide (x = b2)) as [->|?]; [by rewrite !lookup_insert_eq|].
    rewrite !(lookup_insert_ne _ b2 x) by done.
    destruct (decide (x = b1)) as [->|?]; [by rewrite !lookup_insert_eq|].
    repeat (rewrite lookup_insert_ne by done). done. }
  rewrite <- E1, <- E2, Hh'. clear Hh4 E1 E2 Hh' h' branch1 branch2.
  assert (Hlook : ∀ x n, <[b2 := new]> (<[b1 := new]> h) !! x = Some n ↔
            (x = b2 ∧ n = new) ∨ (x = b1 ∧ n = new)
            ∨ (x ≠ b1 ∧ x ≠ b2 ∧ h !! x = Some n)).
  { intros x n. rewrite !lookup_insert_Some. split.
    - intros [[-> <-]|[? [[-> <-]|[? ?]]]]; auto.
    - intros [[-> ->]|[[-> ->]|(? & ? & ?)]]; auto 6. }
  assert (Hdom : ∀ x, is_Some (h !! x) → x ≠ b1 ∧ x ≠ b2).
  { intros x Hx%elem_of_dom. split; by intros ->. }
  assert (Hchild : ∀ x y, Portpassing.child_of (<[b2 := new]> (<[b1 := new]> h)) x y ↔
            ((x = b1 ∨ x = b2) ∧ y = p) ∨ Portpassing.child_of h x y).
  { intros x y. split.
    - intros (n & [[-> ->]|[[-> ->]|(? & ? & Hx)]]%Hlook & Hy); simpl in Hy.
      + left. split; [auto|congruence].
      + left. split; [auto|congruence].
      + right. by exists n.
    - intros [[[-> | ->] ->]|(n & Hx & Hy)].
      + exists new. split; [apply Hlook; auto|done].
      + exists new. split; [apply Hlook; auto|done].
      + exists n. split; [|done]. apply Hlook.
        destruct (Hdom x) as [? ?]; [by rewrite Hx|]. auto. }
  split; [split; [split_and!|]|done].
  - rewrite !dom_insert_L. set_solver.
  - exists (λ x, if decide (x = b1 ∨ x = b2) then S (rank p) else rank x).
    intros x n y [[-> ->]|[[-> ->]|(? & ? & Hx)]]%Hlook Hy; simpl in Hy.
    + injection Hy as <-. rewrite !dom_insert_L. split; [set_solver|].
      repeat case_decide; first [lia | naive_solver].
    + injection Hy as <-. rewrite !dom_insert_L. split; [set_solver|].
      repeat case_decide; first [lia | naive_solver].
    + destruct (Hrank x n y Hx Hy) as [Hyd Hlt].
      rewrite !dom_insert_L. split; [set_solver|].
      apply elem_of_dom in Hyd. destruct (Hdom y Hyd).
      repeat case_decide; first [lia | naive_solver].
  - intros x x' n n' [[-> ->]|[[-> ->]|(? & ? & Hx)]]%Hlook
      [[-> ->]|[[-> ->]|(? & ? & Hx')]]%Hlook; try done.
    by apply Hroot.
  - intros x y [[_ ->]|Hxy]%Hchild.
    + set_solver.
    + intros Hy. destruct Hxy as (n & Hx & Hpar).
      destruct (Hrank x n y Hx Hpar) as [Hyd _].
      apply elem_of_dom in Hyd. destruct (Hdom y Hyd).
      assert (y ∈ Pset) by set_solver.
      apply (Hleaf x y); [by exists n|done].
  - intros y m [[-> ->]|[[-> ->]|(Hyb1 & Hyb2 & Hy)]]%Hlook Hnot;
      [set_solver..|].
    destruct (decide (y = p)) as [->|Hyp].
    + split.
      * intros Hnz. by rewrite (Hrest p m Hp Hy) in Hnz.
      * intros _. exists b1, b2. split_and!; [done|apply Hchild; auto..|].
        intros x' [[? _]|Hx']%Hchild; [done|].
        exfalso. by apply (Hleaf x' p).
    + assert (HyP : y ∉ Pset) by set_solver.
      assert (∀ x, Portpassing.child_of (<[b2 := new]> (<[b1 := new]> h)) x y
                   ↔ Portpassing.child_of h x y) as Hiff.
      { intros x. rewrite Hchild. split; [|auto]. by intros [[_ ?]|?]. }
      destruct (Hinner y m Hy HyP) as [H1 H2]. split.
      * intros Hnz. destruct (H1 Hnz) as (x & Hx & Hu). exists x.
        split; [by apply Hiff|]. intros x' Hx'. by apply Hu, Hiff.
      * intros Hz. destruct (H2 Hz) as (z1 & z2 & Hzne & Hz1 & Hz2 & Hu).
        exists z1, z2. split_and!; [done|by apply Hiff..|].
        intros x' Hx'. by apply Hu, Hiff.
  - intros q n Hq [[-> ->]|[[-> ->]|(? & ? & Hlq)]]%Hlook; [done..|].
    apply (Hrest q n); [set_solver|done].
Qed.

(** [decrement] of a port of a tree at rest. *)
Lemma decrement_spec h Pset p :
  Portpassing.port_tree_at_rest h Pset → p ∈ Pset →
  ∃ st h', Portpassing.decrement h p = Some (st, h')
    ∧ Portpassing.port_tree_at_rest h' (Pset ∖ {[p]})
    ∧ (st = activated ↔ Pset = {[p]})
    ∧ (st = activated ↔ Portpassing.reaches_null_parent h p).
Proof.
  intros [Htree Hrest] Hp.
  assert (Hsub : Pset ⊆ dom h) by apply Htree.
  assert (is_Some (h !! p)) as [n Hn] by (by apply elem_of_dom, Hsub).
  destruct (decrement_from_spec (size h) h Pset p n Htree Hp Hn)
    as (st & h' & Hrun & Htree' & Hact & Hreach & Hkeep); [done|].
  exists st, h'. unfold Portpassing.decrement. rewrite Hn.
  split_and!; [done| |done..].
  split; [done|].
  intros q nq [Hq Hqp%not_elem_of_singleton]%elem_of_difference Hlook.
  assert (is_Some (h !! q)) as [nq0 Hq0] by (by apply elem_of_dom, Hsub).
  rewrite (Hkeep q nq0 Hq Hqp Hq0) in Hlook. injection Hlook as <-.
  by apply (Hrest q).
Qed.

Lemma incounter_initial_at_rest :
  Portpassing.port_tree_at_rest (Portpassing.store Portpassing.incounter_initial) (Portpassing.ports Portpassing.incounter_initial).
Proof.
  cbn. set (b := fresh (dom (∅ : gmap nat Portpassing.incounter_node))).
  assert (Hlook : ∀ x n, <[b := Portpassing.incounter_node_new]> (∅ : gmap nat _) !! x = Some n
                         → x = b ∧ n = Portpassing.incounter_node_new).
  { intros x n [[-> <-]|[_ Hx]]%lookup_insert_Some; [done|].
    by rewrite lookup_empty in Hx. }
  split; [split_and!|].
  - rewrite dom_insert_L. set_solver.
  - exists (λ _, O). by intros x n y [-> ->]%Hlook.
  - by intros x x' n n' [-> _]%Hlook [-> _]%Hlook.
  - by intros x y (n & [-> ->]%Hlook & ?).
  - intros y m [-> _]%Hlook. set_solver.
  - by intros p n _ [_ ->]%Hlook.
Qed.

(** What holds of the in-counter between two operations: the store is a
    port tree at rest, and [activated] has been returned once when no
    port is left and never before. *)
Lemma incounter_step_inv s s' :
  Portpassing.incounter_step s s' →
  Portpassing.port_tree_at_rest (Portpassing.store s) (Portpassing.ports s) →
  Portpassing.activations s = (if decide (Portpassing.ports s = ∅) then 1 else 0)%nat →
  Portpassing.port_tree_at_rest (Portpassing.store s') (Portpassing.ports s')
  ∧ Portpassing.activations s' = (if decide (Portpassing.ports s' = ∅) then 1 else 0)%nat.
Proof.
  intros [s0 p h' b1 b2 Hp Hinc|s0 p st h' Hp Hdec] Hrest Hact; cbn.
  - destruct (increment_port_tree _ _ _ _ _ _ Hrest Hp Hinc) as [Hrest' _].
    split; [done|]. rewrite Hact.
    rewrite (decide_False (P := Portpassing.ports s0 = ∅)) by set_solver.
    rewrite decide_False; [done|]. intros Heq.
    assert (b1 ∈ Portpassing.ports s0 ∖ {[p]} ∪ {[b1; b2]}) as Hin by set_solver.
    rewrite Heq in Hin. set_solver.
  - destruct (decrement_spec _ _ _ Hrest Hp) as (st' & h'' & Hrun & Hrest' & Hone & _).
    rewrite Hdec in Hrun. injection Hrun as <- <-.
    split; [done|]. rewrite Hact.
    rewrite (decide_False (P := Portpassing.ports s0 = ∅)) by set_solver.
    case_bool_decide as Hst.
    + apply Hone in Hst. rewrite decide_True; [done|]. rewrite Hst. set_solver.
    + rewrite decide_False; [done|]. intros Hempty. apply Hst, Hone.
      apply set_eq. intros x. split; [|set_solver]. intros Hx.
      destruct (decide (x = p)) as [->|Hxp]; [set_solver|].
      assert (x ∈ Portpassing.ports s0 ∖ {[p]}) as Hin by set_solver.
      rewrite Hempty in Hin. set_solver.
Qed.

Lemma incounter_steps_inv s s' :
  rtc Portpassing.incounter_step s s' →
  Portpassing.port_tree_at_rest (Portpassing.store s) (Portpassing.ports s)
  ∧ Portpassing.activations s = (if decide (Portpassing.ports s = ∅) then 1 else 0)%nat →
  Portpassing.port_tree_at_rest (Portpassing.store s') (Portpassing.ports s')
  ∧ Portpassing.activations s' = (if decide (Portpassing.ports s' = ∅) then 1 else 0)%nat.
Proof.
  induction 1 as [|s1 s2 s3 Hstep _ IH]; [done|].
  intros [H1 H2]. by eapply IH, incounter_step_inv.
Qed.

Lemma incounter_reachable_inv s :
  rtc Portpassing.incounter_step Portpassing.incounter_initial s →
  Portpassing.port_tree_at_rest (Portpassing.store s) (Portpassing.ports s)
  ∧ Portpassing.activations s = (if decide (Portpassing.ports s = ∅) then 1 else 0)%nat.
Proof.
  intros Hrun. apply (incounter_steps_inv _ _ Hrun).
  split; [apply incounter_initial_at_rest|].
  cbn. rewrite decide_False; [done|set_solver].
Qed.

(** Every port that is left can depart, so a run can always be brought
    to its end. *)
Lemma incounter_can_finish k : ∀ s,
  Portpassing.port_tree_at_rest (Portpassing.store s) (Portpassing.ports s) → size (Portpassing.ports s) = k →
  ∃ s', rtc Portpassing.incounter_step s s' ∧ Portpassing.ports s' = ∅.
Proof.
  induction k as [|k IH]; intros s Hrest Hsize.
  - exists s. split; [done|]. by apply size_empty_iff, leibniz_equiv in Hsize.
  - destruct (size_pos_elem_of (Portpassing.ports s)) as [p Hp]; [lia|].
    destruct (decrement_spec _ _ _ Hrest Hp) as (st & h' & Hrun & Hrest' & _).
    pose proof (Portpassing.step_depart s p st h' Hp Hrun) as Hstep.
    match type of Hstep with Portpassing.incounter_step _ ?s1 =>
      destruct (IH s1) as (s' & Hsteps & Hends) end.
    + exact Hrest'.
    + cbn. rewrite size_difference by set_solver. rewrite size_singleton. lia.
    + exists s'. split; [|done]. by eapply rtc_l.
Qed.

(** C7.  Port-passing in-counter, in every state reached from the first
    port by [increment] of a port that is held and [decrement] of a port
    that is held: [decrement] of a held port returns; it returns
    [activated] exactly when its walk passes every ancestor and reaches a
    node without parent, which is exactly when the port is the last one
    held; [activated] has been returned once when no port is left and
    never before; and the ports that are left can all depart, after
    which [activated] has been returned exactly once. *)
Theorem portpassing_decrement_activates_once s :
  rtc Portpassing.incounter_step Portpassing.incounter_initial s →
  (∀ p, p ∈ Portpassing.ports s →
     ∃ st h', Portpassing.decrement (Portpassing.store s) p = Some (st, h')
       ∧ (st = activated ↔ Portpassing.reaches_null_parent (Portpassing.store s) p)
       ∧ (st = activated ↔ Portpassing.ports s = {[p]}))
  ∧ Portpassing.activations s = (if decide (Portpassing.ports s = ∅) then 1 else 0)%nat
  ∧ ∃ s', rtc Portpassing.incounter_step s s' ∧ Portpassing.ports s' = ∅ ∧ Portpassing.activations s' = 1%nat.
Proof.
  intros Hrun. destruct (incounter_reachable_inv s Hrun) as [Hrest Hact].
  split_and!.
  - intros p Hp.
    destruct (decrement_spec _ _ _ Hrest Hp) as (st & h' & Hdec & _ & Hone & Hreach).
    by exists st, h'.
  - done.
  - destruct (incounter_can_finish _ s Hrest eq_refl) as (s' & Hsteps & Hends).
    exists s'. split_and!; [done..|].
    destruct (incounter_steps_inv _ _ Hsteps (conj Hrest Hact)) as [_ Hact'].
    by rewrite decide_True in Hact'.
Qed.

(** The in-counter after the fork of its first port. *)
Lemma portpassing_decrement_activates_once_witness :
  let s := {| Portpassing.store := (Portpassing.increment (Portpassing.store Portpassing.incounter_initial) (Some 0%nat)).1;
              Portpassing.ports := (Portpassing.ports Portpassing.incounter_initial ∖ {[0%nat]}) ∪ {[1%nat; 2%nat]};
              Portpassing.activations := Portpassing.activations Portpassing.incounter_initial |} in
  rtc Portpassing.incounter_step Portpassing.incounter_initial s
  ∧ (∀ p, p ∈ Portpassing.ports s →
     ∃ st h', Portpassing.decrement (Portpassing.store s) p = Some (st, h')
       ∧ (st = activated ↔ Portpassing.reaches_null_parent (Portpassing.store s) p)
       ∧ (st = activated ↔ Portpassing.ports s = {[p]}))
  ∧ Portpassing.activations s = (if decide (Portpassing.ports s = ∅) then 1 else 0)%nat
  ∧ ∃ s', rtc Portpassing.incounter_step s s' ∧ Portpassing.ports s' = ∅ ∧ Portpassing.activations s' = 1%nat.
Proof.
  assert (rtc Portpassing.incounter_step Portpassing.incounter_initial
    {| Portpassing.store := (Portpassing.increment (Portpassing.store Portpassing.incounter_initial) (Some 0%nat)).1;
       Portpassing.ports := (Portpassing.ports Portpassing.incounter_initial ∖ {[0%nat]}) ∪ {[1%nat; 2%nat]};
       Portpassing.activations := Portpassing.activations Portpassing.incounter_initial |}) as Hrun.
  { eapply rtc_l; [|apply rtc_refl].
    apply (Portpassing.step_fork Portpassing.incounter_initial 0%nat _ 1%nat 2%nat).
    - vm_compute. reflexivity.
    - vm_compute. reflexivity. }
  split; [exact Hrun|].
  exact (portpassing_decrement_activates_once _ Hrun).
Defined.

(** Two ports: the first to depart marks the root, the second is
    activated and leaves the store empty; a port departs once. *)
Example portpassing_incounter_two_ports :
  let h1 := (Portpassing.increment (Portpassing.store Portpassing.incounter_initial) (Some 0%nat)).1 in
  ∃ h2, Portpassing.decrement h1 1%nat = Some (not_activated, h2)
        ∧ Portpassing.decrement h2 2%nat = Some (activated, ∅)
        ∧ Portpassing.decrement h2 1%nat = None.
Proof. eexists. split_and!; vm_compute; reflexivity. Qed.

(** ** Port passing: forking the out-ports *)

(** One turn of the loop of [fork2] on a node with its two slots. *)
Lemma fork2_branch_spec h p n i c :
  h !! p = Some n → Portpassing.children n !! i = Some c →
  Portpassing.fork2_branch h p i =
    if is_nullptr c
    then Some (<[p := {| Portpassing.target := Portpassing.target n; Portpassing.port := Portpassing.port n;
                         Portpassing.children := <[i := (Some (fresh (dom h)), 0)]> (Portpassing.children n) |}]>
                 (<[fresh (dom h) := Portpassing.outset_node_new]> h),
               Some (fresh (dom h)))
    else Some (h, None).
Proof.
  intros Hp Hc. unfold Portpassing.fork2_branch, Portpassing.cas_child_from_null.
  assert (Hfresh : fresh (dom h) ∉ dom h) by apply is_fresh.
  assert (p ≠ fresh (dom h)).
  { intros Heq. apply Hfresh. rewrite <- Heq. by apply elem_of_dom. }
  rewrite lookup_insert_ne by done. rewrite Hp, Hc.
  destruct (is_nullptr c); [done|].
  rewrite delete_insert_id; [done|]. by apply not_elem_of_dom.
Qed.

Lemma store_extends_refl h : Portpassing.store_extends h h.
Proof. by split_and!. Qed.

Lemma store_extends_trans h1 h2 h3 :
  Portpassing.store_extends h1 h2 → Portpassing.store_extends h2 h3 → Portpassing.store_extends h1 h3.
Proof.
  intros (? & ? & ?) (? & ? & ?). split_and!; [set_solver|auto..].
Qed.

(** A CAS from null that wins on slot [i] of [p], for the fresh node [b]. *)
Lemma store_extends_cas h p n i b :
  h !! p = Some n → b ∉ dom h →
  Portpassing.store_extends h
    (<[p := {| Portpassing.target := Portpassing.target n; Portpassing.port := Portpassing.port n;
               Portpassing.children := <[i := (Some b, 0)]> (Portpassing.children n) |}]>
       (<[b := Portpassing.outset_node_new]> h)).
Proof.
  intros Hp Hb.
  assert (Hpb : p ≠ b) by (intros ->; by apply Hb, elem_of_dom).
  split_and!.
  - rewrite !dom_insert_L. set_solver.
  - intros Hok. apply map_Forall_insert_2; [|by apply map_Forall_insert_2].
    cbn. rewrite length_insert. by apply (Hok p).
  - intros a j (m & c & Ha & Hc & Hnon).
    destruct (decide (a = p)) as [->|Hap].
    + rewrite Hp in Ha. injection Ha as <-.
      destruct (decide (j = i)) as [->|Hji].
      * eexists _, (Some b, 0). split_and!; [by rewrite lookup_insert_eq| |done].
        cbn. apply list_lookup_insert_eq. by eapply lookup_lt_Some.
      * eexists _, c. split_and!; [by rewrite lookup_insert_eq| |done].
        cbn. by rewrite list_lookup_insert_ne.
    + exists m, c. split_and!; [|done..].
      rewrite lookup_insert_ne by done. rewrite lookup_insert_ne; [done|].
      intros <-. by apply Hb, elem_of_dom.
Qed.

(** [fork2] on a node of the store returns; it returns the pair of null
    pointers exactly when slot 1 or slot 0 does not hold the null pointer,
    and two fresh nodes otherwise. *)
Lemma fork2_spec h p :
  Portpassing.outset_store_ok h → is_Some (h !! p) →
  ∃ h' r, Portpassing.fork2 h p = Some (h', r)
    ∧ Portpassing.store_extends h h'
    ∧ (r = None ↔ Portpassing.nonnull_slot h p 0 ∨ Portpassing.nonnull_slot h p 1)
    ∧ (∀ first second, r = Some (first, second) →
         first ≠ second ∧ (first ∉ dom h) ∧ (second ∉ dom h)
         ∧ first ∈ dom h' ∧ second ∈ dom h').
Proof.
  intros Hok [n Hp]. pose proof (Hok p n Hp) as Hlen. cbn beta in Hlen.
  destruct (Portpassing.children n) as [|c0 [|c1 [|]]] eqn:Hcs; try done. clear Hlen.
  assert (Hnon : ∀ i, Portpassing.nonnull_slot h p i ↔
            (i = 0%nat ∧ is_nullptr c0 = false) ∨ (i = 1%nat ∧ is_nullptr c1 = false)).
  { intros i. split.
    - intros (m & c & Hm & Hc & Hnull). rewrite Hp in Hm. injection Hm as <-.
      rewrite Hcs in Hc. destruct i as [|[|]]; simplify_eq/=; auto.
    - intros [[-> Hnull]|[-> Hnull]].
      + exists n, c0. by rewrite Hcs.
      + exists n, c1. by rewrite Hcs. }
  unfold Portpassing.fork2.
  rewrite (fork2_branch_spec h p n 1 c1) by (by rewrite ?Hcs).
  destruct (is_nullptr c1) eqn:H1.
  - set (b1 := fresh (dom h)). rewrite Hcs. cbn [insert list_insert].
    set (n1 := {| Portpassing.target := Portpassing.target n; Portpassing.port := Portpassing.port n;
                  Portpassing.children := [c0; (Some b1, 0)] |}).
    set (h1 := <[p := n1]> (<[b1 := Portpassing.outset_node_new]> h)).
    assert (Hb1 : b1 ∉ dom h) by apply is_fresh.
    assert (Hext1 : Portpassing.store_extends h h1).
    { pose proof (store_extends_cas h p n 1 b1 Hp Hb1) as Hext.
      by rewrite Hcs in Hext. }
    assert (Hp1 : h1 !! p = Some n1) by apply lookup_insert_eq.
    rewrite (fork2_branch_spec h1 p n1 0 c0) by done.
    destruct (is_nullptr c0) eqn:H0.
    + set (b0 := fresh (dom h1)). cbn [Portpassing.children n1 insert list_insert].
      assert (Hb0 : b0 ∉ dom h1) by apply is_fresh.
      eexists _, _. split_and!; [done| | |].
      * eapply store_extends_trans; [exact Hext1|].
        apply (store_extends_cas h1 p n1 0 b0 Hp1 Hb0).
      * split; [done|]. rewrite !Hnon. intros [[[_ ?]|[_ ?]]|[[_ ?]|[_ ?]]]; congruence.
      * intros first second [= <- <-].
        assert (dom h ⊆ dom h1) by apply Hext1.
        assert (b1 ∈ dom h1).
        { unfold h1. rewrite !dom_insert_L. set_solver. }
        split_and!; [by intros -> |set_solver|done|..].
        all: rewrite !dom_insert_L; set_solver.
    + eexists _, _. split_and!; [done|done| |done].
      split; [|done]. intros _. left. apply Hnon. auto.
  - eexists _, _. split_and!; [done|apply store_extends_refl| |done].
    split; [|done]. intros _. right. apply Hnon. auto.
Qed.

(** The body of the loop of [fork_out_ports_for] for one item whose port
    is a node of the store. *)
Lemma fork_out_item_spec item s :
  Portpassing.outset_store_ok (Portpassing.outset_store s) → is_Some (Portpassing.outset_store s !! item.2) →
  ∃ s', Portpassing.fork_out_item item s = Some s'
    ∧ Portpassing.store_extends (Portpassing.outset_store s) (Portpassing.outset_store s')
    ∧ (∀ k, k ≠ item.1 → Portpassing.parent_ports s' !! k = Portpassing.parent_ports s !! k
                         ∧ Portpassing.child_ports s' !! k = Portpassing.child_ports s !! k)
    ∧ (Portpassing.to_erase s' = Portpassing.to_erase s ∨ Portpassing.to_erase s' = Portpassing.to_erase s ++ [item.1])
    ∧ (Portpassing.child_ports s !! item.1 = None → s' = s)
    ∧ (is_Some (Portpassing.child_ports s !! item.1) → ∀ h' r,
         Portpassing.fork2 (Portpassing.outset_store s) item.2 = Some (h', r) →
         match r with
         | None => Portpassing.to_erase s' = Portpassing.to_erase s ++ [item.1]
         | Some (first, second) =>
             Portpassing.parent_ports s' !! item.1 = Some first
             ∧ Portpassing.child_ports s' !! item.1 = Some second
             ∧ Portpassing.to_erase s' = Portpassing.to_erase s
         end).
Proof.
  intros Hok Hport. unfold Portpassing.fork_out_item.
  destruct (Portpassing.child_ports s !! item.1) as [c|] eqn:Hchild.
  - destruct (fork2_spec _ _ Hok Hport) as (h' & r & Hfork & Hext & _).
    rewrite Hfork. destruct r as [[first second]|].
    + eexists. split_and!; [done|done| |by left|done|]; cbn.
      * intros k Hk. by rewrite !lookup_insert_ne.
      * intros _ h'' r' [= <- <-]. by rewrite !lookup_insert_eq.
    + eexists. split_and!; [done|done|done|by right|done|]; cbn.
      by intros _ h'' r' [= <- <-].
  - eexists. split_and!; [done|apply store_extends_refl|done|by left|done|].
    by intros [? ?].
Qed.

(** The loop of [fork_out_ports_for]. *)
Lemma fork_out_items_spec items : ∀ s,
  NoDup items.*1 →
  Portpassing.outset_store_ok (Portpassing.outset_store s) →
  Forall (λ item, is_Some (Portpassing.outset_store s !! item.2)) items →
  ∃ s', Portpassing.fork_out_items items s = Some s'
    ∧ Portpassing.store_extends (Portpassing.outset_store s) (Portpassing.outset_store s')
    ∧ (∀ k, k ∉ items.*1 → Portpassing.parent_ports s' !! k = Portpassing.parent_ports s !! k
                            ∧ Portpassing.child_ports s' !! k = Portpassing.child_ports s !! k)
    ∧ (∀ k, k ∈ Portpassing.to_erase s' → k ∈ Portpassing.to_erase s ∨ k ∈ items.*1)
    ∧ (∀ k, k ∈ Portpassing.to_erase s → k ∈ Portpassing.to_erase s')
    ∧ (∀ pre k p post s_k, items = pre ++ (k, p) :: post →
         Portpassing.fork_out_items pre s = Some s_k →
         Portpassing.child_ports s_k !! k = Portpassing.child_ports s !! k
         ∧ Portpassing.store_extends (Portpassing.outset_store s) (Portpassing.outset_store s_k)
         ∧ (Portpassing.child_ports s !! k = None →
              Portpassing.parent_ports s' !! k = Portpassing.parent_ports s !! k
              ∧ Portpassing.child_ports s' !! k = None
              ∧ (k ∈ Portpassing.to_erase s' → k ∈ Portpassing.to_erase s))
         ∧ (is_Some (Portpassing.child_ports s !! k) → ∀ h' r,
              Portpassing.fork2 (Portpassing.outset_store s_k) p = Some (h', r) →
              match r with
              | None => k ∈ Portpassing.to_erase s'
              | Some (first, second) =>
                  Portpassing.parent_ports s' !! k = Some first
                  ∧ Portpassing.child_ports s' !! k = Some second
                  ∧ (k ∈ Portpassing.to_erase s' → k ∈ Portpassing.to_erase s)
              end)).
Proof.
  induction items as [|item items IH]; intros s Hnodup Hok Hports.
  { exists s. split_and!; [done|apply store_extends_refl|done|auto|auto|].
    intros [|??] ?????; done. }
  rewrite fmap_cons in Hnodup. apply NoDup_cons in Hnodup as [Hfirst Hnodup].
  apply Forall_cons in Hports as [Hport Hports].
  destruct (fork_out_item_spec item s Hok Hport)
    as (s1 & Hitem & Hext1 & Hother1 & Herase1 & Hskip1 & Hfork1).
  destruct (IH s1 Hnodup) as (s' & Hrun & Hext & Hother & Herased & Hkept & Hat).
  { by apply Hext1. }
  { eapply Forall_impl; [exact Hports|]. intros it Hit. cbn in Hit.
    apply elem_of_dom. apply elem_of_dom in Hit. by apply Hext1. }
  assert (Herase1' : ∀ k, k ∈ Portpassing.to_erase s1 → k ∈ Portpassing.to_erase s ∨ k = item.1).
  { intros k Hk. destruct Herase1 as [Heq|Heq]; rewrite Heq in Hk; [auto|].
    apply elem_of_app in Hk as [?|?%list_elem_of_singleton]; auto. }
  assert (Hkept1 : ∀ k, k ∈ Portpassing.to_erase s → k ∈ Portpassing.to_erase s1).
  { intros k Hk. destruct Herase1 as [Heq|Heq]; rewrite Heq; [done|].
    apply elem_of_app. auto. }
  exists s'. cbn [Portpassing.fork_out_items]. rewrite Hitem.
  split_and!; [done|by eapply store_extends_trans| | | |].
  - intros k [Hk1 Hk2]%not_elem_of_cons.
    destruct (Hother k Hk2) as [-> ->]. by apply Hother1.
  - intros k [Hk|Hk]%Herased.
    + destruct (Herase1' k Hk) as [? | ->]; [auto|]. right. cbn. left.
    + right. cbn. by right.
  - auto.
  - intros [|item' pre] k p post s_k Hsplit Hpre.
    + cbn in Hsplit, Hpre. injection Hsplit as -> ->. injection Hpre as <-.
      cbn in Hfirst, Hother, Hskip1, Hfork1, Herase1'.
      destruct (Hother k Hfirst) as [Hpk Hck].
      split_and!; [done|apply store_extends_refl| |].
      * intros Hnone. rewrite (Hskip1 Hnone) in *.
        rewrite Hpk, Hck. split_and!; [done..|].
        intros [?|?]%Herased; done.
      * intros Hsome h' r Hfork. specialize (Hfork1 Hsome h' r Hfork).
        destruct r as [[first second]|].
        -- destruct Hfork1 as (Hp1 & Hc1 & He1). rewrite Hpk, Hck.
           split_and!; [done..|].
           intros [Hk|Hk]%Herased; [by rewrite He1 in Hk|done].
        -- apply Hkept. rewrite Hfork1. apply elem_of_app. right. by left.
    + cbn in Hsplit. injection Hsplit as -> Hitems.
      cbn [Portpassing.fork_out_items] in Hpre. rewrite Hitem in Hpre.
      assert (Hk : k ≠ item'.1).
      { intros ->. apply Hfirst. rewrite Hitems, fmap_app. cbn.
        apply elem_of_app. right. left. }
      destruct (Hother1 k Hk) as [Hpk Hck].
      destruct (Hat pre k p post s_k Hitems Hpre) as (Hc & He & Hnone & Hsome).
      split_and!; [congruence|by eapply store_extends_trans| |].
      * intros Hn. rewrite <- Hck in Hn. destruct (Hnone Hn) as (? & ? & Hin).
        split_and!; [congruence|done|].
        intros Hin'. destruct (Herase1' k (Hin Hin')) as [?|?]; done.
      * intros Hs h' r Hfork. rewrite <- Hck in Hs.
        specialize (Hsome Hs h' r Hfork). destruct r as [[first second]|]; [|done].
        destruct Hsome as (? & ? & Hin). split_and!; [done..|].
        intros Hin'. destruct (Herase1' k (Hin Hin')) as [?|?]; done.
Qed.

Lemma fork_out_items_app pre post s :
  Portpassing.fork_out_items (pre ++ post) s =
    match Portpassing.fork_out_items pre s with
    | Some s1 => Portpassing.fork_out_items post s1
    | None => None
    end.
Proof.
  revert s. induction pre as [|item pre IH]; intros s; [done|].
  cbn. destruct (Portpassing.fork_out_item item s); [apply IH|done].
Qed.

(** The loop over [to_erase]. *)
Lemma lookup_erase {V} (outs : list nat) : ∀ (m : gmap nat V) k,
  foldl (λ m out, delete out m) m outs !! k
  = if decide (k ∈ outs) then None else m !! k.
Proof.
  induction outs as [|out outs IH]; intros m k; cbn.
  - rewrite decide_False; [done|]. by intros ?%elem_of_nil.
  - rewrite IH. destruct (decide (k = out)) as [->|Hne].
    + rewrite lookup_delete_eq. rewrite (decide_True (P := out ∈ out :: outs)) by left.
      by case_decide.
    + rewrite lookup_delete_ne by done.
      destruct (decide (k ∈ outs)).
      * rewrite decide_True; [done|by right].
      * rewrite decide_False; [done|]. by intros [?|?]%elem_of_cons.
Qed.

(** C10.  [propagate_ports_for(parent, child)], the out-ports of the
    parent being nodes of an out-set store whose nodes have their two
    slots: the call returns; every out-set [k] in which the parent holds a
    port [p] and for which the child is to receive one is visited once,
    [fork2] being called once on [p], in the store left by the items
    before it; when that call returns the pair of null pointers the entry
    of [k] is in neither out-port map afterwards, otherwise the parent
    holds the first new port and the child the second; and the call
    returns the pair of null pointers whenever slot 0 or slot 1 of [p]
    did not hold the null pointer at the start, as when the out-set is
    frozen. *)
Theorem propagate_ports_erases_failed_forks hi ho parent child :
  Portpassing.outset_store_ok ho → Portpassing.ports_in_store ho (Portpassing.outports parent) →
  ∃ r, Portpassing.propagate_ports_for hi ho parent child = Some r
    ∧ ∀ k p, Portpassing.outports parent !! k = Some p →
        is_Some (Portpassing.child_ports (Portpassing.fork_out_start ho parent child) !! k) →
        ∃ pre post s_k h_k forked,
          map_to_list (Portpassing.outports parent) = pre ++ (k, p) :: post
          ∧ Portpassing.fork_out_items pre (Portpassing.fork_out_start ho parent child) = Some s_k
          ∧ Portpassing.fork2 (Portpassing.outset_store s_k) p = Some (h_k, forked)
          ∧ match forked with
            | None =>
                Portpassing.outports (Portpassing.parent_after r) !! k = None
                ∧ Portpassing.outports (Portpassing.child_after r) !! k = None
            | Some (first, second) =>
                Portpassing.outports (Portpassing.parent_after r) !! k = Some first
                ∧ Portpassing.outports (Portpassing.child_after r) !! k = Some second
            end
          ∧ (Portpassing.nonnull_slot ho p 0 ∨ Portpassing.nonnull_slot ho p 1 → forked = None).
Proof.
  intros Hok Hports.
  set (s0 := Portpassing.fork_out_start ho parent child).
  set (items := map_to_list (Portpassing.outports parent)).
  destruct (fork_out_items_spec items s0) as (s' & Hrun & Hext & _ & Herased & _ & Hat).
  { apply NoDup_fst_map_to_list. }
  { done. }
  { apply map_Forall_to_list in Hports.
    eapply Forall_impl; [exact Hports|]. by intros [k p]. }
  unfold Portpassing.propagate_ports_for, Portpassing.propagate_ports_for_in_order. cbv zeta.
  destruct (Portpassing.fork_in_ports_for _ _ _) as [[hi' parent_in'] child_in'].
  unfold Portpassing.fork_out_ports_for_in_order.
  pose proof Hrun as Hrun0. unfold items, s0, Portpassing.fork_out_start in Hrun0.
  rewrite Hrun0. eexists. split; [done|]. cbn.
  intros k p Hk Hchild.
  assert ((k, p) ∈ items) as (pre & post & Hsplit)%list_elem_of_split
    by (by apply elem_of_map_to_list).
  pose proof Hrun as Hrun'. rewrite Hsplit, fork_out_items_app in Hrun'.
  destruct (Portpassing.fork_out_items pre s0) as [s_k|] eqn:Hpre; [|done].
  destruct (Hat pre k p post s_k Hsplit Hpre) as (_ & Hext_k & _ & Hsome).
  destruct (fork2_spec (Portpassing.outset_store s_k) p) as (h_k & forked & Hfork & _ & Hnull & _).
  { by apply Hext_k. }
  { apply elem_of_dom. apply Hext_k. apply elem_of_dom. by apply (Hports k). }
  exists pre, post, s_k, h_k, forked. split_and!; [done..| |].
  - specialize (Hsome Hchild h_k forked Hfork). rewrite !lookup_erase.
    destruct forked as [[first second]|].
    + destruct Hsome as (Hp' & Hc' & Hin).
      destruct (decide (k ∈ Portpassing.to_erase s')) as [Hk'|_]; [|done].
      by apply Hin, elem_of_nil in Hk'.
    + destruct (decide (k ∈ Portpassing.to_erase s')); done.
  - intros Hnon. apply Hnull.
    destruct Hnon as [?|?]; [left|right]; by apply Hext_k.
Qed.

(** A parent with ports into two out-sets, the first of them frozen. *)
Lemma propagate_ports_erases_failed_forks_witness :
  let ho : gmap Portpassing.addr Portpassing.outset_node :=
    {[ 0%nat := {| Portpassing.target := None; Portpassing.port := None;
                   Portpassing.children := [(None, Portpassing.frozen_tag); (None, 0)] |};
       1%nat := Portpassing.outset_node_new ]} in
  let parent :=
    {| Portpassing.inports := ∅; Portpassing.outports := {[ 10%nat := 0%nat; 11%nat := 1%nat ]};
       Portpassing.inport_mode := Portpassing.port_passing_default;
       Portpassing.outport_mode := Portpassing.port_passing_default |} in
  let child :=
    {| Portpassing.inports := ∅; Portpassing.outports := ∅;
       Portpassing.inport_mode := Portpassing.port_passing_default;
       Portpassing.outport_mode := Portpassing.port_passing_default |} in
  Portpassing.outset_store_ok ho ∧ Portpassing.ports_in_store ho (Portpassing.outports parent)
  ∧ ∃ r, Portpassing.propagate_ports_for ∅ ho parent child = Some r
    ∧ ∀ k p, Portpassing.outports parent !! k = Some p →
        is_Some (Portpassing.child_ports (Portpassing.fork_out_start ho parent child) !! k) →
        ∃ pre post s_k h_k forked,
          map_to_list (Portpassing.outports parent) = pre ++ (k, p) :: post
          ∧ Portpassing.fork_out_items pre (Portpassing.fork_out_start ho parent child) = Some s_k
          ∧ Portpassing.fork2 (Portpassing.outset_store s_k) p = Some (h_k, forked)
          ∧ match forked with
            | None =>
                Portpassing.outports (Portpassing.parent_after r) !! k = None
                ∧ Portpassing.outports (Portpassing.child_after r) !! k = None
            | Some (first, second) =>
                Portpassing.outports (Portpassing.parent_after r) !! k = Some first
                ∧ Portpassing.outports (Portpassing.child_after r) !! k = Some second
            end
          ∧ (Portpassing.nonnull_slot ho p 0 ∨ Portpassing.nonnull_slot ho p 1 → forked = None).
Proof.
  intros ho parent child.
  assert (H1 : Portpassing.outset_store_ok ho).
  { unfold Portpassing.outset_store_ok. refine (bool_decide_unpack _ _). vm_compute. exact I. }
  assert (H2 : Portpassing.ports_in_store ho (Portpassing.outports parent)).
  { unfold Portpassing.ports_in_store. refine (bool_decide_unpack _ _). vm_compute. exact I. }
  split; [exact H1|]. split; [exact H2|].
  exact (propagate_ports_erases_failed_forks ∅ ho parent child H1 H2).
Defined.

(** On the frozen out-set slot 1 is taken before slot 0 is found frozen:
    the entry is erased from both maps and the branch stays in slot 1; the
    other out-set is forked. *)
Example propagate_ports_on_frozen_outset :
  let ho : gmap Portpassing.addr Portpassing.outset_node :=
    {[ 0%nat := {| Portpassing.target := None; Portpassing.port := None;
                   Portpassing.children := [(None, Portpassing.frozen_tag); (None, 0)] |};
       1%nat := Portpassing.outset_node_new ]} in
  let parent :=
    {| Portpassing.inports := ∅; Portpassing.outports := {[ 10%nat := 0%nat; 11%nat := 1%nat ]};
       Portpassing.inport_mode := Portpassing.port_passing_default;
       Portpassing.outport_mode := Portpassing.port_passing_default |} in
  let child :=
    {| Portpassing.inports := ∅; Portpassing.outports := ∅;
       Portpassing.inport_mode := Portpassing.port_passing_default;
       Portpassing.outport_mode := Portpassing.port_passing_default |} in
  (r ← Portpassing.propagate_ports_for ∅ ho parent child;
   Some (Portpassing.outports (Portpassing.parent_after r), Portpassing.outports (Portpassing.child_after r),
         Portpassing.outset_store_after r !! 0%nat))
  = Some ({[ 11%nat := 4%nat ]}, {[ 11%nat := 3%nat ]},
          Some {| Portpassing.target := None; Portpassing.port := None;
                  Portpassing.children := [(None, Portpassing.frozen_tag); (Some 2%nat, 0)] |}).
Proof. vm_compute. reflexivity. Qed.

(** [fork2] on a port whose slot 0 is taken: slot 1 is written and keeps
    its branch, the pair of null pointers is returned. *)
Example fork2_after_insert :
  let h : gmap Portpassing.addr Portpassing.outset_node :=
    {[ 0%nat := {| Portpassing.target := None; Portpassing.port := None;
                   Portpassing.children := [(Some 1%nat, 0); (None, 0)] |};
       1%nat := Portpassing.outset_node_new ]} in
  Portpassing.fork2 h 0%nat
  = Some (<[0%nat := {| Portpassing.target := None; Portpassing.port := None;
                        Portpassing.children := [(Some 1%nat, 0); (Some 2%nat, 0)] |}]>
            (<[2%nat := Portpassing.outset_node_new]> h),
          None).
Proof. vm_compute. reflexivity. Qed.

(** ** The simple out-set: insertions, then [finish] *)

(** Insertions into an out-set that is not finished succeed and link the
    nodes in front of the list. *)
Lemma simple_inserts_head ns : ∀ o,
  snd (Simple.head o) = 0 →
  Simple.head (foldl (λ o n, (Simple.insert n o).2) o ns)
  = (rev ns ++ fst (Simple.head o), 0)
  ∧ Simple.should_deallocate_automatically (foldl (λ o n, (Simple.insert n o).2) o ns)
    = Simple.should_deallocate_automatically o.
Proof.
  induction ns as [|n ns IH]; intros o Ho; cbn [foldl].
  - split; [|done]. cbn. by destruct (Simple.head o) as [l t]; simplify_eq/=.
  - unfold Simple.insert at 2 4. rewrite Ho.
    rewrite bool_decide_eq_false_2 by done. cbn [snd].
    destruct (IH {| Simple.head := (n :: (Simple.head o).1, 0);
                    Simple.should_deallocate_automatically :=
                      Simple.should_deallocate_automatically o |}) as [-> ->]; [done|].
    cbn. by rewrite <- app_assoc.
Qed.

(** X1.  The simple out-set, from its construction: every insertion made
    before [finish] succeeds; [finish] hands to [decrement_incounter]
    exactly the inserted nodes, the last inserted first, and deletes the
    out-set; a second [finish] dereferences the tagged null pointer. *)
Theorem simple_outset_finish_hands_inserted (ns : list node) :
  (∀ pre n post, ns = pre ++ n :: post →
     (Simple.insert n
        (foldl (λ o n, (Simple.insert n o).2) Simple.simple_outset_new pre)).1
     = insert_success)
  ∧ ∃ r,
      Simple.finish (foldl (λ o n, (Simple.insert n o).2) Simple.simple_outset_new ns)
      = Some r
      ∧ Simple.decremented r = rev ns
      ∧ Simple.deleted r = true
      ∧ Simple.finish (Simple.finished_outset r) = None.
Proof.
  split.
  - intros pre n post _.
    destruct (simple_inserts_head pre Simple.simple_outset_new eq_refl) as [Hhead _].
    unfold Simple.insert at 1. by rewrite Hhead.
  - destruct (simple_inserts_head ns Simple.simple_outset_new eq_refl) as [Hhead Hauto].
    unfold Simple.finish at 1. rewrite Hhead, Hauto. cbn.
    eexists. split_and!; [done| |done..]. cbn. by rewrite app_nil_r.
Qed.

(** ** Cells of a grid by anti-diagonal *)

Lemma wrap32_id z : -2^31 ≤ z < 2^31 → Direct.wrap32 z = z.
Proof. intros Hz. unfold Direct.wrap32. rewrite Z.mod_small; lia. Qed.

Ltac unwrap32 :=
  repeat match goal with
    | |- context [Direct.wrap32 ?z] => rewrite (wrap32_id z) by lia
    | H : context [Direct.wrap32 ?z] |- _ => rewrite (wrap32_id z) in H by lia
    end.

Lemma nb_levels_spec n :
  1 ≤ n < 2^30 → Benchmarks.nb_levels n = Some (2 * n - 1).
Proof.
  intros Hn. unfold Benchmarks.nb_levels. rewrite decide_True by lia.
  unwrap32. f_equal. lia.
Qed.

Lemma nb_cells_in_level_spec n l :
  1 ≤ n < 2^30 → 1 ≤ l ≤ 2 * n - 1 →
  Benchmarks.nb_cells_in_level n l = Some (if decide (l ≤ n) then l else 2 * n - l).
Proof.
  intros Hn Hl. unfold Benchmarks.nb_cells_in_level. rewrite nb_levels_spec by done.
  rewrite decide_True by lia. case_decide; [done|].
  unwrap32. f_equal. lia.
Qed.

Lemma index_of_cell_at_pos_spec n l pos :
  1 ≤ n < 2^30 → 1 ≤ l ≤ 2 * n - 1 →
  0 ≤ pos < (if decide (l ≤ n) then l else 2 * n - l) →
  Benchmarks.index_of_cell_at_pos n l pos
  = Some (if decide (l ≤ n) then (pos, l - (pos + 1)) else (l - n + pos, n - (pos + 1))).
Proof.
  intros Hn Hl Hpos. unfold Benchmarks.index_of_cell_at_pos.
  rewrite nb_cells_in_level_spec by done. rewrite decide_True by done.
  case_decide; unwrap32; done.
Qed.

(** A cell returned for a level and a position tells both. *)
Lemma index_of_cell_at_pos_inv n l pos i j :
  1 ≤ n < 2^30 →
  Benchmarks.index_of_cell_at_pos n l pos = Some (i, j) →
  0 ≤ i < n ∧ 0 ≤ j < n ∧ l = i + j + 1
  ∧ pos = (if decide (i + j + 1 ≤ n) then i else n - 1 - j).
Proof.
  intros Hn Hidx. unfold Benchmarks.index_of_cell_at_pos in Hidx.
  destruct (Benchmarks.nb_cells_in_level n l) as [cells|] eqn:Hcells; [|done].
  destruct (decide (0 ≤ pos ∧ pos < cells)) as [Hpos|]; [|done].
  unfold Benchmarks.nb_cells_in_level in Hcells.
  rewrite nb_levels_spec in Hcells by done.
  destruct (decide (1 ≤ l ∧ l ≤ 2 * n - 1)) as [Hl|]; [|done].
  injection Hcells as <-.
  assert (Hpos' : 0 ≤ pos < (if decide (l ≤ n) then l else 2 * n - l)).
  { destruct (decide (l ≤ n)); [done|]. unwrap32. lia. }
  clear Hpos.
  destruct (decide (l ≤ n)); unwrap32; injection Hidx as <- <-;
    destruct (decide (_ ≤ n)); lia.
Qed.

(** X2.  Cells of an [n] by [n] grid by anti-diagonal, for
    [1 <= n < 2^30]: there are [2n - 1] levels; a level has between 1 and
    [n] cells; position [pos] of level [l] is a cell [(i, j)] of the grid
    with [i + j = l - 1]; and every cell of the grid is the cell of
    exactly one level and position. *)
Theorem index_of_cell_at_pos_bijective n :
  1 ≤ n < 2^30 →
  Benchmarks.nb_levels n = Some (2 * n - 1)
  ∧ (∀ l cells pos,
       1 ≤ l ≤ 2 * n - 1 → Benchmarks.nb_cells_in_level n l = Some cells →
       0 ≤ pos < cells →
       1 ≤ cells ≤ n
       ∧ ∃ i j, Benchmarks.index_of_cell_at_pos n l pos = Some (i, j)
                ∧ 0 ≤ i < n ∧ 0 ≤ j < n ∧ i + j = l - 1)
  ∧ (∀ i j, 0 ≤ i < n → 0 ≤ j < n →
       ∃ l pos, Benchmarks.index_of_cell_at_pos n l pos = Some (i, j)
         ∧ ∀ l' pos', Benchmarks.index_of_cell_at_pos n l' pos' = Some (i, j) →
                      l' = l ∧ pos' = pos).
Proof.
  intros Hn. split_and!.
  - by apply nb_levels_spec.
  - intros l cells pos Hl Hcells Hpos.
    rewrite nb_cells_in_level_spec in Hcells by done. injection Hcells as <-.
    rewrite index_of_cell_at_pos_spec by done.
    destruct (decide (l ≤ n)); (split; [lia|]); eexists _, _; (split; [done|]); lia.
  - intros i j Hi Hj.
    exists (i + j + 1), (if decide (i + j + 1 ≤ n) then i else n - 1 - j).
    split.
    + destruct (decide (i + j + 1 ≤ n)).
      * rewrite index_of_cell_at_pos_spec; [|done|lia|rewrite decide_True by done; lia].
        rewrite decide_True by done. do 2 f_equal. lia.
      * rewrite index_of_cell_at_pos_spec; [|done|lia|rewrite decide_False by done; lia].
        rewrite decide_False by done. do 2 f_equal; lia.
    + intros l' pos' Hidx.
      by destruct (index_of_cell_at_pos_inv _ _ _ _ _ Hn Hidx) as (_ & _ & -> & ->).
Qed.

(** A grid of three by three: five levels; position 1 of level 4. *)
Lemma index_of_cell_at_pos_bijective_witness :
  Benchmarks.nb_levels 3 = Some 5
  ∧ ∃ i j, Benchmarks.index_of_cell_at_pos 3 4 1 = Some (i, j)
           ∧ 0 ≤ i < 3 ∧ 0 ≤ j < 3 ∧ i + j = 4 - 1.
Proof.
  destruct (index_of_cell_at_pos_bijective 3 ltac:(lia)) as (H1 & H2 & _).
  split; [exact H1|].
  exact (proj2 (H2 4 2 1 ltac:(lia) eq_refl ltac:(lia))).
Defined.

Example index_of_cell_at_pos_outside :
  Benchmarks.index_of_cell_at_pos 3 4 2 = None
  ∧ Benchmarks.index_of_cell_at_pos 3 6 0 = None
  ∧ Benchmarks.nb_levels 0 = None.
Proof. done. Qed.

(** X3.  [row_major_address_of] on an [n] by [n] array with
    [n * n < 2^31]: a cell of the array has the index [i * n + j], within
    the array; two cells with the same index are the same cell; and a
    cell outside the array fails the assertion. *)
Theorem row_major_address_of_spec n :
  0 ≤ n → n * n < 2^31 →
  (∀ i j, 0 ≤ i < n → 0 ≤ j < n →
     Benchmarks.row_major_address_of n i j = Some (i * n + j) ∧ 0 ≤ i * n + j < n * n)
  ∧ (∀ i j i' j' k,
       Benchmarks.row_major_address_of n i j = Some k →
       Benchmarks.row_major_address_of n i' j' = Some k → i = i' ∧ j = j')
  ∧ (∀ i j, ¬ (0 ≤ i < n ∧ 0 ≤ j < n) → Benchmarks.row_major_address_of n i j = None).
Proof.
  intros Hn Hnn.
  assert (Hidx : ∀ i j, 0 ≤ i < n → 0 ≤ j < n →
            Benchmarks.row_major_address_of n i j = Some (i * n + j)
            ∧ 0 ≤ i * n + j < n * n).
  { intros i j Hi Hj. unfold Benchmarks.row_major_address_of.
    rewrite !decide_True by lia. unfold Benchmarks.row_major_index_of.
    assert (0 ≤ i * n ∧ i * n + j < n * n) by nia.
    unwrap32. split; [done|lia]. }
  split_and!; [done| |].
  - intros i j i' j' k H1 H2.
    assert (Hin : ∀ a b c, Benchmarks.row_major_address_of n a b = Some c →
              0 ≤ a < n ∧ 0 ≤ b < n).
    { intros a b c H. unfold Benchmarks.row_major_address_of in H.
      repeat case_decide; first [done | lia]. }
    destruct (Hin _ _ _ H1) as [Hi Hj]. destruct (Hin _ _ _ H2) as [Hi' Hj'].
    destruct (Hidx i j Hi Hj) as [E1 _]. destruct (Hidx i' j' Hi' Hj') as [E2 _].
    rewrite E1 in H1. rewrite E2 in H2. simplify_eq.
    assert (i = i') by nia. subst. split; [done|lia].
  - intros i j Hout. unfold Benchmarks.row_major_address_of.
    repeat case_decide; first [done | lia].
Qed.

(** An array of four by four. *)
Lemma row_major_address_of_spec_witness :
  Benchmarks.row_major_address_of 4 2 3 = Some (2 * 4 + 3)
  ∧ Benchmarks.row_major_address_of 4 4 0 = None.
Proof.
  destruct (row_major_address_of_spec 4 ltac:(lia) ltac:(lia)) as (H1 & _ & H3).
  split.
  - exact (proj1 (H1 2 3 ltac:(lia) ltac:(lia))).
  - apply H3. lia.
Defined.

(** ** The tokens of the Gauss-Seidel generator *)

Lemma cells_of_app ts1 ts2 :
  Benchmarks.cells_of (ts1 ++ ts2) = Benchmarks.cells_of ts1 ++ Benchmarks.cells_of ts2.
Proof. unfold Benchmarks.cells_of. by rewrite bind_app. Qed.

Lemma cells_of_cons t ts :
  Benchmarks.cells_of (t :: ts)
  = ((λ c, (Benchmarks.l t, c)) <$> seqZ (Benchmarks.c_lo t) (Benchmarks.c_hi t - Benchmarks.c_lo t))
    ++ Benchmarks.cells_of ts.
Proof. done. Qed.

Lemma last_removelast {A} (ts : list A) s :
  last ts = Some s → ts = removelast ts ++ [s].
Proof.
  intros Hlast. destruct ts as [|t ts _] using rev_ind; [done|].
  rewrite last_snoc in Hlast. injection Hlast as ->.
  by rewrite removelast_last.
Qed.

Lemma seqZ_snoc m k : 0 ≤ k → seqZ m (k + 1) = seqZ m k ++ [m + k].
Proof.
  intros Hk. rewrite seqZ_app by lia. f_equal.
Qed.

(** X4.  [push_token(l, c)] on a queue of tokens whose last token is of
    another level or ends at [c]: the cell [(l, c)] is appended to the
    cells the tokens stand for, the tokens stay well formed and the cell
    is counted.  When the last token is of level [l] and does not end at
    [c] the assertion fails. *)
Theorem push_token_appends lv c q :
  Benchmarks.token_queue_ok q → 0 ≤ c < 2^31 - 1 →
  Benchmarks.nb_tokens q < 2^31 - 1 →
  (∀ s, last (Benchmarks.tokens q) = Some s → Benchmarks.l s = lv →
        Benchmarks.c_hi s ≠ c → Benchmarks.push_token lv c q = None)
  ∧ ((∀ s, last (Benchmarks.tokens q) = Some s → Benchmarks.l s = lv →
           Benchmarks.c_hi s = c) →
     ∃ q', Benchmarks.push_token lv c q = Some q'
       ∧ Benchmarks.token_queue_ok q'
       ∧ Benchmarks.cells_of (Benchmarks.tokens q')
         = Benchmarks.cells_of (Benchmarks.tokens q) ++ [(lv, c)]
       ∧ Benchmarks.nb_tokens q' = Benchmarks.nb_tokens q + 1).
Proof.
  intros (Hall & Hcount & _) Hc Hfull. split.
  - intros s Hlast Hl Hne. unfold Benchmarks.push_token. rewrite Hlast.
    rewrite decide_True by done. by rewrite decide_False.
  - intros Hpre.
    assert (Hnew : Benchmarks.cells_of
              [{| Benchmarks.l := lv; Benchmarks.c_lo := c; Benchmarks.c_hi := c + 1 |}]
            = [(lv, c)]).
    { rewrite cells_of_cons. cbn. replace (c + 1 - c) with 1 by lia. done. }
    assert (Hcount0 : 0 ≤ Benchmarks.nb_tokens q) by lia.
    assert (Hfresh : ∃ q',
              Some {| Benchmarks.tokens := Benchmarks.tokens q ++
                        [{| Benchmarks.l := lv; Benchmarks.c_lo := c;
                            Benchmarks.c_hi := Direct.wrap32 (c + 1) |}];
                      Benchmarks.nb_tokens := Direct.wrap32 (Benchmarks.nb_tokens q + 1) |}
              = Some q'
              ∧ Benchmarks.token_queue_ok q'
              ∧ Benchmarks.cells_of (Benchmarks.tokens q')
                = Benchmarks.cells_of (Benchmarks.tokens q) ++ [(lv, c)]
              ∧ Benchmarks.nb_tokens q' = Benchmarks.nb_tokens q + 1).
    { eexists. split; [done|]. cbn. unwrap32. rewrite cells_of_app, Hnew.
      split_and!; [split_and!|done..].
      - apply Forall_app. split; [done|]. apply Forall_singleton. cbn. lia.
      - cbn. rewrite cells_of_app, Hnew, length_app. cbn. lia.
      - cbn. lia. }
    unfold Benchmarks.push_token.
    destruct (last (Benchmarks.tokens q)) as [s|] eqn:Hlast; [|done].
    destruct (decide (Benchmarks.l s = lv)) as [Hl|]; [|done].
    rewrite decide_True by (by apply Hpre).
    pose proof (Hpre s eq_refl Hl) as Hhi.
    pose proof (last_removelast _ _ Hlast) as Hsplit.
    assert (Hs : 0 ≤ Benchmarks.c_lo s ∧ Benchmarks.c_lo s < Benchmarks.c_hi s
                 ∧ Benchmarks.c_hi s < 2^31).
    { rewrite Forall_forall in Hall. apply Hall. rewrite Hsplit.
      apply elem_of_app. right. by left. }
    assert (Hall' : Forall (λ t, 0 ≤ Benchmarks.c_lo t
                                 ∧ Benchmarks.c_lo t < Benchmarks.c_hi t
                                 ∧ Benchmarks.c_hi t < 2^31)
                      (removelast (Benchmarks.tokens q))).
    { rewrite Hsplit in Hall. by apply Forall_app in Hall as [? _]. }
    assert (Hmerged : Benchmarks.cells_of
              [{| Benchmarks.l := lv; Benchmarks.c_lo := Benchmarks.c_lo s;
                  Benchmarks.c_hi := c + 1 |}]
            = Benchmarks.cells_of [s] ++ [(lv, c)]).
    { rewrite !cells_of_cons. cbn. rewrite !app_nil_r.
      replace (c + 1 - Benchmarks.c_lo s) with (Benchmarks.c_hi s - Benchmarks.c_lo s + 1) by lia.
      rewrite seqZ_snoc by lia. rewrite fmap_app. cbn.
      rewrite Hl. do 3 f_equal. lia. }
    eexists. split; [done|]. cbn [Benchmarks.tokens Benchmarks.nb_tokens]. unwrap32.
    assert (Hcells : Benchmarks.cells_of
              (removelast (Benchmarks.tokens q) ++
                 [{| Benchmarks.l := lv; Benchmarks.c_lo := Benchmarks.c_lo s;
                     Benchmarks.c_hi := c + 1 |}])
            = Benchmarks.cells_of (Benchmarks.tokens q) ++ [(lv, c)]).
    { rewrite cells_of_app, Hmerged, app_assoc, <- cells_of_app. by rewrite <- Hsplit. }
    split_and!; [split_and!|done..]; cbn [Benchmarks.tokens Benchmarks.nb_tokens].
    + apply Forall_app. split; [done|]. apply Forall_singleton. cbn. lia.
    + rewrite Hcells, length_app. cbn. lia.
    + lia.
Qed.

(** X5.  [pop_token()] on well-formed tokens that stand for the cells
    [(l, c) :: rest], when position [c] of level [l] is the cell
    [(i, j)] of the grid: the cell is returned, the tokens stand for
    [rest], stay well formed, and the count is decremented.  On an empty
    deque the assertion fails. *)
Theorem pop_token_takes_first n q lv c rest i j :
  1 ≤ n < 2^30 →
  Benchmarks.token_queue_ok q →
  Benchmarks.cells_of (Benchmarks.tokens q) = (lv, c) :: rest →
  Benchmarks.index_of_cell_at_pos n lv c = Some (i, j) →
  ∃ q', Benchmarks.pop_token n n q = Some ((i, j), q')
    ∧ Benchmarks.token_queue_ok q'
    ∧ Benchmarks.cells_of (Benchmarks.tokens q') = rest
    ∧ Benchmarks.nb_tokens q' = Benchmarks.nb_tokens q - 1.
Proof.
  intros Hn (Hall & Hcount & Hint) Hcells Hidx.
  destruct (Benchmarks.tokens q) as [|t ts] eqn:Hts; [done|].
  apply Forall_cons in Hall as [Ht Hall]. cbn beta in Ht.
  rewrite cells_of_cons in Hcells.
  rewrite (seqZ_cons (Benchmarks.c_lo t)) in Hcells by lia.
  cbn in Hcells. injection Hcells as Hl Hc Hrest. subst lv c.
  replace (Z.succ (Benchmarks.c_lo t)) with (Benchmarks.c_lo t + 1) in Hrest by lia.
  replace (Z.pred (Benchmarks.c_hi t - Benchmarks.c_lo t))
    with (Benchmarks.c_hi t - (Benchmarks.c_lo t + 1)) in Hrest by lia.
  assert (Hcount' : Benchmarks.nb_tokens q = Z.of_nat (S (length rest))).
  { rewrite Hcount, cells_of_cons. rewrite (seqZ_cons (Benchmarks.c_lo t)) by lia.
    replace (Z.succ (Benchmarks.c_lo t)) with (Benchmarks.c_lo t + 1) by lia.
    replace (Z.pred (Benchmarks.c_hi t - Benchmarks.c_lo t))
      with (Benchmarks.c_hi t - (Benchmarks.c_lo t + 1)) by lia.
    cbn. by rewrite Hrest. }
  destruct (index_of_cell_at_pos_inv _ _ _ _ _ Hn Hidx) as (Hi & Hj & _).
  unfold Benchmarks.pop_token. rewrite Hts.
  rewrite decide_True by (unwrap32; lia).
  rewrite Hidx. unfold Benchmarks.row_major_address_of.
  rewrite !decide_True by lia.
  eexists. split; [done|]. cbn [Benchmarks.tokens Benchmarks.nb_tokens
    Benchmarks.c_hi Benchmarks.c_lo Benchmarks.l].
  unwrap32.
  destruct (decide (Benchmarks.c_hi t - (Benchmarks.c_lo t + 1) > 0)) as [Hmore|Hlast].
  - split_and!; [split_and!| |done]; cbn [Benchmarks.tokens Benchmarks.nb_tokens].
    + apply Forall_cons. split; [cbn; lia|done].
    + rewrite cells_of_cons. cbn [Benchmarks.c_hi Benchmarks.c_lo Benchmarks.l].
      rewrite Hrest. lia.
    + lia.
    + rewrite cells_of_cons. by cbn [Benchmarks.c_hi Benchmarks.c_lo Benchmarks.l].
  - assert (Hone : Benchmarks.c_hi t - (Benchmarks.c_lo t + 1) = 0) by lia.
    rewrite Hone, seqZ_nil in Hrest by lia. cbn in Hrest.
    split_and!; [split_and!| |done]; cbn [Benchmarks.tokens Benchmarks.nb_tokens].
    + done.
    + rewrite Hrest. lia.
    + lia.
    + done.
Qed.

(** A queue of two cells of level 2 in a grid of three by three. *)
Lemma push_token_appends_witness :
  let q := {| Benchmarks.tokens := [{| Benchmarks.l := 2; Benchmarks.c_lo := 0; Benchmarks.c_hi := 1 |}];
              Benchmarks.nb_tokens := 1 |} in
  ∃ q', Benchmarks.push_token 2 1 q = Some q'
    ∧ Benchmarks.token_queue_ok q'
    ∧ Benchmarks.cells_of (Benchmarks.tokens q') = [(2, 0); (2, 1)]
    ∧ Benchmarks.nb_tokens q' = 2.
Proof.
  intros q.
  assert (Hok : Benchmarks.token_queue_ok q).
  { split_and!; [|reflexivity|cbn; lia]. apply Forall_singleton. cbn. lia. }
  apply (push_token_appends 2 1 q Hok ltac:(lia) ltac:(cbn; lia)).
  intros s [= <-] _. reflexivity.
Defined.

Lemma pop_token_takes_first_witness :
  let q := {| Benchmarks.tokens := [{| Benchmarks.l := 2; Benchmarks.c_lo := 0; Benchmarks.c_hi := 2 |}];
              Benchmarks.nb_tokens := 2 |} in
  ∃ q', Benchmarks.pop_token 3 3 q = Some ((0, 1), q')
    ∧ Benchmarks.token_queue_ok q'
    ∧ Benchmarks.cells_of (Benchmarks.tokens q') = [(2, 1)]
    ∧ Benchmarks.nb_tokens q' = 2 - 1.
Proof.
  intros q.
  assert (Hok : Benchmarks.token_queue_ok q).
  { split_and!; [|reflexivity|cbn; lia]. apply Forall_singleton. cbn. lia. }
  exact (pop_token_takes_first 3 q 2 0 [(2, 1)] 0 1 ltac:(lia) Hok eq_refl eq_refl).
Defined.

Example pop_token_empty n futures_n :
  Benchmarks.pop_token n futures_n {| Benchmarks.tokens := []; Benchmarks.nb_tokens := 0 |}
  = None.
Proof. done. Qed.

(** ** The microbenchmark of the in-counters *)

Lemma nb_ops_app o ops1 ops2 :
  nb_ops o (ops1 ++ ops2) = (nb_ops o ops1 + nb_ops o ops2)%nat.
Proof. unfold nb_ops. by rewrite filter_app, length_app. Qed.

Lemma nb_ops_replicate o o' k :
  nb_ops o (replicate k o') = if decide (o' = o) then k else O.
Proof.
  induction k as [|k IH]; cbn [replicate].
  - by case_decide.
  - rewrite nb_ops_cons, IH. by case_decide.
Qed.

Ltac thread_fields :=
  cbn [Benchmarks.c Benchmarks.rng Benchmarks.nb_pending_increments
       Benchmarks.the_incounter Benchmarks.issued length] in *.

Section ThreadFacts.

Context {W : Type} `{Benchmarks.Incounter_wrapper W}.

(** The wrapper never fails. *)
Hypothesis increment_total : ∀ id w, is_Some (Benchmarks.wrapper_increment id w).
Hypothesis decrement_total : ∀ id w, is_Some (Benchmarks.wrapper_decrement id w).

Lemma thread_loop_spec my_id turns : ∀ s,
  0 ≤ Benchmarks.c s → Benchmarks.c s + Z.of_nat turns < 2^31 →
  0 ≤ Benchmarks.nb_pending_increments s →
  Benchmarks.nb_pending_increments s + Z.of_nat turns < 2^31 →
  ∃ s' main,
    Benchmarks.thread_loop turns my_id s = Some s'
    ∧ Benchmarks.issued s' = Benchmarks.issued s ++ main
    ∧ length main = turns
    ∧ Benchmarks.c s' = Benchmarks.c s + Z.of_nat turns
    ∧ Benchmarks.nb_pending_increments s'
      = Benchmarks.nb_pending_increments s + Z.of_nat (nb_ops Increment main).
Proof.
  induction turns as [|turns IH]; intros s Hc0 Hc Hp0 Hp.
  { exists s, []. cbn. rewrite app_nil_r. split_and!; [done..|lia|lia]. }
  cbn [Benchmarks.thread_loop]. unfold Benchmarks.thread_turn.
  destruct (bool_decide (Benchmarks.nb_pending_increments s > 0)
            && bool_decide (Benchmarks.rng s mod 2 = 0)).
  - destruct (decrement_total my_id (Benchmarks.the_incounter s)) as [[b w] ->].
    edestruct IH as (s' & main & Hrun & Hissued & Hlen & Hcs & Hps);
      [| | | |rewrite Hrun]; thread_fields; rewrite ?wrap32_id by lia; try lia.
    exists s', (Decrement :: main). thread_fields. rewrite wrap32_id in Hcs by lia.
    split_and!; [done| |lia|lia|].
    + by rewrite Hissued, <- app_assoc.
    + rewrite Hps, nb_ops_cons. by rewrite decide_False.
  - destruct (increment_total my_id (Benchmarks.the_incounter s)) as [w ->].
    edestruct IH as (s' & main & Hrun & Hissued & Hlen & Hcs & Hps);
      [| | | |rewrite Hrun]; thread_fields; rewrite ?wrap32_id by lia; try lia.
    exists s', (Increment :: main). thread_fields. rewrite !wrap32_id in * by lia.
    split_and!; [done| |lia|lia|].
    + by rewrite Hissued, <- app_assoc.
    + rewrite Hps, nb_ops_cons. rewrite decide_True by done. lia.
Qed.

Lemma thread_drain_spec my_id fuel : ∀ s,
  Benchmarks.nb_pending_increments s = Z.of_nat fuel →
  0 ≤ Benchmarks.c s → Benchmarks.c s + Z.of_nat fuel < 2^31 →
  ∃ s',
    Benchmarks.thread_drain fuel my_id s = Some s'
    ∧ Benchmarks.issued s' = Benchmarks.issued s ++ replicate fuel Decrement
    ∧ Benchmarks.c s' = Benchmarks.c s + Z.of_nat fuel
    ∧ Benchmarks.nb_pending_increments s' = 0.
Proof.
  induction fuel as [|fuel IH]; intros s Hp Hc0 Hc.
  { exists s. cbn. rewrite bool_decide_eq_false_2 by lia.
    rewrite app_nil_r. split_and!; [done..|lia|lia]. }
  cbn [Benchmarks.thread_drain]. rewrite bool_decide_eq_true_2 by lia.
  destruct (decrement_total my_id (Benchmarks.the_incounter s)) as [[b w] ->].
  edestruct IH as (s' & Hrun & Hissued & Hcs & Hps); [| | |rewrite Hrun];
    thread_fields; rewrite ?wrap32_id by lia; try lia.
  exists s'. thread_fields. rewrite !wrap32_id in * by lia.
  split_and!; [done| |lia|done].
  rewrite Hissued, <- app_assoc. done.
Qed.

(** X6.  [benchmark_incounter_thread] on a wrapper that never fails,
    [should_stop] being read false fewer than [2^30] times: the thread
    returns; the first loop issues one operation per turn, the second one
    decrement per increment of the first; [counter] is the number of
    operations issued.  A decrement of the first loop does not lower
    [nb_pending_increments], so the decrements issued outnumber the
    increments by the decrements of the first loop: their number is the
    number of turns. *)
Theorem benchmark_incounter_thread_issues (turns : nat) my_id w seed :
  Z.of_nat turns < 2^30 →
  ∃ s main,
    Benchmarks.benchmark_incounter_thread turns my_id w seed = Some s
    ∧ Benchmarks.issued s = main ++ replicate (nb_ops Increment main) Decrement
    ∧ length main = turns
    ∧ Benchmarks.c s = Z.of_nat (length (Benchmarks.issued s))
    ∧ nb_ops Decrement (Benchmarks.issued s)
      = (nb_ops Increment (Benchmarks.issued s) + nb_ops Decrement main)%nat
    ∧ nb_ops Decrement (Benchmarks.issued s) = turns.
Proof.
  intros Hturns. unfold Benchmarks.benchmark_incounter_thread.
  edestruct (thread_loop_spec my_id turns) as (s1 & main & Hrun & Hissued & Hlen & Hc & Hp);
    [| | | |rewrite Hrun]; thread_fields; try lia.
  rewrite app_nil_l in Hissued.
  assert (Hp' : Benchmarks.nb_pending_increments s1 = Z.of_nat (nb_ops Increment main))
    by lia.
  assert (Hsplit : (nb_ops Increment main + nb_ops Decrement main = length main)%nat).
  { clear. induction main as [|[] main IH]; [done|..];
      rewrite !(nb_ops_cons _ _ main); repeat case_decide; try done; cbn; lia. }
  rewrite Hp', Nat2Z.id.
  edestruct (thread_drain_spec my_id (nb_ops Increment main) s1)
    as (s2 & Hdrain & Hissued2 & Hc2 & Hp2); [lia|lia|lia|].
  exists s2, main. rewrite Hissued2, Hissued.
  split_and!; [done..| | |].
  - rewrite length_app, length_replicate. lia.
  - rewrite !nb_ops_app, !nb_ops_replicate.
    rewrite decide_True by done. rewrite decide_False by done. lia.
  - rewrite !nb_ops_app, !nb_ops_replicate. rewrite decide_True by done. lia.
Qed.

End ThreadFacts.

(** The simple wrapper, two turns from the seed 1: an increment, a
    decrement, and the decrement of the second loop. *)
Lemma benchmark_incounter_thread_issues_witness :
  ∃ s main,
    Benchmarks.benchmark_incounter_thread 2 0 Benchmarks.simple_incounter_wrapper_new 1
    = Some s
    ∧ Benchmarks.issued s = main ++ replicate (nb_ops Increment main) Decrement
    ∧ length main = 2%nat
    ∧ Benchmarks.c s = Z.of_nat (length (Benchmarks.issued s))
    ∧ nb_ops Decrement (Benchmarks.issued s)
      = (nb_ops Increment (Benchmarks.issued s) + nb_ops Decrement main)%nat
    ∧ nb_ops Decrement (Benchmarks.issued s) = 2%nat.
Proof.
  apply (benchmark_incounter_thread_issues (W := Benchmarks.simple_incounter_wrapper)).
  - intros id w. eexists. reflexivity.
  - intros id w. eexists. reflexivity.
  - vm_compute. reflexivity.
Defined.

(** The same run: the counter of the simple wrapper ends below zero; the
    dyntree wrapper is decremented when it is activated. *)
Example benchmark_incounter_thread_unbalanced :
  (s ← Benchmarks.benchmark_incounter_thread 2 0 Benchmarks.simple_incounter_wrapper_new 1;
   Some (Benchmarks.issued s, Benchmarks.c s,
         Benchmarks.counter (Benchmarks.the_incounter s)))
  = Some ([Increment; Decrement; Decrement], 3, -1)
  ∧ Benchmarks.benchmark_incounter_thread
      (H := Benchmarks.dyntree_incounter_wrapper_ops 2) 2 0
      (Benchmarks.dyntree_incounter_wrapper_new 2 [0; 0; 0; 0; 0; 0; 0; 0]%nat) 1
    = None.
Proof. split; vm_compute; reflexivity. Qed.

Lemma never_negative_length k ops :
  never_negative k ops = true → (nb_ops Decrement ops ≤ k + nb_ops Increment ops)%nat.
Proof.
  revert k. induction ops as [|[] ops IH]; intros k Hnn; cbn in Hnn.
  - unfold nb_ops. cbn. lia.
  - apply IH in Hnn. rewrite !nb_ops_cons. repeat case_decide; try done. lia.
  - destruct k as [|k]; [done|]. apply IH in Hnn.
    rewrite !nb_ops_cons. repeat case_decide; try done. lia.
Qed.

Lemma simple_wrapper_run my_id ops : ∀ k,
  never_negative k ops = true → Z.of_nat k + Z.of_nat (length ops) < 2^31 →
  Benchmarks.wrapper_run my_id ops {| Benchmarks.counter := Z.of_nat k |}
  = Some (replicate (nb_ops Decrement ops) false,
          {| Benchmarks.counter :=
               Z.of_nat k + Z.of_nat (nb_ops Increment ops)
               - Z.of_nat (nb_ops Decrement ops) |}).
Proof.
  induction ops as [|[] ops IH]; intros k Hnn Hlen; cbn in Hnn, Hlen.
  - cbn. do 3 f_equal. unfold nb_ops. cbn. lia.
  - cbn [Benchmarks.wrapper_run Benchmarks.wrapper_increment
         Benchmarks.simple_incounter_wrapper_ops Benchmarks.counter].
    rewrite wrap32_id by lia.
    replace (Z.of_nat k + 1) with (Z.of_nat (S k)) by lia.
    rewrite IH by (done || lia). rewrite !nb_ops_cons.
    repeat (case_decide; try done).
    cbn [Nat.add]. do 3 f_equal. lia.
  - destruct k as [|k]; [done|].
    cbn [Benchmarks.wrapper_run Benchmarks.wrapper_decrement
         Benchmarks.simple_incounter_wrapper_ops Benchmarks.counter].
    rewrite wrap32_id by lia. rewrite bool_decide_eq_false_2 by lia.
    replace (Z.of_nat (S k) - 1) with (Z.of_nat k) by lia.
    rewrite IH by (done || lia). rewrite !nb_ops_cons.
    repeat (case_decide; try done).
    cbn [Nat.add replicate]. do 3 f_equal. lia.
Qed.

(** X7.  [simple_incounter_wrapper], from its construction, over a
    sequence of fewer than [2^31] operations in which the decrements
    never outnumber the increments: [decrement] never returns [true], not
    even when it brings the counter back to zero, since [counter-- == 0]
    compares the value before the decrement; the counter ends at the
    number of increments minus the number of decrements.  A decrement at
    zero returns [true] and leaves the counter at -1. *)
Theorem simple_incounter_wrapper_never_reports my_id ops :
  never_negative 0 ops = true → Z.of_nat (length ops) < 2^31 →
  Benchmarks.wrapper_run my_id ops Benchmarks.simple_incounter_wrapper_new
  = Some (replicate (nb_ops Decrement ops) false,
          {| Benchmarks.counter :=
               Z.of_nat (nb_ops Increment ops) - Z.of_nat (nb_ops Decrement ops) |})
  ∧ Benchmarks.wrapper_decrement my_id Benchmarks.simple_incounter_wrapper_new
    = Some (true, {| Benchmarks.counter := -1 |}).
Proof.
  intros Hnn Hlen. split; [|done].
  unfold Benchmarks.simple_incounter_wrapper_new.
  change 0 with (Z.of_nat 0) at 1.
  rewrite simple_wrapper_run by (done || lia). do 3 f_equal.
Qed.

Lemma simple_incounter_wrapper_never_reports_witness :
  Benchmarks.wrapper_run 0 [Increment; Increment; Decrement; Decrement]
    Benchmarks.simple_incounter_wrapper_new
  = Some (replicate (nb_ops Decrement [Increment; Increment; Decrement; Decrement]) false,
          {| Benchmarks.counter :=
               Z.of_nat (nb_ops Increment [Increment; Increment; Decrement; Decrement])
               - Z.of_nat (nb_ops Decrement [Increment; Increment; Decrement; Decrement]) |})
  ∧ Benchmarks.wrapper_decrement 0 Benchmarks.simple_incounter_wrapper_new
    = Some (true, {| Benchmarks.counter := -1 |}).
Proof.
  apply simple_incounter_wrapper_never_reports; [reflexivity|cbn; lia].
Defined.

Section DyntreeWrapperFacts.

Variable B : nat.
Hypothesis HB : (0 < B)%nat.

#[local] Existing Instance Benchmarks.dyntree_incounter_wrapper_ops.

Lemma dyntree_wrapper_run_safe my_id ops : ∀ w bs w',
  Dyntree.incounter_inv B (Benchmarks.incounter w) →
  never_negative (Dyntree.logical_count (Benchmarks.incounter w)) ops = true →
  Benchmarks.wrapper_run (H := Benchmarks.dyntree_incounter_wrapper_ops B) my_id ops w
  = Some (bs, w') →
  bs = Benchmarks.false_at_zero (Dyntree.logical_count (Benchmarks.incounter w)) ops
  ∧ Dyntree.incounter_inv B (Benchmarks.incounter w')
  ∧ (Dyntree.logical_count (Benchmarks.incounter w') + nb_ops Decrement ops
     = Dyntree.logical_count (Benchmarks.incounter w) + nb_ops Increment ops)%nat.
Proof.
  induction ops as [|[] ops IH]; intros w bs w' Hinv Hnn Hrun.
  - cbn in Hrun. injection Hrun as <- <-. unfold nb_ops. cbn. split_and!; [done..|lia].
  - cbn [Benchmarks.wrapper_run Benchmarks.wrapper_increment
         Benchmarks.dyntree_incounter_wrapper_ops] in Hrun.
    destruct (Dyntree.increment B _ _) as [[tape c']|] eqn:Hinc; [|done].
    destruct (increment_safe B _ _ _ _ Hinv Hinc) as [Hinv' Hcount].
    cbn [never_negative] in Hnn. rewrite <- Hcount in Hnn.
    destruct (IH {| Benchmarks.incounter := c'; Benchmarks.generator := tape |}
                _ _ Hinv' Hnn Hrun) as (-> & Hinv'' & Hbal).
    cbn [Benchmarks.incounter] in *. rewrite !nb_ops_cons.
    repeat (case_decide; try done).
    cbn [Benchmarks.false_at_zero]. rewrite Hcount. split_and!; [done..|lia].
  - cbn [Benchmarks.wrapper_run Benchmarks.wrapper_decrement
         Benchmarks.dyntree_incounter_wrapper_ops] in Hrun.
    destruct (Dyntree.decrement B _ _) as [[tape [st c']]|] eqn:Hdec; [|done].
    destruct (decrement_safe B _ _ _ _ _ Hinv Hdec) as (Hinv' & Hcount & Hact).
    cbn [never_negative] in Hnn. rewrite <- Hcount in Hnn.
    destruct (Benchmarks.wrapper_run _ _ _) as [[bs0 w0]|] eqn:Hrest; [|done].
    injection Hrun as <- <-.
    destruct (IH {| Benchmarks.incounter := c'; Benchmarks.generator := tape |}
                _ _ Hinv' Hnn Hrest) as (-> & Hinv'' & Hbal).
    cbn [Benchmarks.incounter] in *. rewrite !nb_ops_cons.
    repeat (case_decide; try done).
    cbn [Benchmarks.false_at_zero]. rewrite <- Hcount. cbn [pred].
    split_and!; [|done|lia]. f_equal.
    destruct st; cbn.
    + assert (Dyntree.logical_count c' = O) as -> by (by apply Hact).
      by rewrite bool_decide_eq_true_2.
    + rewrite bool_decide_eq_false_2; [done|].
      intros Heq. assert (Dyntree.logical_count c' = O) as Hz by lia.
      apply Hact in Hz. done.
Qed.

Lemma dyntree_wrapper_run_progress my_id ops : ∀ c,
  Dyntree.incounter_inv B c →
  never_negative (Dyntree.logical_count c) ops = true →
  ∃ t1 r, ∀ ext,
    Benchmarks.wrapper_run (H := Benchmarks.dyntree_incounter_wrapper_ops B) my_id ops
      {| Benchmarks.incounter := c; Benchmarks.generator := t1 ++ ext |}
    = Some (r.1, {| Benchmarks.incounter := r.2; Benchmarks.generator := ext |}).
Proof.
  induction ops as [|[] ops IH]; intros c Hinv Hnn.
  - exists [], ([], c). done.
  - destruct (increment_progress B c HB Hinv) as (t1 & c' & Hinc).
    destruct (increment_safe B _ _ _ _ Hinv (Hinc [])) as [Hinv' Hcount].
    cbn [never_negative] in Hnn. rewrite <- Hcount in Hnn.
    destruct (IH c' Hinv' Hnn) as (t2 & r & Hrest).
    exists (t1 ++ t2), r. intros ext.
    cbn [Benchmarks.wrapper_run Benchmarks.wrapper_increment
         Benchmarks.dyntree_incounter_wrapper_ops Benchmarks.incounter
         Benchmarks.generator].
    rewrite <- app_assoc, Hinc. apply Hrest.
  - destruct (Dyntree.logical_count c) as [|k] eqn:Hk; [done|].
    destruct (decrement_progress B c HB Hinv ltac:(lia)) as (t1 & [st c'] & Hdec).
    destruct (decrement_safe B _ _ _ _ _ Hinv (Hdec [])) as (Hinv' & Hcount & _).
    cbn [never_negative] in Hnn.
    assert (k = Dyntree.logical_count c') as -> by lia.
    destruct (IH c' Hinv' Hnn) as (t2 & r & Hrest).
    exists (t1 ++ t2), (Benchmarks.status_as_bool st :: r.1, r.2). intros ext.
    cbn [Benchmarks.wrapper_run Benchmarks.wrapper_decrement
         Benchmarks.dyntree_incounter_wrapper_ops Benchmarks.incounter
         Benchmarks.generator].
    rewrite <- app_assoc, Hdec. by rewrite Hrest.
Qed.

(** X8.  [dyntree_incounter_wrapper], from its construction and for a
    positive branching factor, over a sequence in which the decrements
    never outnumber the increments: some draws of the generator let every
    call return; and whatever the draws, [decrement] returns [false]
    exactly when it brings the count to zero and [true] otherwise, the
    status [activated] being 0 as a [bool]. *)
Theorem dyntree_incounter_wrapper_reports my_id ops :
  never_negative 0 ops = true →
  (∃ tape bs w',
     Benchmarks.wrapper_run (H := Benchmarks.dyntree_incounter_wrapper_ops B) my_id ops
       (Benchmarks.dyntree_incounter_wrapper_new B tape) = Some (bs, w'))
  ∧ ∀ tape bs w',
      Benchmarks.wrapper_run (H := Benchmarks.dyntree_incounter_wrapper_ops B) my_id ops
        (Benchmarks.dyntree_incounter_wrapper_new B tape) = Some (bs, w') →
      bs = Benchmarks.false_at_zero 0 ops
      ∧ (Dyntree.is_activated (Benchmarks.incounter w') = true
         ↔ nb_ops Increment ops = nb_ops Decrement ops).
Proof.
  intros Hnn. split.
  - destruct (dyntree_wrapper_run_progress my_id ops (Dyntree.dyntree_incounter_new B)
                (incounter_inv_new B) Hnn) as (t1 & r & Hrun).
    exists t1, r.1, {| Benchmarks.incounter := r.2; Benchmarks.generator := [] |}.
    specialize (Hrun []). by rewrite app_nil_r in Hrun.
  - intros tape bs w' Hrun.
    destruct (dyntree_wrapper_run_safe my_id ops
                (Benchmarks.dyntree_incounter_wrapper_new B tape) _ _
                (incounter_inv_new B) Hnn Hrun)
      as (-> & Hinv & Hbal).
    split; [done|]. rewrite is_activated_iff.
    cbn [Benchmarks.dyntree_incounter_wrapper_new Benchmarks.incounter] in Hbal.
    change (Dyntree.logical_count (Dyntree.dyntree_incounter_new B)) with O in Hbal.
    lia.
Qed.

End DyntreeWrapperFacts.

(** Two increments and two decrements: the first decrement returns
    [true], the second, which activates, [false]. *)
Lemma dyntree_incounter_wrapper_reports_witness :
  (∃ tape bs w',
     Benchmarks.wrapper_run (H := Benchmarks.dyntree_incounter_wrapper_ops 2) 0
       [Increment; Increment; Decrement; Decrement]
       (Benchmarks.dyntree_incounter_wrapper_new 2 tape) = Some (bs, w'))
  ∧ ∀ tape bs w',
      Benchmarks.wrapper_run (H := Benchmarks.dyntree_incounter_wrapper_ops 2) 0
        [Increment; Increment; Decrement; Decrement]
        (Benchmarks.dyntree_incounter_wrapper_new 2 tape) = Some (bs, w') →
      bs = [true; false]
      ∧ (Dyntree.is_activated (Benchmarks.incounter w') = true
         ↔ nb_ops Increment [Increment; Increment; Decrement; Decrement]
           = nb_ops Decrement [Increment; Increment; Decrement; Decrement]).
Proof.
  apply (dyntree_incounter_wrapper_reports 2); [lia|reflexivity].
Defined.

(** ** Port passing: the port maps after [propagate_ports_for] *)

Lemma propagate_ports_for_mode_lookup {V} mode (parent child : gmap nat V) k :
  Portpassing.propagate_ports_for_mode mode parent child !! k
  = match mode with
    | Portpassing.port_passing_default => parent !! k
    | Portpassing.port_passing_intersection =>
        if decide (is_Some (child !! k)) then parent !! k else None
    | Portpassing.port_passing_difference =>
        if decide (child !! k = None) then parent !! k else None
    end.
Proof.
  destruct mode; cbn; [done|..].
  - unfold Portpassing.intersect_with. destruct (parent !! k) as [v|] eqn:Hk.
    + case_decide as Hc.
      * apply map_lookup_filter_Some. done.
      * apply map_lookup_filter_None. right. intros v' Hv'. cbn. by simplify_eq.
    + case_decide; apply map_lookup_filter_None; by left.
  - unfold Portpassing.difference_with. destruct (parent !! k) as [v|] eqn:Hk.
    + case_decide as Hc.
      * apply map_lookup_filter_Some. done.
      * apply map_lookup_filter_None. right. intros v' Hv'. cbn. by simplify_eq.
    + case_decide; apply map_lookup_filter_None; by left.
Qed.

(** [fork_out_ports_for] on ports of the store: the entry of an out-set
    the child holds no port for is left alone; the entry of an out-set
    both hold a port for is erased from both maps or replaced in both. *)
Lemma fork_out_ports_for_lookup h parent child :
  Portpassing.outset_store_ok h → Portpassing.ports_in_store h parent →
  ∃ s, Portpassing.fork_out_ports_for h parent child = Some s
    ∧ Portpassing.store_extends h (Portpassing.outset_store s)
    ∧ ∀ k,
        match parent !! k with
        | None =>
            Portpassing.parent_ports s !! k = None
            ∧ Portpassing.child_ports s !! k = child !! k
        | Some p =>
            match child !! k with
            | None =>
                Portpassing.parent_ports s !! k = Some p
                ∧ Portpassing.child_ports s !! k = None
            | Some _ =>
                (Portpassing.parent_ports s !! k = None
                 ∧ Portpassing.child_ports s !! k = None)
                ∨ (∃ first second,
                     Portpassing.parent_ports s !! k = Some first
                     ∧ Portpassing.child_ports s !! k = Some second
                     ∧ first ≠ second)
            end
        end.
Proof.
  intros Hok Hports.
  set (s0 := {| Portpassing.outset_store := h; Portpassing.parent_ports := parent;
                Portpassing.child_ports := child; Portpassing.to_erase := [] |}).
  destruct (fork_out_items_spec (map_to_list parent) s0)
    as (s' & Hrun & Hext & Hother & Herased & _ & Hat).
  { apply NoDup_fst_map_to_list. }
  { done. }
  { apply map_Forall_to_list in Hports.
    eapply Forall_impl; [exact Hports|]. by intros [k p]. }
  unfold Portpassing.fork_out_ports_for, Portpassing.fork_out_ports_for_in_order.
  fold s0. rewrite Hrun. eexists. split; [done|]. split; [done|].
  intros k. cbn [Portpassing.erase_all Portpassing.parent_ports Portpassing.child_ports].
  rewrite !lookup_erase.
  destruct (parent !! k) as [p|] eqn:Hk.
  - assert ((k, p) ∈ map_to_list parent) as (pre & post & Hsplit)%list_elem_of_split
      by (by apply elem_of_map_to_list).
    pose proof Hrun as Hrun'. rewrite Hsplit, fork_out_items_app in Hrun'.
    destruct (Portpassing.fork_out_items pre s0) as [s_k|] eqn:Hpre; [|done].
    destruct (Hat pre k p post s_k Hsplit Hpre) as (_ & Hext_k & Hnone & Hsome).
    cbn [Portpassing.child_ports Portpassing.parent_ports Portpassing.to_erase s0]
      in Hnone, Hsome.
    destruct (child !! k) as [c|] eqn:Hc.
    + destruct (fork2_spec (Portpassing.outset_store s_k) p)
        as (h_k & forked & Hfork & Hext2 & _ & Hfresh).
      { by apply Hext_k. }
      { apply elem_of_dom. apply Hext_k. apply elem_of_dom. by apply (Hports k). }
      specialize (Hsome ltac:(done) h_k forked Hfork).
      destruct forked as [[first second]|].
      * destruct Hsome as (Hp' & Hc' & Hin).
        destruct (decide (k ∈ Portpassing.to_erase s')) as [Hk'|_].
        { by apply Hin, elem_of_nil in Hk'. }
        right. exists first, second. split_and!; [done..|].
        by destruct (Hfresh first second eq_refl) as (? & _).
      * left. destruct (decide (k ∈ Portpassing.to_erase s')); done.
    + destruct (Hnone eq_refl) as (Hp' & Hc' & Hin). rewrite Hk in Hp'.
      destruct (decide (k ∈ Portpassing.to_erase s')) as [Hk'|_]; [|done].
      by apply Hin, elem_of_nil in Hk'.
  - assert (Hnot : k ∉ (map_to_list parent).*1).
    { intros ([k' p] & -> & Hin%elem_of_map_to_list)%list_elem_of_fmap. cbn in Hk.
      by rewrite Hin in Hk. }
    destruct (Hother k Hnot) as [Hp' Hc']. cbn in Hp', Hc'. rewrite Hk in Hp'.
    destruct (decide (k ∈ Portpassing.to_erase s')) as [Hk'|_]; [|done].
    destruct (Herased k Hk') as [?%elem_of_nil|?]; done.
Qed.

(** [increment] on a port: two fresh nodes below the port. *)
Lemma increment_some_spec h p :
  ∃ b1 b2,
    Portpassing.increment h (Some p)
    = (<[b2 := {| Portpassing.parent := Some p; Portpassing.nb_removed_children := 0 |}]>
         (<[b1 := {| Portpassing.parent := Some p; Portpassing.nb_removed_children := 0 |}]> h),
       (Some b1, Some b2))
    ∧ b1 ≠ b2 ∧ (b1 ∉ dom h) ∧ (b2 ∉ dom h).
Proof.
  unfold Portpassing.increment. cbv zeta.
  set (b1 := fresh (dom h)).
  set (b2 := fresh (dom (<[b1 := Portpassing.incounter_node_new]> h))).
  assert (Hb1 : b1 ∉ dom h) by apply is_fresh.
  assert (Hb2 : b2 ∉ dom (<[b1 := Portpassing.incounter_node_new]> h)) by apply is_fresh.
  rewrite dom_insert_L in Hb2.
  assert (Hb12 : b1 ≠ b2) by set_solver.
  exists b1, b2. split_and!; [|done..|set_solver].
  f_equal. apply map_eq. intros x.
  destruct (decide (x = b2)) as [->|?]; [by rewrite !lookup_insert_eq|].
  rewrite !(lookup_insert_ne _ b2 x) by done.
  destruct (decide (x = b1)) as [->|?]; [by rewrite !lookup_insert_eq|].
  repeat (rewrite lookup_insert_ne by done). done.
Qed.

(** The loop of [fork_in_ports_for]. *)
Lemma fork_in_items_spec items : ∀ h parent child,
  NoDup items.*1 →
  ∃ h' parent' child',
    foldl (λ s item, Portpassing.fork_in_item item s) (h, parent, child) items
    = (h', parent', child')
    ∧ h ⊆ h'
    ∧ (∀ k, k ∉ items.*1 → parent' !! k = parent !! k ∧ child' !! k = child !! k)
    ∧ ∀ k port, (k, port) ∈ items →
        match child !! k with
        | None => parent' !! k = parent !! k ∧ child' !! k = None
        | Some _ =>
            match port with
            | None =>
                ∃ b, parent' !! k = Some (Some b) ∧ child' !! k = Some None
                     ∧ (b ∉ dom h)
                     ∧ h' !! b = Some Portpassing.incounter_node_new
            | Some p =>
                ∃ b1 b2,
                  parent' !! k = Some (Some b1) ∧ child' !! k = Some (Some b2)
                  ∧ b1 ≠ b2 ∧ (b1 ∉ dom h) ∧ (b2 ∉ dom h)
                  ∧ h' !! b1 = Some {| Portpassing.parent := Some p;
                                       Portpassing.nb_removed_children := 0 |}
                  ∧ h' !! b2 = Some {| Portpassing.parent := Some p;
                                       Portpassing.nb_removed_children := 0 |}
            end
        end.
Proof.
  induction items as [|[k0 port0] items IH]; intros h parent child Hnodup.
  { exists h, parent, child. split_and!; [done..|]. by intros k port ?%elem_of_nil. }
  rewrite fmap_cons in Hnodup. apply NoDup_cons in Hnodup as [Hfirst Hnodup].
  cbn [fst] in Hfirst.
  cbn [foldl].
  (* the first item *)
  assert (∃ h1 parent1 child1,
            Portpassing.fork_in_item (k0, port0) (h, parent, child) = (h1, parent1, child1)
            ∧ h ⊆ h1
            ∧ (∀ k, k ≠ k0 → parent1 !! k = parent !! k ∧ child1 !! k = child !! k)
            ∧ match child !! k0 with
              | None => parent1 !! k0 = parent !! k0 ∧ child1 !! k0 = None
              | Some _ =>
                  match port0 with
                  | None =>
                      ∃ b, parent1 !! k0 = Some (Some b) ∧ child1 !! k0 = Some None
                           ∧ (b ∉ dom h) ∧ h1 !! b = Some Portpassing.incounter_node_new
                  | Some p =>
                      ∃ b1 b2,
                        parent1 !! k0 = Some (Some b1) ∧ child1 !! k0 = Some (Some b2)
                        ∧ b1 ≠ b2 ∧ (b1 ∉ dom h) ∧ (b2 ∉ dom h)
                        ∧ h1 !! b1 = Some {| Portpassing.parent := Some p;
                                             Portpassing.nb_removed_children := 0 |}
                        ∧ h1 !! b2 = Some {| Portpassing.parent := Some p;
                                             Portpassing.nb_removed_children := 0 |}
                  end
              end) as (h1 & parent1 & child1 & Hitem & Hsub1 & Hother1 & Hat1).
  { unfold Portpassing.fork_in_item. cbn [fst snd].
    destruct (child !! k0) as [c|] eqn:Hc; [|by eexists _, _, _].
    destruct port0 as [p|].
    - destruct (increment_some_spec h p) as (b1 & b2 & -> & Hne & Hb1 & Hb2).
      eexists _, _, _. split; [done|]. split_and!.
      + apply insert_subseteq_r; [by apply not_elem_of_dom|].
        apply insert_subseteq. by apply not_elem_of_dom.
      + intros k Hk. by rewrite !lookup_insert_ne.
      + exists b1, b2. rewrite !lookup_insert_eq.
        rewrite lookup_insert_ne by done. rewrite lookup_insert_eq. done.
    - cbn [Portpassing.increment].
      assert (Hb : fresh (dom h) ∉ dom h) by apply is_fresh.
      eexists _, _, _. split; [done|]. split_and!.
      + apply insert_subseteq. by apply not_elem_of_dom.
      + intros k Hk. by rewrite !lookup_insert_ne.
      + eexists. rewrite !lookup_insert_eq. done. }
  rewrite Hitem.
  destruct (IH h1 parent1 child1 Hnodup) as (h' & parent' & child' & Hrun & Hsub & Hother & Hat).
  exists h', parent', child'. split; [done|]. split_and!.
  - by etrans.
  - intros k [Hk0 Hk]%not_elem_of_cons.
    destruct (Hother k Hk) as [-> ->]. by apply Hother1.
  - intros k port [[= -> ->]|Hin]%elem_of_cons.
    + destruct (Hother k0 Hfirst) as [-> ->].
      destruct (child !! k0); [|done].
      destruct port0 as [p|].
      * destruct Hat1 as (b1 & b2 & ? & ? & ? & ? & ? & Hl1 & Hl2).
        exists b1, b2. split_and!; [done..| |].
        -- by eapply lookup_weaken.
        -- by eapply lookup_weaken.
      * destruct Hat1 as (b & ? & ? & ? & Hl). exists b. split_and!; [done..|].
        by eapply lookup_weaken.
    + assert (Hk : k ≠ k0).
      { intros ->. apply Hfirst. apply list_elem_of_fmap. by exists (k0, port). }
      specialize (Hat k port Hin). destruct (Hother1 k Hk) as [Hp1 Hc1].
      rewrite Hc1 in Hat. destruct (child !! k); [|by rewrite <- Hp1].
      assert (Hdom : dom h ⊆ dom h1) by (by apply subseteq_dom).
      destruct port as [p|].
      * destruct Hat as (b1 & b2 & ? & ? & ? & ? & ? & ? & ?).
        exists b1, b2. split_and!; [done..|set_solver|set_solver|done|done].
      * destruct Hat as (b & ? & ? & ? & ?). exists b. split_and!; [done..|set_solver|done].
Qed.

Lemma propagate_ports_for_mode_dom {V} mode (parent child : gmap nat V) :
  dom (Portpassing.propagate_ports_for_mode mode parent child)
  = Portpassing.passed_keys mode (dom parent) (dom child).
Proof.
  apply set_eq. intros k. rewrite elem_of_dom, propagate_ports_for_mode_lookup.
  destruct mode; cbn.
  - by rewrite elem_of_dom.
  - rewrite elem_of_intersection, !elem_of_dom. case_decide; naive_solver.
  - rewrite elem_of_difference, !elem_of_dom. case_decide as Hc.
    + rewrite Hc. split; [intros ?; split; [done|by intros [? ?]]|by intros [? _]].
    + split; [by intros [? ?]|]. intros [_ Hn]. destruct (child !! k); [|done].
      exfalso. by apply Hn.
Qed.

Section PropagatePortsFacts.

Variables (hin : gmap Portpassing.addr Portpassing.incounter_node)
          (hout : gmap Portpassing.addr Portpassing.outset_node)
          (parent child : Portpassing.node_ports).

Hypothesis Hok : Portpassing.outset_store_ok hout.
Hypothesis Hports : Portpassing.ports_in_store hout (Portpassing.outports parent).

(** What [propagate_ports_for] computes, entry by entry. *)
Lemma propagate_ports_for_lookup :
  ∃ r, Portpassing.propagate_ports_for hin hout parent child = Some r
    ∧ hin ⊆ Portpassing.incounter_store_after r
    ∧ Portpassing.inport_mode (Portpassing.parent_after r) = Portpassing.inport_mode parent
    ∧ Portpassing.outport_mode (Portpassing.parent_after r) = Portpassing.outport_mode parent
    ∧ Portpassing.inport_mode (Portpassing.child_after r) = Portpassing.inport_mode child
    ∧ Portpassing.outport_mode (Portpassing.child_after r) = Portpassing.outport_mode child
    ∧ (∀ k,
         match Portpassing.inports parent !! k with
         | None =>
             Portpassing.inports (Portpassing.parent_after r) !! k = None
             ∧ Portpassing.inports (Portpassing.child_after r) !! k = None
         | Some port =>
             if decide (k ∈ Portpassing.passed_keys (Portpassing.inport_mode child)
                              (dom (Portpassing.inports parent))
                              (dom (Portpassing.inports child)))
             then
               match port with
               | None =>
                   ∃ b, Portpassing.inports (Portpassing.parent_after r) !! k = Some (Some b)
                     ∧ Portpassing.inports (Portpassing.child_after r) !! k = Some None
                     ∧ (b ∉ dom hin)
                     ∧ Portpassing.incounter_store_after r !! b
                       = Some Portpassing.incounter_node_new
               | Some p =>
                   ∃ b1 b2,
                     Portpassing.inports (Portpassing.parent_after r) !! k = Some (Some b1)
                     ∧ Portpassing.inports (Portpassing.child_after r) !! k = Some (Some b2)
                     ∧ b1 ≠ b2 ∧ (b1 ∉ dom hin) ∧ (b2 ∉ dom hin)
                     ∧ Portpassing.incounter_store_after r !! b1
                       = Some {| Portpassing.parent := Some p;
                                 Portpassing.nb_removed_children := 0 |}
                     ∧ Portpassing.incounter_store_after r !! b2
                       = Some {| Portpassing.parent := Some p;
                                 Portpassing.nb_removed_children := 0 |}
               end
             else
               Portpassing.inports (Portpassing.parent_after r) !! k = Some port
               ∧ Portpassing.inports (Portpassing.child_after r) !! k = None
         end)
    ∧ (∀ k,
         match Portpassing.outports parent !! k with
         | None =>
             Portpassing.outports (Portpassing.parent_after r) !! k = None
             ∧ Portpassing.outports (Portpassing.child_after r) !! k = None
         | Some p =>
             if decide (k ∈ Portpassing.passed_keys (Portpassing.outport_mode child)
                              (dom (Portpassing.outports parent))
                              (dom (Portpassing.outports child)))
             then
               (Portpassing.outports (Portpassing.parent_after r) !! k = None
                ∧ Portpassing.outports (Portpassing.child_after r) !! k = None)
               ∨ (∃ first second,
                    Portpassing.outports (Portpassing.parent_after r) !! k = Some first
                    ∧ Portpassing.outports (Portpassing.child_after r) !! k = Some second
                    ∧ first ≠ second)
             else
               Portpassing.outports (Portpassing.parent_after r) !! k = Some p
               ∧ Portpassing.outports (Portpassing.child_after r) !! k = None
         end).
Proof.
  unfold Portpassing.propagate_ports_for, Portpassing.propagate_ports_for_in_order.
  cbv zeta.
  set (child_in := Portpassing.propagate_ports_for_mode (Portpassing.inport_mode child)
                     (Portpassing.inports parent) (Portpassing.inports child)).
  set (child_out := Portpassing.propagate_ports_for_mode (Portpassing.outport_mode child)
                      (Portpassing.outports parent) (Portpassing.outports child)).
  unfold Portpassing.fork_in_ports_for.
  destruct (fork_in_items_spec (map_to_list (Portpassing.inports parent)) hin
              (Portpassing.inports parent) child_in)
    as (hin' & pin' & cin' & -> & Hsub & Hother & Hat).
  { apply NoDup_fst_map_to_list. }
  destruct (fork_out_ports_for_lookup hout (Portpassing.outports parent) child_out Hok Hports)
    as (s & Hrun & _ & Hout).
  unfold Portpassing.fork_out_ports_for in Hrun. rewrite Hrun.
  eexists. split; [done|]. cbn. split_and!; [done..| |].
  - intros k.
    assert (Hin : child_in !! k = None ↔
              k ∉ Portpassing.passed_keys (Portpassing.inport_mode child)
                    (dom (Portpassing.inports parent)) (dom (Portpassing.inports child))).
    { rewrite <- propagate_ports_for_mode_dom. by rewrite not_elem_of_dom. }
    destruct (Portpassing.inports parent !! k) as [port|] eqn:Hk.
    + specialize (Hat k port ltac:(by apply elem_of_map_to_list)).
      case_decide as Hpass.
      * destruct (child_in !! k) eqn:Hc; [done|]. exfalso. by apply Hin.
      * apply Hin in Hpass. rewrite Hpass in Hat. by rewrite <- Hk.
    + assert (Hnot : k ∉ (map_to_list (Portpassing.inports parent)).*1).
      { intros ([k' p] & -> & Hin'%elem_of_map_to_list)%list_elem_of_fmap. cbn in Hk.
        by rewrite Hin' in Hk. }
      destruct (Hother k Hnot) as [-> ->]. split; [done|].
      unfold child_in. rewrite propagate_ports_for_mode_lookup.
      destruct (Portpassing.inport_mode child); rewrite ?Hk; repeat case_decide; done.
  - intros k. specialize (Hout k).
    assert (Hin : child_out !! k = None ↔
              k ∉ Portpassing.passed_keys (Portpassing.outport_mode child)
                    (dom (Portpassing.outports parent)) (dom (Portpassing.outports child))).
    { rewrite <- propagate_ports_for_mode_dom. by rewrite not_elem_of_dom. }
    destruct (Portpassing.outports parent !! k) as [p|] eqn:Hk.
    + case_decide as Hpass.
      * destruct (child_out !! k) eqn:Hc; [|exfalso; by apply Hin].
        destruct Hout as [?|(first & second & ? & ? & ?)]; [by left|right; eauto].
      * apply Hin in Hpass. by rewrite Hpass in Hout.
    + destruct Hout as [-> ->]. split; [done|].
      unfold child_out. rewrite propagate_ports_for_mode_lookup.
      destruct (Portpassing.outport_mode child); rewrite ?Hk; repeat case_decide; done.
Qed.

End PropagatePortsFacts.

(** X9.  [propagate_ports_for(parent, child)] on the in-ports, the
    out-ports of the parent being nodes of a well-formed out-set store:
    the call returns and no node of the in-counter store is changed; for
    every in-counter the child is to receive a port for, [increment]
    forks the port of the parent: the parent holds the first new node and
    the child the second, both fresh, distinct, children of the old port
    and with no departed child (a null port gives the parent a fresh root
    and the child a null port); the other in-ports of the parent are left
    as they are, and the child holds no port for them. *)
Theorem propagate_ports_forks_inports hin hout parent child :
  Portpassing.outset_store_ok hout →
  Portpassing.ports_in_store hout (Portpassing.outports parent) →
  ∃ r, Portpassing.propagate_ports_for hin hout parent child = Some r
    ∧ hin ⊆ Portpassing.incounter_store_after r
    ∧ ∀ k port, Portpassing.inports parent !! k = Some port →
        if decide (k ∈ Portpassing.passed_keys (Portpassing.inport_mode child)
                         (dom (Portpassing.inports parent))
                         (dom (Portpassing.inports child)))
        then
          match port with
          | None =>
              ∃ b, Portpassing.inports (Portpassing.parent_after r) !! k = Some (Some b)
                ∧ Portpassing.inports (Portpassing.child_after r) !! k = Some None
                ∧ (b ∉ dom hin)
                ∧ Portpassing.incounter_store_after r !! b
                  = Some Portpassing.incounter_node_new
          | Some p =>
              ∃ b1 b2,
                Portpassing.inports (Portpassing.parent_after r) !! k = Some (Some b1)
                ∧ Portpassing.inports (Portpassing.child_after r) !! k = Some (Some b2)
                ∧ b1 ≠ b2 ∧ (b1 ∉ dom hin) ∧ (b2 ∉ dom hin)
                ∧ Portpassing.incounter_store_after r !! b1
                  = Some {| Portpassing.parent := Some p;
                            Portpassing.nb_removed_children := 0 |}
                ∧ Portpassing.incounter_store_after r !! b2
                  = Some {| Portpassing.parent := Some p;
                            Portpassing.nb_removed_children := 0 |}
          end
        else
          Portpassing.inports (Portpassing.parent_after r) !! k = Some port
          ∧ Portpassing.inports (Portpassing.child_after r) !! k = None.
Proof.
  intros Hok Hports.
  destruct (propagate_ports_for_lookup hin hout parent child Hok Hports)
    as (r & Hrun & Hsub & _ & _ & _ & _ & Hin & _).
  exists r. split; [done|]. split; [done|].
  intros k port Hk. specialize (Hin k). by rewrite Hk in Hin.
Qed.

(** X10.  [propagate_ports_for(parent, child)], the out-ports of the
    parent being nodes of a well-formed out-set store: the parent keeps a
    port for every in-counter it had one for; the child holds in-ports
    exactly for the in-counters selected by its mode (all those of the
    parent, those it had itself among them, or those it had not); the
    parent loses out-ports only for out-sets selected by the mode of the
    child, and the child holds out-ports exactly for the selected
    out-sets the parent still holds one for.  The ports the child held
    before are dropped, and the modes are left as they are. *)
Theorem propagate_ports_for_domains hin hout parent child :
  Portpassing.outset_store_ok hout →
  Portpassing.ports_in_store hout (Portpassing.outports parent) →
  ∃ r, Portpassing.propagate_ports_for hin hout parent child = Some r
    ∧ dom (Portpassing.inports (Portpassing.parent_after r))
      = dom (Portpassing.inports parent)
    ∧ dom (Portpassing.inports (Portpassing.child_after r))
      = Portpassing.passed_keys (Portpassing.inport_mode child)
          (dom (Portpassing.inports parent)) (dom (Portpassing.inports child))
    ∧ dom (Portpassing.outports parent)
        ∖ Portpassing.passed_keys (Portpassing.outport_mode child)
            (dom (Portpassing.outports parent)) (dom (Portpassing.outports child))
      ⊆ dom (Portpassing.outports (Portpassing.parent_after r))
    ∧ dom (Portpassing.outports (Portpassing.parent_after r))
      ⊆ dom (Portpassing.outports parent)
    ∧ dom (Portpassing.outports (Portpassing.child_after r))
      = Portpassing.passed_keys (Portpassing.outport_mode child)
          (dom (Portpassing.outports parent)) (dom (Portpassing.outports child))
        ∩ dom (Portpassing.outports (Portpassing.parent_after r))
    ∧ Portpassing.inport_mode (Portpassing.child_after r) = Portpassing.inport_mode child
    ∧ Portpassing.outport_mode (Portpassing.child_after r) = Portpassing.outport_mode child.
Proof.
  intros Hok Hports.
  destruct (propagate_ports_for_lookup hin hout parent child Hok Hports)
    as (r & Hrun & _ & _ & _ & Hmi & Hmo & Hin & Hout).
  exists r. split; [done|].
  assert (Hsub_in : Portpassing.passed_keys (Portpassing.inport_mode child)
                      (dom (Portpassing.inports parent)) (dom (Portpassing.inports child))
                    ⊆ dom (Portpassing.inports parent)).
  { destruct (Portpassing.inport_mode child); cbn; set_solver. }
  assert (Hsub_out : Portpassing.passed_keys (Portpassing.outport_mode child)
                      (dom (Portpassing.outports parent)) (dom (Portpassing.outports child))
                    ⊆ dom (Portpassing.outports parent)).
  { destruct (Portpassing.outport_mode child); cbn; set_solver. }
  split_and!; [| | | | |done|done].
  - apply set_eq. intros k. rewrite !elem_of_dom. specialize (Hin k).
    destruct (Portpassing.inports parent !! k) as [[p|]|].
    + case_decide.
      * destruct Hin as (b1 & b2 & -> & _). split; by eexists.
      * destruct Hin as [-> _]. done.
    + case_decide.
      * destruct Hin as (b & -> & _). split; by eexists.
      * destruct Hin as [-> _]. done.
    + destruct Hin as [-> _]. done.
  - apply set_eq. intros k. specialize (Hin k).
    destruct (Portpassing.inports parent !! k) as [[p|]|] eqn:Hk.
    + case_decide.
      * destruct Hin as (b1 & b2 & _ & Hc & _). split; [done|]. intros _.
        apply elem_of_dom. by eexists.
      * destruct Hin as [_ Hc]. split; [|done]. intros [? Hc']%elem_of_dom.
        by rewrite Hc in Hc'.
    + case_decide.
      * destruct Hin as (b & _ & Hc & _). split; [done|]. intros _.
        apply elem_of_dom. by eexists.
      * destruct Hin as [_ Hc]. split; [|done]. intros [? Hc']%elem_of_dom.
        by rewrite Hc in Hc'.
    + destruct Hin as [_ Hc]. split.
      * intros [? Hc']%elem_of_dom. by rewrite Hc in Hc'.
      * intros Hpass%Hsub_in. apply not_elem_of_dom in Hk. done.
  - intros k [Hk Hnot]%elem_of_difference. specialize (Hout k).
    apply elem_of_dom in Hk as [p Hk]. rewrite Hk in Hout.
    rewrite decide_False in Hout by done. destruct Hout as [Hp _].
    apply elem_of_dom. by eexists.
  - intros k [q Hq]%elem_of_dom. specialize (Hout k).
    destruct (Portpassing.outports parent !! k) as [p|] eqn:Hk.
    + apply elem_of_dom. by eexists.
    + destruct Hout as [Hp _]. by rewrite Hp in Hq.
  - apply set_eq. intros k. rewrite elem_of_intersection, !elem_of_dom.
    specialize (Hout k).
    destruct (Portpassing.outports parent !! k) as [p|] eqn:Hk.
    + case_decide as Hpass.
      * destruct Hout as [[Hp Hc]|(first & second & Hp & Hc & _)]; rewrite Hp, Hc.
        -- split; [by intros [? ?]|by intros [_ [? ?]]].
        -- split; [intros _; split; [done|by eexists]|intros _; by eexists].
      * destruct Hout as [Hp Hc]. rewrite Hc. split; [by intros [? ?]|by intros [? _]].
    + destruct Hout as [Hp Hc]. rewrite Hp, Hc.
      split; [by intros [? ?]|by intros [_ [? ?]]].
Qed.

(** A parent with a port and a null port, and a child in intersection
    mode that held a port for the first in-counter. *)
Lemma propagate_ports_forks_inports_witness :
  let hin : gmap Portpassing.addr Portpassing.incounter_node :=
    {[ 0%nat := Portpassing.incounter_node_new ]} in
  let hout : gmap Portpassing.addr Portpassing.outset_node :=
    {[ 0%nat := Portpassing.outset_node_new ]} in
  let parent :=
    {| Portpassing.inports := {[ 5%nat := Some 0%nat; 6%nat := None ]};
       Portpassing.outports := {[ 7%nat := 0%nat ]};
       Portpassing.inport_mode := Portpassing.port_passing_default;
       Portpassing.outport_mode := Portpassing.port_passing_default |} in
  let child :=
    {| Portpassing.inports := {[ 5%nat := None ]};
       Portpassing.outports := ∅;
       Portpassing.inport_mode := Portpassing.port_passing_intersection;
       Portpassing.outport_mode := Portpassing.port_passing_difference |} in
  ∃ r, Portpassing.propagate_ports_for hin hout parent child = Some r
    ∧ hin ⊆ Portpassing.incounter_store_after r
    ∧ ∀ k port, Portpassing.inports parent !! k = Some port →
        if decide (k ∈ Portpassing.passed_keys (Portpassing.inport_mode child)
                         (dom (Portpassing.inports parent))
                         (dom (Portpassing.inports child)))
        then
          match port with
          | None =>
              ∃ b, Portpassing.inports (Portpassing.parent_after r) !! k = Some (Some b)
                ∧ Portpassing.inports (Portpassing.child_after r) !! k = Some None
                ∧ (b ∉ dom hin)
                ∧ Portpassing.incounter_store_after r !! b
                  = Some Portpassing.incounter_node_new
          | Some p =>
              ∃ b1 b2,
                Portpassing.inports (Portpassing.parent_after r) !! k = Some (Some b1)
                ∧ Portpassing.inports (Portpassing.child_after r) !! k = Some (Some b2)
                ∧ b1 ≠ b2 ∧ (b1 ∉ dom hin) ∧ (b2 ∉ dom hin)
                ∧ Portpassing.incounter_store_after r !! b1
                  = Some {| Portpassing.parent := Some p;
                            Portpassing.nb_removed_children := 0 |}
                ∧ Portpassing.incounter_store_after r !! b2
                  = Some {| Portpassing.parent := Some p;
                            Portpassing.nb_removed_children := 0 |}
          end
        else
          Portpassing.inports (Portpassing.parent_after r) !! k = Some port
          ∧ Portpassing.inports (Portpassing.child_after r) !! k = None.
Proof.
  intros hin hout parent child.
  assert (H1 : Portpassing.outset_store_ok hout).
  { unfold Portpassing.outset_store_ok. refine (bool_decide_unpack _ _). vm_compute. exact I. }
  assert (H2 : Portpassing.ports_in_store hout (Portpassing.outports parent)).
  { unfold Portpassing.ports_in_store. refine (bool_decide_unpack _ _). vm_compute. exact I. }
  exact (propagate_ports_forks_inports hin hout parent child H1 H2).
Defined.

(** The same parent and child. *)
Lemma propagate_ports_for_domains_witness :
  let hin : gmap Portpassing.addr Portpassing.incounter_node :=
    {[ 0%nat := Portpassing.incounter_node_new ]} in
  let hout : gmap Portpassing.addr Portpassing.outset_node :=
    {[ 0%nat := Portpassing.outset_node_new ]} in
  let parent :=
    {| Portpassing.inports := {[ 5%nat := Some 0%nat; 6%nat := None ]};
       Portpassing.outports := {[ 7%nat := 0%nat ]};
       Portpassing.inport_mode := Portpassing.port_passing_default;
       Portpassing.outport_mode := Portpassing.port_passing_default |} in
  let child :=
    {| Portpassing.inports := {[ 5%nat := None ]};
       Portpassing.outports := ∅;
       Portpassing.inport_mode := Portpassing.port_passing_intersection;
       Portpassing.outport_mode := Portpassing.port_passing_difference |} in
  ∃ r, Portpassing.propagate_ports_for hin hout parent child = Some r
    ∧ dom (Portpassing.inports (Portpassing.parent_after r))
      = dom (Portpassing.inports parent)
    ∧ dom (Portpassing.inports (Portpassing.child_after r))
      = Portpassing.passed_keys (Portpassing.inport_mode child)
          (dom (Portpassing.inports parent)) (dom (Portpassing.inports child))
    ∧ dom (Portpassing.outports parent)
        ∖ Portpassing.passed_keys (Portpassing.outport_mode child)
            (dom (Portpassing.outports parent)) (dom (Portpassing.outports child))
      ⊆ dom (Portpassing.outports (Portpassing.parent_after r))
    ∧ dom (Portpassing.outports (Portpassing.parent_after r))
      ⊆ dom (Portpassing.outports parent)
    ∧ dom (Portpassing.outports (Portpassing.child_after r))
      = Portpassing.passed_keys (Portpassing.outport_mode child)
          (dom (Portpassing.outports parent)) (dom (Portpassing.outports child))
        ∩ dom (Portpassing.outports (Portpassing.parent_after r))
    ∧ Portpassing.inport_mode (Portpassing.child_after r) = Portpassing.inport_mode child
    ∧ Portpassing.outport_mode (Portpassing.child_after r) = Portpassing.outport_mode child.
Proof.
  intros hin hout parent child.
  assert (H1 : Portpassing.outset_store_ok hout).
  { unfold Portpassing.outset_store_ok. refine (bool_decide_unpack _ _). vm_compute. exact I. }
  assert (H2 : Portpassing.ports_in_store hout (Portpassing.outports parent)).
  { unfold Portpassing.ports_in_store. refine (bool_decide_unpack _ _). vm_compute. exact I. }
  exact (propagate_ports_for_domains hin hout parent child H1 H2).
Defined.

(** The same call: the port for in-counter 5 is forked, the null port for
    in-counter 6 is not passed; the out-port is passed and forked. *)
Example propagate_ports_for_run :
  (r ← Portpassing.propagate_ports_for
         {[ 0%nat := Portpassing.incounter_node_new ]}
         {[ 0%nat := Portpassing.outset_node_new ]}
         {| Portpassing.inports := {[ 5%nat := Some 0%nat; 6%nat := None ]};
            Portpassing.outports := {[ 7%nat := 0%nat ]};
            Portpassing.inport_mode := Portpassing.port_passing_default;
            Portpassing.outport_mode := Portpassing.port_passing_default |}
         {| Portpassing.inports := {[ 5%nat := None ]};
            Portpassing.outports := ∅;
            Portpassing.inport_mode := Portpassing.port_passing_intersection;
            Portpassing.outport_mode := Portpassing.port_passing_difference |};
   Some (Portpassing.inports (Portpassing.parent_after r),
         Portpassing.inports (Portpassing.child_after r),
         Portpassing.outports (Portpassing.parent_after r),
         Portpassing.outports (Portpassing.child_after r)))
  = Some ({[ 5%nat := Some 1%nat; 6%nat := None ]}, {[ 5%nat := Some 2%nat ]},
          {[ 7%nat := 2%nat ]}, {[ 7%nat := 1%nat ]}).
Proof. vm_compute. reflexivity. Qed.

(** ** Port passing: insertion into the out-set *)

Lemma nonnull_slot_dec_spec h a nd i c :
  h !! a = Some nd → Portpassing.children nd !! i = Some c →
  Portpassing.nonnull_slot h a i ↔ is_nullptr c = false.
Proof.
  intros Ha Hc. split.
  - intros (nd' & c' & Ha' & Hc' & Hnull). by simplify_eq.
  - intros Hnull. by exists nd, c.
Qed.

(** X12.  [insert(outport, target, inport)] on a well-formed out-set
    store that holds the root and the port: the call returns; it succeeds
    exactly when the out-set is not finished and slot 0 of the port holds
    the null pointer.  On success the node returned is fresh, carries
    [target] and [inport], has two null slots, and slot 0 of the port
    points to it; the port is used up: in every well-formed store that
    extends the new one (no node lost, no non-null slot nulled) an
    insertion at the same port fails.  On failure the store is left as
    it was, the node made for the insertion being deleted. *)
Theorem portpassing_insert_uses_port h o outport target inport :
  Portpassing.outset_store_ok h →
  is_Some (h !! Portpassing.root o) → is_Some (h !! outport) →
  ∃ h' st next,
    Portpassing.insert h o outport target inport = Some (h', (st, next))
    ∧ Portpassing.store_extends h h'
    ∧ (st = insert_success
       ↔ Portpassing.is_finished h o = Some false
         ∧ ¬ Portpassing.nonnull_slot h outport 0)
    ∧ (st = insert_success →
       ∃ a, next = Some a ∧ (a ∉ dom h)
         ∧ h' !! a = Some {| Portpassing.target := target; Portpassing.port := inport;
                             Portpassing.children := [(None, 0); (None, 0)] |}
         ∧ (∃ nd, h' !! outport = Some nd
                  ∧ Portpassing.children nd !! 0%nat = Some (Some a, 0))
         ∧ ∀ h2 t i, Portpassing.store_extends h' h2 → Portpassing.outset_store_ok h2 →
             ∃ h3, Portpassing.insert h2 o outport t i = Some (h3, (insert_fail, None)))
    ∧ (st = insert_fail → h' = h ∧ next = None).
Proof.
  intros Hok [rt Hrt] [nd Hnd].
  pose proof (Hok _ _ Hrt) as Hlen_rt. pose proof (Hok _ _ Hnd) as Hlen_nd.
  cbn beta in Hlen_rt, Hlen_nd.
  destruct (Portpassing.children rt) as [|r0 [|r1 [|]]] eqn:Hrcs; try done.
  destruct (Portpassing.children nd) as [|c0 [|c1 [|]]] eqn:Hcs; try done.
  assert (Hfin : Portpassing.is_finished h o
                 = Some (bool_decide (tagged_tag_of r0 = Portpassing.frozen_tag))).
  { unfold Portpassing.is_finished. by rewrite Hrt, Hrcs. }
  assert (Hslot : Portpassing.nonnull_slot h outport 0 ↔ is_nullptr c0 = false).
  { apply (nonnull_slot_dec_spec h outport nd 0 c0); [done|by rewrite Hcs]. }
  unfold Portpassing.insert. rewrite Hfin.
  case_bool_decide as Hfrozen.
  { eexists _, _, _. split; [done|]. split_and!; [apply store_extends_refl| |done|done].
    split; [done|]. by intros [[=] _]. }
  set (a := fresh (dom h)).
  assert (Ha : a ∉ dom h) by apply is_fresh.
  assert (Hao : outport ≠ a) by (intros <-; by apply Ha, elem_of_dom).
  unfold Portpassing.cas_child_from_null.
  rewrite lookup_insert_ne by done. rewrite Hnd, Hcs. cbn [lookup list_lookup].
  destruct (is_nullptr c0) eqn:Hnull.
  - (* the CAS wins *)
    eexists _, _, _. split; [done|]. cbn [insert list_insert].
    set (new := {| Portpassing.target := target; Portpassing.port := inport;
                   Portpassing.children := Portpassing.children Portpassing.outset_node_new |}).
    set (nd' := {| Portpassing.target := Portpassing.target nd;
                   Portpassing.port := Portpassing.port nd;
                   Portpassing.children := [(Some a, 0); c1] |}).
    assert (Hext : Portpassing.store_extends h (<[outport := nd']> (<[a := new]> h))).
    { split_and!.
      - rewrite !dom_insert_L. set_solver.
      - intros _. apply map_Forall_insert_2; [done|]. by apply map_Forall_insert_2.
      - intros x j (m & c & Hx & Hc & Hnn).
        destruct (decide (x = outport)) as [->|Hxo].
        + rewrite Hnd in Hx. injection Hx as <-. rewrite Hcs in Hc.
          destruct j as [|[|j]]; cbn in Hc; [| |done].
          * injection Hc as <-. congruence.
          * injection Hc as <-. exists nd', c1. by rewrite lookup_insert_eq.
        + exists m, c. rewrite lookup_insert_ne by done.
          rewrite lookup_insert_ne; [done|]. intros <-. by apply Ha, elem_of_dom. }
    split_and!; [done| |intros _|by intros [=]].
    + split; [intros _|done]. split; [done|]. rewrite Hslot. congruence.
    + exists a. split_and!; [done|done| | |].
      * rewrite lookup_insert_ne by done. by rewrite lookup_insert_eq.
      * exists nd'. by rewrite lookup_insert_eq.
      * intros h2 t i Hext2 Hok2.
        assert (Hnn : Portpassing.nonnull_slot h2 outport 0).
        { apply Hext2. exists nd', (Some a, 0). by rewrite lookup_insert_eq. }
        destruct Hnn as (nd2 & c2 & Hnd2 & Hc2 & Hnull2).
        assert (Hrt2 : is_Some (h2 !! Portpassing.root o)).
        { apply elem_of_dom. apply Hext2. apply Hext. apply elem_of_dom. by eexists. }
        destruct Hrt2 as [rt2 Hrt2].
        pose proof (Hok2 _ _ Hrt2) as Hlen2. cbn beta in Hlen2.
        destruct (Portpassing.children rt2) as [|q0 [|q1 [|]]] eqn:Hq; try done.
        unfold Portpassing.insert, Portpassing.is_finished. rewrite Hrt2, Hq.
        cbn [lookup list_lookup]. case_bool_decide; [by eexists|].
        unfold Portpassing.cas_child_from_null.
        assert (outport ≠ fresh (dom h2)).
        { intros Heq. apply (is_fresh (dom h2)). rewrite <- Heq.
          apply elem_of_dom. by eexists. }
        rewrite lookup_insert_ne by done. rewrite Hnd2, Hc2, Hnull2.
        by eexists.
  - (* the CAS loses *)
    eexists _, _, _. split; [done|].
    assert (Hdel : delete a (<[a := {| Portpassing.target := target; Portpassing.port := inport;
                     Portpassing.children := Portpassing.children Portpassing.outset_node_new |}]> h)
                   = h).
    { apply delete_insert_id. by apply not_elem_of_dom. }
    rewrite Hdel. split_and!; [apply store_extends_refl| |done|done].
    split; [done|]. intros [_ Hnot]. exfalso. apply Hnot, Hslot. done.
Qed.

Lemma portpassing_insert_uses_port_witness :
  let h : gmap Portpassing.addr Portpassing.outset_node := {[ 0%nat := Portpassing.outset_node_new ]} in
  let o := {| Portpassing.root := 0%nat; Portpassing.n := None;
              Portpassing.should_deallocate_automatically := true |} in
  ∃ h' st next,
    Portpassing.insert h o 0%nat (Some 7%nat) None = Some (h', (st, next))
    ∧ Portpassing.store_extends h h'
    ∧ (st = insert_success
       ↔ Portpassing.is_finished h o = Some false
         ∧ ¬ Portpassing.nonnull_slot h 0%nat 0)
    ∧ (st = insert_success →
       ∃ a, next = Some a ∧ (a ∉ dom h)
         ∧ h' !! a = Some {| Portpassing.target := Some 7%nat; Portpassing.port := None;
                             Portpassing.children := [(None, 0); (None, 0)] |}
         ∧ (∃ nd, h' !! 0%nat = Some nd
                  ∧ Portpassing.children nd !! 0%nat = Some (Some a, 0))
         ∧ ∀ h2 t i, Portpassing.store_extends h' h2 → Portpassing.outset_store_ok h2 →
             ∃ h3, Portpassing.insert h2 o 0%nat t i = Some (h3, (insert_fail, None)))
    ∧ (st = insert_fail → h' = h ∧ next = None).
Proof.
  apply (portpassing_insert_uses_port {[ 0%nat := Portpassing.outset_node_new ]}
           {| Portpassing.root := 0%nat; Portpassing.n := None;
              Portpassing.should_deallocate_automatically := true |}
           0%nat (Some 7%nat) None).
  - unfold Portpassing.outset_store_ok. refine (bool_decide_unpack _ _). vm_compute. exact I.
  - vm_compute. eauto.
  - vm_compute. eauto.
Defined.

(** An insertion at the root of a fresh out-set, a second one at the
    same port, and one at the port the first has returned. *)
Example portpassing_insert_twice :
  let '(h, o) := Portpassing.outset_new ∅ None in
  ∃ h1 a h2 b,
    Portpassing.insert h o (Portpassing.root o) (Some 7%nat) None
    = Some (h1, (insert_success, Some a))
    ∧ Portpassing.insert h1 o (Portpassing.root o) (Some 8%nat) None
      = Some (h1, (insert_fail, None))
    ∧ Portpassing.insert h1 o a (Some 8%nat) None
      = Some (h2, (insert_success, Some b)).
Proof. vm_compute. eexists _, _, _, _. split_and!; reflexivity. Qed.

(** *** Notification freezes the out-set *)

Lemma root_frozen_is_finished h o :
  Portpassing.root_frozen h o → Portpassing.is_finished h o = Some true.
Proof.
  intros (nd & c0 & c1 & Hnd & Hcs & Htag). unfold Portpassing.is_finished.
  rewrite Hnd, Hcs. cbn [lookup list_lookup]. by rewrite bool_decide_eq_true_2.
Qed.

Lemma notify_keeps_root_frozen o k : ∀ h todo dec h' todo' dec',
  Portpassing.root_frozen h o →
  Portpassing.notify_outset_tree_nodes_partial_from k h todo dec = Some (h', todo', dec') →
  Portpassing.root_frozen h' o.
Proof.
  induction k as [|k IH]; intros h todo dec h' todo' dec' Hroot Hrun.
  { cbn in Hrun. by simplify_eq. }
  cbn [Portpassing.notify_outset_tree_nodes_partial_from] in Hrun.
  destruct todo as [|w todo]; [by simplify_eq|].
  destruct (Portpassing.node_of_word h w) as [[a nd]|]; [|done].
  destruct (Portpassing.children nd) as [|c0 [|c1 [|]]] eqn:Hcs; try done.
  eapply IH; [|exact Hrun].
  destruct (decide (a = Portpassing.root o)) as [->|Hne].
  - eexists _, _, _. rewrite lookup_insert_eq. by split_and!.
  - destruct Hroot as (rt & r0 & r1 & Hrt & Hrcs & Htag).
    exists rt, r0, r1. by rewrite lookup_insert_ne.
Qed.

(** X13.  [notify_outset_tree_nodes_partial] started on the root of a
    port-passing out-set whose root is a node of the store with its two
    slots: the first node processed is the root, and processing it
    returns; however many nodes are processed, when the run returns
    [is_finished()] is true and every [insert], whatever the port,
    returns [insert_fail] with a null pointer and leaves the store as it
    is. *)
Theorem portpassing_finished_barrier h (o : Portpassing.outset) rt :
  h !! Portpassing.root o = Some rt →
  length (Portpassing.children rt) = 2%nat →
  (∃ h1 todo1 dec1,
     Portpassing.notify_outset_tree_nodes_partial_from 1 h [(Some (Portpassing.root o), 0)] []
     = Some (h1, todo1, dec1)
     ∧ dec1 = match Portpassing.target rt with
              | Some t => [(t, Portpassing.port rt)]
              | None => []
              end)
  ∧ ∀ k h' todo' dec',
      Portpassing.notify_outset_tree_nodes_partial_from (S k) h
        [(Some (Portpassing.root o), 0)] [] = Some (h', todo', dec') →
      Portpassing.is_finished h' o = Some true
      ∧ ∀ outport target inport,
          Portpassing.insert h' o outport target inport = Some (h', (insert_fail, None)).
Proof.
  intros Hrt Hlen.
  destruct (Portpassing.children rt) as [|c0 [|c1 [|]]] eqn:Hcs; try done.
  split.
  - cbn [Portpassing.notify_outset_tree_nodes_partial_from Portpassing.node_of_word].
    rewrite Hrt, Hcs. eexists _, _, _. split; [done|].
    by destruct (Portpassing.target rt).
  - intros k h' todo' dec' Hrun.
    cbn [Portpassing.notify_outset_tree_nodes_partial_from Portpassing.node_of_word] in Hrun.
    rewrite Hrt, Hcs in Hrun.
    assert (Hfrozen : Portpassing.root_frozen h' o).
    { eapply notify_keeps_root_frozen; [|exact Hrun].
      eexists _, _, _. rewrite lookup_insert_eq. by split_and!. }
    pose proof (root_frozen_is_finished _ _ Hfrozen) as Hfin.
    split; [done|]. intros outport target inport.
    unfold Portpassing.insert. by rewrite Hfin.
Qed.

Lemma portpassing_finished_barrier_witness :
  let h : gmap Portpassing.addr Portpassing.outset_node :=
    {[ 0%nat := Portpassing.outset_node_new ]} in
  let o := {| Portpassing.root := 0%nat; Portpassing.n := None;
              Portpassing.should_deallocate_automatically := true |} in
  (∃ h1 todo1 dec1,
     Portpassing.notify_outset_tree_nodes_partial_from 1 h [(Some (Portpassing.root o), 0)] []
     = Some (h1, todo1, dec1)
     ∧ dec1 = match Portpassing.target Portpassing.outset_node_new with
              | Some t => [(t, Portpassing.port Portpassing.outset_node_new)]
              | None => []
              end)
  ∧ ∀ k h' todo' dec',
      Portpassing.notify_outset_tree_nodes_partial_from (S k) h
        [(Some (Portpassing.root o), 0)] [] = Some (h', todo', dec') →
      Portpassing.is_finished h' o = Some true
      ∧ ∀ outport target inport,
          Portpassing.insert h' o outport target inport = Some (h', (insert_fail, None)).
Proof.
  apply (portpassing_finished_barrier {[ 0%nat := Portpassing.outset_node_new ]}
           {| Portpassing.root := 0%nat; Portpassing.n := None;
              Portpassing.should_deallocate_automatically := true |}
           Portpassing.outset_node_new).
  - reflexivity.
  - reflexivity.
Defined.

(** ** The dyntree out-set: notification to the end *)

Section DyntreeOutsetNotification.

Variable B : nat.

Lemma leaves_eq (n : DyntreeOutset.outset_node) :
  DyntreeOutset.leaves n
  = concat (map (fun c : DyntreeOutset.tagged_pointer_type DyntreeOutset.outset_node =>
                   match c with
                   | DyntreeOutset.Leaf t => [t]
                   | DyntreeOutset.Interior m => DyntreeOutset.leaves m
                   | _ => []
                   end) (DyntreeOutset.children n)).
Proof. by destruct n. Qed.

Lemma todo_bind_cons {X} (g : DyntreeOutset.outset_node → list X) root q todo :
  DyntreeOutset.todo_bind g root (q :: todo)
  = match DyntreeOutset.node_at root q with Some cur => g cur | None => [] end
    ++ DyntreeOutset.todo_bind g root todo.
Proof. done. Qed.

Lemma todo_bind_ext {X} (g : DyntreeOutset.outset_node → list X) root root' todo :
  (∀ q, q ∈ todo → DyntreeOutset.node_at root' q = DyntreeOutset.node_at root q) →
  DyntreeOutset.todo_bind g root' todo = DyntreeOutset.todo_bind g root todo.
Proof.
  induction todo as [|q todo IH]; intros Hsame; [done|].
  rewrite !todo_bind_cons, Hsame by left. f_equal. apply IH.
  intros q' Hq'. apply Hsame. by right.
Qed.

(** The nodes pushed for the interior slots of a node hold what its
    interior slots hold. *)
Lemma todo_bind_pushed {X} (g : DyntreeOutset.outset_node → list X) root p :
  ∀ cs i todo,
    (∀ j m, cs !! j = Some (DyntreeOutset.Interior m) →
            DyntreeOutset.node_at root (p ++ [(i + j)%nat]) = Some m) →
    DyntreeOutset.todo_bind g root (DyntreeOutset.pushed p i cs todo)
    ≡ₚ concat (map (fun c : DyntreeOutset.tagged_pointer_type DyntreeOutset.outset_node =>
                      match c with DyntreeOutset.Interior m => g m | _ => [] end) cs)
       ++ DyntreeOutset.todo_bind g root todo.
Proof.
  induction cs as [|c cs IH]; intros i todo Hat; [done|].
  cbn [DyntreeOutset.pushed map concat].
  rewrite IH.
  - destruct c as [|t|m| |t|m]; try done.
    rewrite todo_bind_cons. specialize (Hat O m eq_refl).
    rewrite Nat.add_0_r in Hat. rewrite Hat. rewrite <- app_assoc.
    apply Permutation_app_swap_app.
  - intros j m Hj. replace (S i + j)%nat with (i + S j)%nat by lia. by apply Hat.
Qed.

Lemma leaves_handed cs :
  Forall (λ p, DyntreeOutset.is_finished_tag (DyntreeOutset.tag_of p) = false) cs →
  DyntreeOutset.leaves (DyntreeOutset.Outset_node cs)
  ≡ₚ DyntreeOutset.handed cs
     ++ concat (map (fun c : DyntreeOutset.tagged_pointer_type DyntreeOutset.outset_node =>
                       match c with
                       | DyntreeOutset.Interior m => DyntreeOutset.leaves m
                       | _ => []
                       end) cs).
Proof.
  rewrite leaves_eq. cbn [DyntreeOutset.children].
  induction cs as [|c cs IH]; intros Hun; [done|].
  apply Forall_cons in Hun as [Hc Hun]. specialize (IH Hun).
  destruct c as [|t|m| |t|m]; cbn [map concat DyntreeOutset.handed]; try done.
  - cbn. by rewrite IH.
  - rewrite IH. apply Permutation_app_swap_app.
Qed.

Lemma unit_list_eq (l1 l2 : list ()) : length l1 = length l2 → l1 = l2.
Proof.
  revert l2. induction l1 as [|[] l1 IH]; intros [|[] l2] Hlen; try done.
  f_equal. apply IH. by injection Hlen.
Qed.

Lemma nb_nodes_interior cs :
  Forall (λ p, DyntreeOutset.is_finished_tag (DyntreeOutset.tag_of p) = false) cs →
  replicate (DyntreeOutset.nb_nodes (DyntreeOutset.Outset_node cs)) ()
  = () :: concat (map (fun c : DyntreeOutset.tagged_pointer_type DyntreeOutset.outset_node =>
                         match c with
                         | DyntreeOutset.Interior m =>
                             replicate (DyntreeOutset.nb_nodes m) ()
                         | _ => []
                         end) cs).
Proof.
  intros Hun. apply unit_list_eq. rewrite length_replicate, onb_nodes_eq.
  cbn [DyntreeOutset.children length]. f_equal.
  induction cs as [|c cs IH]; [done|].
  apply Forall_cons in Hun as [Hc Hun]. specialize (IH Hun).
  destruct c as [|t|m| |t|m]; simpl in IH, Hc |- *; try done.
  rewrite length_app, length_replicate. by rewrite IH.
Qed.

(** One turn of the loop of [notify_outset_tree_nodes_partial]: the
    successors handed to [decrement_incounter] and those still to be
    notified are the same as before; one node less is to be visited. *)
Lemma notify_step_accounts root p rest dec :
  DyntreeOutset.well_formed B root → DyntreeOutset.todo_inv B root (p :: rest) →
  ∃ root' todo' dec',
    DyntreeOutset.notify_slots B 0 root p rest dec = Some (root', todo', dec')
    ∧ DyntreeOutset.well_formed B root'
    ∧ DyntreeOutset.todo_inv B root' todo'
    ∧ dec' ++ DyntreeOutset.todo_leaves root' todo'
      ≡ₚ dec ++ DyntreeOutset.todo_leaves root (p :: rest)
    ∧ S (DyntreeOutset.todo_nodes root' todo') = DyntreeOutset.todo_nodes root (p :: rest).
Proof.
  intros Hwf Hinv.
  destruct (notify_step B root p rest dec Hwf Hinv) as (cur & Hat & Hrun & Hwf' & Hinv').
  destruct Hinv as (Hnd & Hgood & Hinc).
  destruct (Hgood p) as (cur0 & Hat0 & Hun & Hcur); [by left|].
  rewrite Hat in Hat0. injection Hat0 as <-.
  apply NoDup_cons in Hnd as [Hp Hnd].
  assert (Hnotpre : ∀ q, q ∈ rest → ¬ q `prefix_of` p).
  { intros q Hq Hpre. apply Hp. by rewrite <- (Hinc p q) at 1; [| left | right |]. }
  set (cs := DyntreeOutset.children cur) in *.
  set (root' := DyntreeOutset.replace_at root p
                  (DyntreeOutset.Outset_node (DyntreeOutset.finished_counterpart <$> cs))) in *.
  assert (Hcs : Forall (λ p, DyntreeOutset.is_finished_tag (DyntreeOutset.tag_of p) = false) cs).
  { by apply oall_nodes_inv in Hun as [? _]. }
  assert (Hrest : ∀ q, q ∈ rest → DyntreeOutset.node_at root' q = DyntreeOutset.node_at root q).
  { intros q Hq. eapply onode_at_replace_at_other; [done|by apply Hnotpre|].
    simpl. rewrite <- list_fmap_compose. apply list_fmap_ext.
    intros ? c' _. simpl. apply subtree_of_finished_counterpart. }
  assert (Hpushed : ∀ j m, cs !! j = Some (DyntreeOutset.Interior m) →
            DyntreeOutset.node_at root' (p ++ [(0 + j)%nat]) = Some m).
  { intros j m Hj. unfold root'.
    rewrite onode_at_app, (onode_at_replace_at _ _ _ _ Hat). simpl.
    by rewrite list_lookup_fmap, Hj. }
  assert (Hcur_eq : cur = DyntreeOutset.Outset_node cs) by (by destruct cur).
  exists root', (DyntreeOutset.pushed p 0 cs rest), (dec ++ DyntreeOutset.handed cs).
  split_and!; [done..| |].
  - unfold DyntreeOutset.todo_leaves.
    rewrite todo_bind_pushed by done. rewrite (todo_bind_ext _ root root' rest) by done.
    rewrite todo_bind_cons, Hat. rewrite Hcur_eq. rewrite leaves_handed by done.
    rewrite <- !app_assoc. done.
  - unfold DyntreeOutset.todo_nodes.
    rewrite todo_bind_pushed by done. rewrite (todo_bind_ext _ root root' rest) by done.
    rewrite todo_bind_cons, Hat. rewrite Hcur_eq. rewrite nb_nodes_interior by done.
    done.
Qed.

(** [notify_outset_tree_nodes_partial] with [k] turns. *)
Lemma notify_partial_accounts k : ∀ root todo dec,
  DyntreeOutset.well_formed B root → DyntreeOutset.todo_inv B root todo →
  ∃ root' todo' dec',
    DyntreeOutset.notify_outset_tree_nodes_partial_from B k root todo dec
    = Some (root', todo', dec')
    ∧ DyntreeOutset.well_formed B root'
    ∧ DyntreeOutset.todo_inv B root' todo'
    ∧ dec' ++ DyntreeOutset.todo_leaves root' todo'
      ≡ₚ dec ++ DyntreeOutset.todo_leaves root todo
    ∧ (DyntreeOutset.todo_nodes root' todo' + Nat.min k (DyntreeOutset.todo_nodes root todo)
       = DyntreeOutset.todo_nodes root todo)%nat
    ∧ (todo' ≠ [] → (0 < DyntreeOutset.todo_nodes root' todo')%nat).
Proof.
  induction k as [|k IH]; intros root todo dec Hwf Hinv.
  - exists root, todo, dec. split_and!; [done..|lia|].
    destruct todo as [|q todo]; [done|]. intros _.
    destruct Hinv as (_ & Hgood & _). destruct (Hgood q) as (cur & Hat & _); [by left|].
    unfold DyntreeOutset.todo_nodes. rewrite todo_bind_cons, Hat, length_app.
    rewrite length_replicate. pose proof (onb_nodes_pos cur). lia.
  - destruct todo as [|p rest].
    { exists root, [], dec. split_and!; [done..|]. by cbn. }
    cbn [DyntreeOutset.notify_outset_tree_nodes_partial_from].
    destruct (notify_step_accounts root p rest dec Hwf Hinv)
      as (root1 & todo1 & dec1 & -> & Hwf1 & Hinv1 & Hperm1 & Hnodes1).
    destruct (IH root1 todo1 dec1 Hwf1 Hinv1)
      as (root' & todo' & dec' & -> & Hwf' & Hinv' & Hperm' & Hnodes' & Hpos).
    exists root', todo', dec'. split_and!; [done..|by rewrite Hperm'|lia|done].
Qed.

Section WithCommunicationDelay.

Variable cd : Z.
Hypothesis Hcd : 0 < cd.

(** The node [notify_outset_tree_nodes_par_rec] run alone, with a block
    for every node still to be visited. *)
Lemma notify_par_rec_accounts fuel : ∀ root todo dec,
  DyntreeOutset.well_formed B root → DyntreeOutset.todo_inv B root todo →
  (DyntreeOutset.todo_nodes root todo < fuel)%nat →
  ∃ root' dec',
    DyntreeOutset.notify_outset_tree_nodes_par_rec B cd fuel root todo dec
    = Some (root', dec')
    ∧ DyntreeOutset.well_formed B root'
    ∧ dec' ≡ₚ dec ++ DyntreeOutset.todo_leaves root todo
    ∧ ([] ∉ todo →
       DyntreeOutset.tag_of <$> DyntreeOutset.children root'
       = DyntreeOutset.tag_of <$> DyntreeOutset.children root).
Proof.
  induction fuel as [|fuel IH]; intros root todo dec Hwf Hinv Hfuel; [lia|].
  cbn [DyntreeOutset.notify_outset_tree_nodes_par_rec].
  destruct (notify_partial_accounts (Z.to_nat cd) root todo dec Hwf Hinv)
    as (root1 & todo1 & dec1 & Hrun & Hwf1 & Hinv1 & Hperm1 & Hnodes1 & Hpos1).
  rewrite Hrun.
  assert (Htags1 : [] ∉ todo →
            ([] ∉ todo1)
            ∧ DyntreeOutset.tag_of <$> DyntreeOutset.children root1
              = DyntreeOutset.tag_of <$> DyntreeOutset.children root).
  { intros Hnil.
    destruct (notify_partial_from_ok B (Z.to_nat cd) root todo dec Hwf Hinv Hnil)
      as (r & t & d & Hrun' & _ & _ & ? & ?).
    rewrite Hrun in Hrun'. by injection Hrun' as -> -> ->. }
  destruct todo1 as [|q todo1].
  - exists root1, dec1. split_and!; [done..| |].
    + unfold DyntreeOutset.todo_leaves at 1 in Hperm1. cbn in Hperm1.
      by rewrite app_nil_r in Hperm1.
    + intros Hnil. by apply Htags1.
  - specialize (Hpos1 ltac:(done)).
    destruct (IH root1 (q :: todo1) dec1 Hwf1 Hinv1) as (root' & dec' & -> & Hwf' & Hperm' & Htags').
    { lia. }
    exists root', dec'. split_and!; [done..| |].
    + by rewrite Hperm'.
    + intros Hnil. destruct (Htags1 Hnil) as [Hnil1 <-]. by apply Htags'.
Qed.

(** X14.  [finish()] of a dyntree out-set that is well formed and not
    finished, with the task it schedules run to its end, for a positive
    [communication_delay]: the run returns; the successors handed to
    [decrement_incounter] are the successors the tree held, each as many
    times as it was held; no node is left to visit; every slot of the
    root carries a finished tag; and the out-set is deleted exactly when
    [should_deallocate_automatically]. *)
Theorem dyntree_outset_notifies_every_successor (o : DyntreeOutset.dyntree_outset) :
  DyntreeOutset.well_formed B (DyntreeOutset.root o) →
  DyntreeOutset.unfinished (DyntreeOutset.root o) →
  ∃ fuel r,
    DyntreeOutset.finish_and_notify B cd fuel o = Some r
    ∧ DyntreeOutset.decremented r ≡ₚ DyntreeOutset.leaves (DyntreeOutset.root o)
    ∧ DyntreeOutset.todo r = []
    ∧ DyntreeOutset.root_finished (DyntreeOutset.root (DyntreeOutset.finished_outset r))
    ∧ DyntreeOutset.well_formed B (DyntreeOutset.root (DyntreeOutset.finished_outset r))
    ∧ DyntreeOutset.deleted r = DyntreeOutset.should_deallocate_automatically o.
Proof.
  intros Hwf Hun.
  destruct (finish_ok B cd o Hcd Hwf Hun) as (r & Hfin & Hwf1 & Hroot1 & Hinv1 & Hnil1).
  destruct (notify_partial_accounts (Z.to_nat cd) (DyntreeOutset.root o) [[]] []
              Hwf (todo_inv_root B _ Hwf Hun))
    as (root1 & todo1 & dec1 & Hrun & _ & _ & Hperm1 & _).
  assert (Hleaves : DyntreeOutset.todo_leaves (DyntreeOutset.root o) [[]]
                    = DyntreeOutset.leaves (DyntreeOutset.root o)).
  { unfold DyntreeOutset.todo_leaves. rewrite todo_bind_cons. cbn. by rewrite app_nil_r. }
  rewrite Hleaves in Hperm1. cbn [app] in Hperm1.
  unfold DyntreeOutset.finish, DyntreeOutset.notify_outset_tree_nodes_partial in Hfin.
  rewrite Hrun in Hfin. injection Hfin as <-.
  cbn [DyntreeOutset.finished_outset DyntreeOutset.root DyntreeOutset.todo] in *.
  unfold DyntreeOutset.finish_and_notify, DyntreeOutset.finish,
    DyntreeOutset.notify_outset_tree_nodes_partial. rewrite Hrun.
  cbn [DyntreeOutset.todo DyntreeOutset.finished_outset DyntreeOutset.root
       DyntreeOutset.decremented].
  destruct todo1 as [|q todo1].
  - exists O. eexists. split; [done|]. cbn.
    unfold DyntreeOutset.todo_leaves in Hperm1. cbn in Hperm1.
    rewrite app_nil_r in Hperm1. done.
  - destruct (notify_par_rec_accounts (S (DyntreeOutset.todo_nodes root1 (q :: todo1)))
                root1 (q :: todo1) dec1 Hwf1 Hinv1 ltac:(lia))
      as (root' & dec' & Hrec & Hwf' & Hperm' & Htags').
    exists (S (DyntreeOutset.todo_nodes root1 (q :: todo1))). rewrite Hrec.
    eexists. split; [done|]. cbn. split_and!; [|done| |done|done].
    + by rewrite Hperm', Hperm1.
    + unfold DyntreeOutset.root_finished in *.
      rewrite Forall_forall in Hroot1 |- *. intros c Hc.
      apply list_elem_of_lookup in Hc as [i Hi].
      assert (Htag : (DyntreeOutset.tag_of <$> DyntreeOutset.children root') !! i
                     = Some (DyntreeOutset.tag_of c)) by (by rewrite list_lookup_fmap, Hi).
      rewrite (Htags' Hnil1) in Htag. rewrite list_lookup_fmap in Htag.
      destruct (DyntreeOutset.children root1 !! i) as [c1|] eqn:Hc1; [|done].
      injection Htag as <-. apply Hroot1. by eapply list_elem_of_lookup_2.
Qed.

End WithCommunicationDelay.

(** *** Insertions before [finish()] *)

Lemma leaves_insert cs i (p p' : DyntreeOutset.tagged_pointer_type DyntreeOutset.outset_node)
    (old new : list node) :
  cs !! i = Some p →
  DyntreeOutset.leaves (DyntreeOutset.Outset_node [p]) = old →
  DyntreeOutset.leaves (DyntreeOutset.Outset_node [p']) = new →
  ∃ l1 l2,
    DyntreeOutset.leaves (DyntreeOutset.Outset_node cs) = l1 ++ old ++ l2
    ∧ DyntreeOutset.leaves (DyntreeOutset.Outset_node (<[i := p']> cs)) = l1 ++ new ++ l2.
Proof.
  intros Hi <- <-.
  pose proof (lookup_lt_Some _ _ _ Hi) as Hlt.
  exists (DyntreeOutset.leaves (DyntreeOutset.Outset_node (take i cs))),
         (DyntreeOutset.leaves (DyntreeOutset.Outset_node (drop (S i) cs))).
  split.
  - transitivity (DyntreeOutset.leaves
                    (DyntreeOutset.Outset_node (take i cs ++ p :: drop (S i) cs))).
    { by rewrite take_drop_middle. }
    rewrite !leaves_eq. cbn [DyntreeOutset.children].
    rewrite !map_app, !concat_app. cbn [map concat]. by rewrite !app_nil_r.
  - rewrite insert_take_drop by done.
    rewrite !leaves_eq. cbn [DyntreeOutset.children].
    rewrite !map_app, !concat_app. cbn [map concat]. by rewrite !app_nil_r.
Qed.

Lemma all_nodes_insert_slot (P : list (DyntreeOutset.tagged_pointer_type DyntreeOutset.outset_node) → Prop)
    cs i p' :
  DyntreeOutset.all_nodes P (DyntreeOutset.Outset_node cs) →
  P (<[i := p']> cs) →
  (∀ m, DyntreeOutset.subtree_of p' = Some m → DyntreeOutset.all_nodes P m) →
  DyntreeOutset.all_nodes P (DyntreeOutset.Outset_node (<[i := p']> cs)).
Proof.
  intros [_ Hch]%oall_nodes_inv HP Hnew. constructor; [done|].
  intros j q m Hj Hq. destruct (decide (i = j)) as [->|Hne].
  - pose proof (lookup_lt_Some _ _ _ Hj) as Hlt. rewrite length_insert in Hlt.
    rewrite list_lookup_insert_eq in Hj by done.
    simplify_eq. by apply Hnew.
  - rewrite list_lookup_insert_ne in Hj by done. by eapply Hch.
Qed.

Lemma leaves_fresh_interior (val d : node) (n : nat) :
  (2 ≤ n)%nat →
  DyntreeOutset.leaves
    (DyntreeOutset.Outset_node
       (<[1%nat := DyntreeOutset.Leaf d]>
          (<[0%nat := DyntreeOutset.Leaf val]> (replicate n DyntreeOutset.Empty))))
  = [val; d].
Proof.
  intros Hn. destruct n as [|n]; [lia|]. destruct n as [|b]; [lia|].
  cbn. f_equal. f_equal.
  clear Hn. induction b as [|b IH]; [done|]. exact IH.
Qed.

Lemma fresh_interior_slots (val d : node) (n : nat) j
    (q : DyntreeOutset.tagged_pointer_type DyntreeOutset.outset_node) :
  <[1%nat := DyntreeOutset.Leaf d]>
    (<[0%nat := DyntreeOutset.Leaf val]> (replicate n DyntreeOutset.Empty)) !! j = Some q →
  q = DyntreeOutset.Leaf val ∨ q = DyntreeOutset.Leaf d ∨ q = DyntreeOutset.Empty.
Proof.
  intros Hj. destruct n as [|[|b]]; [done| |].
  - destruct j as [|j]; cbn in Hj; simplify_eq; auto.
  - destruct j as [|[|j]]; cbn in Hj; simplify_eq; auto.
    apply lookup_replicate in Hj as [-> _]. auto.
Qed.

(** An insertion that succeeds keeps the shape of the tree and adds the
    successor to what it holds. *)
Lemma installs_keeps val t t' :
  DyntreeOutset.installs B val t t' →
  DyntreeOutset.well_formed B t → DyntreeOutset.unfinished t →
  DyntreeOutset.well_formed B t' ∧ DyntreeOutset.unfinished t'
  ∧ DyntreeOutset.leaves t' ≡ₚ val :: DyntreeOutset.leaves t.
Proof.
  induction 1 as [cs i Hi|cs i d Hi HB|cs i t t' Hi Hinst IH]; intros Hwf Hun.
  - split_and!.
    + apply all_nodes_insert_slot; [done| |done].
      apply oall_nodes_inv in Hwf as [Hlen _]. by rewrite length_insert.
    + apply all_nodes_insert_slot; [done| |done].
      apply oall_nodes_inv in Hun as [Hall _]. by apply Forall_insert.
    + destruct (leaves_insert cs i _ (DyntreeOutset.Leaf val) [] [val] Hi eq_refl eq_refl)
        as (l1 & l2 & -> & ->).
      cbn [app]. by rewrite Permutation_middle.
  - assert (Hnone : ∀ j q m,
              <[1%nat := DyntreeOutset.Leaf d]>
                (<[0%nat := DyntreeOutset.Leaf val]> (replicate B DyntreeOutset.Empty)) !! j
              = Some q →
              DyntreeOutset.subtree_of q = Some m → False).
    { intros j q m Hj Hq. by destruct (fresh_interior_slots _ _ _ _ _ Hj) as [->|[->| ->]]. }
    split_and!.
    + apply all_nodes_insert_slot; [done| |].
      * apply oall_nodes_inv in Hwf as [Hlen _]. by rewrite length_insert.
      * intros m [= <-]. constructor.
        -- by rewrite !length_insert, length_replicate.
        -- intros j q m Hj Hq. by destruct (Hnone j q m).
    + apply all_nodes_insert_slot; [done| |].
      * apply oall_nodes_inv in Hun as [Hall _]. by apply Forall_insert.
      * intros m [= <-]. constructor.
        -- apply Forall_lookup. intros j q Hj.
           by destruct (fresh_interior_slots _ _ _ _ _ Hj) as [->|[->| ->]].
        -- intros j q m Hj Hq. by destruct (Hnone j q m).
    + destruct (leaves_insert cs i _
                  (DyntreeOutset.Interior
                     (DyntreeOutset.Outset_node
                        (<[1%nat := DyntreeOutset.Leaf d]>
                           (<[0%nat := DyntreeOutset.Leaf val]>
                              (replicate B DyntreeOutset.Empty)))))
                  [d] [val; d] Hi eq_refl)
        as (l1 & l2 & -> & ->).
      { rewrite leaves_eq. cbn [DyntreeOutset.children map concat].
        by rewrite leaves_fresh_interior, app_nil_r by done. }
      cbn [app]. by rewrite <- Permutation_middle.
  - assert (Hwft : DyntreeOutset.well_formed B t).
    { apply oall_nodes_inv in Hwf as [_ Hch]. by eapply Hch. }
    assert (Hunt : DyntreeOutset.unfinished t).
    { apply oall_nodes_inv in Hun as [_ Hch]. by eapply Hch. }
    destruct (IH Hwft Hunt) as (Hwf' & Hun' & Hperm).
    split_and!.
    + apply all_nodes_insert_slot; [done| |by intros m [= <-]].
      apply oall_nodes_inv in Hwf as [Hlen _]. by rewrite length_insert.
    + apply all_nodes_insert_slot; [done| |by intros m [= <-]].
      apply oall_nodes_inv in Hun as [Hall _]. by apply Forall_insert.
    + destruct (leaves_insert cs i _ (DyntreeOutset.Interior t')
                  (DyntreeOutset.leaves t) (DyntreeOutset.leaves t') Hi)
        as (l1 & l2 & -> & ->).
      { rewrite leaves_eq. cbn [DyntreeOutset.children map concat]. by rewrite app_nil_r. }
      { rewrite leaves_eq. cbn [DyntreeOutset.children map concat]. by rewrite app_nil_r. }
      rewrite Hperm. cbn [app]. by rewrite <- Permutation_middle.
Qed.

(** X15.  [insert] into a dyntree out-set that is well formed and not
    finished, with at least two slots per node and a draw of
    [random_int] for every node of the tree: the insertion returns
    [insert_success], the out-set is again well formed and not finished,
    and it holds the successors it held and the inserted one, once
    more. *)
Theorem dyntree_outset_insert_keeps_successors (o : DyntreeOutset.dyntree_outset)
    (target : node) (tape : list nat) :
  (2 ≤ B)%nat →
  DyntreeOutset.well_formed B (DyntreeOutset.root o) →
  DyntreeOutset.unfinished (DyntreeOutset.root o) →
  (DyntreeOutset.nb_nodes (DyntreeOutset.root o) ≤ length tape)%nat →
  ∃ tape' o',
    DyntreeOutset.insert B tape target o = Some (tape', (insert_success, o'))
    ∧ DyntreeOutset.well_formed B (DyntreeOutset.root o')
    ∧ DyntreeOutset.unfinished (DyntreeOutset.root o')
    ∧ DyntreeOutset.leaves (DyntreeOutset.root o')
      ≡ₚ target :: DyntreeOutset.leaves (DyntreeOutset.root o)
    ∧ DyntreeOutset.should_deallocate_automatically o'
      = DyntreeOutset.should_deallocate_automatically o.
Proof.
  intros HB Hwf Hun Htape.
  destruct (insert_walk_spec B target (DyntreeOutset.root o) HB Hwf _ (DyntreeOutset.root o) []
              tape (le_n _) Htape eq_refl) as (tape' & st & root' & Hrun & Hst).
  unfold DyntreeOutset.insert. rewrite Hrun.
  destruct st.
  - destruct Hst as (cur' & Hinst & ->). cbn [DyntreeOutset.replace_at].
    destruct (installs_keeps _ _ _ Hinst Hwf Hun) as (? & ? & ?).
    by eexists _, _.
  - destruct Hst as [_ (path & i & p & Hload & Hfin)].
    by rewrite (unfinished_load _ _ _ _ Hun Hload) in Hfin.
Qed.

End DyntreeOutsetNotification.

Lemma dyntree_outset_insert_keeps_successors_witness :
  ∃ tape' o',
    DyntreeOutset.insert 2 [0%nat] 7%nat (DyntreeOutset.dyntree_outset_new 2)
    = Some (tape', (insert_success, o'))
    ∧ DyntreeOutset.well_formed 2 (DyntreeOutset.root o')
    ∧ DyntreeOutset.unfinished (DyntreeOutset.root o')
    ∧ DyntreeOutset.leaves (DyntreeOutset.root o')
      ≡ₚ 7%nat :: DyntreeOutset.leaves (DyntreeOutset.root (DyntreeOutset.dyntree_outset_new 2))
    ∧ DyntreeOutset.should_deallocate_automatically o'
      = DyntreeOutset.should_deallocate_automatically (DyntreeOutset.dyntree_outset_new 2).
Proof.
  apply (dyntree_outset_insert_keeps_successors 2).
  - lia.
  - apply well_formed_init.
  - apply unfinished_init.
  - simpl. lia.
Defined.

Lemma dyntree_outset_notifies_every_successor_witness :
  let o := {| DyntreeOutset.root :=
                DyntreeOutset.Outset_node
                  [DyntreeOutset.Interior
                     (DyntreeOutset.Outset_node
                        [DyntreeOutset.Leaf 5%nat; DyntreeOutset.Leaf 3%nat]);
                   DyntreeOutset.Leaf 4%nat];
              DyntreeOutset.should_deallocate_automatically := true |} in
  ∃ fuel r,
    DyntreeOutset.finish_and_notify 2 1 fuel o = Some r
    ∧ DyntreeOutset.decremented r ≡ₚ DyntreeOutset.leaves (DyntreeOutset.root o)
    ∧ DyntreeOutset.todo r = []
    ∧ DyntreeOutset.root_finished (DyntreeOutset.root (DyntreeOutset.finished_outset r))
    ∧ DyntreeOutset.well_formed 2 (DyntreeOutset.root (DyntreeOutset.finished_outset r))
    ∧ DyntreeOutset.deleted r = DyntreeOutset.should_deallocate_automatically o.
Proof.
  apply (dyntree_outset_notifies_every_successor 2 1).
  - lia.
  - constructor; [reflexivity|].
    intros [|[|i]] p m Hi Hp; simplify_eq/=.
    constructor; [reflexivity|].
    intros [|[|j]] q m' Hj Hq; simplify_eq/=.
  - constructor; [by repeat constructor|].
    intros [|[|i]] p m Hi Hp; simplify_eq/=.
    constructor; [by repeat constructor|].
    intros [|[|j]] q m' Hj Hq; simplify_eq/=.
Defined.

(** Three insertions with branching factor 2, then [finish()] with a
    [communication_delay] of one node per block: the three successors
    are handed to [decrement_incounter], the displaced one last. *)
Example dyntree_outset_three_inserts_notified :
  ∃ o1 o2 o3,
    DyntreeOutset.insert 2 [0%nat] 3%nat (DyntreeOutset.dyntree_outset_new 2)
    = Some ([], (insert_success, o1))
    ∧ DyntreeOutset.insert 2 [0%nat] 4%nat o1 = Some ([], (insert_success, o2))
    ∧ DyntreeOutset.insert 2 [0%nat; 1%nat] 5%nat o2 = Some ([], (insert_success, o3))
    ∧ (DyntreeOutset.decremented <$> DyntreeOutset.finish_and_notify 2 1 2 o3)
      = Some [4%nat; 5%nat; 3%nat].
Proof. by eexists _, _, _. Qed.

(** ** Gauss-Seidel: block by block and diagonal by diagonal *)

(** *** Loops as sequences of steps *)

Lemma for_loop_run_steps {St} cond step (body : Z → St → option St) l :
  ∀ fuel i s,
    Benchmarks.loop_indices cond step i l → (length l < fuel)%nat →
    Benchmarks.for_loop fuel cond step body i s = Benchmarks.run_steps body l s.
Proof.
  induction l as [|x l IH]; intros fuel i s Hl Hfuel;
    inversion Hl as [i' Hcond|i' l' Hcond Hrest]; subst;
    (destruct fuel as [|fuel]; [simpl in Hfuel; lia|]);
    cbn [Benchmarks.for_loop Benchmarks.run_steps]; rewrite Hcond; [done|].
  destruct (body x s) as [s'|]; [|done].
  apply IH; [done|]. simpl in Hfuel. lia.
Qed.

Lemma run_steps_cons {A St} (f : A → St → option St) x l s :
  Benchmarks.run_steps f (x :: l) s = f x s ≫= Benchmarks.run_steps f l.
Proof. cbn. by destruct (f x s). Qed.

Lemma run_steps_ext {A St} (f g : A → St → option St) l :
  (∀ x s, x ∈ l → f x s = g x s) →
  ∀ s, Benchmarks.run_steps f l s = Benchmarks.run_steps g l s.
Proof.
  induction l as [|x l IH]; intros Hfg s; [done|]. cbn.
  rewrite Hfg by left. destruct (g x s); [|done].
  apply IH. intros y s' Hy. apply Hfg. by right.
Qed.

Lemma run_steps_app {A St} (f : A → St → option St) l1 l2 s :
  Benchmarks.run_steps f (l1 ++ l2) s
  = Benchmarks.run_steps f l1 s ≫= Benchmarks.run_steps f l2.
Proof.
  revert s. induction l1 as [|x l1 IH]; intros s; [done|]. cbn.
  destruct (f x s); [|done]. apply IH.
Qed.

Lemma run_steps_bind {A B St} (f : B → St → option St) (g : A → list B) l s :
  Benchmarks.run_steps (λ x, Benchmarks.run_steps f (g x)) l s
  = Benchmarks.run_steps f (l ≫= g) s.
Proof.
  revert s. induction l as [|x l IH]; intros s; [done|]. cbn.
  rewrite run_steps_app. destruct (Benchmarks.run_steps f (g x) s); [|done].
  apply IH.
Qed.

Lemma run_steps_fmap {A B St} (f : B → St → option St) (g : A → B) l s :
  Benchmarks.run_steps (λ x, f (g x)) l s = Benchmarks.run_steps f (g <$> l) s.
Proof.
  revert s. induction l as [|x l IH]; intros s; [done|]. cbn.
  destruct (f (g x) s); [|done]. apply IH.
Qed.

(** A step that commutes with every step of a sequence can be taken
    before it. *)
Lemma run_steps_move {A St} (f : A → St → option St) c l :
  (∀ a s, a ∈ l → f a s ≫= f c = f c s ≫= f a) →
  ∀ s, Benchmarks.run_steps f l s ≫= f c
       = f c s ≫= Benchmarks.run_steps f l.
Proof.
  induction l as [|a l IH]; intros Hcomm s.
  { cbn. by destruct (f c s). }
  cbn [Benchmarks.run_steps].
  pose proof (Hcomm a s ltac:(left)) as Ha.
  destruct (f a s) as [s1|] eqn:Hs1; cbn in Ha |- *.
  - rewrite IH by (intros; apply Hcomm; by right).
    destruct (f c s1) as [s2|] eqn:Hs2; cbn.
    + destruct (f c s) as [s3|]; cbn in Ha |- *; [|done]. by rewrite <- Ha.
    + destruct (f c s) as [s3|]; cbn in Ha |- *; [|done]. by rewrite <- Ha.
  - destruct (f c s) as [s3|]; cbn in Ha |- *; [|done]. by rewrite <- Ha.
Qed.

(** Two sequences of the same steps, each in a strict order: when the
    steps the two orders disagree on commute, the sequences have the
    same effect. *)
Lemma run_steps_reorder {A St} (f : A → St → option St) (R1 R2 : relation A) :
  (∀ x, ¬ R1 x x) → (∀ x, ¬ R2 x x) →
  ∀ l1 l2,
    StronglySorted R1 l1 → StronglySorted R2 l2 →
    (∀ x, x ∈ l1 ↔ x ∈ l2) →
    (∀ x y s, x ∈ l1 → y ∈ l1 → R1 x y → R2 y x → f y s ≫= f x = f x s ≫= f y) →
    ∀ s, Benchmarks.run_steps f l1 s = Benchmarks.run_steps f l2 s.
Proof.
  intros Hirr1 Hirr2.
  induction l1 as [|c l1 IH]; intros l2 Hs1 Hs2 Hsame Hcomm s.
  { destruct l2 as [|y l2]; [done|]. exfalso.
    by apply (not_elem_of_nil y), Hsame; left. }
  apply StronglySorted_inv in Hs1 as [Hs1 Hc].
  rewrite Forall_forall in Hc.
  assert (Hcl2 : c ∈ l2) by (apply Hsame; left).
  apply list_elem_of_split in Hcl2 as (A1 & B1 & ->).
  pose proof (StronglySorted_app_1_l _ _ _ Hs2) as HsA.
  pose proof (StronglySorted_app_1_r _ _ _ Hs2) as HsB.
  apply StronglySorted_inv in HsB as [HsB HcB]. rewrite Forall_forall in HcB.
  assert (HAc : ∀ a, a ∈ A1 → R2 a c).
  { intros a Ha. eapply (StronglySorted_app_1_elem_of _ A1 (c :: B1)); [done|done|left]. }
  assert (Hin : ∀ x, x ∈ l1 ↔ x ∈ A1 ++ B1).
  { intros x. split.
    - intros Hx. assert (x ≠ c).
      { intros ->. by apply (Hirr1 c), Hc. }
      assert (Hx2 : x ∈ A1 ++ c :: B1) by (apply Hsame; by right).
      rewrite elem_of_app, elem_of_cons in Hx2. rewrite elem_of_app. naive_solver.
    - intros Hx. assert (x ≠ c).
      { intros ->. apply elem_of_app in Hx as [Hx|Hx].
        - by apply (Hirr2 c), HAc.
        - by apply (Hirr2 c), HcB. }
      assert (Hx1 : x ∈ c :: l1).
      { apply Hsame. rewrite elem_of_app, elem_of_cons.
        rewrite elem_of_app in Hx. naive_solver. }
      apply elem_of_cons in Hx1 as [?|?]; done. }
  rewrite run_steps_app.
  transitivity (f c s ≫= Benchmarks.run_steps f (A1 ++ B1)).
  - rewrite run_steps_cons. destruct (f c s) as [s1|]; [|done]. cbn.
    apply IH; [done| |done|].
    + apply StronglySorted_app_2; [|done|done].
      intros x1 x2 Hx1 Hx2.
      eapply (StronglySorted_app_1_elem_of _ A1 (c :: B1)); [done|done|by right].
    + intros x y s' Hx Hy. apply Hcomm; by right.
  - assert (Hmove : Benchmarks.run_steps f A1 s ≫= f c
                    = f c s ≫= Benchmarks.run_steps f A1).
    { apply run_steps_move. intros a s' Ha. apply Hcomm.
      - left.
      - right. apply Hin. apply elem_of_app. by left.
      - apply Hc. apply Hin. apply elem_of_app. by left.
      - by apply HAc. }
    transitivity ((f c s ≫= Benchmarks.run_steps f A1) ≫= Benchmarks.run_steps f B1).
    + destruct (f c s) as [s1|]; [|done]. cbn. apply run_steps_app.
    + rewrite <- Hmove.
      destruct (Benchmarks.run_steps f A1 s) as [s1|]; [|done].
      cbn [mbind option_bind]. apply run_steps_cons.
Qed.

Lemma loop_indices_fmap_seqZ cond step (g : Z → Z) cnt : ∀ lo,
  (∀ b, lo ≤ b < lo + Z.of_nat cnt → cond (g b) = Some true ∧ step (g b) = g (b + 1)) →
  cond (g (lo + Z.of_nat cnt)) = Some false →
  Benchmarks.loop_indices cond step (g lo) (g <$> seqZ lo (Z.of_nat cnt)).
Proof.
  induction cnt as [|cnt IH]; intros lo Hturn Hend.
  { rewrite Z.add_0_r in Hend. by constructor. }
  rewrite seqZ_cons by lia. rewrite fmap_cons.
  destruct (Hturn lo ltac:(lia)) as [Hc Hs].
  constructor; [done|]. rewrite Hs.
  replace (Z.pred (Z.of_nat (S cnt))) with (Z.of_nat cnt) by lia.
  replace (Z.succ lo) with (lo + 1) by lia.
  apply IH.
  - intros b Hb. apply Hturn. lia.
  - replace (lo + 1 + Z.of_nat cnt) with (lo + Z.of_nat (S cnt)) by lia. done.
Qed.

Lemma loop_indices_seqZ cond step lo cnt :
  0 ≤ cnt →
  (∀ i, lo ≤ i < lo + cnt → cond i = Some true ∧ step i = i + 1) →
  cond (lo + cnt) = Some false →
  Benchmarks.loop_indices cond step lo (seqZ lo cnt).
Proof.
  intros Hcnt Hturn Hend.
  pose proof (loop_indices_fmap_seqZ cond step (λ i, i) (Z.to_nat cnt) lo) as H.
  rewrite Z2Nat.id, list_fmap_id in H by done. by apply H.
Qed.

(** *** One assignment *)

Lemma load_insert (data : list Benchmarks.double) n v k :
  Z.of_nat n ≠ k →
  Benchmarks.load (<[n := v]> data) k = Benchmarks.load data k.
Proof.
  intros Hne. unfold Benchmarks.load. case_decide; [|done].
  apply list_lookup_insert_ne. lia.
Qed.

Lemma store_insert (data : list Benchmarks.double) n v k w :
  Z.of_nat n ≠ k →
  Benchmarks.store (<[n := v]> data) k w = (insert n v) <$> Benchmarks.store data k w.
Proof.
  intros Hne. unfold Benchmarks.store. rewrite length_insert.
  case_decide; [|done]. cbn. f_equal. apply list_insert_insert_ne. lia.
Qed.

Lemma update_at_insert N k n v data :
  Z.of_nat n ≠ k → Z.of_nat n ≠ k - N → Z.of_nat n ≠ k + N →
  Z.of_nat n ≠ k - 1 → Z.of_nat n ≠ k + 1 →
  Benchmarks.update_at N k (<[n := v]> data)
  = (insert n v) <$> Benchmarks.update_at N k data.
Proof.
  intros. unfold Benchmarks.update_at. rewrite !load_insert by done.
  repeat (match goal with |- context [Benchmarks.load data ?x] =>
            destruct (Benchmarks.load data x); [|done] end).
  by apply store_insert.
Qed.

Lemma update_at_Some N k data data' :
  Benchmarks.update_at N k data = Some data' →
  0 ≤ k ∧ ∃ v, data' = <[Z.to_nat k := v]> data.
Proof.
  unfold Benchmarks.update_at, Benchmarks.store. intros Hrun.
  repeat (match type of Hrun with context [Benchmarks.load data ?x] =>
            destruct (Benchmarks.load data x); [|done] end).
  case_decide; [|done]. simplify_eq. split; [lia|]. eauto.
Qed.

(** Two assignments neither of which reads the item the other writes
    commute. *)
Lemma update_at_comm N k k' data :
  k' - k ≠ 1 → k' - k ≠ -1 → k' - k ≠ N → k' - k ≠ - N →
  Benchmarks.update_at N k' data ≫= Benchmarks.update_at N k
  = Benchmarks.update_at N k data ≫= Benchmarks.update_at N k'.
Proof.
  intros. destruct (decide (k = k')) as [->|Hne]; [done|].
  destruct (Benchmarks.update_at N k' data) as [d'|] eqn:Hk';
    destruct (Benchmarks.update_at N k data) as [d|] eqn:Hk; cbn; [| | |done].
  - apply update_at_Some in Hk' as Hv'. destruct Hv' as (? & v' & ->).
    apply update_at_Some in Hk as Hv. destruct Hv as (? & v & ->).
    rewrite !update_at_insert by lia. rewrite Hk, Hk'. cbn. f_equal.
    apply list_insert_insert_ne. lia.
  - apply update_at_Some in Hk' as Hv'. destruct Hv' as (? & v' & ->).
    rewrite update_at_insert by lia. by rewrite Hk.
  - apply update_at_Some in Hk as Hv. destruct Hv as (? & v & ->).
    rewrite update_at_insert by lia. by rewrite Hk'.
Qed.

Lemma update_at_in_bounds N k data :
  0 ≤ k - N → 0 ≤ k - 1 → k + N < Z.of_nat (length data) →
  k + 1 < Z.of_nat (length data) → 0 ≤ N →
  ∃ data', Benchmarks.update_at N k data = Some data' ∧ length data' = length data.
Proof.
  intros. unfold Benchmarks.update_at.
  assert (Hload : ∀ x, 0 ≤ x < Z.of_nat (length data) → is_Some (Benchmarks.load data x)).
  { intros x Hx. unfold Benchmarks.load. rewrite decide_True by lia.
    apply lookup_lt_is_Some. lia. }
  destruct (Hload k ltac:(lia)) as [? ->]. destruct (Hload (k - N) ltac:(lia)) as [? ->].
  destruct (Hload (k + N) ltac:(lia)) as [? ->]. destruct (Hload (k - 1) ltac:(lia)) as [? ->].
  destruct (Hload (k + 1) ltac:(lia)) as [? ->].
  unfold Benchmarks.store. rewrite decide_True by lia.
  eexists. split; [done|]. by rewrite length_insert.
Qed.

Lemma gauss_seidel_cell_update_at N a i j data :
  1 ≤ N → 1 ≤ i → 1 ≤ j → (i + 1) * N + j + 1 < 2 ^ 31 →
  Benchmarks.gauss_seidel_cell N a i j data
  = Benchmarks.update_at N (a + (i * N + j)) data.
Proof.
  intros HN Hi Hj Hmax. unfold Benchmarks.gauss_seidel_cell, Benchmarks.update_at.
  assert (0 ≤ i * N) by nia. assert (0 ≤ (i - 1) * N) by nia.
  assert ((i - 1) * N ≤ i * N) by nia. assert (i * N ≤ (i + 1) * N) by nia.
  assert (i + 1 ≤ (i + 1) * N) by nia.
  cbv zeta.
  rewrite (wrap32_id (i - 1)), (wrap32_id (i + 1)) by lia.
  rewrite (wrap32_id (i * N)), (wrap32_id ((i - 1) * N)), (wrap32_id ((i + 1) * N)) by lia.
  rewrite (wrap32_id (i * N + j)), (wrap32_id ((i - 1) * N + j)),
    (wrap32_id ((i + 1) * N + j)) by lia.
  rewrite (wrap32_id (i * N + j - 1)), (wrap32_id (i * N + j + 1)) by lia.
  replace (a + ((i - 1) * N + j)) with (a + (i * N + j) - N) by lia.
  replace (a + ((i + 1) * N + j)) with (a + (i * N + j) + N) by lia.
  replace (a + (i * N + j - 1)) with (a + (i * N + j) - 1) by lia.
  replace (a + (i * N + j + 1)) with (a + (i * N + j) + 1) by lia.
  done.
Qed.

(** *** The loops as sequences of assignments *)

Section GaussSeidelOrders.

Variables N block_size n : Z.
Hypothesis Hblock : 1 ≤ block_size.
Hypothesis Hn : 1 ≤ n.
Hypothesis HN : N - 2 = n * block_size.
Hypothesis Hsize : N * N < 2 ^ 31.

Abbreviation upd :=
  (λ t : Benchmarks.block_cell,
     Benchmarks.update_at N (Benchmarks.index_of_block_cell N block_size t)).

Lemma gauss_seidel_sizes :
  3 ≤ N ∧ block_size ≤ N - 2 ∧ n ≤ N - 2 ∧ N < 2 ^ 16.
Proof using Hblock Hn HN Hsize. split_and!; nia. Qed.

Lemma gauss_seidel_block_steps fuel bi bj data :
  0 ≤ bi < n → 0 ≤ bj < n → (Z.to_nat N < fuel)%nat →
  Benchmarks.gauss_seidel_block fuel N (N * (bi * block_size) + bj * block_size)
    block_size data
  = Benchmarks.run_steps upd (Benchmarks.block_cells block_size (bi, bj)) data.
Proof using Hblock Hn HN Hsize.
  intros Hbi Hbj Hfuel. destruct gauss_seidel_sizes as (? & ? & ? & ?).
  assert (Hloop : ∀ hi, 0 ≤ hi → hi < 2 ^ 31 - 1 →
            Benchmarks.loop_indices (λ i, Some (bool_decide (i ≤ hi)))
              (λ i, Direct.wrap32 (i + 1)) 1 (seqZ 1 hi)).
  { intros hi ? ?. apply loop_indices_seqZ; [done| |].
    - intros i Hi. rewrite bool_decide_eq_true_2 by lia. by rewrite wrap32_id by lia.
    - by rewrite bool_decide_eq_false_2 by lia. }
  unfold Benchmarks.gauss_seidel_block.
  rewrite (for_loop_run_steps _ _ _ (seqZ 1 block_size)); [|apply Hloop; lia|].
  2:{ rewrite length_seqZ. lia. }
  unfold Benchmarks.block_cells. rewrite <- run_steps_bind.
  apply run_steps_ext. intros r s Hr. apply elem_of_seqZ in Hr.
  rewrite (for_loop_run_steps _ _ _ (seqZ 1 block_size)); [|apply Hloop; lia|].
  2:{ rewrite length_seqZ. lia. }
  rewrite <- run_steps_fmap. apply run_steps_ext. intros q s' Hq.
  apply elem_of_seqZ in Hq. rewrite gauss_seidel_cell_update_at by nia.
  done.
Qed.

Lemma strided_loop_indices :
  Benchmarks.loop_indices (λ i, Some (bool_decide (i < Direct.wrap32 (N - 2))))
    (λ i, Direct.wrap32 (i + block_size)) 0 ((λ b, b * block_size) <$> seqZ 0 n).
Proof using Hblock Hn HN Hsize.
  destruct gauss_seidel_sizes as (? & ? & ? & ?).
  rewrite (wrap32_id (N - 2)) by lia.
  pose proof (loop_indices_fmap_seqZ (λ i, Some (bool_decide (i < N - 2)))
                (λ i, Direct.wrap32 (i + block_size)) (λ b, b * block_size)
                (Z.to_nat n) 0) as Hgen.
  rewrite Z2Nat.id in Hgen by lia. cbn beta in Hgen. rewrite Z.mul_0_l in Hgen.
  apply Hgen.
  - intros b Hb. rewrite bool_decide_eq_true_2 by nia.
    rewrite wrap32_id by nia. split; [done|]. lia.
  - rewrite bool_decide_eq_false_2; [done|]. lia.
Qed.

(** One turn of the outer loop of [gauss_seidel_sequential]. *)
Lemma gauss_seidel_sequential_turn fuel data :
  (Z.to_nat N < fuel)%nat →
  Benchmarks.for_loop fuel (λ i, Some (bool_decide (i < Direct.wrap32 (N - 2))))
    (λ i, Direct.wrap32 (i + block_size))
    (λ i,
       Benchmarks.for_loop fuel (λ j, Some (bool_decide (j < Direct.wrap32 (N - 2))))
         (λ j, Direct.wrap32 (j + block_size))
         (λ j, Benchmarks.gauss_seidel_block fuel N
                 (Direct.wrap32 (Direct.wrap32 (N * i) + j)) block_size)
         0)
    0 data
  = Benchmarks.run_steps upd
      (Benchmarks.blocks_by_row n ≫= Benchmarks.block_cells block_size) data.
Proof using Hblock Hn HN Hsize.
  intros Hfuel. destruct gauss_seidel_sizes as (? & ? & ? & ?).
  rewrite (for_loop_run_steps _ _ _ _ _ _ _ strided_loop_indices).
  2:{ rewrite length_fmap, length_seqZ. lia. }
  rewrite <- run_steps_bind. unfold Benchmarks.blocks_by_row.
  rewrite <- run_steps_fmap, <- run_steps_bind.
  apply run_steps_ext. intros bi s Hbi. apply elem_of_seqZ in Hbi.
  rewrite (for_loop_run_steps _ _ _ _ _ _ _ strided_loop_indices).
  2:{ rewrite length_fmap, length_seqZ. lia. }
  rewrite <- !run_steps_fmap.
  apply run_steps_ext. intros bj s' Hbj. apply elem_of_seqZ in Hbj.
  rewrite (wrap32_id (N * (bi * block_size))) by nia.
  rewrite wrap32_id by nia.
  by apply gauss_seidel_block_steps.
Qed.

(** One turn of the outer loop of [gauss_seidel_by_diagonal]. *)
Lemma gauss_seidel_by_diagonal_turn fuel data :
  (2 * Z.to_nat N < fuel)%nat →
  Benchmarks.for_loop fuel
    (λ l, match Benchmarks.nb_levels n with
          | Some levels => Some (bool_decide (l ≤ levels))
          | None => None
          end)
    (λ l, Direct.wrap32 (l + 1))
    (λ l,
       Benchmarks.for_loop fuel
         (λ c, match Benchmarks.nb_cells_in_level n l with
               | Some cells => Some (bool_decide (c < cells))
               | None => None
               end)
         (λ c, Direct.wrap32 (c + 1))
         (λ c data,
            match Benchmarks.index_of_cell_at_pos n l c with
            | None => None
            | Some idx =>
                let i := Direct.wrap32 (idx.1 * block_size) in
                let j := Direct.wrap32 (idx.2 * block_size) in
                Benchmarks.gauss_seidel_block fuel N
                  (Direct.wrap32 (Direct.wrap32 (N * i) + j)) block_size data
            end)
         0)
    1 data
  = Benchmarks.run_steps upd
      (Benchmarks.blocks_by_diagonal n ≫= Benchmarks.block_cells block_size) data.
Proof using Hblock Hn HN Hsize.
  intros Hfuel. destruct gauss_seidel_sizes as (? & ? & ? & ?).
  assert (Hn30 : 1 ≤ n < 2 ^ 30) by lia.
  rewrite (for_loop_run_steps _ _ _ (seqZ 1 (2 * n - 1))).
  2:{ apply loop_indices_seqZ; [lia| |].
      - intros l Hl. rewrite nb_levels_spec by done.
        rewrite bool_decide_eq_true_2 by lia. by rewrite wrap32_id by lia.
      - rewrite nb_levels_spec by done. by rewrite bool_decide_eq_false_2 by lia. }
  2:{ rewrite length_seqZ. lia. }
  rewrite <- run_steps_bind. unfold Benchmarks.blocks_by_diagonal.
  rewrite <- run_steps_bind.
  apply run_steps_ext. intros l s Hl. apply elem_of_seqZ in Hl.
  rewrite (for_loop_run_steps _ _ _ (seqZ 0 (if decide (l ≤ n) then l else 2 * n - l))).
  2:{ apply loop_indices_seqZ; [case_decide; lia| |].
      - intros c Hc. rewrite nb_cells_in_level_spec by lia.
        rewrite bool_decide_eq_true_2 by lia.
        rewrite wrap32_id; [done|]. case_decide; lia.
      - rewrite nb_cells_in_level_spec by lia.
        by rewrite bool_decide_eq_false_2 by lia. }
  2:{ rewrite length_seqZ. case_decide; lia. }
  rewrite <- run_steps_fmap.
  apply run_steps_ext. intros c s' Hc. apply elem_of_seqZ in Hc.
  rewrite index_of_cell_at_pos_spec by lia. cbv zeta.
  destruct (decide (l ≤ n)); cbn [fst snd].
  - rewrite (wrap32_id (c * block_size)), (wrap32_id ((l - (c + 1)) * block_size)) by nia.
    rewrite (wrap32_id (N * (c * block_size))) by nia.
    rewrite wrap32_id by nia.
    apply gauss_seidel_block_steps; lia.
  - rewrite (wrap32_id ((l - n + c) * block_size)),
      (wrap32_id ((n - (c + 1)) * block_size)) by nia.
    rewrite (wrap32_id (N * ((l - n + c) * block_size))) by nia.
    rewrite wrap32_id by nia.
    apply gauss_seidel_block_steps; lia.
Qed.

End GaussSeidelOrders.

(** *** The two orders of the cells *)

Lemma StronglySorted_seqZ m cnt : StronglySorted Z.lt (seqZ m cnt).
Proof.
  destruct (decide (0 ≤ cnt)) as [Hcnt|]; [|rewrite seqZ_nil by lia; constructor].
  rewrite <- (Z2Nat.id cnt) by done. clear Hcnt.
  generalize (Z.to_nat cnt) as k. intros k. revert m.
  induction k as [|k IH]; intros m; [constructor|].
  rewrite seqZ_cons by lia. constructor.
  - replace (Z.pred (Z.of_nat (S k))) with (Z.of_nat k) by lia. apply IH.
  - apply Forall_forall. intros x Hx. apply elem_of_seqZ in Hx. lia.
Qed.

Lemma StronglySorted_bind {A B} (R0 : relation A) (R : relation B) (f : A → list B) l :
  StronglySorted R0 l →
  (∀ a, a ∈ l → StronglySorted R (f a)) →
  (∀ a a' x x', a ∈ l → a' ∈ l → R0 a a' → x ∈ f a → x' ∈ f a' → R x x') →
  StronglySorted R (l ≫= f).
Proof.
  induction 1 as [|a l Hl IH Ha]; intros Hf Hcross; [constructor|].
  cbn. apply StronglySorted_app_2.
  - intros x x' Hx Hx'. apply list_elem_of_bind in Hx' as (a' & Hx' & Ha').
    rewrite Forall_forall in Ha.
    apply (Hcross a a'); [left|by right|by apply Ha|done|done].
  - apply Hf. left.
  - apply IH.
    + intros a' Ha'. apply Hf. by right.
    + intros a1 a2 x x' H1 H2. apply Hcross; by right.
Qed.

Lemma StronglySorted_fmap_seqZ {B} (R : relation B) (g : Z → B) m cnt :
  (∀ i j, m ≤ i → i < j → j < m + cnt → R (g i) (g j)) →
  StronglySorted R (g <$> seqZ m cnt).
Proof.
  intros Hg.
  assert (Hs : StronglySorted (λ i j, (m ≤ i ∧ i < j ∧ j < m + cnt)) (seqZ m cnt)).
  { pose proof (StronglySorted_seqZ m cnt) as Hlt.
    assert (Hall : Forall (λ i, m ≤ i < m + cnt) (seqZ m cnt)).
    { apply Forall_forall. intros x Hx. by apply elem_of_seqZ in Hx. }
    induction Hlt as [|x l Hl IH Hx]; [constructor|].
    apply Forall_cons in Hall as [Hxr Hall]. constructor; [by apply IH|].
    rewrite Forall_forall in Hx, Hall |- *. intros y Hy.
    specialize (Hx y Hy). specialize (Hall y Hy). lia. }
  induction Hs as [|x l Hl IH Hx]; [constructor|].
  rewrite fmap_cons. constructor; [done|].
  apply Forall_fmap. eapply Forall_impl; [exact Hx|].
  intros y (? & ? & ?). by apply Hg.
Qed.

Lemma before_by_row_irreflexive t : ¬ Benchmarks.before_by_row t t.
Proof. destruct t as [[[bi bj] r] q]. intros H. unfold Benchmarks.before_by_row in H. lia. Qed.

Lemma before_by_diagonal_irreflexive t : ¬ Benchmarks.before_by_diagonal t t.
Proof. destruct t as [[[bi bj] r] q]. intros H. unfold Benchmarks.before_by_diagonal in H. lia. Qed.

Lemma elem_of_block_cells block_size b t :
  t ∈ Benchmarks.block_cells block_size b
  ↔ ∃ r q, t = (b.1, b.2, r, q) ∧ 1 ≤ r ≤ block_size ∧ 1 ≤ q ≤ block_size.
Proof.
  unfold Benchmarks.block_cells. rewrite list_elem_of_bind. split.
  - intros (r & Hq & Hr). apply list_elem_of_fmap in Hq as (q & -> & Hq).
    apply elem_of_seqZ in Hr, Hq. exists r, q. split; [done|lia].
  - intros (r & q & -> & Hr & Hq). exists r. split.
    + apply list_elem_of_fmap. exists q. split; [done|]. apply elem_of_seqZ. lia.
    + apply elem_of_seqZ. lia.
Qed.

Lemma elem_of_blocks_by_row n b :
  b ∈ Benchmarks.blocks_by_row n ↔ 0 ≤ b.1 < n ∧ 0 ≤ b.2 < n.
Proof.
  unfold Benchmarks.blocks_by_row. rewrite list_elem_of_bind. split.
  - intros (bi & Hb & Hbi). apply list_elem_of_fmap in Hb as (bj & -> & Hbj).
    apply elem_of_seqZ in Hbi, Hbj. cbn. lia.
  - intros [Hi Hj]. destruct b as [bi bj]. cbn in Hi, Hj. exists bi. split.
    + apply list_elem_of_fmap. exists bj. split; [done|]. apply elem_of_seqZ. lia.
    + apply elem_of_seqZ. lia.
Qed.

Lemma elem_of_blocks_by_diagonal n b :
  b ∈ Benchmarks.blocks_by_diagonal n ↔ 0 ≤ b.1 < n ∧ 0 ≤ b.2 < n.
Proof.
  unfold Benchmarks.blocks_by_diagonal. rewrite list_elem_of_bind. split.
  - intros (l & Hb & Hl). apply list_elem_of_fmap in Hb as (c & -> & Hc).
    apply elem_of_seqZ in Hl, Hc. destruct (decide (l ≤ n)); cbn; lia.
  - intros [Hi Hj]. destruct b as [bi bj]. cbn in Hi, Hj.
    exists (bi + bj + 1). split; [|apply elem_of_seqZ; lia].
    apply list_elem_of_fmap.
    exists (if decide (bi + bj + 1 ≤ n) then bi else n - 1 - bj).
    split; [|apply elem_of_seqZ]; destruct (decide (bi + bj + 1 ≤ n)); [f_equal; lia|f_equal; lia|lia|lia].
Qed.

Lemma block_cells_sorted (R : relation Benchmarks.block_cell) block_size b :
  (∀ r q r' q', r < r' ∨ (r = r' ∧ q < q') → R (b.1, b.2, r, q) (b.1, b.2, r', q')) →
  StronglySorted R (Benchmarks.block_cells block_size b).
Proof.
  intros HR. unfold Benchmarks.block_cells.
  apply (StronglySorted_bind Z.lt); [apply StronglySorted_seqZ| |].
  - intros r _. apply StronglySorted_fmap_seqZ. intros q q' ? ? ?. apply HR. lia.
  - intros r r' x x' _ _ Hr Hx Hx'.
    apply list_elem_of_fmap in Hx as (q & -> & _).
    apply list_elem_of_fmap in Hx' as (q' & -> & _). apply HR. lia.
Qed.

Lemma cells_by_row_sorted n block_size :
  StronglySorted Benchmarks.before_by_row
    (Benchmarks.blocks_by_row n ≫= Benchmarks.block_cells block_size).
Proof.
  apply (StronglySorted_bind (λ b b', b.1 < b'.1 ∨ (b.1 = b'.1 ∧ b.2 < b'.2))).
  - unfold Benchmarks.blocks_by_row.
    apply (StronglySorted_bind Z.lt); [apply StronglySorted_seqZ| |].
    + intros bi _. apply StronglySorted_fmap_seqZ. intros bj bj' ? ? ?. cbn. lia.
    + intros bi bi' x x' _ _ Hbi Hx Hx'.
      apply list_elem_of_fmap in Hx as (bj & -> & _).
      apply list_elem_of_fmap in Hx' as (bj' & -> & _). cbn. lia.
  - intros b _. apply block_cells_sorted. intros r q r' q' Hlt.
    unfold Benchmarks.before_by_row. lia.
  - intros b b' x x' _ _ Hb Hx Hx'.
    apply elem_of_block_cells in Hx as (r & q & -> & _).
    apply elem_of_block_cells in Hx' as (r' & q' & -> & _).
    unfold Benchmarks.before_by_row. lia.
Qed.

Lemma cells_by_diagonal_sorted n block_size :
  StronglySorted Benchmarks.before_by_diagonal
    (Benchmarks.blocks_by_diagonal n ≫= Benchmarks.block_cells block_size).
Proof.
  apply (StronglySorted_bind
           (λ b b', b.1 + b.2 < b'.1 + b'.2 ∨ (b.1 + b.2 = b'.1 + b'.2 ∧ b.1 < b'.1))).
  - unfold Benchmarks.blocks_by_diagonal.
    apply (StronglySorted_bind Z.lt); [apply StronglySorted_seqZ| |].
    + intros l _. apply StronglySorted_fmap_seqZ. intros c c' ? ? ?.
      destruct (decide (l ≤ n)); cbn; lia.
    + intros l l' x x' _ _ Hl Hx Hx'.
      apply list_elem_of_fmap in Hx as (c & -> & _).
      apply list_elem_of_fmap in Hx' as (c' & -> & _).
      destruct (decide (l ≤ n)), (decide (l' ≤ n)); cbn; lia.
  - intros b _. apply block_cells_sorted. intros r q r' q' Hlt.
    unfold Benchmarks.before_by_diagonal. lia.
  - intros b b' x x' _ _ Hb Hx Hx'.
    apply elem_of_block_cells in Hx as (r & q & -> & _).
    apply elem_of_block_cells in Hx' as (r' & q' & -> & _).
    unfold Benchmarks.before_by_diagonal. lia.
Qed.

Lemma elem_of_cells n block_size (blocks : list (Z * Z)) t :
  (∀ b, b ∈ blocks ↔ 0 ≤ b.1 < n ∧ 0 ≤ b.2 < n) →
  t ∈ blocks ≫= Benchmarks.block_cells block_size
  ↔ 0 ≤ t.1.1.1 < n ∧ 0 ≤ t.1.1.2 < n
    ∧ 1 ≤ t.1.2 ≤ block_size ∧ 1 ≤ t.2 ≤ block_size.
Proof.
  intros Hblocks. rewrite list_elem_of_bind. split.
  - intros (b & Ht & Hb). apply Hblocks in Hb.
    apply elem_of_block_cells in Ht as (r & q & -> & ? & ?). cbn. lia.
  - destruct t as [[[bi bj] r] q]. cbn. intros (? & ? & ? & ?).
    exists (bi, bj). split.
    + apply elem_of_block_cells. by exists r, q.
    + apply Hblocks. cbn. lia.
Qed.

(** Two blocks' coordinates at the same place, or at places next to
    each other. *)
Lemma block_coord_eq block_size b r b' r' :
  1 ≤ r ≤ block_size → 1 ≤ r' ≤ block_size →
  b * block_size + r = b' * block_size + r' → b = b' ∧ r = r'.
Proof. intros. assert (b = b') by nia. subst. lia. Qed.

Lemma block_coord_succ block_size b r b' r' :
  1 ≤ r ≤ block_size → 1 ≤ r' ≤ block_size →
  b' * block_size + r' = b * block_size + r + 1 →
  (b' = b ∧ r' = r + 1) ∨ (b' = b + 1 ∧ r' = 1 ∧ r = block_size).
Proof.
  intros. assert (b' = b ∨ b' = b + 1) as [->| ->] by nia; [left; lia|right; nia].
Qed.

(** Two cells that the two orders take in different orders are not next
    to each other in the array. *)
Lemma disagreement_not_adjacent N block_size n (x y : Benchmarks.block_cell) :
  1 ≤ block_size → 1 ≤ n → N - 2 = n * block_size →
  0 ≤ x.1.1.1 < n ∧ 0 ≤ x.1.1.2 < n ∧ 1 ≤ x.1.2 ≤ block_size ∧ 1 ≤ x.2 ≤ block_size →
  0 ≤ y.1.1.1 < n ∧ 0 ≤ y.1.1.2 < n ∧ 1 ≤ y.1.2 ≤ block_size ∧ 1 ≤ y.2 ≤ block_size →
  Benchmarks.before_by_row x y → Benchmarks.before_by_diagonal y x →
  let d := Benchmarks.index_of_block_cell N block_size y
           - Benchmarks.index_of_block_cell N block_size x in
  d ≠ 1 ∧ d ≠ -1 ∧ d ≠ N ∧ d ≠ - N.
Proof.
  destruct x as [[[bi bj] r] q], y as [[[bi' bj'] r'] q'].
  intros Hb Hn HN Hx Hy Hrow Hdiag d. cbn [fst snd] in Hx, Hy.
  destruct Hx as (? & ? & ? & ?), Hy as (? & ? & ? & ?).
  unfold Benchmarks.before_by_row in Hrow. unfold Benchmarks.before_by_diagonal in Hdiag.
  unfold Benchmarks.index_of_block_cell in d.
  set (R := bi * block_size + r). set (Q := bj * block_size + q).
  set (R' := bi' * block_size + r'). set (Q' := bj' * block_size + q').
  assert (HR : 1 ≤ R ≤ N - 2) by (unfold R; nia).
  assert (HQ : 1 ≤ Q ≤ N - 2) by (unfold Q; nia).
  assert (HR' : 1 ≤ R' ≤ N - 2) by (unfold R'; nia).
  assert (HQ' : 1 ≤ Q' ≤ N - 2) by (unfold Q'; nia).
  assert (Hd : d = N * (R' - R) + (Q' - Q)) by (unfold d, R, Q, R', Q'; lia).
  clearbody d. subst d.
  split_and!; intros Hadj.
  - assert (R' = R) by nia. assert (Q' = Q + 1) by nia.
    destruct (block_coord_eq block_size bi r bi' r') as [-> ->]; [lia|lia|unfold R, R' in *; lia|].
    destruct (block_coord_succ block_size bj q bj' q') as [[-> ->]|(-> & -> & ->)];
      [lia|lia|unfold Q, Q' in *; lia| |]; lia.
  - assert (R' = R) by nia. assert (Q = Q' + 1) by nia.
    destruct (block_coord_eq block_size bi r bi' r') as [-> ->]; [lia|lia|unfold R, R' in *; lia|].
    destruct (block_coord_succ block_size bj' q' bj q) as [[-> ->]|(-> & -> & ->)];
      [lia|lia|unfold Q, Q' in *; lia| |]; lia.
  - assert (R' = R + 1) by nia. assert (Q' = Q) by nia.
    destruct (block_coord_eq block_size bj q bj' q') as [-> ->]; [lia|lia|unfold Q, Q' in *; lia|].
    destruct (block_coord_succ block_size bi r bi' r') as [[-> ->]|(-> & -> & ->)];
      [lia|lia|unfold R, R' in *; lia| |]; lia.
  - assert (R = R' + 1) by nia. assert (Q' = Q) by nia.
    destruct (block_coord_eq block_size bj q bj' q') as [-> ->]; [lia|lia|unfold Q, Q' in *; lia|].
    destruct (block_coord_succ block_size bi' r' bi r) as [[-> ->]|(-> & -> & ->)];
      [lia|lia|unfold R, R' in *; lia| |]; lia.
Qed.

(** *** The two traversals *)

Section GaussSeidelTraversals.

Variables N block_size n : Z.
Hypothesis Hblock : 1 ≤ block_size.
Hypothesis Hn : 1 ≤ n.
Hypothesis HN : N - 2 = n * block_size.
Hypothesis Hsize : N * N < 2 ^ 31.

Abbreviation upd :=
  (λ t : Benchmarks.block_cell,
     Benchmarks.update_at N (Benchmarks.index_of_block_cell N block_size t)).

Abbreviation valid t :=
  (0 ≤ t.1.1.1 < n ∧ 0 ≤ t.1.1.2 < n ∧ 1 ≤ t.1.2 ≤ block_size ∧ 1 ≤ t.2 ≤ block_size).

Lemma run_cells_returns (cells : list Benchmarks.block_cell) :
  (∀ t, t ∈ cells → valid t) →
  ∀ data, Z.of_nat (length data) = N * N →
    ∃ data', Benchmarks.run_steps upd cells data = Some data'
             ∧ length data' = length data.
Proof using Hblock Hn HN Hsize.
  induction cells as [|t cells IH]; intros Hvalid data Hlen; [by exists data|].
  destruct (Hvalid t ltac:(left)) as (? & ? & ? & ?).
  destruct t as [[[bi bj] r] q]. cbn [fst snd] in *.
  assert (Hidx : ∃ R Q, Benchmarks.index_of_block_cell N block_size (bi, bj, r, q)
                        = N * R + Q ∧ 1 ≤ R ≤ N - 2 ∧ 1 ≤ Q ≤ N - 2).
  { exists (bi * block_size + r), (bj * block_size + q).
    unfold Benchmarks.index_of_block_cell. split_and!; nia. }
  destruct Hidx as (R & Q & Hidx & HR & HQ).
  assert (N * 1 ≤ N * R ∧ N * R ≤ N * (N - 2)) as [? ?] by (split; nia).
  destruct (update_at_in_bounds N (Benchmarks.index_of_block_cell N block_size (bi, bj, r, q))
              data) as (data1 & Hrun & Hlen1); [lia..|].
  destruct (IH (λ t Ht, Hvalid t ltac:(by right)) data1 ltac:(lia))
    as (data' & Hrun' & Hlen').
  exists data'. cbn [Benchmarks.run_steps]. rewrite Hrun.
  split; [done|lia].
Qed.

Lemma cells_by_diagonal_eq_by_row data :
  Benchmarks.run_steps upd
    (Benchmarks.blocks_by_row n ≫= Benchmarks.block_cells block_size) data
  = Benchmarks.run_steps upd
      (Benchmarks.blocks_by_diagonal n ≫= Benchmarks.block_cells block_size) data.
Proof using Hblock Hn HN.
  apply (run_steps_reorder _ Benchmarks.before_by_row Benchmarks.before_by_diagonal).
  - apply before_by_row_irreflexive.
  - apply before_by_diagonal_irreflexive.
  - apply cells_by_row_sorted.
  - apply cells_by_diagonal_sorted.
  - intros t.
    rewrite (elem_of_cells n block_size _ t (elem_of_blocks_by_row n)).
    by rewrite (elem_of_cells n block_size _ t (elem_of_blocks_by_diagonal n)).
  - intros x y s Hx Hy Hrow Hdiag.
    apply (elem_of_cells n block_size _ x (elem_of_blocks_by_row n)) in Hx.
    apply (elem_of_cells n block_size _ y (elem_of_blocks_by_row n)) in Hy.
    destruct (disagreement_not_adjacent N block_size n x y Hblock Hn HN Hx Hy Hrow Hdiag)
      as (? & ? & ? & ?).
    by apply update_at_comm.
Qed.

Lemma run_turns_returns (turn : list Benchmarks.double → option (list Benchmarks.double))
    (turns : list Z) :
  (∀ data, Z.of_nat (length data) = N * N →
     ∃ data', turn data = Some data' ∧ length data' = length data) →
  ∀ data, Z.of_nat (length data) = N * N →
    ∃ data', Benchmarks.run_steps (λ _, turn) turns data = Some data'
             ∧ length data' = length data.
Proof.
  intros Hturn. induction turns as [|i turns IH]; intros data Hlen; [by exists data|].
  destruct (Hturn data Hlen) as (data1 & Hrun & Hlen1).
  destruct (IH data1 ltac:(lia)) as (data' & Hrun' & Hlen').
  exists data'. cbn [Benchmarks.run_steps]. rewrite Hrun. split; [done|lia].
Qed.

End GaussSeidelTraversals.

(** X16.  [gauss_seidel_by_diagonal] and [gauss_seidel_sequential] on an
    [N] by [N] array, for a block size that divides [N - 2], with
    [N >= 3] and [N * N] an [int]: both return, and they return the same
    array, item by item the same [double], whatever the number of
    iterations: the blocks taken diagonal by diagonal are the blocks
    taken row by row, and two assignments that the two orders take in
    different orders touch no common item. *)
Theorem gauss_seidel_by_diagonal_same_as_sequential (fuel : nat)
    (numiters N block_size : Z) (data : list Benchmarks.double) :
  1 ≤ block_size → 3 ≤ N → (N - 2) `rem` block_size = 0 → N * N < 2 ^ 31 →
  0 ≤ numiters < 2 ^ 31 →
  Z.of_nat (length data) = N * N →
  (Z.to_nat numiters < fuel)%nat → (2 * Z.to_nat N < fuel)%nat →
  ∃ result,
    Benchmarks.gauss_seidel_sequential fuel numiters N block_size data = Some result
    ∧ Benchmarks.gauss_seidel_by_diagonal fuel numiters N block_size data = Some result
    ∧ length result = length data.
Proof.
  intros Hblock HN3 Hrem Hsize Hiters Hlen Hfuel1 Hfuel2.
  set (n := (N - 2) `quot` block_size).
  assert (Hquot : N - 2 = n * block_size).
  { pose proof (Z.quot_rem' (N - 2) block_size). unfold n. lia. }
  assert (Hn : 1 ≤ n) by nia.
  assert (HN16 : N < 2 ^ 16) by nia.
  assert (Hloop : Benchmarks.loop_indices (λ iter, Some (bool_decide (iter < numiters)))
                    (λ iter, Direct.wrap32 (iter + 1)) 0 (seqZ 0 numiters)).
  { apply loop_indices_seqZ; [lia| |].
    - intros i Hi. rewrite bool_decide_eq_true_2 by lia. by rewrite wrap32_id by lia.
    - by rewrite bool_decide_eq_false_2 by lia. }
  assert (Hseq : ∀ d, Z.of_nat (length d) = N * N →
            ∃ d', Benchmarks.run_steps
                    (λ t, Benchmarks.update_at N (Benchmarks.index_of_block_cell N block_size t))
                    (Benchmarks.blocks_by_row n ≫= Benchmarks.block_cells block_size) d
                  = Some d' ∧ length d' = length d).
  { intros d Hd. apply (run_cells_returns N block_size n); try done.
    intros t Ht. by apply (elem_of_cells n block_size _ t (elem_of_blocks_by_row n)). }
  destruct (run_turns_returns N _ (seqZ 0 numiters) Hseq data Hlen)
    as (result & Hrun & Hlen').
  exists result. split_and!; [| |done].
  - unfold Benchmarks.gauss_seidel_sequential.
    rewrite (for_loop_run_steps _ _ _ _ _ _ _ Hloop) by (rewrite length_seqZ; lia).
    rewrite <- Hrun. apply run_steps_ext. intros _ d _.
    apply (gauss_seidel_sequential_turn N block_size n); try done. lia.
  - unfold Benchmarks.gauss_seidel_by_diagonal.
    rewrite decide_False by lia.
    rewrite (wrap32_id (N - 2)) by lia. rewrite decide_True by done.
    cbv zeta. fold n. rewrite (wrap32_id n) by lia.
    rewrite (for_loop_run_steps _ _ _ _ _ _ _ Hloop) by (rewrite length_seqZ; lia).
    rewrite <- Hrun. apply run_steps_ext. intros _ d _.
    rewrite (gauss_seidel_by_diagonal_turn N block_size n) by (try done; lia).
    symmetry. by apply (cells_by_diagonal_eq_by_row N block_size n).
Qed.

Section GaussSeidelExamples.

Import PrimFloat.

(** A 4 by 4 array with one hot item, blocks of one cell, two
    iterations. *)
Lemma gauss_seidel_by_diagonal_same_as_sequential_witness :
  let data : list Benchmarks.double :=
    [0; 0; 0; 0;  0; 500; 0; 0;  0; 0; 0; 0;  0; 0; 0; 0]%float in
  ∃ result,
    Benchmarks.gauss_seidel_sequential 9 2 4 1 data = Some result
    ∧ Benchmarks.gauss_seidel_by_diagonal 9 2 4 1 data = Some result
    ∧ length result = length data.
Proof.
  intros data.
  apply (gauss_seidel_by_diagonal_same_as_sequential 9 2 4 1 data);
    [lia|lia|reflexivity|lia|lia|reflexivity|simpl; lia|simpl; lia].
Defined.

(** The same array after one iteration, by either traversal. *)
Example gauss_seidel_one_iteration :
  let data : list Benchmarks.double :=
    [0; 0; 0; 0;  0; 500; 0; 0;  0; 0; 0; 0;  0; 0; 0; 0]%float in
  Benchmarks.gauss_seidel_sequential 9 1 4 1 data
  = Some [0; 0; 0; 0;  0; 100; 20; 0;  0; 20; 8; 0;  0; 0; 0; 0]%float
  ∧ Benchmarks.gauss_seidel_by_diagonal 9 1 4 1 data
    = Some [0; 0; 0; 0;  0; 100; 20; 0;  0; 20; 8; 0;  0; 0; 0; 0]%float.
Proof. vm_compute. done. Qed.

(** On a 2 by 2 array there is no cell to update: the sequential
    traversal leaves the array as it is, the traversal by diagonal fails
    the assertion of [nb_levels]. *)
Example gauss_seidel_no_interior :
  Benchmarks.gauss_seidel_sequential 5 1 2 1 [1; 2; 3; 4]%float = Some [1; 2; 3; 4]%float
  ∧ Benchmarks.gauss_seidel_by_diagonal 5 1 2 1 [1; 2; 3; 4]%float = None.
Proof. vm_compute. done. Qed.

End GaussSeidelExamples.
